(** * learn-linalg: eigenvalue routines and norm utilities over exact reals

    A shallow embedding of [linalg/eigen/single.py], [linalg/eigen/multi.py]
    and [qrdecomp/utils.py], with the solver of
    [linalg/optim/gradient_descent.py] and the click handlers of
    [imagealign/main.py].  numpy arrays of floats are read as lists of
    real numbers (exact arithmetic); a Python exception is a [Raise]; a
    division by zero, which numpy answers with [inf] or [nan] and a warning,
    is the pseudo-exception [NotFinite].

    What lies outside this reading is outside the statements.  The
    rounding, the overflow and the underflow of binary64 are not modelled:
    a statement about a value holds of the real number that the code
    computes when its arithmetic is exact.  Arrays of another dtype are not
    modelled: on an array of integers [np.array(A)] and [np.zeros_like(A)]
    keep the integer dtype, and the slice assignments of [hessenberg] and
    [qr_algorithm] truncate what they store.

    A matrix is a list of rows of one length.  What numpy does with arrays
    whose shapes do not fit (broadcasting, [ValueError]) is modelled only
    where a routine can meet it; the statements say [shape A m n] of their
    inputs.  The modules [linalg.utils], [linalg.ludecomp], [linalg.solver],
    [linalg.qrdecomp] and [sum] are not among the sources: what the routines
    use of them is a parameter, or is modelled from the spec where marked. *)

From Stdlib Require Import String DecimalString.
From Stdlib Require Import Reals Lra Lia ZArith Bool Arith Psatz List Permutation Sorted.
From Stdlib Require Import RNsatz.
Import ListNotations.
Open Scope R_scope.

(** ** Results of Python calls *)

Inductive exn : Type :=
| AssertionError (msg : string)
| IndexError
| ValueError
| TypeError
| NotFinite.

Inductive result (A : Type) : Type :=
| Ok (a : A)
| Raise (e : exn).
Arguments Ok {A} a.
Arguments Raise {A} e.

Definition bind {A B : Type} (m : result A) (k : A -> result B) : result B :=
  match m with
  | Ok a => k a
  | Raise e => Raise e
  end.

Notation "x <- m ;; k" := (bind m (fun x => k))
  (at level 61, m at next level, right associativity).
Notation "m ;;; k" := (bind m (fun _ => k))
  (at level 61, right associativity).

(** [assert cond, msg] *)
Definition assert (cond : bool) (msg : string) : result unit :=
  if cond then Ok tt else Raise (AssertionError msg).

(** ** numpy arrays *)

Abbreviation vec := (list R).
Abbreviation matrix := (list (list R)).

(** The arrays [norm] may receive: 0-, 1- or 2-dimensional. *)
Inductive ndarray : Type :=
| Nd0 (x : R)
| Nd1 (v : vec)
| Nd2 (rows : matrix).

Definition ndim (a : ndarray) : nat :=
  match a with Nd0 _ => 0 | Nd1 _ => 1 | Nd2 _ => 2 end.

(** [a.flatten()]: always a fresh one-dimensional array, row-major. *)
Definition flatten (a : ndarray) : ndarray :=
  match a with
  | Nd0 x => Nd1 [x]
  | Nd1 v => Nd1 v
  | Nd2 rows => Nd1 (concat rows)
  end.

(** The entries of an array in row-major order. *)
Definition entries (a : ndarray) : vec :=
  match a with
  | Nd0 x => [x]
  | Nd1 v => v
  | Nd2 rows => concat rows
  end.

(** [a.shape[0]] of an array of at least one dimension. *)
Definition shape0 (a : ndarray) : nat :=
  match a with
  | Nd0 _ => 0
  | Nd1 v => length v
  | Nd2 rows => length rows
  end.

Definition zeros (n : nat) : vec := repeat 0 n.
Definition zeros2 (m n : nat) : matrix := repeat (zeros n) m.

(** Python's index normalisation on a sequence of length [len]:
    a negative index counts from the end. *)
Definition py_index (len : nat) (k : Z) : result nat :=
  if ((0 <=? k) && (k <? Z.of_nat len))%Z then Ok (Z.to_nat k)
  else if ((k <? 0) && (- Z.of_nat len <=? k))%Z
       then Ok (Z.to_nat (Z.of_nat len + k))
       else Raise IndexError.

Fixpoint set_nth {A : Type} (n : nat) (x : A) (l : list A) : list A :=
  match l, n with
  | [], _ => []
  | _ :: t, O => x :: t
  | h :: t, S n' => h :: set_nth n' x t
  end.

(** Entry [(i, j)] of a matrix, 0 outside. *)
Definition get (A : matrix) (i j : nat) : R := nth j (nth i A []) 0.

(** [shape A m n]: [A] has [m] rows of [n] entries each. *)
Definition shape (A : matrix) (m n : nat) : Prop :=
  length A = m /\ Forall (fun r => length r = n) A.

Definition Rleb (a b : R) : bool := if Rle_dec a b then true else false.
Definition Rltb (a b : R) : bool := if Rlt_dec a b then true else false.

(** [np.isclose(a, b)] with numpy's default tolerances. *)
Definition rtol : R := 1e-5.
Definition atol : R := 1e-8.
Definition isclose (a b : R) : bool := Rleb (Rabs (a - b)) (atol + rtol * Rabs b).

(** [np.dot] of two one-dimensional arrays of the same length. *)
Fixpoint dot (x y : vec) : R :=
  match x, y with
  | a :: x', b :: y' => a * b + dot x' y'
  | _, _ => 0
  end.

(** ** qrdecomp/utils.py

    The eigenvalue routines call [utils.l2_norm] and [utils.is_symmetric]
    of [linalg.utils]; they are read from this file, the copy of the
    utilities that is among the sources. *)

(** [l2_norm(x)]: [np.sqrt(np.dot(x.T, x))], the square root of a real
    number: that binary64 overflows to [inf] on entries near [1e200] and
    underflows to [0.0] on entries near [1e-200] is not modelled. *)
Definition l2_norm (x : vec) : R := sqrt (dot x x).

(** [np.power(x, p)] for a base [x >= 0] and an exponent [p > 0]. *)
Definition np_power (x p : R) : R :=
  if Req_dec_T x 0 then 0 else Rpower x p.

(** Modelled from the spec: the class [KahanSum] of the module [sum], which
    is not among the sources.  Compensated summation: every [add] keeps a
    running compensation term next to the running sum. *)
Record KahanSum : Type := { ksum : R; kcomp : R }.

Definition KahanSum_new : KahanSum := {| ksum := 0; kcomp := 0 |}.

Definition KahanSum_add (s : KahanSum) (x : R) : KahanSum :=
  let y := x - kcomp s in
  let t := ksum s + y in
  {| ksum := t; kcomp := (t - ksum s) - y |}.

Definition cur_sum (s : KahanSum) : R := ksum s.

(** [norm(x, p)], with real powers and an exact sum: overflow and
    underflow of the powers in binary64 are not modelled. *)
Definition norm (x : ndarray) (p : R) : result R :=
  let v := flatten x in
  assert (ndim v =? 1)%nat "x must be 1D" ;;;
  assert (Rleb 1 p) "p must be >= 1" ;;;
  let N := shape0 v in
  let summer :=
    fold_left (fun s i => KahanSum_add s (np_power (Rabs (nth i (entries v) 0)) p))
              (seq 0 N) KahanSum_new in
  Ok (np_power (cur_sum summer) (1 / p)).

(** [basis_vec(k, n)]: [b = np.zeros([n, 1]); b[k] = 1]. *)
Definition basis_vec (k n : Z) : result matrix :=
  assert (k <? n)%Z
    ("[!] k cannot exceed " ++ NilZero.string_of_int (Z.to_int n) ++ ".") ;;;
  (if (n <? 0)%Z then Raise ValueError else Ok tt) ;;;
  let b := zeros2 (Z.to_nat n) 1 in
  i <- py_index (length b) k ;;
  Ok (set_nth i (map (fun _ => 1) (nth i b [])) b).

(** ** Array arithmetic *)

Fixpoint zip_with {A B C : Type} (f : A -> B -> C) (x : list A) (y : list B) : list C :=
  match x, y with
  | a :: x', b :: y' => f a b :: zip_with f x' y'
  | _, _ => []
  end.

Definition vadd (x y : vec) : vec := zip_with Rplus x y.
Definition vsub (x y : vec) : vec := zip_with Rminus x y.
Definition scal (c : R) (x : vec) : vec := map (Rmult c) x.

Definition nrows (A : matrix) : nat := length A.
Definition ncols (A : matrix) : nat := length (hd [] A).

(** [A[:, j]] *)
Definition col (j : nat) (A : matrix) : vec := map (fun r => nth j r 0) A.

(** [A.T] *)
Definition transpose (A : matrix) : matrix :=
  map (fun j => col j A) (seq 0 (ncols A)).

(** [A @ v], [x @ A] and [A @ B] *)
Definition matvec (A : matrix) (v : vec) : vec := map (fun r => dot r v) A.
Definition vecmat (x : vec) (A : matrix) : vec := map (fun c => dot x c) (transpose A).
Definition mmul (A B : matrix) : matrix := map (fun r => vecmat r B) A.

Definition madd (A B : matrix) : matrix := zip_with vadd A B.
Definition msub (A B : matrix) : matrix := zip_with vsub A B.
Definition mscal (c : R) (A : matrix) : matrix := map (scal c) A.

(** [np.eye(n)] *)
Definition eye (n : nat) : matrix :=
  map (fun i => map (fun j => if (i =? j)%nat then 1 else 0) (seq 0 n)) (seq 0 n).

(** A scalar division: by zero numpy gives [inf] or [nan]. *)
Definition fdiv (a b : R) : result R :=
  if Req_dec_T b 0 then Raise NotFinite else Ok (a / b).

(** [v / c] and [v /= c], entry by entry. *)
Definition vdiv (v : vec) (c : R) : result vec :=
  match v with
  | [] => Ok []
  | _ => if Req_dec_T c 0 then Raise NotFinite else Ok (map (fun a => a / c) v)
  end.

(** [np.allclose(A, B)] for two arrays of one shape.  For arrays of
    different shapes numpy broadcasts or raises [ValueError]; here
    [combine] would compare the entries that overlap, so the statements
    use it on arrays of one shape only. *)
Definition allclose (A B : matrix) : bool :=
  forallb (fun rr => forallb (fun ab => isclose (fst ab) (snd ab))
                             (combine (fst rr) (snd rr)))
          (combine A B).

(** [is_symmetric(A)]: [np.allclose(A, A.T)], for a square array [A]
    ([A] and [A.T] have one shape). *)
Definition is_symmetric (A : matrix) : bool := allclose A (transpose A).

(** [np.all(np.abs(x - y) < 1e-8)] on vectors and on matrices. *)
Definition converged (x y : vec) : bool :=
  forallb (fun d => Rltb (Rabs d) 1e-8) (vsub x y).
Definition converged2 (X Y : matrix) : bool :=
  forallb (fun r => forallb (fun d => Rltb (Rabs d) 1e-8) r) (msub X Y).

(** [A[i:, j]] and the assignment [A[i:, j] = w] *)
Definition col_from (A : matrix) (i j : nat) : vec := col j (skipn i A).
Definition set_col_from (A : matrix) (i j : nat) (w : vec) : matrix :=
  firstn i A ++ zip_with (fun r x => set_nth j x r) (skipn i A) w.

(** [A[j, i:]] and the assignment [A[j, i:] = w] *)
Definition row_from (A : matrix) (j i : nat) : vec := skipn i (nth j A []).
Definition set_row_from (A : matrix) (j i : nat) (w : vec) : matrix :=
  set_nth j (firstn i (nth j A []) ++ w) A.

(** [A[:, i] = w] on an array of [length A] rows: [w] has that length,
    or one entry that is broadcast. *)
Definition set_col (i : nat) (w : vec) (A : matrix) : result matrix :=
  if (length w =? length A)%nat then Ok (zip_with (fun r x => set_nth i x r) A w)
  else match w with
       | [x] => Ok (map (set_nth i x) A)
       | _ => Raise ValueError
       end.

(** [x[idx]] for an index array [idx]. *)
Definition take (idx : list nat) (x : vec) : result vec :=
  if forallb (fun j => j <? length x)%nat idx
  then Ok (map (fun j => nth j x 0) idx)
  else Raise IndexError.

(** [A[:, idx]] on an array of [k] columns. *)
Definition take_cols (k : nat) (idx : list nat) (A : matrix) : result matrix :=
  if forallb (fun j => j <? k)%nat idx
  then Ok (map (fun r => map (fun j => nth j r 0) idx) A)
  else Raise IndexError.

(** [x.argsort()]: the indices that sort [x] in increasing order.  Equal
    keys keep their order here; numpy's default sort leaves it open. *)
Fixpoint insert_by (key : nat -> R) (i : nat) (l : list nat) : list nat :=
  match l with
  | [] => [i]
  | j :: l' => if Rltb (key i) (key j) then i :: l else j :: insert_by key i l'
  end.

Definition argsort (x : vec) : list nat :=
  fold_left (fun acc i => insert_by (fun j => nth j x 0) i acc)
            (seq 0 (length x)) [].

(** ** Loops *)

Fixpoint for_loop {S : Type} (idx : list nat) (body : nat -> S -> result S) (s : S)
  : result S :=
  match idx with
  | [] => Ok s
  | i :: rest => s' <- body i s ;; for_loop rest body s'
  end.

(** [for i in range(n)] *)
Definition for_range {S : Type} (n : nat) (body : nat -> S -> result S) (s : S)
  : result S :=
  for_loop (seq 0 n) body s.

(** ** The random source and the calls to the decompositions *)

(** [np.random.randn] reads the process-wide generator: here a stream of
    samples and a cursor into it. *)
Record rng : Type := { samples : nat -> R; cursor : nat }.

(** What [solve] receives first: a matrix, or the tuple of factors that
    [LU.decompose] returned. *)
Inductive solve_arg : Type :=
| Mat (A : matrix)
| Factors (fs : list matrix).

(** The calls into [linalg.ludecomp], [linalg.solver] and [linalg.qrdecomp],
    which are not among the sources: each one is recorded. *)
Inductive call : Type :=
| CallLU (A : matrix) (pivoting : string)
| CallSolve (a : solve_arg) (b : vec)
| CallQR (A : matrix).

Record world : Type := { gen : rng; calls : list call }.

(** A routine: from the world before to a result and the world after. *)
Definition py (A : Type) : Type := world -> result (A * world).

Definition ret {A : Type} (a : A) : py A := fun w => Ok (a, w).

Definition mbind {A B : Type} (m : py A) (k : A -> py B) : py B :=
  fun w => match m w with
           | Ok (a, w') => k a w'
           | Raise e => Raise e
           end.

Definition lift {A : Type} (r : result A) : py A :=
  fun w => match r with
           | Ok a => Ok (a, w)
           | Raise e => Raise e
           end.

Notation "x <~ m ;; k" := (mbind m (fun x => k))
  (at level 61, m at next level, right associativity).
Notation "m ~;; k" := (mbind m (fun _ => k))
  (at level 61, right associativity).

(** [np.random.randn(n)] *)
Definition randn (n : nat) : py vec :=
  fun w =>
    Ok (map (samples (gen w)) (seq (cursor (gen w)) n),
        {| gen := {| samples := samples (gen w); cursor := cursor (gen w) + n |};
           calls := calls w |}).

Definition record (c : call) : py unit :=
  fun w => Ok (tt, {| gen := gen w; calls := calls w ++ [c] |}).

(** A loop that may [break]. *)
Inductive ctl (S : Type) : Type :=
| Continue (s : S)
| Break (s : S).
Arguments Continue {S} s.
Arguments Break {S} s.

Fixpoint mfor_loop {S : Type} (idx : list nat) (body : nat -> S -> py (ctl S)) (s : S)
  : py S :=
  match idx with
  | [] => ret s
  | i :: rest =>
      c <~ body i s ;;
      match c with
      | Continue s' => mfor_loop rest body s'
      | Break s' => ret s'
      end
  end.

Definition mfor_range {S : Type} (n : nat) (body : nat -> S -> py (ctl S)) (s : S)
  : py S :=
  mfor_loop (seq 0 n) body s.

(** ** linalg/eigen/single.py and linalg/eigen/multi.py *)

(** [rayleigh_quotient(A, x)] *)
Definition rayleigh_quotient (A : matrix) (x : vec) : result R :=
  let num := dot (vecmat x A) x in
  let denum := dot x x in
  if isclose (dot x x) 1 then Ok num else fdiv num denum.

(** Modelled from the spec: [is_square] and [diag] of [linalg.utils], and
    [basis_vec] with [flat=True], which are not among the sources: the shape
    test, the extraction of the diagonal, and the standard basis vector as a
    one-dimensional array (with the guard of [basis_vec] above). *)
Definition is_square (A : matrix) : bool := (nrows A =? ncols A)%nat.

Definition diag (A : matrix) : vec :=
  map (fun i => get A i i) (seq 0 (Nat.min (nrows A) (ncols A))).

Definition basis_vec_flat (k n : nat) : result vec :=
  assert (k <? n)%nat
    ("[!] k cannot exceed " ++ NilZero.string_of_uint (Nat.to_uint n) ++ ".") ;;;
  Ok (set_nth k 1 (zeros n)).

(** What [hessenberg] returns: the reduced matrix, with the product of the
    reflections when [calc_q] is set. *)
Inductive hess_out : Type :=
| HessA (A : matrix)
| HessAQ (A Q : matrix).

Definition hess_A (h : hess_out) : matrix :=
  match h with HessA A => A | HessAQ A _ => A end.

Section Routines.

(** The helpers of [linalg.utils] and the decompositions that are not
    among the sources are parameters of the routines. *)
Variable sign : R -> R.
Variable projection : vec -> vec -> result vec.
Variable normalize : vec -> result vec.
Variable LU_decompose : matrix -> string -> result (list matrix).
Variable solve : solve_arg -> vec -> result vec.
Variable QR_decompose : matrix -> result (matrix * matrix).

(** [LU(A, pivoting=p).decompose()], [solve(a, b)], [QR(A).decompose()] *)
Definition call_LU (A : matrix) (pivoting : string) : py (list matrix) :=
  record (CallLU A pivoting) ~;; lift (LU_decompose A pivoting).
Definition call_solve (a : solve_arg) (b : vec) : py vec :=
  record (CallSolve a b) ~;; lift (solve a b).
Definition call_QR (A : matrix) : py (matrix * matrix) :=
  record (CallQR A) ~;; lift (QR_decompose A).

(** [power_iteration(A, max_iter)] *)
Definition power_iteration (A : matrix) (max_iter : nat) : py (R * vec) :=
  lift (assert (is_symmetric A) "[!] Matrix must be symmetric.") ~;;
  v <~ randn (nrows A) ;;
  v <~ lift (for_range max_iter
               (fun _ v => let v := matvec A v in vdiv v (l2_norm v)) v) ;;
  e <~ lift (rayleigh_quotient A v) ;;
  ret (e, v).

(** [inverse_iteration(A, max_iter)] *)
Definition inverse_iteration (A : matrix) (max_iter : nat) : py (R * vec) :=
  lift (assert (is_symmetric A) "[!] Matrix must be symmetric.") ~;;
  v <~ randn (nrows A) ;;
  PLU <~ call_LU A "partial" ;;
  v <~ mfor_range max_iter
         (fun _ v =>
            v <~ call_solve (Factors PLU) v ;;
            v <~ lift (vdiv v (l2_norm v)) ;;
            ret (Continue v)) v ;;
  e <~ lift (rayleigh_quotient A v) ;;
  ret (e, v).

(** [rayleigh_quotient_iteration(A, mu, max_iter)] *)
Definition rayleigh_quotient_iteration (A : matrix) (mu : R) (max_iter : nat)
  : py (R * vec) :=
  lift (assert (is_symmetric A) "[!] Matrix must be symmetric.") ~;;
  v <~ randn (nrows A) ;;
  mfor_range max_iter
    (fun _ st =>
       v <~ call_solve (Mat (msub A (mscal (fst st) (eye (nrows A))))) (snd st) ;;
       v <~ lift (vdiv v (l2_norm v)) ;;
       mu <~ lift (rayleigh_quotient A v) ;;
       ret (Continue (mu, v))) (mu, v).

(** The sort at the end of [projected_iteration] and [qr_algorithm]:
    [idx = np.abs(eigvals).argsort()[::-1]], then [eigvecs[:, idx]] and
    [eigvals[idx]]; [k] is the number of columns of [eigvecs]. *)
Definition sort_eigen (k : nat) (eigvals : vec) (eigvecs : matrix)
  : result (vec * matrix) :=
  let idx := rev (argsort (map Rabs eigvals)) in
  eigvecs <- take_cols k idx eigvecs ;;
  eigvals <- take idx eigvals ;;
  Ok (eigvals, eigvecs).

(** One pass of the inner loop of [projected_iteration] for slot [i]. *)
Definition projected_step (A : matrix) (eigvecs : matrix) (i : nat) (v : vec)
  : result (ctl vec) :=
  proj_sum <- for_range i
                (fun j proj_sum =>
                   p <- projection v (col j eigvecs) ;; Ok (vadd proj_sum p))
                (zeros (length v)) ;;
  let v := vsub v proj_sum in
  let v_new := matvec A v in
  v_new <- normalize v_new ;;
  if converged v_new v then Ok (Break v) else Ok (Continue v_new).

(** [projected_iteration(A, k, max_iter, sort)] *)
Definition projected_iteration (A : matrix) (k : Z) (max_iter : nat) (sort : bool)
  : py (vec * matrix) :=
  lift (assert (is_symmetric A) "[!] Matrix must be symmetric.") ~;;
  lift (assert ((0 <? k)%Z && (k <=? Z.of_nat (nrows A))%Z)
          ("[!] k must be between 1 and "
             ++ NilZero.string_of_uint (Nat.to_uint (nrows A)) ++ ".")) ~;;
  let eigvecs := zeros2 (nrows A) (Z.to_nat k) in
  let eigvals := zeros (nrows A) in
  st <~ mfor_range (Z.to_nat k)
          (fun i st =>
             v <~ randn (nrows A) ;;
             v <~ mfor_range max_iter
                    (fun _ v => lift (projected_step A (snd st) i v)) v ;;
             e <~ lift (rayleigh_quotient A v) ;;
             eigvecs <~ lift (set_col i v (snd st)) ;;
             ret (Continue (set_nth i e (fst st), eigvecs)))
          (eigvals, eigvecs) ;;
  if sort then lift (sort_eigen (Z.to_nat k) (fst st) (snd st))
  else ret st.

(** The two updates of [hessenberg]:
    [w - (2 * v.T @ w) / (v.T @ v) * v] on a column and
    [w - 2 * ((w.T @ v) / (v.T @ v)) * v.T] on a row. *)
Definition reflect_col (v w : vec) : result vec :=
  q <- fdiv (dot (scal 2 v) w) (dot v v) ;;
  Ok (vsub w (scal q v)).

Definition reflect_row (v w : vec) : result vec :=
  q <- fdiv (dot w v) (dot v v) ;;
  Ok (vsub w (scal (2 * q) v)).

(** One pass of the main loop of [hessenberg], on the working copy [A]
    of [M] rows and the list [vs]. *)
Definition hessenberg_step (is_symm : bool) (M i : nat) (st : matrix * list vec)
  : result (matrix * list vec) :=
  let A := fst st in
  let a := col_from A (i + 1) i in
  let c := l2_norm a in
  let s := sign (nth 0 a 0) in
  e <- basis_vec_flat 0 (length a) ;;
  let v := vadd a (scal (s * c) e) in
  let vs := snd st ++ [v] in
  A <- for_loop (seq i (M - i))
         (fun j A =>
            w <- reflect_col v (col_from A (i + 1) j) ;;
            Ok (set_col_from A (i + 1) j w)) A ;;
  let lo := if is_symm then i else 0%nat in
  A <- for_loop (seq lo (M - lo))
         (fun j A =>
            w <- reflect_row v (row_from A j (i + 1)) ;;
            Ok (set_row_from A j (i + 1) w)) A ;;
  Ok (A, vs).

(** The accumulation of [Q] when [calc_q] is set. *)
Definition hessenberg_q (M : nat) (vs : list vec) : result matrix :=
  for_range M
    (fun i Q =>
       for_loop (seq 0 (length vs))
         (fun j Q =>
            let v := nth j (rev vs) [] in
            w <- reflect_col v (col_from Q (M - j - 2) i) ;;
            Ok (set_col_from Q (M - j - 2) i w)) Q)
    (eye M).

(** [hessenberg(A, calc_q)] on an array of floats ([A = np.array(A)]
    keeps the dtype, and the working copy of an array of integers would
    truncate what the passes store). *)
Definition hessenberg (A : matrix) (calc_q : bool) : result hess_out :=
  assert (is_square A) "[!] Matrix must be square." ;;;
  let is_symm := is_symmetric A in
  let M := nrows A in
  st <- for_range (M - 2) (hessenberg_step is_symm M) (A, []) ;;
  if calc_q then Q <- hessenberg_q M (snd st) ;; Ok (HessAQ (fst st) Q)
  else Ok (HessA (fst st)).

(** One pass of the loop of [qr_algorithm] on the iterate [A] of [M] rows. *)
Definition qr_step (M : nat) (A : matrix) : py (ctl matrix) :=
  mu <~ lift (if (M =? 0)%nat then Raise IndexError else Ok (get A (M - 1) (M - 1))) ;;
  QR <~ call_QR (msub A (mscal mu (eye M))) ;;
  let A_new := madd (mmul (snd QR) (fst QR)) (mscal mu (eye M)) in
  if converged2 A_new A then ret (Break A) else ret (Continue A_new).

(** [qr_algorithm(A, hess, sort)] on an array of floats
    ([np.zeros_like(A)] keeps the dtype of the iterate). *)
Definition qr_algorithm (A : matrix) (hess sort : bool) : py (vec * matrix) :=
  lift (assert (is_symmetric A) "[!] Matrix must be symmetric.") ~;;
  let backup := A in
  A <~ (if hess then lift (h <- hessenberg A false ;; Ok (hess_A h)) else ret A) ;;
  let M := nrows A in
  A <~ mfor_range 1000 (fun _ A => qr_step M A) A ;;
  let mus := diag A in
  let eigvecs := zeros2 (nrows A) (ncols A) in
  let eigvals := zeros (nrows A) in
  st <~ mfor_range (length mus)
          (fun i st =>
             ev <~ rayleigh_quotient_iteration backup (nth i mus 0) 1 ;;
             eigvecs <~ lift (set_col i (snd ev) (snd st)) ;;
             ret (Continue (set_nth i (fst ev) (fst st), eigvecs)))
          (eigvals, eigvecs) ;;
  if sort then lift (sort_eigen (ncols A) (fst st) (snd st))
  else ret st.

(** [eig(A, sort)] *)
Definition eig (A : matrix) (sort : bool) : py (vec * matrix) :=
  ev <~ qr_algorithm A true sort ;;
  ret (fst ev, snd ev).

End Routines.

(** ** Notions the statements use *)

(** The sum of [f 0 .. f (n-1)]. *)
Fixpoint sumn (n : nat) (f : nat -> R) : R :=
  match n with
  | O => 0
  | S n' => sumn n' f + f n'
  end.

(** [A] equals its transpose, entry for entry. *)
Definition symmetric (A : matrix) : Prop := transpose A = A.

(** [Q.T @ Q] is the identity. *)
Definition orthogonal (n : nat) (Q : matrix) : Prop :=
  shape Q n n /\ mmul (transpose Q) Q = eye n /\ mmul Q (transpose Q) = eye n.

(** [B = Q.T @ A @ Q] for an orthogonal [Q]. *)
Definition similar (n : nat) (A B : matrix) : Prop :=
  exists Q, orthogonal n Q /\ B = mmul (mmul (transpose Q) A) Q.

(** Zero strictly below the first sub-diagonal; strictly above the first
    super-diagonal. *)
Definition upper_hessenberg (A : matrix) : Prop :=
  forall i j, (j + 1 < i)%nat -> get A i j = 0.
Definition lower_hessenberg (A : matrix) : Prop :=
  forall i j, (i + 1 < j)%nat -> get A i j = 0.
Definition tridiagonal (A : matrix) : Prop :=
  upper_hessenberg A /\ lower_hessenberg A.

(** [x] is an eigenvector of [A] for the eigenvalue [lam]. *)
Definition eigenpair (A : matrix) (lam : R) (x : vec) : Prop :=
  matvec A x = scal lam x.

(** One pass of the loop of [power_iteration], where the norm is not 0:
    [v = A @ v; v /= l2_norm(v)]. *)
Definition power_step (A : matrix) (v : vec) : vec :=
  map (fun a => a / l2_norm (matvec A v)) (matvec A v).

(** The vector that [np.random.randn(n)] returns in the world [w]. *)
Definition drawn (n : nat) (w : world) : vec :=
  map (samples (gen w)) (seq (cursor (gen w)) n).

(** ** Sample inputs *)

(** A symmetric 2-by-2 matrix and a world whose generator yields only ones. *)
Definition diag21 : matrix := [[2; 0]; [0; 1]].

Definition ones_world : world :=
  {| gen := {| samples := fun _ => 1; cursor := 0 |}; calls := [] |}.

(** The right-hand sides [vs] that the loop of [inverse_iteration] solves
    for, from the start vector to the vector it ends with: each pass solves
    against the stored factors and divides by the L2 norm. *)
Inductive inverse_chain (solve : solve_arg -> vec -> result vec) (PLU : list matrix)
  : vec -> list vec -> vec -> Prop :=
| chain_done (v : vec) : inverse_chain solve PLU v [] v
| chain_pass (v x v' vend : vec) (rest : list vec) :
    solve (Factors PLU) v = Ok x ->
    vdiv x (l2_norm x) = Ok v' ->
    inverse_chain solve PLU v' rest vend ->
    inverse_chain solve PLU v (v :: rest) vend.

(** How often [LU.decompose] was called. *)
Definition count_LU (cs : list call) : nat :=
  length (filter (fun c => match c with CallLU _ _ => true | _ => false end) cs).

(** A world whose generator yields a one and then zeros. *)
Definition e1_world : world :=
  {| gen := {| samples := fun i => if (i =? 0)%nat then 1 else 0; cursor := 0 |};
     calls := [] |}.

(** A factorization and a solver that are right on the identity matrix. *)
Definition lu_identity (A : matrix) (pivoting : string) : result (list matrix) :=
  Ok [eye (nrows A); eye (nrows A); A].

Definition solve_identity (a : solve_arg) (b : vec) : result vec := Ok b.

(** [x / l2_norm(x)] where the norm is not 0. *)
Definition normalized (x : vec) : vec := map (fun a => a / l2_norm x) x.

(** Modelled from the spec: [projection] and [normalize] of [linalg.utils],
    which are not among the sources: the projection of [v] on [u], and [v]
    divided by its L2 norm.  The routines take them as parameters; these
    two serve where a run is evaluated. *)
Definition utils_projection (v u : vec) : result vec :=
  q <- fdiv (dot v u) (dot u u) ;; Ok (scal q u).

Definition utils_normalize (v : vec) : result vec := vdiv v (l2_norm v).

(** The state a loop is left with. *)
Definition ctl_state {S : Type} (c : ctl S) : S :=
  match c with Continue s => s | Break s => s end.

(** Modelled from the spec: what [QR(X).decompose()] of [linalg.qrdecomp],
    which is not among the sources, yields on an [n]-by-[n] matrix: an
    orthogonal [Q] and an [R] with [Q @ R = X]. *)
Definition QR_spec (n : nat) (QR_decompose : matrix -> result (matrix * matrix)) : Prop :=
  forall X, shape X n n ->
    exists Q R, QR_decompose X = Ok (Q, R) /\
                orthogonal n Q /\ shape R n n /\ mmul Q R = X.

(** The eigenvectors of [A] and of [B] correspond, eigenvalue by
    eigenvalue, under an orthogonal change of basis. *)
Definition same_eigenpairs (n : nat) (A B : matrix) : Prop :=
  exists Q, orthogonal n Q /\
    (forall lam x, length x = n ->
       eigenpair A lam x -> eigenpair B lam (matvec (transpose Q) x)) /\
    (forall lam y, length y = n ->
       eigenpair B lam y -> eigenpair A lam (matvec Q y)) /\
    (forall x, length x = n -> matvec Q (matvec (transpose Q) x) = x) /\
    (forall y, length y = n -> matvec (transpose Q) (matvec Q y) = y).

(** The matrix that a pass of [qr_algorithm] computes from the iterate [A]
    and the factors [(Q, R)] of [A - mu I]. *)
Definition qr_shift (M : nat) (A : matrix) : matrix :=
  msub A (mscal (get A (M - 1) (M - 1)) (eye M)).
Definition qr_next (M : nat) (A : matrix) (QR : matrix * matrix) : matrix :=
  madd (mmul (snd QR) (fst QR)) (mscal (get A (M - 1) (M - 1)) (eye M)).

(** A factorization within [QR_spec]: [Q] the identity, [R] the matrix. *)
Definition qr_identity (X : matrix) : result (matrix * matrix) :=
  Ok (eye (nrows X), X).

(** [np.all(np.abs(X - Y) < 1e-8)] said entry by entry, for two [M]-by-[M]
    arrays. *)
Definition entries_within (M : nat) (X Y : matrix) : Prop :=
  forall i j, (i < M)%nat -> (j < M)%nat -> Rabs (get X i j - get Y i j) < 1e-8.

(** The passes of the loop of [qr_algorithm] from the iterate [A], when
    [n] passes are left: the matrices that are factored, in order, and the
    iterate that the loop ends with.  A pass factors [A - mu I] for
    [mu = A[M-1, M-1]] and forms [R Q + mu I]; where that is within [1e-8]
    of [A] in every entry the loop breaks and [A] stays, otherwise it
    becomes the iterate of the next pass. *)
Inductive qr_passes (QR_decompose : matrix -> result (matrix * matrix)) (M : nat)
  : nat -> matrix -> list matrix -> matrix -> Prop :=
| qr_passes_none (A : matrix) : qr_passes QR_decompose M 0 A [] A
| qr_passes_break (n : nat) (A Q R : matrix) :
    QR_decompose (qr_shift M A) = Ok (Q, R) ->
    entries_within M (qr_next M A (Q, R)) A ->
    qr_passes QR_decompose M (S n) A [qr_shift M A] A
| qr_passes_continue (n : nat) (A Q R A' : matrix) (Xs : list matrix) :
    QR_decompose (qr_shift M A) = Ok (Q, R) ->
    ~ entries_within M (qr_next M A (Q, R)) A ->
    qr_passes QR_decompose M n (qr_next M A (Q, R)) Xs A' ->
    qr_passes QR_decompose M (S n) A (qr_shift M A :: Xs) A'.

(** What [qr_algorithm] does after its loop, with the matrix [backup] it
    was given and the iterate [A] that the loop ended with: one pass of
    [rayleigh_quotient_iteration] on [backup] for every diagonal entry of
    [A], and the sort. *)
Definition qr_eigenpairs (solve : solve_arg -> vec -> result vec)
           (backup A : matrix) (sort : bool) : py (vec * matrix) :=
  let mus := diag A in
  let eigvecs := zeros2 (nrows A) (ncols A) in
  let eigvals := zeros (nrows A) in
  st <~ mfor_range (length mus)
          (fun i st =>
             ev <~ rayleigh_quotient_iteration solve backup (nth i mus 0) 1 ;;
             eigvecs <~ lift (set_col i (snd ev) (snd st)) ;;
             ret (Continue (set_nth i (fst ev) (fst st), eigvecs)))
          (eigvals, eigvecs) ;;
  if sort then lift (sort_eigen (ncols A) (fst st) (snd st))
  else ret st.

(** Modelled from the spec: a QR factorization of a 2-by-2 array as the
    spec describes its result, [Q] orthogonal and [R] upper triangular with
    [Q @ R = X], here by one rotation; and [solve(A, b)] for a 2-by-2
    matrix, by Cramer's rule, a singular matrix giving the division by zero
    that the spec notes.  [linalg.qrdecomp] and [linalg.solver] are not
    among the sources; these two serve where a run is evaluated. *)
Definition qr_givens2 (X : matrix) : result (matrix * matrix) :=
  match X with
  | [[a; b]; [c; d]] =>
      let r := sqrt (a * a + c * c) in
      if Req_dec_T r 0 then Ok (eye 2, X)
      else Ok ([[a / r; - c / r]; [c / r; a / r]],
               [[r; (a * b + c * d) / r]; [0; (a * d - c * b) / r]])
  | _ => Raise ValueError
  end.

Definition solve_cramer2 (a : solve_arg) (b : vec) : result vec :=
  match a, b with
  | Mat [[p; q]; [s; t]], [e; f] =>
      let det := p * t - q * s in
      if Req_dec_T det 0 then Raise NotFinite
      else Ok [(e * t - q * f) / det; (p * f - e * s) / det]
  | _, _ => Raise ValueError
  end.

(** A symmetric 2-by-2 matrix that is nearly diagonal, the iterate that
    one pass of [qr_algorithm] makes of it, and a world whose generator
    yields the first column of [A - mu I] for the first diagonal entry
    [mu] of that iterate and then the second column for the second. *)
Definition near_diag12 : matrix := [[1; 1 / 1000]; [1 / 1000; 2]].

Definition near_diag12_next : matrix :=
  [[1000000 / 1000001; -1 / 1000001000]; [-1 / 1000001000; 2000003 / 1000001]].

Definition near_diag_world : world :=
  {| gen := {| samples := fun i => nth i [1 / 1000001; 1 / 1000; 1 / 1000; -1 / 1000001] 0;
               cursor := 0 |};
     calls := [] |}.

(** The world after one more recorded call. *)
Definition after_call (c : call) (w : world) : world :=
  {| gen := gen w; calls := calls w ++ [c] |}.

(** Modelled from the spec: [sign] of [linalg.utils], which is not among the
    sources: the sign of the pivot a reflection is matched to, 1 or -1.
    The routines take it as a parameter; this one serves where a run is
    evaluated. *)
Definition utils_sign (x : R) : R := if Rle_dec 0 x then 1 else -1.

(** The vector [v] of a pass of [hessenberg], read in the full space:
    entry [t] of [v] placed after [p] zeros. *)
Definition embed (p : nat) (v : vec) (t : nat) : R :=
  if (t <? p)%nat then 0 else nth (t - p) v 0.

(** The reflection [I - 2 u u.T / (v.T v)] for [u = embed p v]. *)
Definition householder (M p : nat) (v : vec) : matrix :=
  map (fun r =>
         map (fun c => (if (r =? c)%nat then 1 else 0)
                       - 2 * embed p v r * embed p v c / dot v v)
             (seq 0 M))
      (seq 0 M).

(** Columns [c < i] are zero below the first sub-diagonal. *)
Definition hessenberg_upto (i : nat) (A : matrix) : Prop :=
  forall r c, (c < i)%nat -> (c + 1 < r)%nat -> get A r c = 0.

(** The vector [v = a + s*c*e] of pass [i] of [hessenberg] on the working
    copy [A]. *)
Definition reflection_vector (sign : R -> R) (A : matrix) (i : nat) : vec :=
  let a := col_from A (i + 1) i in
  vadd a (scal (sign (nth 0 a 0) * l2_norm a) (set_nth 0 1 (zeros (length a)))).

(** A symmetric 3-by-3 matrix whose first column is [[3, 4]] below the
    diagonal. *)
Definition arrow345 : matrix := [[0; 3; 4]; [3; 0; 0]; [4; 0; 0]].

(** ** The routines on a store of arrays

    The model above computes on values.  Here an array is an object in a
    store, a Python variable holds a reference to it, [np.array(A)] and
    [A.copy()] allocate a copy, the operators [@], [+], [-] allocate their
    result, and [v /= c], [v -= w], [w += p] and the slice assignments
    write to the object that their left side refers to. *)

Module Heap.

Definition ref : Type := nat.

Inductive obj : Type :=
| OVec (v : vec)
| OMat (A : matrix).

Record hstate : Type := { objs : list obj; outside : world }.

Definition hp (A : Type) : Type := hstate -> result (A * hstate).

Definition hret {A : Type} (a : A) : hp A := fun s => Ok (a, s).

Definition hbind {A B : Type} (m : hp A) (k : A -> hp B) : hp B :=
  fun s => match m s with
           | Ok (a, s') => k a s'
           | Raise e => Raise e
           end.

Definition hlift {A : Type} (r : result A) : hp A :=
  fun s => match r with
           | Ok a => Ok (a, s)
           | Raise e => Raise e
           end.

Notation "x <<- m ;; k" := (hbind m (fun x => k))
  (at level 61, m at next level, right associativity).
Notation "m ;;> k" := (hbind m (fun _ => k))
  (at level 61, right associativity).

(** A routine of the value model that touches the generator and the
    record of calls only. *)
Definition in_world {A : Type} (m : py A) : hp A :=
  fun s => match m (outside s) with
           | Ok (a, w) => Ok (a, {| objs := objs s; outside := w |})
           | Raise e => Raise e
           end.

(** A new object, at the end of the store. *)
Definition alloc (o : obj) : hp ref :=
  fun s => Ok (length (objs s), {| objs := objs s ++ [o]; outside := outside s |}).

Definition load (r : ref) : hp obj :=
  fun s => match nth_error (objs s) r with
           | Some o => Ok (o, s)
           | None => Raise IndexError
           end.

Definition load_vec (r : ref) : hp vec :=
  o <<- load r ;;
  match o with OVec v => hret v | OMat _ => hlift (Raise TypeError) end.

Definition load_mat (r : ref) : hp matrix :=
  o <<- load r ;;
  match o with OMat A => hret A | OVec _ => hlift (Raise TypeError) end.

(** The one write: the object at [r] is replaced. *)
Definition store_at (r : ref) (o : obj) : hp unit :=
  fun s => Ok (tt, {| objs := set_nth r o (objs s); outside := outside s |}).

Fixpoint hfor_loop {S : Type} (idx : list nat) (body : nat -> S -> hp (ctl S)) (s : S)
  : hp S :=
  match idx with
  | [] => hret s
  | i :: rest =>
      c <<- body i s ;;
      match c with
      | Continue s' => hfor_loop rest body s'
      | Break s' => hret s'
      end
  end.

Definition hfor_range {S : Type} (n : nat) (body : nat -> S -> hp (ctl S)) (s : S)
  : hp S :=
  hfor_loop (seq 0 n) body s.

(** [np.array(A)], [A.copy()] *)
Definition np_array (A : ref) : hp ref := o <<- load A ;; alloc o.

(** [np.random.randn(n)] *)
Definition randn_new (n : nat) : hp ref :=
  v <<- in_world (randn n) ;; alloc (OVec v).

(** [A @ v] *)
Definition matvec_new (A v : ref) : hp ref :=
  a <<- load_mat A ;; x <<- load_vec v ;; alloc (OVec (matvec a x)).

(** [v /= utils.l2_norm(v)] *)
Definition idiv_norm (v : ref) : hp unit :=
  x <<- load_vec v ;;
  y <<- hlift (vdiv x (l2_norm x)) ;;
  store_at v (OVec y).

(** [rayleigh_quotient(A, x)]: reads only. *)
Definition rayleigh_quotient (A x : ref) : hp R :=
  a <<- load_mat A ;; v <<- load_vec x ;; hlift (rayleigh_quotient a v).

Section Routines.

(** The helpers of [linalg.utils] read their arguments and return new
    arrays.  The decompositions and the solver are not among the sources
    either: they may work in place, and [LU_leaves], [QR_leaves],
    [solve_leaves_matrix] and [solve_leaves_rhs] are what they leave in the
    arrays they were given. *)
Variable sign : R -> R.
Variable projection : vec -> vec -> result vec.
Variable normalize : vec -> result vec.
Variable LU_decompose : matrix -> string -> result (list matrix).
Variable solve : solve_arg -> vec -> result vec.
Variable QR_decompose : matrix -> result (matrix * matrix).
Variable LU_leaves : matrix -> matrix.
Variable QR_leaves : matrix -> matrix.
Variable solve_leaves_matrix : matrix -> vec -> matrix.
Variable solve_leaves_rhs : solve_arg -> vec -> vec.

(** [LU(A, pivoting=p).decompose()] *)
Definition call_LU (A : ref) (pivoting : string) : hp (list matrix) :=
  a <<- load_mat A ;;
  in_world (record (CallLU a pivoting)) ;;>
  fs <<- hlift (LU_decompose a pivoting) ;;
  store_at A (OMat (LU_leaves a)) ;;>
  hret fs.

(** [solve(PLU, b)] on stored factors, [solve(X, b)] on a matrix *)
Definition call_solve_factors (fs : list matrix) (b : ref) : hp ref :=
  y <<- load_vec b ;;
  in_world (record (CallSolve (Factors fs) y)) ;;>
  x <<- hlift (solve (Factors fs) y) ;;
  store_at b (OVec (solve_leaves_rhs (Factors fs) y)) ;;>
  alloc (OVec x).

Definition call_solve_matrix (X b : ref) : hp ref :=
  a <<- load_mat X ;;
  y <<- load_vec b ;;
  in_world (record (CallSolve (Mat a) y)) ;;>
  x <<- hlift (solve (Mat a) y) ;;
  store_at X (OMat (solve_leaves_matrix a y)) ;;>
  store_at b (OVec (solve_leaves_rhs (Mat a) y)) ;;>
  alloc (OVec x).

(** [QR(X).decompose()] *)
Definition call_QR (X : ref) : hp (ref * ref) :=
  a <<- load_mat X ;;
  in_world (record (CallQR a)) ;;>
  QR <<- hlift (QR_decompose a) ;;
  store_at X (OMat (QR_leaves a)) ;;>
  Q <<- alloc (OMat (fst QR)) ;;
  R <<- alloc (OMat (snd QR)) ;;
  hret (Q, R).

(** [power_iteration(A, max_iter)] *)
Definition power_iteration (A : ref) (max_iter : nat) : hp (R * ref) :=
  a <<- load_mat A ;;
  hlift (assert (is_symmetric a) "[!] Matrix must be symmetric.") ;;>
  v <<- randn_new (nrows a) ;;
  v <<- hfor_range max_iter
          (fun _ v =>
             v <<- matvec_new A v ;;
             idiv_norm v ;;>
             hret (Continue v)) v ;;
  e <<- rayleigh_quotient A v ;;
  hret (e, v).

(** [inverse_iteration(A, max_iter)] *)
Definition inverse_iteration (A : ref) (max_iter : nat) : hp (R * ref) :=
  a <<- load_mat A ;;
  hlift (assert (is_symmetric a) "[!] Matrix must be symmetric.") ;;>
  v <<- randn_new (nrows a) ;;
  copy <<- np_array A ;;
  PLU <<- call_LU copy "partial" ;;
  v <<- hfor_range max_iter
          (fun _ v =>
             v <<- call_solve_factors PLU v ;;
             idiv_norm v ;;>
             hret (Continue v)) v ;;
  e <<- rayleigh_quotient A v ;;
  hret (e, v).

(** [rayleigh_quotient_iteration(A, mu, max_iter)] *)
Definition rayleigh_quotient_iteration (A : ref) (mu : R) (max_iter : nat)
  : hp (R * ref) :=
  a <<- load_mat A ;;
  hlift (assert (is_symmetric a) "[!] Matrix must be symmetric.") ;;>
  v <<- randn_new (nrows a) ;;
  hfor_range max_iter
    (fun _ st =>
       a <<- load_mat A ;;
       X <<- alloc (OMat (msub a (mscal (fst st) (eye (nrows a))))) ;;
       v <<- call_solve_matrix X (snd st) ;;
       idiv_norm v ;;>
       mu <<- rayleigh_quotient A v ;;
       hret (Continue (mu, v))) (mu, v).

(** The sort at the end of [projected_iteration] and [qr_algorithm]: the
    indexed arrays are new ones. *)
Definition sort_eigen (k : nat) (eigvals eigvecs : ref) : hp (ref * ref) :=
  ev <<- load_vec eigvals ;;
  E <<- load_mat eigvecs ;;
  let idx := rev (argsort (map Rabs ev)) in
  E' <<- hlift (take_cols k idx E) ;;
  eigvecs' <<- alloc (OMat E') ;;
  ev' <<- hlift (take idx ev) ;;
  eigvals' <<- alloc (OVec ev') ;;
  hret (eigvals', eigvecs').

(** One pass of the inner loop of [projected_iteration] for slot [i]. *)
Definition projected_step (A eigvecs : ref) (i : nat) (v : ref) : hp (ctl ref) :=
  x <<- load_vec v ;;
  proj_sum <<- alloc (OVec (zeros (length x))) ;;
  hfor_range i
    (fun j _ =>
       x <<- load_vec v ;;
       E <<- load_mat eigvecs ;;
       p <<- hlift (projection x (col j E)) ;;
       ps <<- load_vec proj_sum ;;
       store_at proj_sum (OVec (vadd ps p)) ;;>
       hret (Continue tt)) tt ;;>
  x <<- load_vec v ;;
  ps <<- load_vec proj_sum ;;
  store_at v (OVec (vsub x ps)) ;;>
  v_new <<- matvec_new A v ;;
  y <<- load_vec v_new ;;
  z <<- hlift (normalize y) ;;
  v_new <<- alloc (OVec z) ;;
  x <<- load_vec v ;;
  if converged z x then hret (Break v) else hret (Continue v_new).

(** [projected_iteration(A, k, max_iter, sort)] *)
Definition projected_iteration (A : ref) (k : Z) (max_iter : nat) (sort : bool)
  : hp (ref * ref) :=
  a <<- load_mat A ;;
  hlift (assert (is_symmetric a) "[!] Matrix must be symmetric.") ;;>
  hlift (assert ((0 <? k)%Z && (k <=? Z.of_nat (nrows a))%Z)
           ("[!] k must be between 1 and "
              ++ NilZero.string_of_uint (Nat.to_uint (nrows a)) ++ ".")) ;;>
  eigvecs <<- alloc (OMat (zeros2 (nrows a) (Z.to_nat k))) ;;
  eigvals <<- alloc (OVec (zeros (nrows a))) ;;
  hfor_range (Z.to_nat k)
    (fun i _ =>
       v <<- randn_new (nrows a) ;;
       v <<- hfor_range max_iter (fun _ v => projected_step A eigvecs i v) v ;;
       e <<- rayleigh_quotient A v ;;
       x <<- load_vec v ;;
       E <<- load_mat eigvecs ;;
       E' <<- hlift (set_col i x E) ;;
       store_at eigvecs (OMat E') ;;>
       ev <<- load_vec eigvals ;;
       store_at eigvals (OVec (set_nth i e ev)) ;;>
       hret (Continue tt)) tt ;;>
  if sort then sort_eigen (Z.to_nat k) eigvals eigvecs
  else hret (eigvals, eigvecs).

(** One pass of the main loop of [hessenberg] on the working copy [W]. *)
Definition hessenberg_step (is_symm : bool) (M : nat) (W : ref) (i : nat)
           (vs : list ref) : hp (ctl (list ref)) :=
  w <<- load_mat W ;;
  let a := col_from w (i + 1) i in
  let c := l2_norm a in
  let s := sign (nth 0 a 0) in
  e <<- hlift (basis_vec_flat 0 (length a)) ;;
  v <<- alloc (OVec (vadd a (scal (s * c) e))) ;;
  hfor_loop (seq i (M - i))
    (fun j _ =>
       w <<- load_mat W ;;
       x <<- load_vec v ;;
       y <<- hlift (reflect_col x (col_from w (i + 1) j)) ;;
       store_at W (OMat (set_col_from w (i + 1) j y)) ;;>
       hret (Continue tt)) tt ;;>
  let lo := if is_symm then i else 0%nat in
  hfor_loop (seq lo (M - lo))
    (fun j _ =>
       w <<- load_mat W ;;
       x <<- load_vec v ;;
       y <<- hlift (reflect_row x (row_from w j (i + 1))) ;;
       store_at W (OMat (set_row_from w j (i + 1) y)) ;;>
       hret (Continue tt)) tt ;;>
  hret (Continue (vs ++ [v])).

(** The accumulation of [Q] when [calc_q] is set. *)
Definition hessenberg_q (M : nat) (vs : list ref) : hp ref :=
  Q <<- alloc (OMat (eye M)) ;;
  hfor_range M
    (fun i _ =>
       hfor_loop (seq 0 (length vs))
         (fun j _ =>
            q <<- load_mat Q ;;
            x <<- load_vec (nth j (rev vs) 0%nat) ;;
            y <<- hlift (reflect_col x (col_from q (M - j - 2) i)) ;;
            store_at Q (OMat (set_col_from q (M - j - 2) i y)) ;;>
            hret (Continue tt)) tt ;;>
       hret (Continue tt)) tt ;;>
  hret Q.

(** [hessenberg(A, calc_q)]: the working copy, and [Q] when asked for. *)
Definition hessenberg (A : ref) (calc_q : bool) : hp (ref * option ref) :=
  a <<- load_mat A ;;
  hlift (assert (is_square a) "[!] Matrix must be square.") ;;>
  let is_symm := is_symmetric a in
  W <<- np_array A ;;
  let M := nrows a in
  vs <<- hfor_range (M - 2) (hessenberg_step is_symm M W) [] ;;
  if calc_q then Q <<- hessenberg_q M vs ;; hret (W, Some Q)
  else hret (W, None).

(** One pass of the loop of [qr_algorithm] on the iterate [A]. *)
Definition qr_step (M : nat) (A : ref) : hp (ctl ref) :=
  a <<- load_mat A ;;
  mu <<- hlift (if (M =? 0)%nat then Raise IndexError else Ok (get a (M - 1) (M - 1))) ;;
  X <<- alloc (OMat (msub a (mscal mu (eye M)))) ;;
  QR <<- call_QR X ;;
  q <<- load_mat (fst QR) ;;
  r <<- load_mat (snd QR) ;;
  A_new <<- alloc (OMat (madd (mmul r q) (mscal mu (eye M)))) ;;
  a <<- load_mat A ;;
  if converged2 (madd (mmul r q) (mscal mu (eye M))) a
  then hret (Break A) else hret (Continue A_new).

(** [qr_algorithm(A, hess, sort)] *)
Definition qr_algorithm (A : ref) (hess sort : bool) : hp (ref * ref) :=
  a <<- load_mat A ;;
  hlift (assert (is_symmetric a) "[!] Matrix must be symmetric.") ;;>
  backup <<- np_array A ;;
  A <<- (if hess then h <<- hessenberg A false ;; hret (fst h) else hret A) ;;
  a <<- load_mat A ;;
  let M := nrows a in
  A <<- hfor_range 1000 (fun _ A => qr_step M A) A ;;
  a <<- load_mat A ;;
  let mus := diag a in
  eigvecs <<- alloc (OMat (zeros2 (nrows a) (ncols a))) ;;
  eigvals <<- alloc (OVec (zeros (nrows a))) ;;
  hfor_range (length mus)
    (fun i _ =>
       ev <<- rayleigh_quotient_iteration backup (nth i mus 0) 1 ;;
       x <<- load_vec (snd ev) ;;
       E <<- load_mat eigvecs ;;
       E' <<- hlift (set_col i x E) ;;
       store_at eigvecs (OMat E') ;;>
       vals <<- load_vec eigvals ;;
       store_at eigvals (OVec (set_nth i (fst ev) vals)) ;;>
       hret (Continue tt)) tt ;;>
  if sort then sort_eigen (ncols a) eigvals eigvecs
  else hret (eigvals, eigvecs).

(** [eig(A, sort)] *)
Definition eig (A : ref) (sort : bool) : hp (ref * ref) :=
  ev <<- qr_algorithm A true sort ;;
  hret (fst ev, snd ev).

End Routines.

(** The store [s] with the object at [r] replaced by [o]. *)
Definition put (r : ref) (o : obj) (s : hstate) : hstate :=
  {| objs := set_nth r o (objs s); outside := outside s |}.

(** The objects that were in the store before a call are the same after
    it has returned. *)
Definition unchanged {A : Type} (m : hp A) : Prop :=
  forall s, match m s with
            | Ok (_, s') => firstn (length (objs s)) (objs s') = objs s
            | Raise _ => True
            end.

(** From a store of at least [n] objects, [m] leaves the first [n] as they
    were, does not shrink the store, and returns a value within [Post]. *)
Definition keeps {A : Type} (n : nat) (m : hp A) (Post : A -> Prop) : Prop :=
  forall s, (n <= length (objs s))%nat ->
    match m s with
    | Ok (a, s') =>
        (length (objs s) <= length (objs s'))%nat /\
        firstn n (objs s') = firstn n (objs s) /\
        Post a
    | Raise _ => True
    end.

End Heap.

(** A list whose entries come in decreasing order of absolute value. *)
Definition decreasing_abs (l : vec) : Prop :=
  StronglySorted (fun x y => Rabs y <= Rabs x) l.

(** ** qrdecomp/utils.py: the remaining utilities *)

(** [A[i, j]] and [A[i, j] = x] on a two-dimensional array: an index out
    of range raises [IndexError]. *)
Definition get_item (A : matrix) (i j : nat) : result R :=
  match nth_error A i with
  | Some r => match nth_error r j with
              | Some x => Ok x
              | None => Raise IndexError
              end
  | None => Raise IndexError
  end.

Definition set_item (A : matrix) (i j : nat) (x : R) : result matrix :=
  match nth_error A i with
  | Some r => if (j <? length r)%nat then Ok (set_nth i (set_nth j x r) A)
              else Raise IndexError
  | None => Raise IndexError
  end.

(** [np.zeros_like(A)] *)
Definition zeros_like (A : matrix) : matrix := map (map (fun _ => 0)) A.

(** [upper_diag(A, diag)] *)
Definition upper_diag (A : matrix) (diag : bool) : result matrix :=
  let m := length A in
  let U := zeros_like A in
  for_range m
    (fun i U =>
       let l_b := if diag then i else (i + 1)%nat in
       for_loop (seq l_b (m - l_b))
         (fun j U => x <- get_item A i j ;; set_item U i j x) U)
    U.

(** [lower_diag(A, diag)] *)
Definition lower_diag (A : matrix) (diag : bool) : result matrix :=
  let m := length A in
  let L := zeros_like A in
  for_range m
    (fun i L =>
       let u_b := if diag then (i + 1)%nat else i in
       for_loop (seq 0 u_b)
         (fun j L => x <- get_item A i j ;; set_item L i j x) L)
    L.

(** [unit_diag(A)], on the value of the array: the writes [A[i, i] = 1]
    one after the other. *)
Definition unit_diag (A : matrix) : result matrix :=
  for_range (length A) (fun i A => set_item A i i 1) A.

(** [np.dot(A, B)] of two-dimensional arrays: the inner dimensions must
    agree. *)
Definition np_dot (A B : matrix) : result matrix :=
  if (ncols A =? nrows B)%nat then Ok (mmul A B) else Raise ValueError.

(** [functools.reduce(f, l)] without an initial value: of an empty list a
    [TypeError]. *)
Fixpoint reduce_from {A : Type} (f : A -> A -> result A) (acc : A) (l : list A)
  : result A :=
  match l with
  | [] => Ok acc
  | x :: l' => acc' <- f acc x ;; reduce_from f acc' l'
  end.

Definition reduce {A : Type} (f : A -> A -> result A) (l : list A) : result A :=
  match l with
  | [] => Raise TypeError
  | x :: l' => reduce_from f x l'
  end.

(** [multi_dot(l)] *)
Definition multi_dot (l : list matrix) : result matrix := reduce np_dot l.

(** [np.max(ks)]: of an empty array a [ValueError]. *)
Definition np_max (ks : list Z) : result Z :=
  match ks with
  | [] => Raise ValueError
  | k :: rest => Ok (fold_left Z.max rest k)
  end.

(** [b[i, k] = x] for a row [i] counted by [enumerate] and an integer [k],
    which may be negative. *)
Definition set_item_z (A : matrix) (i : nat) (k : Z) (x : R) : result matrix :=
  match nth_error A i with
  | Some r => j <- py_index (length r) k ;; Ok (set_nth i (set_nth j x r) A)
  | None => Raise IndexError
  end.

(** [basis_arr(ks, n)] *)
Definition basis_arr (ks : list Z) (n : Z) : result matrix :=
  m <- np_max ks ;;
  assert (m <? n)%Z
    ("[!] ks cannot exceed " ++ NilZero.string_of_int (Z.to_int n) ++ ".") ;;;
  (if (n <? 0)%Z then Raise ValueError else Ok tt) ;;;
  let b := zeros2 (Z.to_nat n) (Z.to_nat n) in
  for_range (length ks) (fun i b => set_item_z b i (nth i ks 0%Z) 1) b.

(** Arrays of complex numbers, for [herm] and [is_hermitian]: an entry is
    its real and its imaginary part. *)
Abbreviation complex := (R * R)%type.
Abbreviation cmatrix := (list (list (R * R))).

Definition conjugate (z : complex) : complex := (fst z, - snd z).
Definition csub (a b : complex) : complex := (fst a - fst b, snd a - snd b).
Definition cabs (z : complex) : R := sqrt (fst z * fst z + snd z * snd z).

(** [A.T] and [A.conj()] *)
Definition ccol (j : nat) (A : cmatrix) : list complex :=
  map (fun r => nth j r (0, 0)) A.
Definition ctranspose (A : cmatrix) : cmatrix :=
  map (fun j => ccol j A) (seq 0 (length (hd [] A))).
Definition cconj (A : cmatrix) : cmatrix := map (map conjugate) A.

(** [np.isclose] and [np.allclose] on complex entries: the absolute value
    is the modulus. *)
Definition cisclose (a b : complex) : bool :=
  Rleb (cabs (csub a b)) (atol + rtol * cabs b).
Definition callclose (A B : cmatrix) : bool :=
  forallb (fun rr => forallb (fun ab => cisclose (fst ab) (snd ab))
                             (combine (fst rr) (snd rr)))
          (combine A B).

(** [herm(A)]: [A.T.conj()] *)
Definition herm (A : cmatrix) : cmatrix := cconj (ctranspose A).

(** [is_hermitian(A)]: [np.allclose(A, A.T.conj())] *)
Definition is_hermitian (A : cmatrix) : bool := callclose A (cconj (ctranspose A)).

(** A real array read as a complex one. *)
Definition of_real (A : matrix) : cmatrix := map (map (fun x => (x, 0))) A.

Definition cget (A : cmatrix) (i j : nat) : complex := nth j (nth i A []) (0, 0).
Definition cshape (A : cmatrix) (m n : nat) : Prop :=
  length A = m /\ Forall (fun r => length r = n) A.

(** Zero strictly below the diagonal; strictly above it. *)
Definition upper_triangular (A : matrix) : Prop :=
  forall i j, (j < i)%nat -> get A i j = 0.
Definition lower_triangular (A : matrix) : Prop :=
  forall i j, (i < j)%nat -> get A i j = 0.

(** A chain of arrays that [np.dot] can multiply from left to right: the
    first has [m] rows, the last [n] columns, and the inner dimensions
    agree. *)
Inductive chain : nat -> list matrix -> nat -> Prop :=
| chain_one (m n : nat) (A : matrix) :
    shape A m n -> (0 < m)%nat -> (0 < n)%nat -> chain m [A] n
| chain_cons (m p n : nat) (A : matrix) (l : list matrix) :
    shape A m p -> (0 < m)%nat -> (0 < p)%nat -> chain p l n -> chain m (A :: l) n.

(** The product of the arrays of a chain, from left to right. *)
Fixpoint product_from (acc : matrix) (l : list matrix) : matrix :=
  match l with
  | [] => acc
  | B :: l' => product_from (mmul acc B) l'
  end.

(** ** The utilities on the store

    [unit_diag] writes to the array it is given and returns it;
    [upper_diag] and [lower_diag] fill an array of their own. *)

Module HeapUtils.

Import Heap.

(** [A[i, j] = x]: a write to the object that [A] refers to. *)
Definition setitem (A : ref) (i j : nat) (x : R) : hp unit :=
  a <<- load_mat A ;;
  a' <<- hlift (set_item a i j x) ;;
  store_at A (OMat a').

(** [A[i, j]] *)
Definition getitem (A : ref) (i j : nat) : hp R :=
  a <<- load_mat A ;; hlift (get_item a i j).

(** [unit_diag(A)] *)
Definition unit_diag (A : ref) : hp ref :=
  a <<- load_mat A ;;
  let m := length a in
  hfor_range m (fun i _ => setitem A i i 1 ;;> hret (Continue tt)) tt ;;>
  hret A.

(** [upper_diag(A, diag)] *)
Definition upper_diag (A : ref) (diag : bool) : hp ref :=
  a <<- load_mat A ;;
  let m := length a in
  U <<- alloc (OMat (zeros_like a)) ;;
  hfor_range m
    (fun i _ =>
       let l_b := if diag then i else (i + 1)%nat in
       hfor_loop (seq l_b (m - l_b))
         (fun j _ =>
            x <<- getitem A i j ;;
            setitem U i j x ;;>
            hret (Continue tt)) tt ;;>
       hret (Continue tt)) tt ;;>
  hret U.

(** [lower_diag(A, diag)] *)
Definition lower_diag (A : ref) (diag : bool) : hp ref :=
  a <<- load_mat A ;;
  let m := length a in
  L <<- alloc (OMat (zeros_like a)) ;;
  hfor_range m
    (fun i _ =>
       let u_b := if diag then (i + 1)%nat else i in
       hfor_loop (seq 0 u_b)
         (fun j _ =>
            x <<- getitem A i j ;;
            setitem L i j x ;;>
            hret (Continue tt)) tt ;;>
       hret (Continue tt)) tt ;;>
  hret L.

End HeapUtils.

(** ** The product of the reflections of hessenberg *)

(** The reflections of the passes [i0], [i0 + 1], ... of [hessenberg], read
    in the full space and multiplied from left to right: pass [i] reflects
    along its vector placed after [i + 1] zeros. *)
Fixpoint reflections (M i0 : nat) (vs : list vec) : matrix :=
  match vs with
  | [] => eye M
  | v :: vs' => mmul (householder M (i0 + 1) v) (reflections M (S i0) vs')
  end.

(** The vectors of the passes [i0], [i0 + 1], ... fill the rows below the
    diagonal, and none of them is zero. *)
Fixpoint reflectors (M i0 : nat) (vs : list vec) : Prop :=
  match vs with
  | [] => True
  | v :: vs' =>
      (i0 + 1 + length v)%nat = M /\ dot v v <> 0 /\ reflectors M (S i0) vs'
  end.

(** ** The passes of rayleigh_quotient_iteration *)

(** The calls to [solve] that the loop of [rayleigh_quotient_iteration]
    makes from the state [(mu, v)] to the state it ends with: each pass
    solves against [A - mu I] for the current estimate [mu], divides by
    the L2 norm and takes the Rayleigh quotient as the next estimate. *)
Inductive rqi_chain (solve : solve_arg -> vec -> result vec) (A : matrix)
  : R * vec -> list call -> R * vec -> Prop :=
| rqi_done (st : R * vec) : rqi_chain solve A st [] st
| rqi_pass (mu mu' : R) (v x v' : vec) (cs : list call) (st : R * vec) :
    solve (Mat (msub A (mscal mu (eye (nrows A))))) v = Ok x ->
    vdiv x (l2_norm x) = Ok v' ->
    rayleigh_quotient A v' = Ok mu' ->
    rqi_chain solve A (mu', v') cs st ->
    rqi_chain solve A (mu, v)
      (CallSolve (Mat (msub A (mscal mu (eye (nrows A))))) v :: cs) st.

(** A matrix that is not symmetric. *)
Definition shear01 : matrix := [[0; 1]; [0; 0]].

(** A 1-by-1 matrix. *)
Definition two11 : matrix := [[2]].

(** ** linalg/optim/gradient_descent.py

    [print] appends a line to what the call has printed, which is returned
    next to the estimate. *)

Module GradientDescent.

(** [_EPS = 5*np.finfo(float).eps]: the machine epsilon of a double is
    [2^-52]. *)
Definition _EPS : R := 5 * / 2 ^ 52.

(** The solver object: [self.max_iters] and [self.tol]. *)
Record GradientDescent : Type := { max_iters : nat; tol : R }.

(** [GradientDescent(max_iters, tol=_EPS)] *)
Definition __init__ (max_iters : nat) (tol : option R) : GradientDescent :=
  {| max_iters := max_iters;
     tol := match tol with Some t => t | None => _EPS end |}.

(** [np.allclose(x, y, rtol=rt)] on two vectors of one length. *)
Definition allclose_rtol (rt : R) (x y : vec) : bool :=
  forallb (fun ab => Rleb (Rabs (fst ab - snd ab)) (atol + rt * Rabs (snd ab)))
          (combine x y).

(** The residual [d = b - A @ x] and the estimate [x_new = x + alpha * d]
    for the step size [alpha = (d.T @ d) / (d.T @ A @ d)]. *)
Definition residual (A : matrix) (b x : vec) : vec := vsub b (matvec A x).

Definition x_new (A : matrix) (b x : vec) : result vec :=
  let d := residual A b x in
  alpha <- fdiv (dot d d) (dot (vecmat d A) d) ;;
  Ok (vadd x (scal alpha d)).

(** The line that is printed at pass [i]. *)
Definition converged_message (i : nat) : string :=
  "Converged in " ++ NilZero.string_of_uint (Nat.to_uint i) ++ " iterations.".

(** [solve(A, b)] *)
Definition solve (self : GradientDescent) (A : matrix) (b : vec)
  : py (vec * list string) :=
  let n := nrows A in
  x <~ randn n ;;
  mfor_range (max_iters self)
    (fun i st =>
       x' <~ lift (x_new A b (fst st)) ;;
       if allclose_rtol (tol self) x' (fst st)
       then ret (Break (fst st, snd st ++ [converged_message i]))
       else ret (Continue (x', snd st)))
    (x, []).

(** The function that the steps descend on: [x.T A x / 2 - b.T x]. *)
Definition energy (A : matrix) (b x : vec) : R :=
  dot x (matvec A x) / 2 - dot b x.

End GradientDescent.

(** ** imagealign/main.py: the registration of point pairs

    Of the class [InteractiveImage], the handlers [on_click] and
    [on_clear] and the fields they work on: the images, the figure and its
    buttons are left out, and what a handler prints or draws is kept as a
    list of effects.  Two images are shown, [self.ax[0]] on the left and
    [self.ax[1]] on the right. *)

Module InteractiveImage.

(** [event.inaxes]: the left image, the right image, or anything else
    ([None], the axes of a button). *)
Inductive axes : Type := AxLeft | AxRight | AxOther.

(** A mouse event: where it fell, in pixels and in data coordinates. *)
Record event : Type :=
  { inaxes : axes; x : Z; y : Z; xdata : R; ydata : R }.

Inductive effect : Type :=
| Print (line : string)
| PrintClick (subplot_num : string) (xdata ydata : R)
| AddPatch (ax : nat) (xdata ydata : R)
| Draw
| Update.

(** The fields that the handlers read and write. *)
Record state : Type :=
  { counter : nat;
    prev : nat;
    curr : option nat;
    temp : list (Z * Z);
    coords : list (list (Z * Z));
    shown : list effect }.

(** What [__init__] sets them to. *)
Definition initial : state :=
  {| counter := 0; prev := 1; curr := None; temp := []; coords := []; shown := [] |}.

(** [on_click(event)] *)
Definition on_click (self : state) (e : event) : state :=
  let n := S (counter self) in
  match inaxes e with
  | AxLeft =>
      if (0 =? prev self)%nat
      then {| counter := n; prev := prev self; curr := Some 0%nat;
              temp := temp self; coords := coords self;
              shown := shown self
                       ++ [Print "You haven't selected the second pair on the right!"] |}
      else {| counter := n; prev := 0; curr := Some 0%nat;
              temp := temp self ++ [(x e, y e)]; coords := coords self;
              shown := shown self
                       ++ [AddPatch 0 (xdata e) (ydata e);
                           PrintClick "1" (xdata e) (ydata e); Update] |}
  | AxRight =>
      if (n =? 1)%nat
      then {| counter := n; prev := prev self; curr := curr self;
              temp := temp self; coords := coords self;
              shown := shown self ++ [Print "You must select from the left first!"] |}
      else if (1 =? prev self)%nat
      then {| counter := n; prev := prev self; curr := Some 1%nat;
              temp := temp self; coords := coords self;
              shown := shown self
                       ++ [Print "You haven't select the first pair on the left!"] |}
      else {| counter := n; prev := 1; curr := Some 1%nat;
              temp := [];
              coords := coords self ++ [temp self ++ [(x e, y e)]];
              shown := shown self
                       ++ [AddPatch 1 (xdata e) (ydata e);
                           PrintClick "2" (xdata e) (ydata e); Update] |}
  | AxOther =>
      {| counter := n; prev := prev self; curr := curr self;
         temp := temp self; coords := coords self; shown := shown self |}
  end.

(** [on_clear(event)] *)
Definition on_clear (self : state) : state :=
  {| counter := 0; prev := 1; curr := None; temp := []; coords := [];
     shown := shown self ++ [Print "pressed clear!"; Print "redrawing"; Draw; Update] |}.

(** A call of one of the two handlers. *)
Inductive action : Type :=
| Click (e : event)
| Clear.

Definition handle (self : state) (a : action) : state :=
  match a with
  | Click e => on_click self e
  | Clear => on_clear self
  end.

(** The pairs that a session registers, told without the counters: a
    click on the left opens a pair when none is open, a click on the right
    closes the open one, every other click changes nothing, and Clear
    forgets all. *)
Fixpoint pairs_of (open : option (Z * Z)) (done : list (list (Z * Z)))
         (l : list action) : list (list (Z * Z)) :=
  match l with
  | [] => done
  | Clear :: l' => pairs_of None [] l'
  | Click e :: l' =>
      match inaxes e, open with
      | AxLeft, None => pairs_of (Some (x e, y e)) done l'
      | AxRight, Some p => pairs_of None (done ++ [[p; (x e, y e)]]) l'
      | _, _ => pairs_of open done l'
      end
  end.

(** The fields agree with an open point and the pairs done. *)
Definition agrees (st : state) (open : option (Z * Z)) (done : list (list (Z * Z)))
  : Prop :=
  coords st = done /\
  temp st = match open with None => [] | Some p => [p] end /\
  prev st = match open with None => 1%nat | Some _ => 0%nat end /\
  (open <> None -> (0 < counter st)%nat).

End InteractiveImage.

(** * Properties *)

(** ** Lists updated by index *)

Lemma length_set_nth {A : Type} (n : nat) (x : A) (l : list A) :
  length (set_nth n x l) = length l.
Proof.
  revert n; induction l as [|h t IH]; intros [|n]; simpl; auto.
Qed.

Lemma nth_set_nth_eq {A : Type} (n : nat) (x d : A) (l : list A) :
  (n < length l)%nat -> nth n (set_nth n x l) d = x.
Proof.
  revert n; induction l as [|h t IH]; intros [|n] H; simpl in *; try lia; auto.
  apply IH; lia.
Qed.

Lemma nth_set_nth_neq {A : Type} (n m : nat) (x d : A) (l : list A) :
  n <> m -> nth m (set_nth n x l) d = nth m l d.
Proof.
  revert n m; induction l as [|h t IH]; intros [|n] [|m] H; simpl; auto; try lia.
Qed.

Lemma Forall_set_nth {A : Type} (P : A -> Prop) (n : nat) (x : A) (l : list A) :
  Forall P l -> P x -> Forall P (set_nth n x l).
Proof.
  intros Hl Hx; revert n; induction Hl as [|h t Hh Ht IH]; intros [|n]; simpl;
    constructor; auto.
Qed.

Lemma nth_repeat_lt {A : Type} (x d : A) (n i : nat) :
  (i < n)%nat -> nth i (repeat x n) d = x.
Proof.
  revert i; induction n as [|n IH]; intros [|i] H; simpl; try lia; auto.
  apply IH; lia.
Qed.

Lemma shape_zeros2 (m n : nat) : shape (zeros2 m n) m n.
Proof.
  unfold shape, zeros2, zeros; split.
  - apply repeat_length.
  - apply Forall_forall; intros r Hr.
    apply repeat_spec in Hr; subst r; apply repeat_length.
Qed.

(** ** basis_vec *)

Lemma py_index_negative (len : nat) (k : Z) :
  (- Z.of_nat len <= k < 0)%Z ->
  py_index len k = Ok (Z.to_nat (Z.of_nat len + k)).
Proof.
  intros H; unfold py_index.
  replace (0 <=? k)%Z with false by (symmetry; apply Z.leb_gt; lia).
  simpl.
  replace (k <? 0)%Z with true by (symmetry; apply Z.ltb_lt; lia).
  replace (- Z.of_nat len <=? k)%Z with true by (symmetry; apply Z.leb_le; lia).
  reflexivity.
Qed.

Lemma py_index_below (len : nat) (k : Z) :
  (k < - Z.of_nat len)%Z -> py_index len k = Raise IndexError.
Proof.
  intros H; unfold py_index.
  replace (0 <=? k)%Z with false by (symmetry; apply Z.leb_gt; lia).
  replace (- Z.of_nat len <=? k)%Z with false by (symmetry; apply Z.leb_gt; lia).
  simpl; rewrite andb_false_r; reflexivity.
Qed.

(** C10: for [n >= 1] and a negative [k] with [-n <= k < 0] the guard
    [k < n] lets [k] through and [basis_vec] returns the [n]-by-1 array
    whose only nonzero entry is a 1 in row [n + k]. *)
Theorem basis_vec_negative_index (k n : Z) :
  (1 <= n)%Z -> (- n <= k < 0)%Z ->
  exists b,
    basis_vec k n = Ok b /\
    shape b (Z.to_nat n) 1 /\
    forall i, (i < Z.to_nat n)%nat ->
      get b i 0 = if (i =? Z.to_nat (n + k))%nat then 1 else 0.
Proof.
  intros Hn Hk.
  unfold basis_vec.
  replace (k <? n)%Z with true by (symmetry; apply Z.ltb_lt; lia).
  replace (n <? 0)%Z with false by (symmetry; apply Z.ltb_ge; lia).
  cbn [assert bind].
  destruct (shape_zeros2 (Z.to_nat n) 1) as [Hlen Hrows].
  rewrite Hlen, py_index_negative by lia.
  rewrite Z2Nat.id by lia.
  cbn [bind].
  set (r := Z.to_nat (n + k)).
  assert (Hr : (r < Z.to_nat n)%nat) by (unfold r; lia).
  eexists; split; [reflexivity|]; split.
  - split.
    + rewrite length_set_nth; exact Hlen.
    + apply Forall_set_nth; [exact Hrows|].
      rewrite length_map.
      unfold zeros2; rewrite nth_repeat_lt by exact Hr.
      apply repeat_length.
  - intros i Hi; unfold get.
    destruct (Nat.eqb_spec i r) as [->|Hne].
    + rewrite nth_set_nth_eq by (rewrite Hlen; exact Hr).
      unfold zeros2; rewrite nth_repeat_lt by exact Hr.
      reflexivity.
    + rewrite nth_set_nth_neq by congruence.
      unfold zeros2; rewrite nth_repeat_lt by exact Hi.
      reflexivity.
Qed.

Lemma basis_vec_negative_index_witness :
  exists b,
    basis_vec (-1) 3 = Ok b /\
    shape b (Z.to_nat 3) 1 /\
    forall i, (i < Z.to_nat 3)%nat ->
      get b i 0 = if (i =? Z.to_nat (3 + -1))%nat then 1 else 0.
Proof. apply basis_vec_negative_index; lia. Defined.

(** Below [-n] it is the indexing, not the guard, that fails. *)
Lemma basis_vec_below_range (k n : Z) :
  (0 <= n)%Z -> (k < - n)%Z -> basis_vec k n = Raise IndexError.
Proof.
  intros Hn Hk; unfold basis_vec.
  replace (k <? n)%Z with true by (symmetry; apply Z.ltb_lt; lia).
  replace (n <? 0)%Z with false by (symmetry; apply Z.ltb_ge; lia).
  cbn [assert bind].
  destruct (shape_zeros2 (Z.to_nat n) 1) as [Hlen _].
  rewrite Hlen, py_index_below by lia.
  reflexivity.
Qed.

Example basis_vec_last_of_3 : basis_vec (-1) 3 = Ok [[0]; [0]; [1]].
Proof. reflexivity. Qed.

(** ** norm *)

Lemma Rleb_true (a b : R) : a <= b -> Rleb a b = true.
Proof. intros H; unfold Rleb; destruct (Rle_dec a b); [reflexivity|contradiction]. Qed.

Lemma Rleb_false (a b : R) : b < a -> Rleb a b = false.
Proof. intros H; unfold Rleb; destruct (Rle_dec a b); [lra|reflexivity]. Qed.

Lemma Rltb_true (a b : R) : a < b -> Rltb a b = true.
Proof. intros H; unfold Rltb; destruct (Rlt_dec a b); [reflexivity|contradiction]. Qed.

Lemma Rltb_false (a b : R) : b <= a -> Rltb a b = false.
Proof. intros H; unfold Rltb; destruct (Rlt_dec a b); [lra|reflexivity]. Qed.

Lemma ndim_flatten (x : ndarray) : ndim (flatten x) = 1%nat.
Proof. destruct x; reflexivity. Qed.

Lemma entries_flatten (x : ndarray) : entries (flatten x) = entries x.
Proof. destruct x; reflexivity. Qed.

Lemma shape0_flatten (x : ndarray) : shape0 (flatten x) = length (entries x).
Proof. destruct x; reflexivity. Qed.

Lemma map_nth_seq_id {A : Type} (d : A) (l : list A) :
  map (fun i => nth i l d) (seq 0 (length l)) = l.
Proof.
  induction l as [|h t IH]; simpl; [reflexivity|].
  rewrite <- seq_shift, map_map; simpl. now rewrite IH.
Qed.

Lemma fold_left_indices {A S : Type} (f : S -> A -> S) (d : A) (l : list A) (s : S) :
  fold_left (fun s i => f s (nth i l d)) (seq 0 (length l)) s = fold_left f l s.
Proof.
  transitivity (fold_left f (map (fun i => nth i l d) (seq 0 (length l))) s).
  - generalize (seq 0 (length l)); intros idx; revert s.
    induction idx as [|i idx IH]; intros s; simpl; auto.
  - now rewrite map_nth_seq_id.
Qed.

Lemma fold_left_map_inner {A B S : Type} (f : S -> B -> S) (g : A -> B)
      (l : list A) (s : S) :
  fold_left (fun s a => f s (g a)) l s = fold_left f (map g l) s.
Proof. revert s; induction l as [|a l IH]; intros s; simpl; auto. Qed.

(** In exact arithmetic the compensation term stays 0 and the running sum
    is the plain sum of the terms added. *)
Lemma KahanSum_exact (l : vec) (s : KahanSum) :
  kcomp s = 0 ->
  fold_left KahanSum_add l s =
  {| ksum := ksum s + fold_right Rplus 0 l; kcomp := 0 |}.
Proof.
  revert s; induction l as [|x l IH]; intros [su c] Hc; simpl in *; subst c.
  - f_equal; lra.
  - rewrite IH by (simpl; lra). simpl. f_equal; lra.
Qed.

(** The error for [p < 1]. *)
Lemma norm_small_p (x : ndarray) (p : R) :
  p < 1 -> norm x p = Raise (AssertionError "p must be >= 1").
Proof.
  intros Hp; unfold norm.
  rewrite ndim_flatten, Rleb_false by exact Hp. reflexivity.
Qed.

(** Otherwise the value is [(sum_i |x_i|^p)^(1/p)] over the flattened
    entries, whatever the dimension of [x]. *)
Lemma norm_value (x : ndarray) (p : R) :
  1 <= p ->
  norm x p =
  Ok (np_power (fold_right Rplus 0 (map (fun a => np_power (Rabs a) p) (entries x)))
               (1 / p)).
Proof.
  intros Hp; unfold norm.
  rewrite ndim_flatten, Rleb_true by exact Hp.
  cbn [Nat.eqb assert bind].
  rewrite shape0_flatten, entries_flatten.
  rewrite (fold_left_indices
             (fun s a => KahanSum_add s (np_power (Rabs a) p)) 0 (entries x)).
  rewrite (fold_left_map_inner KahanSum_add (fun a => np_power (Rabs a) p)).
  rewrite KahanSum_exact by reflexivity.
  unfold cur_sum; simpl. now rewrite Rplus_0_l.
Qed.

(** The check [v.ndim == 1] is made on the flattened copy, so it never fails. *)
Lemma norm_2D_never_raises (rows : matrix) (p : R) :
  1 <= p -> exists r, norm (Nd2 rows) p = Ok r.
Proof. intros Hp; eexists; apply norm_value; exact Hp. Qed.

Lemma np_power_1 (x : R) : 0 <= x -> np_power x 1 = x.
Proof.
  intros Hx; unfold np_power.
  destruct (Req_dec_T x 0) as [->|Hne]; [reflexivity|].
  apply Rpower_1. destruct Hx as [Hx|Hx]; [exact Hx|congruence].
Qed.

(** C2: [norm] on the two-dimensional array [[1, 2], [3, 4]] with [p = 1]
    raises nothing: it returns 10, the 1-norm of the flattened entries. *)
Theorem norm_matrix_input_returns :
  norm (Nd2 [[1; 2]; [3; 4]]) 1 = Ok 10.
Proof.
  rewrite norm_value by lra.
  cbn [entries concat app map fold_right].
  replace (1 / 1) with 1 by lra.
  rewrite !Rabs_pos_eq by lra.
  rewrite (np_power_1 1), (np_power_1 2), (np_power_1 3), (np_power_1 4) by lra.
  rewrite np_power_1 by lra.
  f_equal; lra.
Qed.

(** ** Sums *)

Lemma sumn_ext (n : nat) (f g : nat -> R) :
  (forall i, (i < n)%nat -> f i = g i) -> sumn n f = sumn n g.
Proof.
  induction n as [|n IH]; intros H; simpl; [reflexivity|].
  rewrite IH by (intros; apply H; lia). rewrite H by lia. reflexivity.
Qed.

Lemma sumn_zero (n : nat) (f : nat -> R) :
  (forall i, (i < n)%nat -> f i = 0) -> sumn n f = 0.
Proof.
  induction n as [|n IH]; intros H; simpl; [reflexivity|].
  rewrite IH by (intros; apply H; lia). rewrite H by lia. lra.
Qed.

Lemma sumn_plus (n : nat) (f g : nat -> R) :
  sumn n (fun i => f i + g i) = sumn n f + sumn n g.
Proof. induction n as [|n IH]; simpl; [lra|rewrite IH; lra]. Qed.

Lemma sumn_minus (n : nat) (f g : nat -> R) :
  sumn n (fun i => f i - g i) = sumn n f - sumn n g.
Proof. induction n as [|n IH]; simpl; [lra|rewrite IH; lra]. Qed.

Lemma sumn_scal_l (n : nat) (c : R) (f : nat -> R) :
  sumn n (fun i => c * f i) = c * sumn n f.
Proof. induction n as [|n IH]; simpl; [lra|rewrite IH; lra]. Qed.

Lemma sumn_scal_r (n : nat) (c : R) (f : nat -> R) :
  sumn n (fun i => f i * c) = sumn n f * c.
Proof. induction n as [|n IH]; simpl; [lra|rewrite IH; lra]. Qed.

Lemma sumn_swap (m n : nat) (f : nat -> nat -> R) :
  sumn m (fun i => sumn n (fun j => f i j)) =
  sumn n (fun j => sumn m (fun i => f i j)).
Proof.
  induction m as [|m IH]; simpl.
  - symmetry; apply sumn_zero; reflexivity.
  - rewrite IH, <- sumn_plus. reflexivity.
Qed.

Lemma sumn_delta (n k : nat) (f : nat -> R) :
  (k < n)%nat ->
  sumn n (fun i => (if (k =? i)%nat then 1 else 0) * f i) = f k.
Proof.
  induction n as [|n IH]; intros H; [lia|]. simpl.
  destruct (Nat.eqb_spec k n) as [->|Hne].
  - rewrite sumn_zero; [lra|].
    intros i Hi. destruct (Nat.eqb_spec n i); [lia|lra].
  - rewrite IH by lia. lra.
Qed.

Lemma sumn_delta_r (n k : nat) (f : nat -> R) :
  (k < n)%nat ->
  sumn n (fun i => f i * (if (i =? k)%nat then 1 else 0)) = f k.
Proof.
  intros H. rewrite <- (sumn_delta n k f H). apply sumn_ext; intros i _.
  rewrite (Nat.eqb_sym i k). lra.
Qed.

Lemma sumn_extend (n m : nat) (f : nat -> R) :
  (n <= m)%nat -> (forall i, (n <= i < m)%nat -> f i = 0) -> sumn m f = sumn n f.
Proof.
  intros Hle; induction Hle as [|m Hle IH]; intros H; [reflexivity|].
  simpl. rewrite IH by (intros; apply H; lia). rewrite H by lia. lra.
Qed.

Lemma sumn_nonneg (n : nat) (f : nat -> R) :
  (forall i, (i < n)%nat -> 0 <= f i) -> 0 <= sumn n f.
Proof.
  induction n as [|n IH]; intros H; simpl; [lra|].
  specialize (IH (fun i Hi => H i (Nat.lt_lt_succ_r _ _ Hi))).
  specialize (H n (Nat.lt_succ_diag_r n)). lra.
Qed.

Lemma sumn_shift (n : nat) (f : nat -> R) :
  sumn (S n) f = f 0%nat + sumn n (fun i => f (S i)).
Proof.
  induction n as [|n IH]; [simpl; lra|].
  change (sumn (S (S n)) f) with (sumn (S n) f + f (S n)).
  rewrite IH. simpl. lra.
Qed.

(** ** Vectors and matrices, entry by entry *)

Lemma dot_sumn (x y : vec) (n : nat) :
  (length x <= n)%nat \/ (length y <= n)%nat ->
  dot x y = sumn n (fun i => nth i x 0 * nth i y 0).
Proof.
  revert y n; induction x as [|a x IH]; intros y n H.
  - simpl. symmetry; apply sumn_zero; intros [|i] _; simpl; lra.
  - destruct y as [|b y].
    + simpl. symmetry; apply sumn_zero; intros [|i] _; simpl; lra.
    + destruct n as [|n]; [simpl in H; lia|].
      rewrite sumn_shift. simpl. f_equal.
      apply IH. simpl in H. lia.
Qed.

Lemma dot_comm (x y : vec) : dot x y = dot y x.
Proof.
  revert y; induction x as [|a x IH]; intros [|b y]; simpl; try reflexivity.
  rewrite IH; lra.
Qed.

Lemma length_zip_with {A B C : Type} (f : A -> B -> C) (x : list A) (y : list B) :
  length (zip_with f x y) = Nat.min (length x) (length y).
Proof.
  revert y; induction x as [|a x IH]; intros [|b y]; simpl; auto.
Qed.

Lemma nth_zip_with {A B C : Type} (f : A -> B -> C) (x : list A) (y : list B)
      (i : nat) (da : A) (db : B) (dc : C) :
  (i < length x)%nat -> (i < length y)%nat ->
  nth i (zip_with f x y) dc = f (nth i x da) (nth i y db).
Proof.
  revert y i; induction x as [|a x IH]; intros [|b y] [|i] Hx Hy; simpl in *;
    try lia; auto.
  apply IH; lia.
Qed.

Lemma nth_scal (c : R) (x : vec) (i : nat) :
  nth i (scal c x) 0 = c * nth i x 0.
Proof.
  unfold scal. destruct (Nat.lt_ge_cases i (length x)) as [H|H].
  - rewrite (nth_indep _ 0 (c * 0)) by (rewrite length_map; exact H).
    apply (map_nth (Rmult c)).
  - rewrite !nth_overflow by (rewrite ?length_map; exact H). lra.
Qed.

Lemma length_scal (c : R) (x : vec) : length (scal c x) = length x.
Proof. apply length_map. Qed.

Lemma nth_vadd (x y : vec) (i : nat) :
  length x = length y -> nth i (vadd x y) 0 = nth i x 0 + nth i y 0.
Proof.
  intros H. destruct (Nat.lt_ge_cases i (length x)) as [Hi|Hi].
  - apply nth_zip_with; lia.
  - rewrite !nth_overflow; [lra|lia|lia|].
    unfold vadd; rewrite length_zip_with; lia.
Qed.

Lemma nth_vsub (x y : vec) (i : nat) :
  length x = length y -> nth i (vsub x y) 0 = nth i x 0 - nth i y 0.
Proof.
  intros H. destruct (Nat.lt_ge_cases i (length x)) as [Hi|Hi].
  - apply nth_zip_with; lia.
  - rewrite !nth_overflow; [lra|lia|lia|].
    unfold vsub; rewrite length_zip_with; lia.
Qed.

Lemma length_vadd (x y : vec) :
  length x = length y -> length (vadd x y) = length x.
Proof. intros H; unfold vadd; rewrite length_zip_with; lia. Qed.

Lemma length_vsub (x y : vec) :
  length x = length y -> length (vsub x y) = length x.
Proof. intros H; unfold vsub; rewrite length_zip_with; lia. Qed.

Lemma vec_ext (x y : vec) :
  length x = length y ->
  (forall i, (i < length x)%nat -> nth i x 0 = nth i y 0) -> x = y.
Proof. intros Hl H; apply (nth_ext x y 0 0); assumption. Qed.

Lemma shape_row (A : matrix) (m n i : nat) :
  shape A m n -> (i < m)%nat -> length (nth i A []) = n.
Proof.
  intros [Hm Hn] Hi. rewrite Forall_forall in Hn. apply Hn, nth_In. lia.
Qed.

Lemma get_outside (A : matrix) (m n i j : nat) :
  shape A m n -> (m <= i)%nat \/ (n <= j)%nat -> get A i j = 0.
Proof.
  intros HA H; unfold get.
  destruct (Nat.lt_ge_cases i m) as [Hi|Hi].
  - apply nth_overflow. rewrite (shape_row A m n i HA Hi). lia.
  - rewrite (nth_overflow A) by (destruct HA; lia). destruct j; reflexivity.
Qed.

Lemma matrix_ext (A B : matrix) (m n : nat) :
  shape A m n -> shape B m n ->
  (forall i j, (i < m)%nat -> (j < n)%nat -> get A i j = get B i j) -> A = B.
Proof.
  intros HA HB H.
  apply (nth_ext A B [] []); [destruct HA, HB; congruence|].
  intros i Hi. assert (Him : (i < m)%nat) by (destruct HA; lia).
  apply vec_ext.
  - rewrite (shape_row A m n i HA Him), (shape_row B m n i HB Him); reflexivity.
  - intros j Hj. rewrite (shape_row A m n i HA Him) in Hj. apply H; assumption.
Qed.

Lemma shape_ncols (A : matrix) (m n : nat) :
  shape A m n -> (0 < m)%nat -> ncols A = n.
Proof.
  intros HA Hm. unfold ncols.
  replace (hd [] A) with (nth 0 A []) by (destruct A; reflexivity).
  apply (shape_row A m n 0 HA Hm).
Qed.

Lemma shape_mk (m n : nat) (f : nat -> nat -> R) :
  shape (map (fun i => map (fun j => f i j) (seq 0 n)) (seq 0 m)) m n.
Proof.
  split.
  - rewrite length_map, length_seq; reflexivity.
  - apply Forall_forall; intros r Hr. apply in_map_iff in Hr.
    destruct Hr as [i [<- _]]. rewrite length_map, length_seq; reflexivity.
Qed.

Lemma nth_map_seq {A : Type} (f : nat -> A) (n i : nat) (d : A) :
  (i < n)%nat -> nth i (map f (seq 0 n)) d = f i.
Proof.
  intros H. rewrite (nth_indep _ d (f 0%nat)) by (rewrite length_map, length_seq; exact H).
  rewrite (map_nth f), seq_nth by exact H. reflexivity.
Qed.

Lemma get_mk (m n : nat) (f : nat -> nat -> R) (i j : nat) :
  (i < m)%nat -> (j < n)%nat ->
  get (map (fun i => map (fun j => f i j) (seq 0 n)) (seq 0 m)) i j = f i j.
Proof.
  intros Hi Hj. unfold get.
  rewrite (nth_map_seq (fun i => map (fun j => f i j) (seq 0 n))) by exact Hi.
  apply (nth_map_seq (f i)); exact Hj.
Qed.

Lemma nth_col (A : matrix) (i j : nat) : nth i (col j A) 0 = get A i j.
Proof.
  unfold col, get. destruct (Nat.lt_ge_cases i (length A)) as [H|H].
  - rewrite (nth_indep _ 0 (nth j [] 0)) by (rewrite length_map; exact H).
    apply (map_nth (fun r => nth j r 0)).
  - rewrite (nth_overflow (map _ A)) by (rewrite length_map; exact H).
    rewrite (nth_overflow A) by exact H.
    destruct j; reflexivity.
Qed.

Lemma length_col (A : matrix) (j : nat) : length (col j A) = length A.
Proof. apply length_map. Qed.

Lemma shape_transpose (A : matrix) (m n : nat) :
  shape A m n -> (0 < m)%nat -> shape (transpose A) n m.
Proof.
  intros HA Hm. unfold transpose. rewrite (shape_ncols A m n HA Hm). split.
  - rewrite length_map, length_seq; reflexivity.
  - apply Forall_forall; intros r Hr. apply in_map_iff in Hr.
    destruct Hr as [j [<- _]]. rewrite length_col. destruct HA; assumption.
Qed.

Lemma get_transpose (A : matrix) (m n i j : nat) :
  shape A m n -> (0 < m)%nat -> get (transpose A) i j = get A j i.
Proof.
  intros HA Hm.
  destruct (Nat.lt_ge_cases i n) as [Hi|Hi].
  - unfold get at 1, transpose. rewrite (shape_ncols A m n HA Hm).
    rewrite (nth_map_seq (fun j => col j A)) by exact Hi.
    apply nth_col.
  - rewrite (get_outside (transpose A) n m) by (auto using shape_transpose).
    symmetry; apply (get_outside A m n); auto.
Qed.

Lemma nth_matvec (A : matrix) (v : vec) (i : nat) :
  nth i (matvec A v) 0 = dot (nth i A []) v.
Proof.
  unfold matvec. destruct (Nat.lt_ge_cases i (length A)) as [H|H].
  - rewrite (nth_indep _ 0 (dot [] v)) by (rewrite length_map; exact H).
    apply (map_nth (fun r => dot r v)).
  - rewrite (nth_overflow (map _ A)) by (rewrite length_map; exact H).
    rewrite (nth_overflow A) by exact H. reflexivity.
Qed.

Lemma length_matvec (A : matrix) (v : vec) : length (matvec A v) = length A.
Proof. apply length_map. Qed.

Lemma nth_matvec_sumn (A : matrix) (m n : nat) (v : vec) (i : nat) :
  shape A m n -> (i < m)%nat ->
  nth i (matvec A v) 0 = sumn n (fun k => get A i k * nth k v 0).
Proof.
  intros HA Hi. rewrite nth_matvec. apply dot_sumn.
  left. rewrite (shape_row A m n i HA Hi). lia.
Qed.

Lemma length_vecmat (x : vec) (A : matrix) (m n : nat) :
  shape A m n -> (0 < m)%nat -> length (vecmat x A) = n.
Proof.
  intros HA Hm. unfold vecmat. rewrite length_map.
  destruct (shape_transpose A m n HA Hm); assumption.
Qed.

Lemma nth_vecmat (x : vec) (A : matrix) (m n j : nat) :
  shape A m n -> (0 < m)%nat ->
  nth j (vecmat x A) 0 = sumn m (fun i => nth i x 0 * get A i j).
Proof.
  intros HA Hm. unfold vecmat.
  destruct (Nat.lt_ge_cases j n) as [Hj|Hj].
  - unfold transpose. rewrite (shape_ncols A m n HA Hm), map_map.
    rewrite (nth_map_seq (fun j => dot x (col j A))) by exact Hj.
    rewrite (dot_sumn x (col j A) m) by (right; rewrite length_col; destruct HA; lia).
    apply sumn_ext; intros i _. now rewrite nth_col.
  - rewrite nth_overflow.
    + symmetry; apply sumn_zero; intros i _.
      rewrite (get_outside A m n) by auto. lra.
    + rewrite length_map. destruct (shape_transpose A m n HA Hm) as [-> _]. exact Hj.
Qed.

Lemma shape_mmul (A B : matrix) (m p n : nat) :
  shape A m p -> shape B p n -> (0 < p)%nat -> shape (mmul A B) m n.
Proof.
  intros [HAm HAp] HB Hp. split.
  - unfold mmul; rewrite length_map; exact HAm.
  - apply Forall_forall; intros r Hr. apply in_map_iff in Hr.
    destruct Hr as [a [<- _]]. apply (length_vecmat a B p n HB Hp).
Qed.

Lemma get_mmul (A B : matrix) (m p n i j : nat) :
  shape A m p -> shape B p n -> (0 < p)%nat ->
  get (mmul A B) i j = sumn p (fun k => get A i k * get B k j).
Proof.
  intros HA HB Hp.
  destruct (Nat.lt_ge_cases i m) as [Hi|Hi].
  - unfold get at 1, mmul.
    rewrite (nth_indep _ [] (vecmat [] B)) by (rewrite length_map; destruct HA; lia).
    rewrite (map_nth (fun r => vecmat r B)).
    apply (nth_vecmat _ B p n j HB Hp).
  - rewrite (get_outside (mmul A B) m n) by (eauto using shape_mmul).
    symmetry; apply sumn_zero; intros k _.
    rewrite (get_outside A m p) by auto. lra.
Qed.

Lemma shape_eye (n : nat) : shape (eye n) n n.
Proof. apply shape_mk. Qed.

Lemma get_eye (n i j : nat) :
  (i < n)%nat -> (j < n)%nat -> get (eye n) i j = if (i =? j)%nat then 1 else 0.
Proof. intros Hi Hj. apply (get_mk n n (fun i j => if (i =? j)%nat then 1 else 0)); assumption. Qed.

Lemma shape_zip_with (f : R -> R -> R) (A B : matrix) (m n : nat) :
  shape A m n -> shape B m n -> shape (zip_with (zip_with f) A B) m n.
Proof.
  intros [HAm HAn] [HBm HBn]. split.
  - rewrite length_zip_with; lia.
  - subst m. revert B HBm HBn. induction HAn as [|a A Ha HA IH]; intros [|b B] HBm HBn;
      simpl in *; try discriminate; constructor.
    + rewrite length_zip_with. inversion HBn; subst. lia.
    + apply IH; [lia|]. inversion HBn; assumption.
Qed.

Lemma get_zip_with (f : R -> R -> R) (A B : matrix) (m n i j : nat) :
  shape A m n -> shape B m n -> (i < m)%nat -> (j < n)%nat ->
  get (zip_with (zip_with f) A B) i j = f (get A i j) (get B i j).
Proof.
  intros HA HB Hi Hj. unfold get.
  rewrite (nth_zip_with (zip_with f) A B i [] [] []) by (destruct HA, HB; lia).
  apply nth_zip_with.
  - rewrite (shape_row A m n i HA Hi); exact Hj.
  - rewrite (shape_row B m n i HB Hi); exact Hj.
Qed.

Lemma shape_madd (A B : matrix) (m n : nat) :
  shape A m n -> shape B m n -> shape (madd A B) m n.
Proof. apply shape_zip_with. Qed.

Lemma shape_msub (A B : matrix) (m n : nat) :
  shape A m n -> shape B m n -> shape (msub A B) m n.
Proof. apply shape_zip_with. Qed.

Lemma get_madd (A B : matrix) (m n i j : nat) :
  shape A m n -> shape B m n -> (i < m)%nat -> (j < n)%nat ->
  get (madd A B) i j = get A i j + get B i j.
Proof. apply (get_zip_with Rplus). Qed.

Lemma get_msub (A B : matrix) (m n i j : nat) :
  shape A m n -> shape B m n -> (i < m)%nat -> (j < n)%nat ->
  get (msub A B) i j = get A i j - get B i j.
Proof. apply (get_zip_with Rminus). Qed.

Lemma shape_mscal (c : R) (A : matrix) (m n : nat) :
  shape A m n -> shape (mscal c A) m n.
Proof.
  intros [Hm Hn]. split.
  - unfold mscal; rewrite length_map; exact Hm.
  - apply Forall_forall; intros r Hr. apply in_map_iff in Hr.
    destruct Hr as [a [<- Ha]]. rewrite length_scal.
    rewrite Forall_forall in Hn; auto.
Qed.

Lemma get_mscal (c : R) (A : matrix) (i j : nat) :
  get (mscal c A) i j = c * get A i j.
Proof.
  unfold get, mscal. destruct (Nat.lt_ge_cases i (length A)) as [H|H].
  - rewrite (nth_indep _ [] (scal c [])) by (rewrite length_map; exact H).
    rewrite (map_nth (scal c)). apply nth_scal.
  - rewrite (nth_overflow (map _ A)) by (rewrite length_map; exact H).
    rewrite (nth_overflow A) by exact H. destruct j; simpl; lra.
Qed.

(** ** Matrix algebra *)

Lemma mmul_assoc (A B C : matrix) (m p q n : nat) :
  shape A m p -> shape B p q -> shape C q n -> (0 < p)%nat -> (0 < q)%nat ->
  mmul (mmul A B) C = mmul A (mmul B C).
Proof.
  intros HA HB HC Hp Hq.
  apply (matrix_ext _ _ m n); eauto using shape_mmul.
  intros i j _ _.
  rewrite (get_mmul (mmul A B) C m q n), (get_mmul A (mmul B C) m p n);
    eauto using shape_mmul.
  transitivity (sumn q (fun k => sumn p (fun l => get A i l * get B l k * get C k j))).
  - apply sumn_ext; intros k _.
    rewrite (get_mmul A B m p q) by assumption.
    rewrite <- sumn_scal_r. reflexivity.
  - rewrite sumn_swap. apply sumn_ext; intros l _.
    rewrite (get_mmul B C p q n) by assumption.
    rewrite <- sumn_scal_l. apply sumn_ext; intros k _. lra.
Qed.

Lemma mmul_eye_l (A : matrix) (m n : nat) :
  shape A m n -> (0 < m)%nat -> mmul (eye m) A = A.
Proof.
  intros HA Hm.
  apply (matrix_ext _ _ m n); eauto using shape_mmul, shape_eye.
  intros i j Hi Hj.
  rewrite (get_mmul (eye m) A m m n); eauto using shape_eye.
  rewrite <- (sumn_delta m i (fun k => get A k j) Hi).
  apply sumn_ext; intros k Hk. now rewrite get_eye.
Qed.

Lemma mmul_eye_r (A : matrix) (m n : nat) :
  shape A m n -> (0 < n)%nat -> mmul A (eye n) = A.
Proof.
  intros HA Hn.
  apply (matrix_ext _ _ m n); eauto using shape_mmul, shape_eye.
  intros i j Hi Hj.
  rewrite (get_mmul A (eye n) m n n); eauto using shape_eye.
  rewrite <- (sumn_delta_r n j (fun k => get A i k) Hj).
  apply sumn_ext; intros k Hk. now rewrite get_eye.
Qed.

Lemma transpose_mmul (A B : matrix) (m p n : nat) :
  shape A m p -> shape B p n -> (0 < m)%nat -> (0 < p)%nat ->
  transpose (mmul A B) = mmul (transpose B) (transpose A).
Proof.
  intros HA HB Hm Hp.
  assert (HAB : shape (mmul A B) m n) by eauto using shape_mmul.
  apply (matrix_ext _ _ n m); eauto using shape_mmul, shape_transpose.
  intros i j _ _.
  rewrite (get_transpose (mmul A B) m n) by assumption.
  rewrite (get_mmul A B m p n) by assumption.
  rewrite (get_mmul (transpose B) (transpose A) n p m); eauto using shape_transpose.
  apply sumn_ext; intros k _.
  rewrite (get_transpose B p n), (get_transpose A m p) by assumption. lra.
Qed.

Lemma transpose_involutive (A : matrix) (m n : nat) :
  shape A m n -> (0 < m)%nat -> (0 < n)%nat -> transpose (transpose A) = A.
Proof.
  intros HA Hm Hn.
  apply (matrix_ext _ _ m n); eauto using shape_transpose.
  intros i j _ _.
  rewrite (get_transpose (transpose A) n m); eauto using shape_transpose.
  apply (get_transpose A m n); assumption.
Qed.

Lemma transpose_eye (n : nat) : (0 < n)%nat -> transpose (eye n) = eye n.
Proof.
  intros Hn.
  apply (matrix_ext _ _ n n); eauto using shape_transpose, shape_eye.
  intros i j Hi Hj.
  rewrite (get_transpose (eye n) n n), !get_eye; eauto using shape_eye.
  now rewrite Nat.eqb_sym.
Qed.

Lemma mmul_madd_l (A B C : matrix) (m p n : nat) :
  shape A m p -> shape B m p -> shape C p n -> (0 < p)%nat ->
  mmul (madd A B) C = madd (mmul A C) (mmul B C).
Proof.
  intros HA HB HC Hp.
  apply (matrix_ext _ _ m n); eauto using shape_mmul, shape_madd.
  intros i j Hi Hj.
  rewrite (get_madd _ _ m n); eauto using shape_mmul.
  rewrite !(get_mmul _ C m p n); eauto using shape_madd.
  rewrite <- sumn_plus. apply sumn_ext; intros k Hk.
  rewrite (get_madd A B m p) by assumption. lra.
Qed.

Lemma mmul_madd_r (A B C : matrix) (m p n : nat) :
  shape A m p -> shape B p n -> shape C p n -> (0 < p)%nat ->
  mmul A (madd B C) = madd (mmul A B) (mmul A C).
Proof.
  intros HA HB HC Hp.
  apply (matrix_ext _ _ m n); eauto using shape_mmul, shape_madd.
  intros i j Hi Hj.
  rewrite (get_madd _ _ m n); eauto using shape_mmul.
  rewrite !(get_mmul A _ m p n); eauto using shape_madd.
  rewrite <- sumn_plus. apply sumn_ext; intros k Hk.
  rewrite (get_madd B C p n) by assumption. lra.
Qed.

Lemma mmul_msub_l (A B C : matrix) (m p n : nat) :
  shape A m p -> shape B m p -> shape C p n -> (0 < p)%nat ->
  mmul (msub A B) C = msub (mmul A C) (mmul B C).
Proof.
  intros HA HB HC Hp.
  apply (matrix_ext _ _ m n); eauto using shape_mmul, shape_msub.
  intros i j Hi Hj.
  rewrite (get_msub _ _ m n); eauto using shape_mmul.
  rewrite !(get_mmul _ C m p n); eauto using shape_msub.
  rewrite <- sumn_minus. apply sumn_ext; intros k Hk.
  rewrite (get_msub A B m p) by assumption. lra.
Qed.

Lemma mmul_msub_r (A B C : matrix) (m p n : nat) :
  shape A m p -> shape B p n -> shape C p n -> (0 < p)%nat ->
  mmul A (msub B C) = msub (mmul A B) (mmul A C).
Proof.
  intros HA HB HC Hp.
  apply (matrix_ext _ _ m n); eauto using shape_mmul, shape_msub.
  intros i j Hi Hj.
  rewrite (get_msub _ _ m n); eauto using shape_mmul.
  rewrite !(get_mmul A _ m p n); eauto using shape_msub.
  rewrite <- sumn_minus. apply sumn_ext; intros k Hk.
  rewrite (get_msub B C p n) by assumption. lra.
Qed.

Lemma mmul_mscal_l (c : R) (A B : matrix) (m p n : nat) :
  shape A m p -> shape B p n -> (0 < p)%nat ->
  mmul (mscal c A) B = mscal c (mmul A B).
Proof.
  intros HA HB Hp.
  apply (matrix_ext _ _ m n); eauto using shape_mmul, shape_mscal.
  intros i j Hi Hj.
  rewrite get_mscal, !(get_mmul _ B m p n); eauto using shape_mscal.
  rewrite <- sumn_scal_l. apply sumn_ext; intros k Hk.
  rewrite get_mscal. lra.
Qed.

Lemma mmul_mscal_r (c : R) (A B : matrix) (m p n : nat) :
  shape A m p -> shape B p n -> (0 < p)%nat ->
  mmul A (mscal c B) = mscal c (mmul A B).
Proof.
  intros HA HB Hp.
  apply (matrix_ext _ _ m n); eauto using shape_mmul, shape_mscal.
  intros i j Hi Hj.
  rewrite get_mscal, !(get_mmul A _ m p n); eauto using shape_mscal.
  rewrite <- sumn_scal_l. apply sumn_ext; intros k Hk.
  rewrite get_mscal. lra.
Qed.

(** [A @ v] against [w] is [v] against [A.T @ w]. *)
Lemma dot_matvec_adjoint (A : matrix) (m n : nat) (v w : vec) :
  shape A m n -> (0 < m)%nat -> length v = n -> length w = m ->
  dot (matvec A v) w = dot v (matvec (transpose A) w).
Proof.
  intros HA Hm Hv Hw.
  rewrite (dot_sumn (matvec A v) w m) by (right; lia).
  rewrite (dot_sumn v (matvec (transpose A) w) n) by (left; lia).
  transitivity (sumn m (fun i => sumn n (fun k => get A i k * nth k v 0 * nth i w 0))).
  - apply sumn_ext; intros i Hi.
    rewrite (nth_matvec_sumn A m n v i HA Hi), <- sumn_scal_r. reflexivity.
  - rewrite sumn_swap. apply sumn_ext; intros k Hk.
    rewrite (nth_matvec_sumn (transpose A) n m w k) by (auto using shape_transpose).
    rewrite <- sumn_scal_l. apply sumn_ext; intros i Hi.
    rewrite (get_transpose A m n) by assumption. lra.
Qed.

(** ** Norms and closeness *)

Lemma dot_self_nonneg (x : vec) : 0 <= dot x x.
Proof. induction x as [|a x IH]; simpl; [lra|nra]. Qed.

Lemma dot_self_eq0 (x : vec) : dot x x = 0 -> x = zeros (length x).
Proof.
  induction x as [|a x IH]; simpl; intros H; [reflexivity|].
  pose proof (dot_self_nonneg x) as Hx.
  assert (Ha : a = 0) by nra. subst a.
  unfold zeros in *; simpl. f_equal. apply IH. nra.
Qed.

Lemma dot_zeros_r (x : vec) (n : nat) : dot x (zeros n) = 0.
Proof.
  revert n; induction x as [|a x IH]; intros [|n]; simpl; try reflexivity.
  unfold zeros in IH. rewrite IH. lra.
Qed.

Lemma dot_self_pos (x : vec) : x <> zeros (length x) -> 0 < dot x x.
Proof.
  intros H. destruct (dot_self_nonneg x) as [Hp|Hz]; [exact Hp|].
  exfalso; apply H, dot_self_eq0; auto.
Qed.

Lemma dot_div_l (x y : vec) (c : R) :
  dot (map (fun a => a / c) x) y = dot x y / c.
Proof.
  revert y; induction x as [|a x IH]; intros [|b y]; simpl;
    try (unfold Rdiv; lra). rewrite IH. unfold Rdiv; lra.
Qed.

Lemma dot_div_r (x y : vec) (c : R) :
  dot x (map (fun a => a / c) y) = dot x y / c.
Proof. rewrite dot_comm, dot_div_l, dot_comm. reflexivity. Qed.

Lemma matvec_div (A : matrix) (v : vec) (c : R) :
  matvec A (map (fun a => a / c) v) = map (fun a => a / c) (matvec A v).
Proof.
  unfold matvec. rewrite map_map. apply map_ext; intros r. apply dot_div_r.
Qed.

Lemma l2_norm_pos (x : vec) : 0 < dot x x -> 0 < l2_norm x.
Proof. intros H; unfold l2_norm; apply sqrt_lt_R0; exact H. Qed.

Lemma l2_norm_sqr (x : vec) : l2_norm x * l2_norm x = dot x x.
Proof. unfold l2_norm; apply sqrt_sqrt, dot_self_nonneg. Qed.

Lemma isclose_refl (a : R) : isclose a a = true.
Proof.
  unfold isclose, atol, rtol. apply Rleb_true.
  rewrite Rminus_diag, Rabs_R0. pose proof (Rabs_pos a). lra.
Qed.

Lemma allclose_refl (A : matrix) : allclose A A = true.
Proof.
  unfold allclose. apply forallb_forall. intros [r r'] Hr.
  apply forallb_forall. intros [a a'] Ha. simpl in *.
  assert (r = r').
  { clear Ha. induction A as [|x A IH]; simpl in Hr; [contradiction|].
    destruct Hr as [Hr|Hr]; [congruence|auto]. }
  subst r'.
  assert (a = a').
  { clear Hr. induction r as [|x r IH]; simpl in Ha; [contradiction|].
    destruct Ha as [Ha|Ha]; [congruence|auto]. }
  subst a'. apply isclose_refl.
Qed.

(** An exactly symmetric matrix passes the test of [is_symmetric]. *)
Lemma symmetric_is_symmetric (A : matrix) : symmetric A -> is_symmetric A = true.
Proof. unfold symmetric, is_symmetric. intros ->. apply allclose_refl. Qed.

(** ** rayleigh_quotient *)

(** C4: for a nonzero [x], [rayleigh_quotient(A, x)] is [x.T A x / x.T x]
    unless [x.T x] is close to 1, when it is the numerator [x.T A x]
    undivided; for [x.T x = 1] the two agree. *)
Theorem rayleigh_quotient_spec (A : matrix) (x : vec) :
  x <> zeros (length x) ->
  (isclose (dot x x) 1 = false ->
   rayleigh_quotient A x = Ok (dot (vecmat x A) x / dot x x)) /\
  (isclose (dot x x) 1 = true ->
   rayleigh_quotient A x = Ok (dot (vecmat x A) x)) /\
  (dot x x = 1 ->
   rayleigh_quotient A x = Ok (dot (vecmat x A) x) /\
   dot (vecmat x A) x = dot (vecmat x A) x / dot x x).
Proof.
  intros Hx. pose proof (dot_self_pos x Hx) as Hpos.
  unfold rayleigh_quotient. repeat split.
  - intros ->. unfold fdiv. destruct (Req_dec_T (dot x x) 0); [lra|reflexivity].
  - intros ->. reflexivity.
  - rewrite H, isclose_refl. reflexivity.
  - rewrite H. lra.
Qed.

Lemma rayleigh_quotient_spec_witness :
  (isclose (dot [1; 0] [1; 0]) 1 = false ->
   rayleigh_quotient [[2; 0]; [0; 1]] [1; 0]
   = Ok (dot (vecmat [1; 0] [[2; 0]; [0; 1]]) [1; 0] / dot [1; 0] [1; 0])) /\
  (isclose (dot [1; 0] [1; 0]) 1 = true ->
   rayleigh_quotient [[2; 0]; [0; 1]] [1; 0]
   = Ok (dot (vecmat [1; 0] [[2; 0]; [0; 1]]) [1; 0])) /\
  (dot [1; 0] [1; 0] = 1 ->
   rayleigh_quotient [[2; 0]; [0; 1]] [1; 0]
   = Ok (dot (vecmat [1; 0] [[2; 0]; [0; 1]]) [1; 0]) /\
   dot (vecmat [1; 0] [[2; 0]; [0; 1]]) [1; 0]
   = dot (vecmat [1; 0] [[2; 0]; [0; 1]]) [1; 0] / dot [1; 0] [1; 0]).
Proof.
  apply (rayleigh_quotient_spec [[2; 0]; [0; 1]] [1; 0]).
  simpl. intros H. injection H as H. lra.
Defined.

(** The numerator [x.T @ A @ x] read as [x . (A x)]. *)
Lemma quadratic_form (A : matrix) (n : nat) (x : vec) :
  shape A n n -> (0 < n)%nat -> length x = n ->
  dot (vecmat x A) x = dot x (matvec A x).
Proof.
  intros HA Hn Hx.
  rewrite (dot_sumn (vecmat x A) x n) by (right; lia).
  rewrite (dot_sumn x (matvec A x) n) by (left; lia).
  transitivity (sumn n (fun j => sumn n (fun i => nth i x 0 * get A i j * nth j x 0))).
  - apply sumn_ext; intros j _.
    rewrite (nth_vecmat x A n n j HA Hn), <- sumn_scal_r. reflexivity.
  - rewrite sumn_swap. apply sumn_ext; intros i Hi.
    rewrite (nth_matvec_sumn A n n x i HA Hi), <- sumn_scal_l.
    apply sumn_ext; intros j _. lra.
Qed.

(** ** power_iteration *)

Section PowerIteration.

Variable A : matrix.
Variable N : nat.
Hypothesis A_shape : shape A N N.
Hypothesis A_symm : symmetric A.
Hypothesis N_pos : (0 < N)%nat.

(** For a symmetric [A], [A (A v)] vanishes only if [A v] does. *)
Lemma symmetric_image_nonzero (v : vec) :
  length v = N ->
  0 < dot (matvec A v) (matvec A v) ->
  0 < dot (matvec A (matvec A v)) (matvec A (matvec A v)).
Proof.
  intros Hv Hpos. set (u := matvec A v) in *.
  assert (Hu : length u = N) by (unfold u; rewrite length_matvec; apply A_shape).
  apply dot_self_pos. intros Hz.
  assert (H0 : dot u u = 0).
  { unfold u at 1.
    rewrite (dot_matvec_adjoint A N N v u A_shape N_pos Hv Hu).
    rewrite A_symm, Hz. apply dot_zeros_r. }
  lra.
Qed.

(** What one pass keeps: the length, a nonzero image, and norm 1. *)
Lemma power_step_invariant (v : vec) :
  length v = N ->
  0 < dot (matvec A v) (matvec A v) ->
  vdiv (matvec A v) (l2_norm (matvec A v)) = Ok (power_step A v) /\
  length (power_step A v) = N /\
  0 < dot (matvec A (power_step A v)) (matvec A (power_step A v)) /\
  dot (power_step A v) (power_step A v) = 1.
Proof.
  intros Hv Hpos.
  pose proof (l2_norm_pos _ Hpos) as Hn.
  pose proof (l2_norm_sqr (matvec A v)) as Hsq.
  pose proof (symmetric_image_nonzero v Hv Hpos) as Himg.
  unfold power_step. set (u := matvec A v) in *. set (c := l2_norm u) in *.
  assert (Hc : c <> 0) by lra.
  repeat split.
  - unfold vdiv. destruct u as [|a u'] eqn:Eu.
    + simpl in Hpos; lra.
    + destruct (Req_dec_T c 0); [contradiction|reflexivity].
  - rewrite length_map. unfold u. rewrite length_matvec. apply A_shape.
  - rewrite matvec_div, dot_div_l, dot_div_r.
    unfold Rdiv. rewrite Rmult_assoc.
    apply Rmult_lt_0_compat; [exact Himg|].
    apply Rmult_lt_0_compat; apply Rinv_0_lt_compat; exact Hn.
  - rewrite dot_div_l, dot_div_r, <- Hsq. field. exact Hc.
Qed.

Lemma power_loop (n : nat) (i0 : nat) (v : vec) :
  length v = N ->
  0 < dot (matvec A v) (matvec A v) ->
  for_loop (seq i0 n)
    (fun _ v => let v := matvec A v in vdiv v (l2_norm v)) v
  = Ok (Nat.iter n (power_step A) v) /\
  length (Nat.iter n (power_step A) v) = N /\
  ((1 <= n)%nat ->
   dot (Nat.iter n (power_step A) v) (Nat.iter n (power_step A) v) = 1).
Proof.
  revert i0 v; induction n as [|n IH]; intros i0 v Hv Hpos.
  - simpl. repeat split; [exact Hv|lia].
  - destruct (power_step_invariant v Hv Hpos) as (Hdiv & Hlen & Himg & Hone).
    destruct (IH (S i0) (power_step A v) Hlen Himg) as (Hrun & Hl & Hn).
    rewrite Nat.iter_succ_r. cbn [seq for_loop]. cbv zeta.
    rewrite Hdiv. cbn [bind]. repeat split; [exact Hrun|exact Hl|].
    intros _. destruct n as [|n]; [exact Hone|apply Hn; lia].
Qed.

End PowerIteration.

(** C3: on a symmetric [A] and a start vector [v0] with [A v0 <> 0],
    [power_iteration(A, max_iter)] with [max_iter >= 1] makes exactly
    [max_iter] passes of [v <- A v / |A v|], with no early exit, and returns
    the Rayleigh quotient of the last vector together with that vector,
    whose L2 norm is 1. *)
Theorem power_iteration_spec (A : matrix) (N max_iter : nat) (w : world) :
  shape A N N -> symmetric A -> (1 <= max_iter)%nat ->
  matvec A (drawn N w) <> zeros N ->
  exists e v w',
    power_iteration A max_iter w = Ok ((e, v), w') /\
    v = Nat.iter max_iter (power_step A) (drawn N w) /\
    rayleigh_quotient A v = Ok e /\
    e = dot v (matvec A v) / dot v v /\
    l2_norm v = 1.
Proof.
  intros HA Hsym Hit Himg.
  assert (HN : (0 < N)%nat).
  { destruct N; [|lia]. exfalso; apply Himg.
    destruct HA as [HA _]. destruct A; [reflexivity|discriminate]. }
  assert (Hv0 : length (drawn N w) = N)
    by (unfold drawn; rewrite length_map, length_seq; reflexivity).
  assert (Hpos : 0 < dot (matvec A (drawn N w)) (matvec A (drawn N w))).
  { apply dot_self_pos. rewrite length_matvec.
    destruct HA as [-> _]. exact Himg. }
  destruct (power_loop A N HA Hsym HN max_iter 0 (drawn N w) Hv0 Hpos)
    as (Hrun & Hlen & Hone).
  specialize (Hone Hit).
  set (v := Nat.iter max_iter (power_step A) (drawn N w)) in *.
  exists (dot (vecmat v A) v), v.
  eexists. repeat split.
  - unfold power_iteration, mbind, lift, ret, randn, for_range.
    rewrite (symmetric_is_symmetric A Hsym). cbn [assert].
    unfold nrows. destruct HA as [HAl HAr]. rewrite HAl.
    fold (drawn N w). cbv zeta in Hrun. rewrite Hrun.
    unfold rayleigh_quotient. rewrite Hone, isclose_refl. reflexivity.
  - unfold rayleigh_quotient. rewrite Hone, isclose_refl. reflexivity.
  - rewrite Hone, (quadratic_form A N v HA HN Hlen). lra.
  - unfold l2_norm. rewrite Hone. apply sqrt_1.
Qed.

Lemma shape_diag21 : shape diag21 2 2.
Proof. split; [reflexivity|repeat constructor]. Qed.

Lemma symmetric_diag21 : symmetric diag21.
Proof. reflexivity. Qed.

Lemma power_iteration_spec_witness :
  exists e v w',
    power_iteration diag21 1 ones_world = Ok ((e, v), w') /\
    v = Nat.iter 1 (power_step diag21) (drawn 2 ones_world) /\
    rayleigh_quotient diag21 v = Ok e /\
    e = dot v (matvec diag21 v) / dot v v /\
    l2_norm v = 1.
Proof.
  apply (power_iteration_spec diag21 2 1 ones_world).
  - exact shape_diag21.
  - exact symmetric_diag21.
  - lia.
  - simpl. intros H. injection H as H1 H2. lra.
Defined.

(** ** Runs of routines that return *)

Lemma mbind_ok {A B : Type} (m : py A) (k : A -> py B) (w w' : world) (b : B) :
  mbind m k w = Ok (b, w') ->
  exists a w1, m w = Ok (a, w1) /\ k a w1 = Ok (b, w').
Proof.
  unfold mbind. destruct (m w) as [[a w1]|e]; [|discriminate].
  intros H. exists a, w1. auto.
Qed.

Lemma lift_ok {A : Type} (r : result A) (w w' : world) (a : A) :
  lift r w = Ok (a, w') -> r = Ok a /\ w' = w.
Proof.
  unfold lift. destruct r as [x|e]; [|discriminate].
  intros H. injection H as -> ->. auto.
Qed.

Lemma ret_ok {A : Type} (a b : A) (w w' : world) :
  ret a w = Ok (b, w') -> b = a /\ w' = w.
Proof. unfold ret. intros H. injection H as -> ->. auto. Qed.

Lemma record_ok (c : call) (w w' : world) (u : unit) :
  record c w = Ok (u, w') -> gen w' = gen w /\ calls w' = calls w ++ [c].
Proof. unfold record. intros H. injection H as _ <-. auto. Qed.

Lemma randn_ok (n : nat) (w w' : world) (v : vec) :
  randn n w = Ok (v, w') -> v = drawn n w /\ calls w' = calls w.
Proof. unfold randn. intros H. injection H as <- <-. auto. Qed.

Lemma assert_ok (c : bool) (msg : string) (u : unit) :
  assert c msg = Ok u -> c = true.
Proof. destruct c; [reflexivity|discriminate]. Qed.

Lemma bind_ok {A B : Type} (m : result A) (k : A -> result B) (b : B) :
  bind m k = Ok b -> exists a, m = Ok a /\ k a = Ok b.
Proof. destruct m as [a|e]; [|discriminate]. intros H. exists a. auto. Qed.

(** Take a returning run apart, one call at a time. *)
Ltac py_inv H :=
  lazymatch type of H with
  | mbind _ _ _ = Ok _ =>
      let a := fresh "a" in let w1 := fresh "w" in
      let H1 := fresh "H" in let H2 := fresh "H" in
      apply mbind_ok in H; destruct H as (a & w1 & H1 & H2);
      py_inv H1; py_inv H2
  | lift _ _ = Ok _ =>
      let H1 := fresh "H" in let H2 := fresh "H" in
      apply lift_ok in H; destruct H as (H1 & H2); try subst
  | ret _ _ = Ok _ =>
      let H1 := fresh "H" in let H2 := fresh "H" in
      apply ret_ok in H; destruct H as (H1 & H2); try subst
  | record _ _ = Ok _ =>
      let H1 := fresh "H" in let H2 := fresh "H" in
      apply record_ok in H; destruct H as (H1 & H2)
  | randn _ _ = Ok _ =>
      let H1 := fresh "H" in let H2 := fresh "H" in
      apply randn_ok in H; destruct H as (H1 & H2); try subst
  | _ => idtac
  end.

(** ** eig *)

(** C8: [eig(A, sort)] is [qr_algorithm(A, hess=True, sort=sort)]: same
    result, same calls, same use of the generator, on every input. *)
Theorem eig_is_qr_algorithm
    (sign : R -> R) (solve : solve_arg -> vec -> result vec)
    (QR_decompose : matrix -> result (matrix * matrix))
    (A : matrix) (sort : bool) (w : world) :
  eig sign solve QR_decompose A sort w =
  qr_algorithm sign solve QR_decompose A true sort w.
Proof.
  unfold eig, mbind, ret.
  destruct (qr_algorithm sign solve QR_decompose A true sort w) as [[[e v] w']|err];
    reflexivity.
Qed.

(** ** inverse_iteration *)

Section InverseIteration.

Variable LU_decompose : matrix -> string -> result (list matrix).
Variable solve : solve_arg -> vec -> result vec.
Variable PLU : list matrix.

Lemma inverse_loop (n i0 : nat) (v vend : vec) (w w' : world) :
  mfor_loop (seq i0 n)
    (fun _ v =>
       v <~ call_solve solve (Factors PLU) v ;;
       v <~ lift (vdiv v (l2_norm v)) ;;
       ret (Continue v)) v w = Ok (vend, w') ->
  exists vs,
    length vs = n /\
    calls w' = calls w ++ map (CallSolve (Factors PLU)) vs /\
    inverse_chain solve PLU v vs vend.
Proof.
  revert i0 v w; induction n as [|n IH]; intros i0 v w H.
  - cbn in H. injection H as -> ->. exists []. simpl.
    rewrite app_nil_r. repeat split. constructor.
  - cbn [seq mfor_loop] in H. unfold call_solve in H.
    apply mbind_ok in H. destruct H as (c & w1 & Hbody & Hrest).
    py_inv Hbody.
    apply IH in Hrest. destruct Hrest as (vs & Hlen & Hcalls & Hchain).
    exists (v :: vs). simpl. repeat split.
    + now rewrite Hlen.
    + rewrite Hcalls. simpl.
      match goal with Hc : calls _ = calls w ++ _ |- _ => rewrite Hc end.
      rewrite <- app_assoc. reflexivity.
    + econstructor; eassumption.
Qed.

End InverseIteration.


Lemma count_LU_app (xs ys : list call) :
  count_LU (xs ++ ys) = (count_LU xs + count_LU ys)%nat.
Proof. unfold count_LU. now rewrite filter_app, length_app. Qed.


Lemma vdiv_normalized (x : vec) :
  0 < dot x x -> vdiv x (l2_norm x) = Ok (normalized x).
Proof.
  intros H. pose proof (l2_norm_pos x H) as Hn.
  unfold vdiv. destruct x as [|a x]; [simpl in H; lra|].
  destruct (Req_dec_T (l2_norm (a :: x)) 0); [lra|reflexivity].
Qed.

Lemma dot_normalized (x : vec) :
  0 < dot x x -> dot (normalized x) (normalized x) = 1.
Proof.
  intros H. pose proof (l2_norm_pos x H) as Hn.
  unfold normalized. rewrite dot_div_l, dot_div_r, <- (l2_norm_sqr x).
  field. lra.
Qed.

Lemma rayleigh_quotient_unit (A : matrix) (x : vec) :
  dot x x = 1 -> rayleigh_quotient A x = Ok (dot (vecmat x A) x).
Proof. intros H. unfold rayleigh_quotient. now rewrite H, isclose_refl. Qed.


(** ** Loops and sorting *)

Lemma mfor_loop_invariant {S : Type} (P : S -> Prop) (idx : list nat)
      (body : nat -> S -> py (ctl S)) (s s' : S) (w w' : world) :
  (forall i s w c w', P s -> body i s w = Ok (c, w') -> P (ctl_state c)) ->
  P s -> mfor_loop idx body s w = Ok (s', w') -> P s'.
Proof.
  intros Hbody. revert s w. induction idx as [|i idx IH]; intros s w Hs H.
  - cbn in H. injection H as <- _. exact Hs.
  - cbn [mfor_loop] in H. apply mbind_ok in H.
    destruct H as (c & w1 & Hc & Hrest).
    pose proof (Hbody i s w c w1 Hs Hc) as Hc'.
    destruct c as [s1|s1]; simpl in Hc'.
    + eapply IH; eassumption.
    + apply ret_ok in Hrest. destruct Hrest as [-> _]. exact Hc'.
Qed.

Lemma insert_by_perm (key : nat -> R) (i : nat) (l : list nat) :
  Permutation (insert_by key i l) (i :: l).
Proof.
  induction l as [|j l IH]; simpl; [reflexivity|].
  destruct (Rltb (key i) (key j)); [reflexivity|].
  rewrite IH. apply perm_swap.
Qed.

Lemma argsort_perm (x : vec) : Permutation (argsort x) (seq 0 (length x)).
Proof.
  unfold argsort.
  assert (H : forall idx acc,
             Permutation (fold_left (fun acc i => insert_by (fun j => nth j x 0) i acc)
                                    idx acc)
                         (idx ++ acc)).
  { induction idx as [|i idx IH]; intros acc; simpl; [reflexivity|].
    rewrite IH, insert_by_perm. symmetry. apply Permutation_middle. }
  rewrite H, app_nil_r. reflexivity.
Qed.

Lemma argsort_length (x : vec) : length (argsort x) = length x.
Proof.
  rewrite (Permutation_length (argsort_perm x)). apply length_seq.
Qed.

Lemma insert_by_sorted (key : nat -> R) (i : nat) (l : list nat) :
  StronglySorted (fun a b => key a <= key b) l ->
  StronglySorted (fun a b => key a <= key b) (insert_by key i l).
Proof.
  intros Hl. induction Hl as [|j l Hl IH Hj]; simpl.
  - constructor; constructor.
  - unfold Rltb. destruct (Rlt_dec (key i) (key j)) as [Hlt|Hge].
    + constructor; [constructor; assumption|].
      constructor; [lra|].
      eapply Forall_impl; [|exact Hj]. simpl. intros a Ha. lra.
    + constructor; [exact IH|].
      apply (Permutation_Forall (Permutation_sym (insert_by_perm key i l))).
      constructor; [lra|exact Hj].
Qed.

Lemma argsort_sorted (x : vec) :
  StronglySorted (fun a b => nth a x 0 <= nth b x 0) (argsort x).
Proof.
  unfold argsort.
  assert (H : forall idx acc,
             StronglySorted (fun a b => nth a x 0 <= nth b x 0) acc ->
             StronglySorted (fun a b => nth a x 0 <= nth b x 0)
               (fold_left (fun acc i => insert_by (fun j => nth j x 0) i acc) idx acc)).
  { induction idx as [|i idx IH]; intros acc Hacc; simpl; [exact Hacc|].
    apply IH. apply (insert_by_sorted (fun j => nth j x 0)). exact Hacc. }
  apply H. constructor.
Qed.

Lemma StronglySorted_snoc {A : Type} (R : A -> A -> Prop) (l : list A) (a : A) :
  StronglySorted R l -> Forall (fun x => R x a) l -> StronglySorted R (l ++ [a]).
Proof.
  intros Hl. induction Hl as [|b l Hl IH Hb]; intros Ha; simpl.
  - constructor; constructor.
  - inversion Ha; subst. constructor; [apply IH; assumption|].
    apply Forall_app. split; [exact Hb|]. constructor; [assumption|constructor].
Qed.

Lemma StronglySorted_rev {A : Type} (R : A -> A -> Prop) (l : list A) :
  StronglySorted R l -> StronglySorted (fun a b => R b a) (rev l).
Proof.
  intros Hl. induction Hl as [|b l Hl IH Hb]; simpl; [constructor|].
  apply StronglySorted_snoc; [exact IH|].
  apply Forall_rev. exact Hb.
Qed.

Lemma StronglySorted_map {A B : Type} (R : B -> B -> Prop) (f : A -> B) (l : list A) :
  StronglySorted (fun a b => R (f a) (f b)) l -> StronglySorted R (map f l).
Proof.
  intros Hl. induction Hl as [|a l Hl IH Ha]; simpl; constructor; [exact IH|].
  apply Forall_map. exact Ha.
Qed.

Lemma StronglySorted_impl {A : Type} (R R' : A -> A -> Prop) (l : list A) :
  (forall a b, R a b -> R' a b) -> StronglySorted R l -> StronglySorted R' l.
Proof.
  intros HR Hl. induction Hl as [|a l Hl IH Ha]; constructor; [exact IH|].
  eapply Forall_impl; [|exact Ha]. intros b. apply HR.
Qed.

(** Where the sort goes through, the eigenvalues come out in decreasing
    order of absolute value, and values and columns are taken by one and
    the same permutation of the indices. *)
Lemma sort_eigen_sorted (k : nat) (eigvals eigvals' : vec) (eigvecs eigvecs' : matrix) :
  sort_eigen k eigvals eigvecs = Ok (eigvals', eigvecs') ->
  exists idx,
    Permutation idx (seq 0 (length eigvals)) /\
    eigvals' = map (fun j => nth j eigvals 0) idx /\
    eigvecs' = map (fun r => map (fun j => nth j r 0) idx) eigvecs /\
    decreasing_abs eigvals'.
Proof.
  unfold sort_eigen, take_cols, take. intros H.
  set (idx := rev (argsort (map Rabs eigvals))) in *.
  destruct (forallb (fun j => j <? k)%nat idx); [|discriminate].
  cbn [bind] in H.
  destruct (forallb (fun j => j <? length eigvals)%nat idx); [|discriminate].
  cbn [bind] in H. injection H as <- <-.
  exists idx. split; [|split; [reflexivity|split; [reflexivity|]]].
  - unfold idx. rewrite <- Permutation_rev, argsort_perm, length_map. reflexivity.
  - unfold decreasing_abs.
    apply (StronglySorted_map (fun x y => Rabs y <= Rabs x) (fun j => nth j eigvals 0)).
    unfold idx.
    apply (StronglySorted_rev (fun a b => Rabs (nth a eigvals 0) <= Rabs (nth b eigvals 0))).
    pose proof (argsort_sorted (map Rabs eigvals)) as Hs.
    eapply StronglySorted_impl; [|exact Hs].
    intros a b Hab.
    assert (Hn : forall j, nth j (map Rabs eigvals) 0 = Rabs (nth j eigvals 0)).
    { intros j. rewrite <- Rabs_R0 at 1. apply (map_nth Rabs). }
    now rewrite <- !Hn.
Qed.

(** ** projected_iteration *)

Section ProjectedIteration.

Variable projection : vec -> vec -> result vec.
Variable normalize : vec -> result vec.

(** The array of eigenvalues is allocated with [A.shape[0]] entries and
    keeps that length, whatever [k] is. *)
Lemma projected_iteration_eigvals_length
      (A : matrix) (k : Z) (max_iter : nat) (sort : bool)
      (w w' : world) (eigvals : vec) (eigvecs : matrix) :
  projected_iteration projection normalize A k max_iter sort w
  = Ok ((eigvals, eigvecs), w') ->
  length eigvals = nrows A.
Proof.
  unfold projected_iteration, mfor_range. intros H.
  apply mbind_ok in H. destruct H as (u1 & w1 & _ & H).
  apply mbind_ok in H. destruct H as (u2 & w2 & _ & H).
  apply mbind_ok in H. destruct H as (st & w3 & Hloop & H).
  assert (Hst : length (fst st) = nrows A).
  { revert Hloop. apply (mfor_loop_invariant (fun st => length (fst st) = nrows A)).
    - intros i s w0 c w0' Hs Hb. py_inv Hb. simpl.
      rewrite length_set_nth. exact Hs.
    - simpl. apply repeat_length. }
  destruct sort.
  - apply lift_ok in H. destruct H as [H _]. unfold sort_eigen in H.
    apply bind_ok in H. destruct H as (vecs' & _ & H).
    apply bind_ok in H. destruct H as (vals' & Ht & H).
    injection H as <- <-. unfold take in Ht.
    destruct (forallb _ _); [|discriminate]. injection Ht as <-.
    rewrite length_map, length_rev, argsort_length, length_map. exact Hst.
  - apply ret_ok in H. destruct H as [H _]. subst st. exact Hst.
Qed.

(** With [sort=True] and [k < N] the index array has [N] entries, one of
    them [N - 1], and [eigvecs[:, idx]] on the [k] columns fails. *)
Lemma sort_eigen_index_error (k : nat) (eigvals : vec) (eigvecs : matrix) :
  (k < length eigvals)%nat -> sort_eigen k eigvals eigvecs = Raise IndexError.
Proof.
  intros Hk. unfold sort_eigen, take_cols.
  set (idx := rev (argsort (map Rabs eigvals))).
  assert (Hin : In (length eigvals - 1)%nat idx).
  { unfold idx. apply (proj1 (in_rev _ _)).
    apply (Permutation_in _ (Permutation_sym (argsort_perm _))).
    rewrite length_map. apply in_seq. lia. }
  destruct (forallb (fun j => j <? k)%nat idx) eqn:Hall; [|reflexivity].
  rewrite forallb_forall in Hall. specialize (Hall _ Hin).
  apply Nat.ltb_lt in Hall. lia.
Qed.

Lemma projected_iteration_sorted_small_k
      (A : matrix) (k : Z) (max_iter : nat) (w w' : world) (r : vec * matrix) :
  (k < Z.of_nat (nrows A))%Z ->
  projected_iteration projection normalize A k max_iter true w <> Ok (r, w').
Proof.
  intros Hk H. unfold projected_iteration, mfor_range in H.
  apply mbind_ok in H. destruct H as (u1 & w1 & _ & H).
  apply mbind_ok in H. destruct H as (u2 & w2 & Hguard & H).
  apply lift_ok in Hguard. destruct Hguard as [Hguard _].
  apply assert_ok, andb_prop in Hguard. destruct Hguard as [Hk0 _].
  apply Z.ltb_lt in Hk0.
  apply mbind_ok in H. destruct H as (st & w3 & Hloop & H).
  assert (Hst : length (fst st) = nrows A).
  { revert Hloop. apply (mfor_loop_invariant (fun st => length (fst st) = nrows A)).
    - intros i s w0 c w0' Hs Hb. py_inv Hb. simpl.
      rewrite length_set_nth. exact Hs.
    - simpl. apply repeat_length. }
  apply lift_ok in H. destruct H as [H _].
  rewrite sort_eigen_index_error in H by lia. discriminate.
Qed.

Lemma shape_set_col (i m n : nat) (w : vec) (A A' : matrix) :
  shape A m n -> set_col i w A = Ok A' -> shape A' m n.
Proof.
  intros [Hm Hn] H. unfold set_col in H.
  destruct (Nat.eqb_spec (length w) (length A)) as [Hw|Hw].
  - injection H as <-. split.
    + rewrite length_zip_with. lia.
    + clear Hm Hw. revert w. induction Hn as [|r A Hr HA IH]; intros [|x w]; simpl;
        constructor; auto.
      rewrite length_set_nth. exact Hr.
  - destruct w as [|x [|y w]]; try discriminate. injection H as <-. split.
    + rewrite length_map. exact Hm.
    + apply Forall_map. eapply Forall_impl; [|exact Hn].
      intros r Hr. simpl. rewrite length_set_nth. exact Hr.
Qed.

(** What a returning call does deliver: [N] eigenvalues and an [N]-by-[k]
    array of eigenvectors; with [sort=True] this happens for [k = N] only,
    and then the eigenvalues are in decreasing order of absolute value. *)
Lemma projected_iteration_shapes
      (A : matrix) (k : Z) (max_iter : nat) (sort : bool)
      (w w' : world) (eigvals : vec) (eigvecs : matrix) :
  projected_iteration projection normalize A k max_iter sort w
  = Ok ((eigvals, eigvecs), w') ->
  length eigvals = nrows A /\
  shape eigvecs (nrows A) (Z.to_nat k) /\
  (sort = true -> Z.to_nat k = nrows A /\ decreasing_abs eigvals).
Proof.
  intros Hrun.
  pose proof (projected_iteration_eigvals_length A k max_iter sort w w' _ _ Hrun) as Hlen.
  split; [exact Hlen|].
  unfold projected_iteration, mfor_range in Hrun.
  apply mbind_ok in Hrun. destruct Hrun as (u1 & w1 & _ & H).
  apply mbind_ok in H. destruct H as (u2 & w2 & Hguard & H).
  apply lift_ok in Hguard. destruct Hguard as [Hguard _].
  apply assert_ok, andb_prop in Hguard. destruct Hguard as [Hk0 Hk1].
  apply Z.ltb_lt in Hk0. apply Z.leb_le in Hk1.
  apply mbind_ok in H. destruct H as (st & w3 & Hloop & H).
  assert (Hst : length (fst st) = nrows A /\ shape (snd st) (nrows A) (Z.to_nat k)).
  { revert Hloop.
    apply (mfor_loop_invariant
             (fun st => length (fst st) = nrows A /\
                        shape (snd st) (nrows A) (Z.to_nat k))).
    - intros i s w0 c w0' [Hs1 Hs2] Hb. py_inv Hb. simpl. split.
      + rewrite length_set_nth. exact Hs1.
      + eapply shape_set_col; eassumption.
    - simpl. split; [apply repeat_length|apply shape_zeros2]. }
  destruct Hst as [Hst1 Hst2].
  destruct sort.
  - apply lift_ok in H. destruct H as [H _].
    destruct (Nat.lt_ge_cases (Z.to_nat k) (length (fst st))) as [Hlt|Hge].
    { rewrite sort_eigen_index_error in H by exact Hlt. discriminate. }
    assert (HkN : Z.to_nat k = nrows A) by lia.
    destruct (sort_eigen_sorted _ _ _ _ _ H) as (idx & Hperm & _ & HE & Hdec).
    split; [|intros _; split; assumption].
    rewrite HE. split.
    + rewrite length_map. apply Hst2.
    + apply Forall_map. apply Forall_forall. intros r _. rewrite length_map.
      rewrite (Permutation_length Hperm), length_seq. lia.
  - apply ret_ok in H. destruct H as [H _]. subst st.
    split; [exact Hst2|discriminate].
Qed.

End ProjectedIteration.

(** Two lists of reals, equal entry by entry up to linear arithmetic. *)
Ltac list_lra :=
  repeat (apply (f_equal2 (@cons R)); [lra|]); reflexivity.

(** A run on the 2-by-2 matrix [diag21] with [k = 1], from the start
    vector [[1, 0]]: the first pass of the inner loop already breaks. *)
Lemma projected_step_diag21 (eigvecs : matrix) :
  projected_step utils_projection utils_normalize diag21 eigvecs 0 [1; 0]
  = Ok (Break [1; 0]).
Proof.
  unfold projected_step, for_range. cbn [seq for_loop bind length zeros repeat].
  assert (E1 : vsub [1; 0] [0; 0] = [1; 0]) by (simpl; list_lra).
  assert (E2 : matvec diag21 [1; 0] = [2; 0]) by (simpl; list_lra).
  assert (E3 : l2_norm [2; 0] = 2).
  { unfold l2_norm. replace (dot [2; 0] [2; 0]) with (2 * 2) by (simpl; lra).
    apply sqrt_square; lra. }
  assert (E4 : utils_normalize [2; 0] = Ok [1; 0]).
  { unfold utils_normalize, vdiv. rewrite E3.
    destruct (Req_dec_T 2 0); [lra|]. simpl. f_equal. list_lra. }
  assert (E5 : converged [1; 0] [1; 0] = true).
  { unfold converged. simpl. rewrite !Rminus_diag, Rabs_R0.
    rewrite Rltb_true by lra. reflexivity. }
  rewrite E1, E2, E4. cbn [bind]. rewrite E5. reflexivity.
Qed.

Lemma projected_loop_diag21 (w : world) :
  drawn 2 w = [1; 0] ->
  mfor_range (Z.to_nat 1)
    (fun i st =>
       v <~ randn (nrows diag21) ;;
       v <~ mfor_range 1000
              (fun _ v => lift (projected_step utils_projection utils_normalize
                                               diag21 (snd st) i v)) v ;;
       e <~ lift (rayleigh_quotient diag21 v) ;;
       eigvecs <~ lift (set_col i v (snd st)) ;;
       ret (Continue (set_nth i e (fst st), eigvecs)))
    (zeros (nrows diag21), zeros2 (nrows diag21) (Z.to_nat 1)) w
  = Ok (([2; 0], [[1]; [0]]),
        {| gen := {| samples := samples (gen w); cursor := cursor (gen w) + 2 |};
           calls := calls w |}).
Proof.
  intros Hd.
  assert (E6 : rayleigh_quotient diag21 [1; 0] = Ok 2).
  { rewrite rayleigh_quotient_unit by (simpl; lra). f_equal. simpl. lra. }
  unfold mfor_range. change (Z.to_nat 1) with 1%nat.
  change (nrows diag21) with 2%nat.
  change (seq 0 1000) with (0%nat :: seq 1 999).
  cbn [seq mfor_loop].
  unfold mbind at 1 2. unfold randn. fold (drawn 2 w). rewrite Hd.
  cbn [mfor_loop snd]. unfold mbind at 2 3. unfold lift at 1.
  rewrite projected_step_diag21.
  unfold ret at 1. unfold mbind at 1 2. unfold lift at 1. rewrite E6.
  reflexivity.
Qed.

Lemma is_symmetric_diag21 : is_symmetric diag21 = true.
Proof. apply symmetric_is_symmetric, symmetric_diag21. Qed.

(** C1: on the 2-by-2 matrix [[2, 0], [0, 1]] with [k = 1]
    [projected_iteration] returns, unsorted, an eigenvalue array of length 2
    (not [k]), and with [sort=True] it raises [IndexError] when it indexes
    the one column of [eigvecs] with the two indices of that array. *)
Theorem projected_iteration_k1_on_2x2 :
  projected_iteration utils_projection utils_normalize diag21 1 1000 false e1_world
  = Ok (([2; 0], [[1]; [0]]),
        {| gen := {| samples := samples (gen e1_world); cursor := 2 |};
           calls := [] |}) /\
  projected_iteration utils_projection utils_normalize diag21 1 1000 true e1_world
  = Raise IndexError.
Proof.
  split.
  - unfold projected_iteration. rewrite is_symmetric_diag21.
    change ((0 <? 1)%Z && (1 <=? Z.of_nat (nrows diag21))%Z) with true.
    unfold mbind at 1 2. cbn [lift assert]. unfold mbind at 1.
    rewrite (projected_loop_diag21 e1_world) by reflexivity.
    reflexivity.
  - unfold projected_iteration. rewrite is_symmetric_diag21.
    change ((0 <? 1)%Z && (1 <=? Z.of_nat (nrows diag21))%Z) with true.
    unfold mbind at 1 2. cbn [lift assert]. unfold mbind at 1.
    rewrite (projected_loop_diag21 e1_world) by reflexivity.
    cbn [fst snd lift]. rewrite sort_eigen_index_error by (simpl; lia).
    reflexivity.
Qed.

(** ** Orthogonal similarity *)

Create HintDb shapes.
#[local] Hint Resolve shape_mmul shape_transpose shape_eye shape_madd shape_msub
  shape_mscal : shapes.

Lemma matvec_mmul (A B : matrix) (m p n : nat) (x : vec) :
  shape A m p -> shape B p n -> (0 < p)%nat -> length x = n ->
  matvec (mmul A B) x = matvec A (matvec B x).
Proof.
  intros HA HB Hp Hx.
  assert (HAB : shape (mmul A B) m n) by eauto with shapes.
  apply vec_ext.
  - rewrite !length_matvec. destruct HA, HAB; congruence.
  - intros i Hi. rewrite length_matvec in Hi.
    assert (Him : (i < m)%nat) by (destruct HAB; lia).
    rewrite (nth_matvec_sumn (mmul A B) m n x i HAB Him).
    rewrite (nth_matvec_sumn A m p _ i HA Him).
    transitivity (sumn n (fun k => sumn p (fun l => get A i l * get B l k * nth k x 0))).
    + apply sumn_ext; intros k _.
      rewrite (get_mmul A B m p n) by assumption.
      rewrite <- sumn_scal_r. reflexivity.
    + rewrite sumn_swap. apply sumn_ext; intros l Hl.
      rewrite (nth_matvec_sumn B p n x l HB Hl), <- sumn_scal_l.
      apply sumn_ext; intros k _. lra.
Qed.

Lemma matvec_eye (n : nat) (x : vec) : length x = n -> matvec (eye n) x = x.
Proof.
  intros Hx. apply vec_ext.
  - rewrite length_matvec. destruct (shape_eye n); congruence.
  - intros i Hi. rewrite length_matvec in Hi.
    assert (Hin : (i < n)%nat) by (destruct (shape_eye n); lia).
    rewrite (nth_matvec_sumn (eye n) n n x i (shape_eye n) Hin).
    rewrite <- (sumn_delta n i (fun k => nth k x 0) Hin).
    apply sumn_ext; intros k Hk. now rewrite get_eye.
Qed.

Lemma dot_scal_r (c : R) (x y : vec) : dot x (scal c y) = c * dot x y.
Proof.
  unfold scal. revert y; induction x as [|a x IH]; intros [|b y]; simpl; try lra.
  rewrite IH. lra.
Qed.

Lemma matvec_scal (A : matrix) (c : R) (x : vec) :
  matvec A (scal c x) = scal c (matvec A x).
Proof.
  unfold matvec.
  change (scal c (map (fun r => dot r x) A))
    with (map (Rmult c) (map (fun r => dot r x) A)).
  rewrite map_map. apply map_ext; intros r. apply dot_scal_r.
Qed.

Lemma orthogonal_eye (n : nat) : (0 < n)%nat -> orthogonal n (eye n).
Proof.
  intros Hn. unfold orthogonal. rewrite transpose_eye by exact Hn.
  rewrite (mmul_eye_l (eye n) n n) by auto with shapes. auto with shapes.
Qed.

Lemma orthogonal_mmul (n : nat) (P Q : matrix) :
  (0 < n)%nat -> orthogonal n P -> orthogonal n Q -> orthogonal n (mmul P Q).
Proof.
  intros Hn (HP & HP1 & HP2) (HQ & HQ1 & HQ2).
  assert (HPt : shape (transpose P) n n) by auto with shapes.
  assert (HQt : shape (transpose Q) n n) by auto with shapes.
  repeat split.
  - destruct (shape_mmul P Q n n n HP HQ Hn); assumption.
  - destruct (shape_mmul P Q n n n HP HQ Hn); assumption.
  - rewrite (transpose_mmul P Q n n n) by assumption.
    rewrite (mmul_assoc (transpose Q) (transpose P) (mmul P Q) n n n n)
      by eauto with shapes.
    rewrite <- (mmul_assoc (transpose P) P Q n n n n) by assumption.
    rewrite HP1, (mmul_eye_l Q n n) by assumption. exact HQ1.
  - rewrite (transpose_mmul P Q n n n) by assumption.
    rewrite (mmul_assoc P Q (mmul (transpose Q) (transpose P)) n n n n)
      by eauto with shapes.
    rewrite <- (mmul_assoc Q (transpose Q) (transpose P) n n n n) by assumption.
    rewrite HQ2, (mmul_eye_l (transpose P) n n) by assumption. exact HP2.
Qed.

Lemma similar_refl (n : nat) (A : matrix) :
  (0 < n)%nat -> shape A n n -> similar n A A.
Proof.
  intros Hn HA. exists (eye n). split; [apply orthogonal_eye, Hn|].
  rewrite transpose_eye, (mmul_eye_l A n n), (mmul_eye_r A n n) by assumption.
  reflexivity.
Qed.

Lemma similar_shape (n : nat) (A B : matrix) :
  (0 < n)%nat -> shape A n n -> similar n A B -> shape B n n.
Proof.
  intros Hn HA (Q & (HQ & _) & ->). eauto with shapes.
Qed.

Lemma similar_trans (n : nat) (A B C : matrix) :
  (0 < n)%nat -> shape A n n -> similar n A B -> similar n B C -> similar n A C.
Proof.
  intros Hn HA (P & HPo & ->) (Q & HQo & ->).
  exists (mmul P Q). split; [apply orthogonal_mmul; assumption|].
  destruct HPo as (HP & _), HQo as (HQ & _).
  assert (HPt : shape (transpose P) n n) by auto with shapes.
  assert (HQt : shape (transpose Q) n n) by auto with shapes.
  rewrite (transpose_mmul P Q n n n) by assumption.
  rewrite (mmul_assoc (transpose Q) (transpose P) A n n n n) by assumption.
  rewrite (mmul_assoc (transpose Q) (mmul (transpose P) A) (mmul P Q) n n n n)
    by eauto with shapes.
  rewrite (mmul_assoc (transpose Q) (mmul (mmul (transpose P) A) P) Q n n n n)
    by eauto with shapes.
  rewrite (mmul_assoc (mmul (transpose P) A) P Q n n n n) by eauto with shapes.
  reflexivity.
Qed.

Lemma similar_same_eigenpairs (n : nat) (A B : matrix) :
  (0 < n)%nat -> shape A n n -> similar n A B -> same_eigenpairs n A B.
Proof.
  intros Hn HA (Q & HQo & ->). exists Q. split; [exact HQo|].
  destruct HQo as (HQ & HQ1 & HQ2).
  assert (HQt : shape (transpose Q) n n) by auto with shapes.
  assert (Hinv1 : forall x, length x = n -> matvec Q (matvec (transpose Q) x) = x).
  { intros x Hx. rewrite <- (matvec_mmul Q (transpose Q) n n n) by assumption.
    rewrite HQ2. apply matvec_eye, Hx. }
  assert (Hinv2 : forall y, length y = n -> matvec (transpose Q) (matvec Q y) = y).
  { intros y Hy. rewrite <- (matvec_mmul (transpose Q) Q n n n) by assumption.
    rewrite HQ1. apply matvec_eye, Hy. }
  repeat split; try assumption.
  - intros lam x Hx Hex. unfold eigenpair in *.
    assert (Hl : length (matvec (transpose Q) x) = n)
      by (rewrite length_matvec; destruct HQt; assumption).
    rewrite (matvec_mmul (mmul (transpose Q) A) Q n n n) by eauto with shapes.
    rewrite Hinv1 by exact Hx.
    rewrite (matvec_mmul (transpose Q) A n n n) by assumption.
    rewrite Hex. apply matvec_scal.
  - intros lam y Hy Hey. unfold eigenpair in *.
    assert (Hl : length (matvec Q y) = n)
      by (rewrite length_matvec; destruct HQ; assumption).
    rewrite (matvec_mmul (mmul (transpose Q) A) Q n n n) in Hey by eauto with shapes.
    rewrite (matvec_mmul (transpose Q) A n n n) in Hey
      by (try assumption; rewrite length_matvec; destruct HQ; assumption).
    apply (f_equal (matvec Q)) in Hey.
    rewrite Hinv1 in Hey by (rewrite length_matvec; destruct HA; assumption).
    rewrite Hey. apply matvec_scal.
Qed.

(** ** qr_algorithm *)

(** Split the conjunctions that are written out, leaving [shape] folded. *)
Ltac conj_split := repeat match goal with |- _ /\ _ => split end.

Section QRIteration.

Variable QR_decompose : matrix -> result (matrix * matrix).
Variable M : nat.
Hypothesis M_pos : (0 < M)%nat.

Lemma shape_qr_shift (A : matrix) : shape A M M -> shape (qr_shift M A) M M.
Proof. intros HA. unfold qr_shift. auto with shapes. Qed.

(** With [Q R = A - mu I] and [Q] orthogonal, [R Q + mu I] is [Q.T A Q]. *)
Lemma qr_next_similarity (A Q R : matrix) :
  shape A M M -> orthogonal M Q -> shape R M M ->
  mmul Q R = qr_shift M A ->
  qr_next M A (Q, R) = mmul (mmul (transpose Q) A) Q.
Proof.
  intros HA (HQ & HQ1 & HQ2) HR HQR.
  assert (HQt : shape (transpose Q) M M) by auto with shapes.
  unfold qr_next, qr_shift in *. cbn [fst snd].
  set (mu := get A (M - 1) (M - 1)) in *.
  assert (ER : R = mmul (transpose Q) (msub A (mscal mu (eye M)))).
  { rewrite <- HQR, <- (mmul_assoc (transpose Q) Q R M M M M) by assumption.
    rewrite HQ1. symmetry. apply (mmul_eye_l R M M); assumption. }
  assert (ERQ : mmul R Q = msub (mmul (mmul (transpose Q) A) Q) (mscal mu (eye M))).
  { rewrite ER.
    rewrite (mmul_msub_r (transpose Q) A (mscal mu (eye M)) M M M) by auto with shapes.
    rewrite (mmul_mscal_r mu (transpose Q) (eye M) M M M) by auto with shapes.
    rewrite (mmul_eye_r (transpose Q) M M) by assumption.
    rewrite (mmul_msub_l (mmul (transpose Q) A) (mscal mu (transpose Q)) Q M M M)
      by eauto with shapes.
    rewrite (mmul_mscal_l mu (transpose Q) Q M M M) by assumption.
    rewrite HQ1. reflexivity. }
  rewrite ERQ.
  assert (HP : shape (mmul (mmul (transpose Q) A) Q) M M) by eauto with shapes.
  apply (matrix_ext _ _ M M); auto with shapes.
  intros i j Hi Hj.
  rewrite (get_madd _ _ M M), (get_msub _ _ M M) by auto with shapes. lra.
Qed.

Lemma qr_step_run (A Q R : matrix) (w : world) :
  QR_decompose (qr_shift M A) = Ok (Q, R) ->
  qr_step QR_decompose M A w =
  Ok (if converged2 (qr_next M A (Q, R)) A
      then Break A else Continue (qr_next M A (Q, R)),
      after_call (CallQR (qr_shift M A)) w).
Proof.
  intros HQR. unfold qr_step, call_QR.
  destruct M as [|m] eqn:EM; [lia|]. cbn [Nat.eqb].
  unfold mbind at 1. cbn [lift]. unfold mbind at 1 2. cbn [record].
  fold (qr_shift (S m) A). rewrite HQR. cbn [lift fst snd].
  unfold qr_next. cbn [fst snd].
  destruct (converged2 _ A); reflexivity.
Qed.

Hypothesis QR_ok : QR_spec M QR_decompose.

Lemma qr_loop_run (n i0 : nat) (A : matrix) (w : world) :
  shape A M M ->
  exists A' w' Xs,
    mfor_loop (seq i0 n) (fun _ A => qr_step QR_decompose M A) A w = Ok (A', w') /\
    calls w' = calls w ++ map CallQR Xs /\
    (length Xs <= n)%nat /\
    ((length Xs < n)%nat ->
     exists QRf, QR_decompose (qr_shift M A') = Ok QRf /\
                 converged2 (qr_next M A' QRf) A' = true) /\
    similar M A A' /\ shape A' M M.
Proof.
  revert i0 A w. induction n as [|n IH]; intros i0 A w HA.
  - exists A, w, []. cbn. rewrite app_nil_r. conj_split; auto; try lia.
    apply similar_refl; assumption.
  - destruct (QR_ok (qr_shift M A) (shape_qr_shift A HA)) as (Q & R & HQR & HQ & HR & Hmul).
    pose proof (qr_next_similarity A Q R HA HQ HR Hmul) as Hnext.
    cbn [seq mfor_loop]. unfold mbind at 1.
    rewrite (qr_step_run A Q R w HQR).
    destruct (converged2 (qr_next M A (Q, R)) A) eqn:Hconv.
    + exists A, (after_call (CallQR (qr_shift M A)) w), [qr_shift M A].
      cbn. conj_split; auto; try lia.
      * intros _. exists (Q, R). auto.
      * apply similar_refl; assumption.
    + assert (Hsim : similar M A (qr_next M A (Q, R)))
        by (exists Q; split; assumption).
      assert (HA1 : shape (qr_next M A (Q, R)) M M)
        by (apply (similar_shape M A _ M_pos HA Hsim)).
      destruct (IH (S i0) _ (after_call (CallQR (qr_shift M A)) w) HA1)
        as (A' & w' & Xs & Hrun & Hcalls & Hlen & Hstop & Hsim' & HA').
      exists A', w', (qr_shift M A :: Xs). conj_split; auto.
      * rewrite Hcalls. cbn. rewrite <- app_assoc. reflexivity.
      * cbn. lia.
      * intros Hlt. apply Hstop. cbn in Hlt. lia.
      * apply (similar_trans M A _ A' M_pos HA Hsim Hsim').
Qed.

End QRIteration.

Lemma qr_identity_spec (n : nat) : (0 < n)%nat -> QR_spec n qr_identity.
Proof.
  intros Hn X HX. exists (eye n), X. unfold qr_identity, nrows.
  rewrite (proj1 HX). conj_split; auto.
  - apply orthogonal_eye, Hn.
  - apply (mmul_eye_l X n n); assumption.
Qed.

(** ** Slices of a matrix *)

Lemma get_skipn (A : matrix) (i r c : nat) : get (skipn i A) r c = get A (i + r) c.
Proof. unfold get. now rewrite nth_skipn. Qed.

Lemma nth_col_from (A : matrix) (i j k : nat) :
  nth k (col_from A i j) 0 = get A (i + k) j.
Proof. unfold col_from. rewrite nth_col. apply get_skipn. Qed.

Lemma length_col_from (A : matrix) (i j : nat) :
  length (col_from A i j) = (length A - i)%nat.
Proof. unfold col_from. rewrite length_col. apply length_skipn. Qed.

Lemma nth_row_from (A : matrix) (j i k : nat) :
  nth k (row_from A j i) 0 = get A j (i + k).
Proof. unfold row_from, get. apply nth_skipn. Qed.

Lemma length_row_from (A : matrix) (m n j i : nat) :
  shape A m n -> (j < m)%nat -> length (row_from A j i) = (n - i)%nat.
Proof.
  intros HA Hj. unfold row_from. rewrite length_skipn.
  now rewrite (shape_row A m n j HA Hj).
Qed.

Lemma shape_set_col_from (A : matrix) (m n i j : nat) (w : vec) :
  shape A m n -> length w = (m - i)%nat -> shape (set_col_from A i j w) m n.
Proof.
  intros [Hm Hn] Hw. unfold set_col_from. split.
  - rewrite length_app, length_firstn, length_zip_with, length_skipn. lia.
  - rewrite <- (firstn_skipn i A) in Hn. apply Forall_app in Hn.
    destruct Hn as [Hf Hs]. apply Forall_app. split; [exact Hf|].
    + clear Hw Hf. revert w. induction Hs as [|r rs Hr Hrs IH]; intros [|x w]; simpl;
        constructor; auto.
      rewrite length_set_nth; exact Hr.
Qed.

Lemma get_set_col_from (A : matrix) (m n i j r c : nat) (w : vec) :
  shape A m n -> length w = (m - i)%nat -> (i <= m)%nat ->
  get (set_col_from A i j w) r c =
  if ((c =? j) && (i <=? r) && (r <? m) && (j <? n))%nat
  then nth (r - i) w 0 else get A r c.
Proof.
  intros HA Hw Him. unfold set_col_from, get.
  destruct (Nat.lt_ge_cases r i) as [Hr|Hr].
  - rewrite app_nth1 by (rewrite length_firstn; destruct HA; lia).
    replace (i <=? r)%nat with false by (symmetry; apply Nat.leb_gt; lia).
    rewrite andb_false_r. simpl.
    rewrite <- (firstn_skipn i A) at 2.
    rewrite app_nth1 by (rewrite length_firstn; destruct HA; lia). reflexivity.
  - rewrite app_nth2 by (rewrite length_firstn; lia).
    rewrite length_firstn. replace (Nat.min i (length A)) with i by (destruct HA; lia).
    replace (i <=? r)%nat with true by (symmetry; apply Nat.leb_le; lia).
    rewrite andb_true_r.
    destruct (Nat.lt_ge_cases r m) as [Hrm|Hrm].
    + replace (r <? m)%nat with true by (symmetry; apply Nat.ltb_lt; lia).
      rewrite andb_true_r.
      rewrite (nth_zip_with (fun r x => set_nth j x r) (skipn i A) w (r - i) [] 0 [])
        by (rewrite ?length_skipn; destruct HA; lia).
      rewrite nth_skipn. replace (i + (r - i))%nat with r by lia.
      destruct (Nat.eqb_spec c j) as [->|Hc].
      * destruct (Nat.ltb_spec j n) as [Hj|Hj]; simpl.
        -- apply nth_set_nth_eq. rewrite (shape_row A m n r HA Hrm). exact Hj.
        -- rewrite !nth_overflow; auto.
           ++ rewrite (shape_row A m n r HA Hrm). exact Hj.
           ++ rewrite length_set_nth, (shape_row A m n r HA Hrm). exact Hj.
      * simpl. apply nth_set_nth_neq. congruence.
    + replace (r <? m)%nat with false by (symmetry; apply Nat.ltb_ge; lia).
      rewrite andb_false_r. simpl.
      rewrite (nth_overflow (zip_with _ _ _))
        by (rewrite length_zip_with, length_skipn; destruct HA; lia).
      rewrite (nth_overflow A) by (destruct HA; lia). reflexivity.
Qed.

Lemma shape_set_row_from (A : matrix) (m n j i : nat) (w : vec) :
  shape A m n -> length w = (n - i)%nat -> (i <= n)%nat -> (j < m)%nat ->
  shape (set_row_from A j i w) m n.
Proof.
  intros HA Hw Hin Hj. unfold set_row_from. split.
  - rewrite length_set_nth. apply HA.
  - apply Forall_set_nth; [apply HA|].
    rewrite length_app, length_firstn, (shape_row A m n j HA Hj). lia.
Qed.

Lemma get_set_row_from (A : matrix) (m n j i r c : nat) (w : vec) :
  shape A m n -> length w = (n - i)%nat -> (i <= n)%nat -> (j < m)%nat ->
  get (set_row_from A j i w) r c =
  if ((r =? j) && (i <=? c))%nat then nth (c - i) w 0 else get A r c.
Proof.
  intros HA Hw Hin Hj. unfold set_row_from, get.
  destruct (Nat.eqb_spec r j) as [->|Hr].
  - rewrite nth_set_nth_eq by (destruct HA; lia). simpl.
    destruct (Nat.leb_spec i c) as [Hc|Hc].
    + rewrite app_nth2 by (rewrite length_firstn; lia).
      rewrite length_firstn, (shape_row A m n j HA Hj).
      replace (Nat.min i n) with i by lia. reflexivity.
    + rewrite app_nth1 by (rewrite length_firstn, (shape_row A m n j HA Hj); lia).
      rewrite <- (firstn_skipn i (nth j A [])) at 2.
      rewrite app_nth1 by (rewrite length_firstn, (shape_row A m n j HA Hj); lia).
      reflexivity.
  - simpl. rewrite nth_set_nth_neq by congruence. reflexivity.
Qed.

(** ** Householder reflections *)

Lemma sumn_embed (p n : nat) (v : vec) (f : nat -> R) :
  sumn (p + n) (fun t => embed p v t * f t) = sumn n (fun k => nth k v 0 * f (p + k)%nat).
Proof.
  induction n as [|n IH].
  - rewrite Nat.add_0_r. simpl. apply sumn_zero. intros t Ht.
    unfold embed. replace (t <? p)%nat with true by (symmetry; apply Nat.ltb_lt; lia).
    lra.
  - rewrite Nat.add_succ_r. simpl. rewrite IH. f_equal.
    unfold embed. replace (p + n <? p)%nat with false by (symmetry; apply Nat.ltb_ge; lia).
    replace (p + n - p)%nat with n by lia. reflexivity.
Qed.

Lemma sumn_embed_r (p n : nat) (v : vec) (f : nat -> R) :
  sumn (p + n) (fun t => f t * embed p v t) = sumn n (fun k => f (p + k)%nat * nth k v 0).
Proof.
  rewrite (sumn_ext _ _ (fun t => embed p v t * f t)) by (intros; lra).
  rewrite sumn_embed. apply sumn_ext; intros; lra.
Qed.

Lemma embed_low (p : nat) (v : vec) (t : nat) : (t < p)%nat -> embed p v t = 0.
Proof.
  intros H. unfold embed.
  now replace (t <? p)%nat with true by (symmetry; apply Nat.ltb_lt; lia).
Qed.

Lemma embed_high (p : nat) (v : vec) (t : nat) :
  (p <= t)%nat -> embed p v t = nth (t - p) v 0.
Proof.
  intros H. unfold embed.
  now replace (t <? p)%nat with false by (symmetry; apply Nat.ltb_ge; lia).
Qed.

Section Householder.

Variable M p : nat.
Variable v : vec.
Hypothesis v_length : (p + length v)%nat = M.
Hypothesis v_nonzero : dot v v <> 0.

Let u := embed p v.
Let P := householder M p v.

Lemma embed_sqr : sumn M (fun t => u t * u t) = dot v v.
Proof.
  rewrite <- v_length. unfold u. rewrite sumn_embed.
  rewrite (dot_sumn v v (length v)) by (left; lia).
  apply sumn_ext; intros k _. rewrite embed_high by lia.
  now replace (p + k - p)%nat with k by lia.
Qed.

Lemma shape_householder : shape P M M.
Proof. apply shape_mk. Qed.

Lemma get_householder (r c : nat) :
  (r < M)%nat -> (c < M)%nat ->
  get P r c = (if (r =? c)%nat then 1 else 0) - 2 * u r * u c / dot v v.
Proof.
  intros Hr Hc.
  apply (get_mk M M (fun r c => (if (r =? c)%nat then 1 else 0)
                                - 2 * embed p v r * embed p v c / dot v v));
    assumption.
Qed.

Lemma M_pos_of_v : (0 < M)%nat.
Proof.
  destruct v as [|a v'] eqn:E; [simpl in v_nonzero; lra|]. simpl in v_length. lia.
Qed.

Lemma householder_symmetric : transpose P = P.
Proof.
  pose proof M_pos_of_v as HM.
  apply (matrix_ext _ _ M M); auto using shape_transpose, shape_householder.
  intros r c Hr Hc.
  rewrite (get_transpose P M M) by (auto using shape_householder).
  rewrite !get_householder by assumption.
  rewrite (Nat.eqb_sym c r). lra.
Qed.

(** [P A]: row [r] of [A] less [2 u_r / (v.v)] times [u.T A]. *)
Lemma get_householder_l (A : matrix) (r c : nat) :
  shape A M M -> (r < M)%nat -> (c < M)%nat ->
  get (mmul P A) r c =
  get A r c - 2 * u r / dot v v * sumn M (fun t => u t * get A t c).
Proof.
  intros HA Hr Hc. pose proof M_pos_of_v as HM.
  rewrite (get_mmul P A M M M) by (auto using shape_householder).
  rewrite (sumn_ext _ _ (fun t => (if (r =? t)%nat then 1 else 0) * get A t c
                                  - 2 * u r / dot v v * (u t * get A t c))).
  - rewrite sumn_minus, sumn_scal_l, sumn_delta by exact Hr. reflexivity.
  - intros t Ht. rewrite get_householder by assumption. field. exact v_nonzero.
Qed.

(** [B P]: column [c] of [B] less [2 u_c / (v.v)] times [B u]. *)
Lemma get_householder_r (B : matrix) (r c : nat) :
  shape B M M -> (r < M)%nat -> (c < M)%nat ->
  get (mmul B P) r c =
  get B r c - 2 * u c / dot v v * sumn M (fun t => get B r t * u t).
Proof.
  intros HB Hr Hc. pose proof M_pos_of_v as HM.
  rewrite (get_mmul B P M M M) by (auto using shape_householder).
  rewrite (sumn_ext _ _ (fun t => get B r t * (if (t =? c)%nat then 1 else 0)
                                  - 2 * u c / dot v v * (get B r t * u t))).
  - rewrite sumn_minus, sumn_scal_l, sumn_delta_r by exact Hc. reflexivity.
  - intros t Ht. rewrite get_householder by assumption. field. exact v_nonzero.
Qed.

Lemma householder_involutive : mmul P P = eye M.
Proof.
  pose proof M_pos_of_v as HM.
  apply (matrix_ext _ _ M M); eauto using shape_mmul, shape_householder, shape_eye.
  intros r c Hr Hc.
  rewrite get_householder_l by (auto using shape_householder).
  rewrite (sumn_ext _ _ (fun t => u t * (if (t =? c)%nat then 1 else 0)
                                  - 2 * u c / dot v v * (u t * u t))).
  - rewrite sumn_minus, sumn_scal_l, sumn_delta_r, embed_sqr by exact Hc.
    rewrite get_householder, get_eye by assumption. field. exact v_nonzero.
  - intros t Ht. rewrite get_householder by assumption. field. exact v_nonzero.
Qed.

Lemma householder_orthogonal : orthogonal M P.
Proof.
  unfold orthogonal. rewrite householder_symmetric, householder_involutive.
  auto using shape_householder.
Qed.

End Householder.

(** ** The two loops of a pass of hessenberg *)

Lemma dot_scal_l (c : R) (x y : vec) : dot (scal c x) y = c * dot x y.
Proof. rewrite dot_comm, dot_scal_r, dot_comm. reflexivity. Qed.

Section HessenbergLoops.

Variable M p : nat.
Variable v : vec.
Hypothesis v_length : (p + length v)%nat = M.
Hypothesis v_nonzero : dot v v <> 0.

Let u := embed p v.
Let P := householder M p v.

Lemma reflect_col_ok (w : vec) :
  reflect_col v w = Ok (vsub w (scal (dot (scal 2 v) w / dot v v) v)).
Proof.
  unfold reflect_col, fdiv. destruct (Req_dec_T (dot v v) 0); [contradiction|].
  reflexivity.
Qed.

Lemma reflect_row_ok (w : vec) :
  reflect_row v w = Ok (vsub w (scal (2 * (dot w v / dot v v)) v)).
Proof.
  unfold reflect_row, fdiv. destruct (Req_dec_T (dot v v) 0); [contradiction|].
  reflexivity.
Qed.

(** The column update is column [j] of [P A]. *)
Lemma left_update (A : matrix) (j : nat) :
  shape A M M -> (j < M)%nat ->
  exists A',
    (w <- reflect_col v (col_from A p j) ;; Ok (set_col_from A p j w)) = Ok A' /\
    shape A' M M /\
    forall r c, (r < M)%nat -> (c < M)%nat ->
      get A' r c = if (c =? j)%nat then get (mmul P A) r c else get A r c.
Proof.
  intros HA Hj. rewrite reflect_col_ok. cbn [bind].
  set (w := col_from A p j).
  set (q := dot (scal 2 v) w / dot v v).
  assert (Hw : length w = length v)
    by (unfold w; rewrite length_col_from; destruct HA; lia).
  assert (Hnew : length (vsub w (scal q v)) = (M - p)%nat)
    by (rewrite length_vsub; rewrite ?length_scal; lia).
  eexists. split; [reflexivity|]. split.
  - apply shape_set_col_from; assumption.
  - intros r c Hr Hc.
    rewrite (get_set_col_from A M M p j r c) by (assumption || lia).
    replace (r <? M)%nat with true by (symmetry; apply Nat.ltb_lt; lia).
    replace (j <? M)%nat with true by (symmetry; apply Nat.ltb_lt; lia).
    rewrite !andb_true_r.
    destruct (Nat.eqb_spec c j) as [->|Hcj]; [|reflexivity]. cbn [andb].
    unfold P.
    rewrite (get_householder_l M p v v_length v_nonzero A r j HA Hr Hj).
    assert (Hq : q = 2 * sumn M (fun t => embed p v t * get A t j) / dot v v).
    { unfold q. rewrite dot_scal_l. f_equal. f_equal.
      rewrite <- v_length, sumn_embed.
      rewrite (dot_sumn v w (length v)) by (left; lia).
      apply sumn_ext; intros k _. unfold w. now rewrite nth_col_from. }
    destruct (Nat.leb_spec p r) as [Hpr|Hpr].
    + rewrite nth_vsub by (rewrite length_scal; exact Hw).
      rewrite nth_scal. unfold w at 1. rewrite nth_col_from.
      replace (p + (r - p))%nat with r by lia.
      rewrite (embed_high p v r Hpr), Hq. field. exact v_nonzero.
    + rewrite (embed_low p v r Hpr). lra.
Qed.

Lemma left_loop (n j0 : nat) (A : matrix) :
  shape A M M -> (j0 + n <= M)%nat ->
  exists A',
    for_loop (seq j0 n)
      (fun j A => w <- reflect_col v (col_from A p j) ;; Ok (set_col_from A p j w)) A
    = Ok A' /\
    shape A' M M /\
    forall r c, (r < M)%nat -> (c < M)%nat ->
      get A' r c = if ((j0 <=? c) && (c <? j0 + n))%nat
                   then get (mmul P A) r c else get A r c.
Proof.
  revert j0 A. induction n as [|n IH]; intros j0 A HA Hn.
  - exists A. split; [reflexivity|]. split; [exact HA|].
    intros r c _ _. destruct (Nat.leb_spec j0 c); [|reflexivity].
    replace (c <? j0 + 0)%nat with false by (symmetry; apply Nat.ltb_ge; lia).
    reflexivity.
  - destruct (left_update A j0 HA) as (A1 & Hrun1 & HA1 & Hget1); [lia|].
    destruct (IH (S j0) A1 HA1) as (A' & Hrun & HA' & Hget); [lia|].
    exists A'. split; [|split; [exact HA'|]].
    + cbn [seq for_loop]. rewrite Hrun1. cbn [bind]. exact Hrun.
    + intros r c Hr Hc. rewrite (Hget r c Hr Hc), (Hget1 r c Hr Hc).
      destruct (Nat.eqb_spec c j0) as [->|Hcj].
      * replace (S j0 <=? j0)%nat with false by (symmetry; apply Nat.leb_gt; lia).
        replace (j0 <=? j0)%nat with true by (symmetry; apply Nat.leb_le; lia).
        replace (j0 <? j0 + S n)%nat with true by (symmetry; apply Nat.ltb_lt; lia).
        reflexivity.
      * replace (S j0 <=? c)%nat with (j0 <=? c)%nat
          by (destruct (Nat.leb_spec j0 c), (Nat.leb_spec (S j0) c); auto; lia).
        replace (c <? S j0 + n)%nat with (c <? j0 + S n)%nat
          by (f_equal; lia).
        destruct ((j0 <=? c) && (c <? j0 + S n))%nat; [|reflexivity].
        unfold P.
        rewrite (get_householder_l M p v v_length v_nonzero A1 r c HA1 Hr Hc).
        unfold P.
    rewrite (get_householder_l M p v v_length v_nonzero A r c HA Hr Hc).
        rewrite (Hget1 r c Hr Hc).
        destruct (Nat.eqb_spec c j0); [contradiction|].
        f_equal. f_equal. apply sumn_ext; intros t Ht.
        rewrite (Hget1 t c Ht Hc).
        destruct (Nat.eqb_spec c j0); [contradiction|reflexivity].
Qed.

(** The row update is row [j] of [A P]. *)
Lemma right_update (A : matrix) (j : nat) :
  shape A M M -> (j < M)%nat ->
  exists A',
    (w <- reflect_row v (row_from A j p) ;; Ok (set_row_from A j p w)) = Ok A' /\
    shape A' M M /\
    forall r c, (r < M)%nat -> (c < M)%nat ->
      get A' r c = if (r =? j)%nat then get (mmul A P) r c else get A r c.
Proof.
  intros HA Hj. rewrite reflect_row_ok. cbn [bind].
  set (w := row_from A j p).
  set (q := 2 * (dot w v / dot v v)).
  assert (Hw : length w = length v)
    by (unfold w; rewrite (length_row_from A M M j p HA Hj); lia).
  assert (Hnew : length (vsub w (scal q v)) = (M - p)%nat)
    by (rewrite length_vsub; rewrite ?length_scal; lia).
  eexists. split; [reflexivity|]. split.
  - apply shape_set_row_from; (assumption || lia).
  - intros r c Hr Hc.
    rewrite (get_set_row_from A M M j p r c) by (assumption || lia).
    destruct (Nat.eqb_spec r j) as [->|Hrj]; [|reflexivity]. cbn [andb].
    unfold P.
    rewrite (get_householder_r M p v v_length v_nonzero A j c HA Hj Hc).
    assert (Hq : q = 2 * sumn M (fun t => get A j t * embed p v t) / dot v v).
    { unfold q. unfold Rdiv. rewrite <- Rmult_assoc. f_equal. f_equal.
      rewrite <- v_length, sumn_embed_r.
      rewrite (dot_sumn w v (length v)) by (right; lia).
      apply sumn_ext; intros k _. unfold w. now rewrite nth_row_from. }
    destruct (Nat.leb_spec p c) as [Hpc|Hpc].
    + rewrite nth_vsub by (rewrite length_scal; exact Hw).
      rewrite nth_scal. unfold w at 1. rewrite nth_row_from.
      replace (p + (c - p))%nat with c by lia.
      rewrite (embed_high p v c Hpc), Hq. field. exact v_nonzero.
    + rewrite (embed_low p v c Hpc). lra.
Qed.

Lemma right_loop (n j0 : nat) (A : matrix) :
  shape A M M -> (j0 + n <= M)%nat ->
  exists A',
    for_loop (seq j0 n)
      (fun j A => w <- reflect_row v (row_from A j p) ;; Ok (set_row_from A j p w)) A
    = Ok A' /\
    shape A' M M /\
    forall r c, (r < M)%nat -> (c < M)%nat ->
      get A' r c = if ((j0 <=? r) && (r <? j0 + n))%nat
                   then get (mmul A P) r c else get A r c.
Proof.
  revert j0 A. induction n as [|n IH]; intros j0 A HA Hn.
  - exists A. split; [reflexivity|]. split; [exact HA|].
    intros r c _ _. destruct (Nat.leb_spec j0 r); [|reflexivity].
    replace (r <? j0 + 0)%nat with false by (symmetry; apply Nat.ltb_ge; lia).
    reflexivity.
  - destruct (right_update A j0 HA) as (A1 & Hrun1 & HA1 & Hget1); [lia|].
    destruct (IH (S j0) A1 HA1) as (A' & Hrun & HA' & Hget); [lia|].
    exists A'. split; [|split; [exact HA'|]].
    + cbn [seq for_loop]. rewrite Hrun1. cbn [bind]. exact Hrun.
    + intros r c Hr Hc. rewrite (Hget r c Hr Hc), (Hget1 r c Hr Hc).
      destruct (Nat.eqb_spec r j0) as [->|Hrj].
      * replace (S j0 <=? j0)%nat with false by (symmetry; apply Nat.leb_gt; lia).
        replace (j0 <=? j0)%nat with true by (symmetry; apply Nat.leb_le; lia).
        replace (j0 <? j0 + S n)%nat with true by (symmetry; apply Nat.ltb_lt; lia).
        reflexivity.
      * replace (S j0 <=? r)%nat with (j0 <=? r)%nat
          by (destruct (Nat.leb_spec j0 r), (Nat.leb_spec (S j0) r); auto; lia).
        replace (r <? S j0 + n)%nat with (r <? j0 + S n)%nat
          by (f_equal; lia).
        destruct ((j0 <=? r) && (r <? j0 + S n))%nat; [|reflexivity].
        unfold P.
        rewrite (get_householder_r M p v v_length v_nonzero A1 r c HA1 Hr Hc).
        unfold P.
    rewrite (get_householder_r M p v v_length v_nonzero A r c HA Hr Hc).
        rewrite (Hget1 r c Hr Hc).
        destruct (Nat.eqb_spec r j0); [contradiction|].
        f_equal. f_equal. apply sumn_ext; intros t Ht.
        rewrite (Hget1 r t Hr Ht).
        destruct (Nat.eqb_spec r j0); [contradiction|reflexivity].
Qed.

End HessenbergLoops.

(** ** A pass of hessenberg *)

Lemma dot_vadd_l (x y z : vec) :
  length x = length y -> dot (vadd x y) z = dot x z + dot y z.
Proof.
  revert y z; induction x as [|a x IH]; intros [|b y] [|c z] H; simpl in *;
    try discriminate; try lra.
  unfold vadd in IH. rewrite IH by lia. lra.
Qed.

Lemma dot_vadd_r (x y z : vec) :
  length y = length z -> dot x (vadd y z) = dot x y + dot x z.
Proof.
  intros H. rewrite dot_comm, dot_vadd_l, (dot_comm y), (dot_comm z) by exact H.
  reflexivity.
Qed.

Lemma dot_zeros_l (n : nat) (x : vec) : dot (zeros n) x = 0.
Proof. rewrite dot_comm. apply dot_zeros_r. Qed.

Lemma dot_basis_l (n : nat) (z : vec) :
  dot (set_nth 0 1 (zeros (S n))) z = nth 0 z 0.
Proof.
  destruct z as [|c z]; simpl; [reflexivity|].
  fold (zeros n). rewrite dot_zeros_l. lra.
Qed.

Lemma basis_vec_flat_first (n : nat) :
  basis_vec_flat 0 (S n) = Ok (set_nth 0 1 (zeros (S n))).
Proof. reflexivity. Qed.

Lemma length_basis (n : nat) : length (set_nth 0 1 (zeros n)) = n.
Proof. rewrite length_set_nth. apply repeat_length. Qed.

Lemma nth_basis_tail (n k : nat) :
  (0 < k)%nat -> nth k (set_nth 0 1 (zeros n)) 0 = 0.
Proof.
  intros Hk. rewrite nth_set_nth_neq by lia.
  unfold zeros. destruct (Nat.lt_ge_cases k n).
  - apply nth_repeat_lt; assumption.
  - apply nth_overflow. rewrite repeat_length. assumption.
Qed.

(** For [v = a + s c e1] with [s s = 1] and [c = |a|]: [2 v.a = v.v]. *)
Lemma householder_vector (a : vec) (s : R) (n : nat) :
  length a = S n -> s * s = 1 ->
  let v := vadd a (scal (s * l2_norm a) (set_nth 0 1 (zeros (length a)))) in
  length v = length a /\ 2 * dot v a = dot v v /\
  forall k, (0 < k)%nat -> nth k v 0 = nth k a 0.
Proof.
  intros Ha Hs v.
  assert (He : length (scal (s * l2_norm a) (set_nth 0 1 (zeros (length a)))) = length a)
    by (rewrite length_scal, length_basis; reflexivity).
  assert (Hv : length v = length a) by (unfold v; rewrite length_vadd; auto).
  pose proof (l2_norm_sqr a) as Hc.
  assert (Hea : dot (set_nth 0 1 (zeros (length a))) a = nth 0 a 0)
    by (rewrite Ha; apply dot_basis_l).
  assert (Hee : dot (set_nth 0 1 (zeros (length a))) (set_nth 0 1 (zeros (length a))) = 1).
  { rewrite Ha, dot_basis_l. simpl. reflexivity. }
  split; [exact Hv|]. split.
  - unfold v. rewrite !dot_vadd_l, !dot_vadd_r, !dot_scal_l, !dot_scal_r by auto.
    rewrite (dot_comm a (set_nth 0 1 (zeros (length a)))), Hea, Hee.
    set (c := l2_norm a) in *. set (a0 := nth 0 a 0). 
    replace (dot a a) with (c * c) by exact Hc.
    replace (s * c * (s * c * 1)) with ((s * s) * (c * c)) by ring.
    rewrite Hs. ring.
  - intros k Hk. unfold v. rewrite nth_vadd by auto.
    rewrite nth_scal, nth_basis_tail by exact Hk. lra.
Qed.

Lemma symmetric_get (A : matrix) (n r c : nat) :
  shape A n n -> (0 < n)%nat -> symmetric A -> get A r c = get A c r.
Proof.
  intros HA Hn Hs. unfold symmetric in Hs.
  rewrite <- (get_transpose A n n c r HA Hn). now rewrite Hs.
Qed.

Lemma symmetric_conjugate (A P : matrix) (n : nat) :
  (0 < n)%nat -> shape A n n -> shape P n n -> symmetric A -> transpose P = P ->
  symmetric (mmul (mmul P A) P).
Proof.
  intros Hn HA HP HsA HsP. unfold symmetric in *.
  rewrite (transpose_mmul (mmul P A) P n n n) by eauto with shapes.
  rewrite (transpose_mmul P A n n n) by assumption.
  rewrite HsA, HsP. symmetry.
  apply (mmul_assoc P A P n n n n); assumption.
Qed.

Section HessenbergStep.

Variable sign : R -> R.
Hypothesis sign_unit : forall x, sign x * sign x = 1.
Variable M : nat.

Lemma hessenberg_step_spec (is_symm : bool) (i : nat) (A : matrix) (vs : list vec) :
  shape A M M -> (i + 3 <= M)%nat -> hessenberg_upto i A ->
  let v := reflection_vector sign A i in
  (dot v v = 0 /\
   hessenberg_step sign is_symm M i (A, vs) = Raise NotFinite) \/
  (dot v v <> 0 /\
   exists A',
     hessenberg_step sign is_symm M i (A, vs) = Ok (A', vs ++ [v]) /\
     shape A' M M /\ hessenberg_upto (S i) A' /\
     ((is_symm = true -> symmetric A) ->
      similar M A A' /\ (is_symm = true -> symmetric A'))).
Proof.
  intros HA Hi Hup.
  assert (HM : (0 < M)%nat) by lia.
  unfold hessenberg_step, reflection_vector. cbn [fst snd]. cbv zeta.
  set (a := col_from A (i + 1) i).
  assert (Ha : length a = S (M - i - 2))
    by (unfold a; rewrite length_col_from; destruct HA; lia).
  replace (basis_vec_flat 0 (length a)) with (Ok (set_nth 0 1 (zeros (length a))))
    by (rewrite Ha; reflexivity).
  cbn [bind].
  set (v := vadd a (scal (sign (nth 0 a 0) * l2_norm a) (set_nth 0 1 (zeros (length a))))).
  destruct (householder_vector a (sign (nth 0 a 0)) (M - i - 2) Ha (sign_unit _))
    as (Hvl & Hva & Hvk).
  fold v in Hvl, Hva, Hvk.
  assert (v_length : (i + 1 + length v)%nat = M) by lia.
  destruct (Req_dec_T (dot v v) 0) as [Hz|Hnz].
  { left. split; [exact Hz|]. replace (M - i)%nat with (S (M - i - 1)) by lia.
    cbn [seq for_loop]. unfold reflect_col at 1, fdiv.
    destruct (Req_dec_T (dot v v) 0); [reflexivity|contradiction]. }
  right. split; [exact Hnz|].
  set (P := householder M (i + 1) v).
  assert (HP : shape P M M) by apply shape_householder.
  destruct (left_loop M (i + 1) v v_length Hnz (M - i) i A HA) as (A1 & Hrun1 & HA1 & Hget1);
    [lia|].
  set (lo := if is_symm then i else 0%nat).
  destruct (right_loop M (i + 1) v v_length Hnz (M - lo) lo A1 HA1)
    as (A2 & Hrun2 & HA2 & Hget2); [unfold lo; destruct is_symm; lia|].
  rewrite Hrun1. cbn [bind]. rewrite Hrun2. cbn [bind].
  exists A2. split; [reflexivity|].
  fold P in Hget1, Hget2.
  (* the sums against [u] that vanish *)
  assert (Hcol0 : forall c, (c < i)%nat ->
            sumn M (fun t => embed (i + 1) v t * get A t c) = 0).
  { intros c Hc. apply sumn_zero. intros t Ht.
    destruct (Nat.lt_ge_cases t (i + 1)) as [Hlt|Hge].
    - rewrite embed_low by exact Hlt. lra.
    - rewrite (Hup t c) by lia. lra. }
  assert (E1 : A1 = mmul P A).
  { apply (matrix_ext _ _ M M); eauto with shapes.
    intros r c Hr Hc. rewrite (Hget1 r c Hr Hc).
    destruct (Nat.leb_spec i c) as [Hic|Hic].
    - replace (c <? i + (M - i))%nat with true by (symmetry; apply Nat.ltb_lt; lia).
      reflexivity.
    - cbn [andb]. unfold P.
      rewrite (get_householder_l M (i + 1) v v_length Hnz A r c HA Hr Hc).
      rewrite Hcol0 by exact Hic. lra. }
  (* the columns up to [i] are those of [P A], whichever rows the second
     loop visits *)
  assert (Hlow : forall r c, (r < M)%nat -> (c <= i)%nat ->
            get A2 r c = get (mmul P A) r c).
  { intros r c Hr Hc. assert (HcM : (c < M)%nat) by lia.
    rewrite (Hget2 r c Hr HcM), <- E1.
    destruct ((lo <=? r) && (r <? lo + (M - lo)))%nat; [|reflexivity].
    unfold P.
    rewrite (get_householder_r M (i + 1) v v_length Hnz A1 r c HA1 Hr HcM).
    rewrite (embed_low (i + 1) v c) by lia. lra. }
  split; [exact HA2|]. split.
  - intros r c Hc Hr.
    destruct (Nat.lt_ge_cases r M) as [HrM|HrM];
      [|apply (get_outside A2 M M); auto].
    assert (HcM : (c < M)%nat) by lia.
    rewrite (Hlow r c HrM) by lia. unfold P.
    rewrite (get_householder_l M (i + 1) v v_length Hnz A r c HA HrM HcM).
    destruct (Nat.eq_dec c i) as [->|Hci].
    + assert (Hsum : sumn M (fun t => embed (i + 1) v t * get A t i) = dot v a).
      { rewrite <- v_length, sumn_embed.
        rewrite (dot_sumn v a (length v)) by (left; lia).
        apply sumn_ext; intros k _. unfold a. now rewrite nth_col_from. }
      rewrite Hsum, embed_high by lia.
      rewrite Hvk by lia.
      replace (get A r i) with (nth (r - (i + 1)) a 0)
        by (unfold a; rewrite nth_col_from; f_equal; lia).
      replace (dot v a) with (dot v v / 2) by lra.
      field. exact Hnz.
    + rewrite Hcol0 by lia. rewrite (Hup r c) by lia. lra.
  - intros Hsym.
    assert (E2 : A2 = mmul A1 P).
    { apply (matrix_ext _ _ M M); eauto with shapes.
      intros r c Hr Hc. rewrite (Hget2 r c Hr Hc).
      destruct (Nat.leb_spec lo r) as [Hlr|Hlr].
      - replace (r <? lo + (M - lo))%nat with true
          by (symmetry; apply Nat.ltb_lt; unfold lo; destruct is_symm; lia).
        reflexivity.
      - cbn [andb]. unfold P.
        rewrite (get_householder_r M (i + 1) v v_length Hnz A1 r c HA1 Hr Hc).
        assert (Hs : is_symm = true)
          by (unfold lo in Hlr; destruct is_symm; [reflexivity|lia]).
        assert (Hri : (r < i)%nat) by (unfold lo in Hlr; rewrite Hs in Hlr; exact Hlr).
        rewrite sumn_zero; [lra|].
        intros t Ht.
        destruct (Nat.lt_ge_cases t (i + 1)) as [Hlt|Hge].
        + rewrite embed_low by exact Hlt. lra.
        + rewrite E1. unfold P.
          rewrite (get_householder_l M (i + 1) v v_length Hnz A r t HA Hr Ht).
          rewrite (embed_low (i + 1) v r) by lia.
          rewrite (symmetric_get A M r t HA HM (Hsym Hs)).
          rewrite (Hup t r) by lia. lra. }
    assert (E : A2 = mmul (mmul (transpose P) A) P).
    { rewrite E2, E1. unfold P.
      rewrite (householder_symmetric M (i + 1) v v_length Hnz). reflexivity. }
    split.
    + exists P. split; [apply householder_orthogonal; assumption|exact E].
    + intros Hs. rewrite E2, E1. unfold P.
      apply (symmetric_conjugate A _ M HM HA).
      * apply shape_householder.
      * exact (Hsym Hs).
      * apply householder_symmetric; assumption.
Qed.

End HessenbergStep.

(** ** hessenberg *)

Lemma dot_entries_zero (x y : vec) :
  (forall k, nth k x 0 = 0) -> dot x y = 0.
Proof.
  intros H. rewrite (dot_sumn x y (length x)) by (left; lia).
  apply sumn_zero; intros k _. rewrite H. lra.
Qed.

Lemma nth_zeros (n k : nat) : nth k (zeros n) 0 = 0.
Proof.
  unfold zeros. destruct (Nat.lt_ge_cases k n).
  - apply nth_repeat_lt; assumption.
  - apply nth_overflow. rewrite repeat_length. assumption.
Qed.

Lemma l2_norm_zeros (n : nat) : l2_norm (zeros n) = 0.
Proof.
  unfold l2_norm. rewrite dot_zeros_r. apply sqrt_0.
Qed.

(** Where the column below the diagonal is already zero, the vector of the
    reflection is zero and the first update divides 0 by 0. *)
Lemma hessenberg_step_zero_column
      (sign : R -> R) (is_symm : bool) (M i : nat) (A : matrix) (vs : list vec) :
  shape A M M -> (i + 3 <= M)%nat ->
  (forall r, (i < r)%nat -> get A r i = 0) ->
  hessenberg_step sign is_symm M i (A, vs) = Raise NotFinite.
Proof.
  intros HA Hi Hzero.
  unfold hessenberg_step. cbn [fst snd]. cbv zeta.
  set (a := col_from A (i + 1) i).
  assert (Ha : length a = S (M - i - 2))
    by (unfold a; rewrite length_col_from; destruct HA; lia).
  assert (Haz : a = zeros (length a)).
  { apply vec_ext; [unfold zeros; now rewrite repeat_length|].
    intros k _. unfold a. rewrite nth_col_from, nth_zeros. apply Hzero. lia. }
  replace (basis_vec_flat 0 (length a)) with (Ok (set_nth 0 1 (zeros (length a))))
    by (rewrite Ha; reflexivity).
  cbn [bind].
  set (v := vadd a (scal (sign (nth 0 a 0) * l2_norm a) (set_nth 0 1 (zeros (length a))))).
  assert (Hv : dot v v = 0).
  { apply dot_entries_zero. intros k. unfold v.
    rewrite nth_vadd by (rewrite length_scal, length_basis; reflexivity).
    rewrite nth_scal. rewrite Haz at 1 3. rewrite nth_zeros, l2_norm_zeros. lra. }
  replace (M - i)%nat with (S (M - i - 1)) by lia.
  cbn [seq for_loop]. unfold reflect_col at 1, fdiv.
  destruct (Req_dec_T (dot v v) 0); [reflexivity|contradiction].
Qed.

Section HessenbergLoop.

Variable sign : R -> R.
Hypothesis sign_unit : forall x, sign x * sign x = 1.
Variable M : nat.
Variable is_symm : bool.

Lemma hessenberg_loop (n i0 : nat) (A : matrix) (vs : list vec) :
  (i0 + n + 2 = M)%nat -> shape A M M -> hessenberg_upto i0 A ->
  for_loop (seq i0 n) (hessenberg_step sign is_symm M) (A, vs) = Raise NotFinite \/
  exists A' vs',
    for_loop (seq i0 n) (hessenberg_step sign is_symm M) (A, vs) = Ok (A', vs') /\
    shape A' M M /\ hessenberg_upto (i0 + n) A' /\
    ((is_symm = true -> symmetric A) ->
     similar M A A' /\ (is_symm = true -> symmetric A')).
Proof.
  revert i0 A vs. induction n as [|n IH]; intros i0 A vs Hn HA Hup.
  - right. exists A, vs. rewrite Nat.add_0_r. conj_split; auto.
    intros Hsym. split; [|exact Hsym]. apply similar_refl; [lia|exact HA].
  - cbn [seq for_loop].
    destruct (hessenberg_step_spec sign sign_unit M is_symm i0 A vs HA) as
      [[_ Hfail]|(_ & A1 & Hrun & HA1 & Hup1 & Hsim1)]; try assumption; [lia| |].
    + left. rewrite Hfail. reflexivity.
    + rewrite Hrun. cbn [bind].
      destruct (IH (S i0) A1 (vs ++ [reflection_vector sign A i0])) as
        [Hfail|(A' & vs' & Hrun' & HA' & Hup' & Hsim')]; try assumption; [lia| |].
      * left. exact Hfail.
      * right. exists A', vs'. conj_split; auto.
        -- replace (i0 + S n)%nat with (S i0 + n)%nat by lia. exact Hup'.
        -- intros Hsym. destruct (Hsim1 Hsym) as [Hs1 Hy1].
           destruct (Hsim' Hy1) as [Hs' Hy']. split; [|exact Hy'].
           apply (similar_trans M A A1 A'); (assumption || lia).
Qed.

End HessenbergLoop.

Lemma is_square_shape (A : matrix) (n : nat) : shape A n n -> is_square A = true.
Proof.
  intros HA. unfold is_square, nrows. apply Nat.eqb_eq.
  destruct n as [|n].
  - destruct HA as [Hl _]. destruct A; [reflexivity|discriminate].
  - rewrite (shape_ncols A (S n) (S n) HA) by lia. apply HA.
Qed.

Lemma upper_hessenberg_of_upto (A : matrix) (M : nat) :
  shape A M M -> hessenberg_upto (M - 2) A -> upper_hessenberg A.
Proof.
  intros HA Hup r c Hrc.
  destruct (Nat.lt_ge_cases r M) as [Hr|Hr]; [|apply (get_outside A M M); auto].
  apply Hup; lia.
Qed.

Lemma symmetric_tridiagonal (A : matrix) (M : nat) :
  shape A M M -> symmetric A -> upper_hessenberg A -> tridiagonal A.
Proof.
  intros HA Hs Hup. split; [exact Hup|].
  intros r c Hrc. destruct M as [|M'].
  - apply (get_outside A 0 0); auto. left; lia.
  - rewrite (symmetric_get A (S M') r c HA) by (auto; lia). apply Hup. exact Hrc.
Qed.

Lemma similar_nil : similar 0 [] [].
Proof. exists []. repeat split; reflexivity || constructor. Qed.

Lemma same_eigenpairs_nil : same_eigenpairs 0 [] [].
Proof.
  exists []. repeat split; try reflexivity; try constructor.
  - intros x Hx. destruct x; [reflexivity|discriminate].
  - intros y Hy. destruct y; [reflexivity|discriminate].
Qed.

(** Where no pass meets a zero reflection vector: for a square [A] and a
    [sign] with values 1 and -1, [hessenberg(A)] either divides by zero or
    returns a matrix [H] that is zero strictly below the first
    sub-diagonal; when [A] is exactly symmetric, or fails the test of
    [is_symmetric], [H] is [Q.T A Q] for an orthogonal [Q], so that the
    eigenvalues are those of [A] with corresponding eigenvectors; when [A]
    is symmetric, [H] is tridiagonal. *)
Lemma hessenberg_spec (sign : R -> R) (A : matrix) (M : nat) :
  (forall x, sign x * sign x = 1) ->
  shape A M M ->
  hessenberg sign A false = Raise NotFinite \/
  exists H,
    hessenberg sign A false = Ok (HessA H) /\
    shape H M M /\
    upper_hessenberg H /\
    (symmetric A \/ is_symmetric A = false ->
     similar M A H /\ same_eigenpairs M A H) /\
    (symmetric A -> tridiagonal H).
Proof.
  intros Hsign HA.
  unfold hessenberg. rewrite (is_square_shape A M HA). cbn [assert bind].
  unfold for_range, nrows. rewrite (proj1 HA).
  assert (Hsym : symmetric A \/ is_symmetric A = false ->
                 is_symmetric A = true -> symmetric A).
  { intros Hmode Ht. destruct Hmode as [Hs|Hf]; [exact Hs|congruence]. }
  destruct (Nat.le_gt_cases M 2) as [Hsmall|Hbig].
  - (* no pass at all *)
    right. replace (M - 2)%nat with 0%nat by lia. cbn [seq for_loop bind fst].
    exists A. split; [reflexivity|]. split; [exact HA|].
    assert (Hup : upper_hessenberg A).
    { intros r c Hrc. apply (get_outside A M M r c HA). left; lia. }
    split; [exact Hup|].
    destruct M as [|M'].
    + destruct HA as [Hl _]. destruct A; [|discriminate].
      split; [intros _; split; [exact similar_nil|exact same_eigenpairs_nil]|].
      intros _. split; intros r c _; destruct r, c; reflexivity.
    + assert (Hs : similar (S M') A A) by (apply similar_refl; [lia|exact HA]).
      split.
      * intros _. split; [exact Hs|].
        apply similar_same_eigenpairs; [lia|exact HA|exact Hs].
      * intros Hss. apply (symmetric_tridiagonal A (S M')); assumption.
  - destruct (hessenberg_loop sign Hsign M (is_symmetric A) (M - 2) 0 A [])
      as [Hfail|(H & vs & Hrun & HH & Hup & Hsim)]; try assumption.
    + lia.
    + intros r c Hc _. lia.
    + left. rewrite Hfail. reflexivity.
    + right. rewrite Hrun. cbn [bind fst]. exists H.
      split; [reflexivity|]. split; [exact HH|].
      assert (HupH : upper_hessenberg H)
        by (apply (upper_hessenberg_of_upto H M HH); exact Hup).
      split; [exact HupH|]. split.
      * intros Hmode. destruct (Hsim (Hsym Hmode)) as [Hs _].
        split; [exact Hs|].
        apply similar_same_eigenpairs; [lia|exact HA|exact Hs].
      * intros Hss.
        destruct (Hsim (fun _ => Hss)) as [_ Hy].
        apply (symmetric_tridiagonal H M HH); [|exact HupH].
        apply Hy. apply symmetric_is_symmetric. exact Hss.
Qed.

Lemma utils_sign_unit (x : R) : utils_sign x * utils_sign x = 1.
Proof. unfold utils_sign. destruct (Rle_dec 0 x); lra. Qed.

(** Every matrix of three or more rows whose first column is zero below
    the diagonal (a diagonal matrix, an upper triangular one) makes the
    first pass divide 0 by 0, whatever [sign] is. *)
Lemma hessenberg_zero_first_column
      (sign : R -> R) (A : matrix) (M : nat) (calc_q : bool) :
  shape A M M -> (3 <= M)%nat ->
  (forall r, (0 < r)%nat -> get A r 0 = 0) ->
  hessenberg sign A calc_q = Raise NotFinite.
Proof.
  intros HA HM Hzero. unfold hessenberg.
  rewrite (is_square_shape A M HA). cbn [assert bind].
  unfold for_range, nrows. rewrite (proj1 HA).
  replace (M - 2)%nat with (S (M - 3)) by lia. cbn [seq for_loop].
  rewrite (hessenberg_step_zero_column sign _ M 0 A [] HA) by (auto; lia).
  reflexivity.
Qed.

(** A run that does return: on [arrow345] the one reflection vector is not
    zero, and the result is tridiagonal and similar to the input. *)
Lemma hessenberg_arrow345 :
  exists H,
    hessenberg utils_sign arrow345 false = Ok (HessA H) /\
    tridiagonal H /\ similar 3 arrow345 H.
Proof.
  assert (HA : shape arrow345 3 3) by (split; [reflexivity|repeat constructor]).
  assert (Hs : symmetric arrow345) by reflexivity.
  assert (Hv : dot (reflection_vector utils_sign arrow345 0)
                   (reflection_vector utils_sign arrow345 0) <> 0).
  { unfold reflection_vector.
    change (col_from arrow345 (0 + 1) 0) with [3; 4].
    cbn [nth length zeros repeat set_nth].
    assert (Hc : 0 <= l2_norm [3; 4]) by (unfold l2_norm; apply sqrt_pos).
    assert (Hsg : utils_sign 3 = 1)
      by (unfold utils_sign; destruct (Rle_dec 0 3); lra).
    rewrite Hsg. simpl.
    set (c := l2_norm [3; 4]) in *.
    assert (0 < (3 + 1 * c * 1) * (3 + 1 * c * 1)) by nra.
    assert (0 <= (4 + 1 * c * 0) * (4 + 1 * c * 0)) by nra.
    lra. }
  destruct (hessenberg_step_spec utils_sign utils_sign_unit 3 (is_symmetric arrow345)
              0 arrow345 [] HA)
    as [[Hz _]|(_ & A' & Hrun & HA' & Hup & Hcond)].
  - lia.
  - intros r c Hc. lia.
  - contradiction.
  - destruct (Hcond (fun _ => Hs)) as [Hsim Hsy].
    exists A'. split; [|split].
    + unfold hessenberg. cbn [is_square nrows ncols arrow345 length hd Nat.eqb
                                assert bind Nat.sub].
      unfold for_range. cbn [seq for_loop]. rewrite Hrun. reflexivity.
    + apply (symmetric_tridiagonal A' 3 HA').
      * apply Hsy. apply symmetric_is_symmetric, Hs.
      * apply (upper_hessenberg_of_upto A' 3 HA'). exact Hup.
    + exact Hsim.
Qed.

(** The column below the diagonal of a 3-by-3 array. *)
Lemma col_below_33 (A : matrix) :
  shape A 3 3 -> col_from A 1 0 = [get A 1 0; get A 2 0].
Proof.
  intros HA.
  assert (Hl : length (col_from A 1 0) = 2%nat)
    by (rewrite length_col_from; destruct HA as [-> _]; reflexivity).
  apply vec_ext; [exact Hl|]. intros k Hk. rewrite Hl in Hk.
  rewrite nth_col_from. destruct k as [|[|k]]; [reflexivity|reflexivity|lia].
Qed.

(** With the sign of the pivot, the reflection vector of a column that is
    not zero is not zero. *)
Lemma reflection_vector_33 (A : matrix) :
  shape A 3 3 ->
  dot (reflection_vector utils_sign A 0) (reflection_vector utils_sign A 0) = 0 ->
  get A 1 0 = 0 /\ get A 2 0 = 0.
Proof.
  intros HA. unfold reflection_vector. cbv zeta.
  change (0 + 1)%nat with 1%nat. rewrite (col_below_33 A HA).
  set (p := get A 1 0). set (q := get A 2 0).
  cbn [nth length zeros repeat set_nth scal map vadd zip_with dot].
  assert (Hc : 0 <= l2_norm [p; q]) by (unfold l2_norm; apply sqrt_pos).
  assert (Hcc : l2_norm [p; q] * l2_norm [p; q] = p * p + q * q).
  { rewrite l2_norm_sqr. cbn [dot]. ring. }
  set (c := l2_norm [p; q]) in *. clearbody c.
  unfold utils_sign. destruct (Rle_dec 0 p) as [Hp|Hp]; intros Hv.
  - assert (H1 : p + 1 * c * 1 = 0) by nra.
    assert (H2 : q + 1 * c * 0 = 0) by nra.
    split; nra.
  - assert (H1 : p + -1 * c * 1 = 0) by nra.
    assert (H2 : q + -1 * c * 0 = 0) by nra.
    split; nra.
Qed.

(** On 3-by-3 arrays, with the sign of the pivot, the arrays on which
    [hessenberg] divides by zero are exactly those whose first column is
    zero below the diagonal. *)
Lemma hessenberg_33_not_finite_iff (A : matrix) :
  shape A 3 3 ->
  hessenberg utils_sign A false = Raise NotFinite <->
  get A 1 0 = 0 /\ get A 2 0 = 0.
Proof.
  intros HA. split.
  - intros Hraise.
    destruct (hessenberg_step_spec utils_sign utils_sign_unit 3 (is_symmetric A)
                0 A [] HA)
      as [[Hz _]|(_ & A' & Hrun & _)].
    + lia.
    + intros r c Hc. lia.
    + apply (reflection_vector_33 A HA Hz).
    + exfalso. revert Hraise. unfold hessenberg.
      rewrite (is_square_shape A 3 HA). cbn [assert bind].
      unfold for_range, nrows. rewrite (proj1 HA).
      cbn [Nat.sub seq for_loop]. rewrite Hrun. discriminate.
  - intros [H1 H2]. apply (hessenberg_zero_first_column utils_sign A 3 false HA); [lia|].
    intros r Hr. destruct r as [|[|[|r]]]; [lia|exact H1|exact H2|].
    apply (get_outside A 3 3); [exact HA|left; lia].
Qed.

(** C6 (code bug): [hessenberg] has no guard for a reflection vector that
    is zero.  On every square array of three or more rows whose first
    column is zero below the diagonal, as in every diagonal matrix and in
    the identity, the first pass forms [v = a + s*c*e = 0] and divides by
    [v.T @ v = 0], whatever [sign] returns and whatever [calc_q] is: no
    Hessenberg form comes back (numpy: an array of [nan]), where the claim
    has the input itself, which is in that form already. *)
Theorem hessenberg_zero_column_not_finite
    (sign : R -> R) (A : matrix) (M : nat) (calc_q : bool) :
  shape A M M -> (3 <= M)%nat ->
  (forall r, (0 < r < M)%nat -> get A r 0 = 0) ->
  hessenberg sign A calc_q = Raise NotFinite.
Proof.
  intros HA HM Hzero.
  apply (hessenberg_zero_first_column sign A M calc_q HA HM).
  intros r Hr. destruct (Nat.lt_ge_cases r M) as [Hlt|Hge].
  - apply Hzero. lia.
  - apply (get_outside A M M); [exact HA|left; exact Hge].
Qed.

Lemma hessenberg_zero_column_not_finite_witness :
  hessenberg utils_sign (eye 3) false = Raise NotFinite.
Proof.
  apply (hessenberg_zero_column_not_finite utils_sign (eye 3) 3 false).
  - apply shape_eye.
  - lia.
  - intros r Hr. rewrite get_eye by lia. destruct r; [lia|reflexivity].
Defined.

(** ** The store: what a call leaves untouched *)

Module HeapFrame.

Import Heap.

Lemma firstn_set_nth {A : Type} (n r : nat) (x : A) (l : list A) :
  (n <= r)%nat -> firstn n (set_nth r x l) = firstn n l.
Proof.
  revert n r; induction l as [|h t IH]; intros [|n] [|r] H; simpl; try reflexivity;
    try lia.
  f_equal. apply IH. lia.
Qed.

Lemma keeps_ret {A : Type} (n : nat) (a : A) (Post : A -> Prop) :
  Post a -> keeps n (hret a) Post.
Proof. intros H s Hs. simpl. auto. Qed.

Lemma keeps_bind {A B : Type} (n : nat) (m : hp A) (k : A -> hp B)
      (P : A -> Prop) (Q : B -> Prop) :
  keeps n m P -> (forall a, P a -> keeps n (k a) Q) -> keeps n (hbind m k) Q.
Proof.
  intros Hm Hk s Hs. unfold hbind. specialize (Hm s Hs).
  destruct (m s) as [[a s1]|e]; [|exact I].
  destruct Hm as (Hlen & Hpre & Ha).
  specialize (Hk a Ha s1 (Nat.le_trans _ _ _ Hs Hlen)).
  destruct (k a s1) as [[b s2]|e]; [|exact I].
  destruct Hk as (Hlen' & Hpre' & Hb).
  repeat split; [lia|congruence|exact Hb].
Qed.

Lemma keeps_weaken {A : Type} (n : nat) (m : hp A) (P Q : A -> Prop) :
  keeps n m P -> (forall a, P a -> Q a) -> keeps n m Q.
Proof.
  intros Hm HPQ s Hs. specialize (Hm s Hs).
  destruct (m s) as [[a s1]|e]; [|exact I].
  destruct Hm as (Hlen & Hpre & Ha). auto.
Qed.

Lemma keeps_lift {A : Type} (n : nat) (r : result A) :
  keeps n (hlift r) (fun _ => True).
Proof. intros s Hs. unfold hlift. destruct r; simpl; auto. Qed.

Lemma keeps_in_world {A : Type} (n : nat) (m : py A) :
  keeps n (in_world m) (fun _ => True).
Proof.
  intros s Hs. unfold in_world. destruct (m (outside s)) as [[a w]|e]; simpl; auto.
Qed.

Lemma keeps_alloc (n : nat) (o : obj) : keeps n (alloc o) (fun r => (n <= r)%nat).
Proof.
  intros s Hs. unfold alloc. cbn [objs]. repeat split.
  - rewrite length_app. lia.
  - rewrite firstn_app. replace (n - length (objs s))%nat with 0%nat by lia.
    simpl. apply app_nil_r.
  - exact Hs.
Qed.

Lemma keeps_load (n : nat) (r : ref) : keeps n (load r) (fun _ => True).
Proof.
  intros s Hs. unfold load. destruct (nth_error (objs s) r); simpl; auto.
Qed.

Lemma keeps_load_vec (n : nat) (r : ref) : keeps n (load_vec r) (fun _ => True).
Proof.
  unfold load_vec. eapply keeps_bind; [apply keeps_load|].
  intros [v|A] _; [apply keeps_ret; exact I|apply keeps_lift].
Qed.

Lemma keeps_load_mat (n : nat) (r : ref) : keeps n (load_mat r) (fun _ => True).
Proof.
  unfold load_mat. eapply keeps_bind; [apply keeps_load|].
  intros [v|A] _; [apply keeps_lift|apply keeps_ret; exact I].
Qed.

Lemma keeps_store_at (n : nat) (r : ref) (o : obj) :
  (n <= r)%nat -> keeps n (store_at r o) (fun _ => True).
Proof.
  intros Hr s Hs. unfold store_at. cbn [objs]. repeat split.
  - rewrite length_set_nth. lia.
  - apply firstn_set_nth. exact Hr.
Qed.

Lemma keeps_for {S : Type} (n : nat) (Inv : S -> Prop) (idx : list nat)
      (body : nat -> S -> hp (ctl S)) (s0 : S) :
  Inv s0 ->
  (forall i s, Inv s -> keeps n (body i s) (fun c => Inv (ctl_state c))) ->
  keeps n (hfor_loop idx body s0) Inv.
Proof.
  intros H0 Hbody. revert s0 H0. induction idx as [|i idx IH]; intros s0 H0.
  - apply keeps_ret. exact H0.
  - cbn [hfor_loop]. eapply keeps_bind; [apply Hbody; exact H0|].
    intros [s1|s1] Hc; simpl in Hc.
    + apply IH. exact Hc.
    + apply keeps_ret. exact Hc.
Qed.

(** One step of a routine, by the rule of its head. *)
Ltac keeps_head :=
  lazymatch goal with
  | |- keeps _ (hret _) _ => apply keeps_ret
  | |- keeps _ (hlift _) _ => apply keeps_lift
  | |- keeps _ (in_world _) _ => apply keeps_in_world
  | |- keeps _ (alloc _) _ => apply keeps_alloc
  | |- keeps _ (load _) _ => apply keeps_load
  | |- keeps _ (load_vec _) _ => apply keeps_load_vec
  | |- keeps _ (load_mat _) _ => apply keeps_load_mat
  | |- keeps _ (store_at _ _) _ => apply keeps_store_at
  end.

Ltac keeps_seq :=
  repeat lazymatch goal with
    | |- keeps _ (hbind _ _) _ =>
        eapply keeps_bind;
        [solve [keeps_head; cbv beta in *; auto] | intros ? ?; cbv beta in *]
    end.

Lemma keeps_np_array (n : nat) (A : ref) :
  keeps n (np_array A) (fun r => (n <= r)%nat).
Proof. unfold np_array. keeps_seq. keeps_head. Qed.

Lemma keeps_randn_new (n k : nat) :
  keeps n (randn_new k) (fun r => (n <= r)%nat).
Proof. unfold randn_new. keeps_seq. keeps_head. Qed.

Lemma keeps_matvec_new (n : nat) (A v : ref) :
  keeps n (matvec_new A v) (fun r => (n <= r)%nat).
Proof. unfold matvec_new. keeps_seq. keeps_head. Qed.

Lemma keeps_idiv_norm (n : nat) (v : ref) :
  (n <= v)%nat -> keeps n (idiv_norm v) (fun _ => True).
Proof. intros Hv. unfold idiv_norm. keeps_seq. keeps_head. exact Hv. Qed.

Lemma keeps_rayleigh_quotient (n : nat) (A x : ref) :
  keeps n (Heap.rayleigh_quotient A x) (fun _ => True).
Proof. unfold Heap.rayleigh_quotient. keeps_seq. keeps_head. Qed.


Section RoutinesKeep.

Variable sign : R -> R.
Variable projection : vec -> vec -> result vec.
Variable normalize : vec -> result vec.
Variable LU_decompose : matrix -> string -> result (list matrix).
Variable solve : solve_arg -> vec -> result vec.
Variable QR_decompose : matrix -> result (matrix * matrix).
Variable LU_leaves : matrix -> matrix.
Variable QR_leaves : matrix -> matrix.
Variable solve_leaves_matrix : matrix -> vec -> matrix.
Variable solve_leaves_rhs : solve_arg -> vec -> vec.
Variable n : nat.

Lemma keeps_call_LU (A : ref) (pivoting : string) :
  (n <= A)%nat ->
  keeps n (call_LU LU_decompose LU_leaves A pivoting) (fun _ => True).
Proof. intros HA. unfold call_LU. keeps_seq. keeps_head. exact I. Qed.

Lemma keeps_call_solve_factors (fs : list matrix) (b : ref) :
  (n <= b)%nat ->
  keeps n (call_solve_factors solve solve_leaves_rhs fs b) (fun r => (n <= r)%nat).
Proof. intros Hb. unfold call_solve_factors. keeps_seq. keeps_head. Qed.

Lemma keeps_call_solve_matrix (X b : ref) :
  (n <= X)%nat -> (n <= b)%nat ->
  keeps n (call_solve_matrix solve solve_leaves_matrix solve_leaves_rhs X b)
        (fun r => (n <= r)%nat).
Proof. intros HX Hb. unfold call_solve_matrix. keeps_seq. keeps_head. Qed.

Lemma keeps_call_QR (X : ref) :
  (n <= X)%nat ->
  keeps n (call_QR QR_decompose QR_leaves X)
        (fun QR => (n <= fst QR)%nat /\ (n <= snd QR)%nat).
Proof.
  intros HX. unfold call_QR. keeps_seq. keeps_head. simpl. auto.
Qed.

Lemma keeps_power_iteration (A : ref) (max_iter : nat) :
  keeps n (power_iteration A max_iter) (fun r => (n <= snd r)%nat).
Proof.
  unfold power_iteration, hfor_range. keeps_seq.
  eapply keeps_bind; [apply keeps_randn_new|]. intros v Hv.
  eapply keeps_bind.
  - apply (keeps_for n (fun v => (n <= v)%nat)); [exact Hv|].
    intros i v0 Hv0.
    eapply keeps_bind; [apply keeps_matvec_new|]. intros v1 Hv1.
    eapply keeps_bind; [apply keeps_idiv_norm; exact Hv1|]. intros _ _.
    apply keeps_ret. exact Hv1.
  - intros v' Hv'.
    eapply keeps_bind; [apply keeps_rayleigh_quotient|]. intros e _.
    apply keeps_ret. exact Hv'.
Qed.

Lemma keeps_inverse_iteration (A : ref) (max_iter : nat) :
  keeps n (inverse_iteration LU_decompose solve LU_leaves solve_leaves_rhs A max_iter)
        (fun r => (n <= snd r)%nat).
Proof.
  unfold inverse_iteration, hfor_range. keeps_seq.
  eapply keeps_bind; [apply keeps_randn_new|]. intros v Hv.
  eapply keeps_bind; [apply keeps_np_array|]. intros c Hc.
  eapply keeps_bind; [apply keeps_call_LU; exact Hc|]. intros PLU _.
  eapply keeps_bind.
  - apply (keeps_for n (fun v => (n <= v)%nat)); [exact Hv|].
    intros i v0 Hv0.
    eapply keeps_bind; [apply keeps_call_solve_factors; exact Hv0|]. intros v1 Hv1.
    eapply keeps_bind; [apply keeps_idiv_norm; exact Hv1|]. intros _ _.
    apply keeps_ret. exact Hv1.
  - intros v' Hv'.
    eapply keeps_bind; [apply keeps_rayleigh_quotient|]. intros e _.
    apply keeps_ret. exact Hv'.
Qed.

Lemma keeps_rayleigh_quotient_iteration (A : ref) (mu : R) (max_iter : nat) :
  keeps n (rayleigh_quotient_iteration solve solve_leaves_matrix solve_leaves_rhs
             A mu max_iter)
        (fun r => (n <= snd r)%nat).
Proof.
  unfold rayleigh_quotient_iteration, hfor_range. keeps_seq.
  eapply keeps_bind; [apply keeps_randn_new|]. intros v Hv.
  apply (keeps_for n (fun st : R * ref => (n <= snd st)%nat)); [exact Hv|].
  intros i st Hst. keeps_seq.
  eapply keeps_bind; [apply keeps_call_solve_matrix; assumption|]. intros v1 Hv1.
  eapply keeps_bind; [apply keeps_idiv_norm; exact Hv1|]. intros _ _.
  eapply keeps_bind; [apply keeps_rayleigh_quotient|]. intros e _.
  apply keeps_ret. exact Hv1.
Qed.

Lemma keeps_sort_eigen (k : nat) (eigvals eigvecs : ref) :
  keeps n (sort_eigen k eigvals eigvecs) (fun _ => True).
Proof. unfold sort_eigen. keeps_seq. keeps_head. exact I. Qed.

Lemma keeps_projected_step (A eigvecs : ref) (i : nat) (v : ref) :
  (n <= v)%nat ->
  keeps n (projected_step projection normalize A eigvecs i v)
        (fun c => (n <= ctl_state c)%nat).
Proof.
  intros Hv. unfold projected_step, hfor_range. keeps_seq.
  eapply keeps_bind.
  - apply (keeps_for n (fun _ : unit => True)); [exact I|].
    intros j u _. keeps_seq. keeps_head. exact I.
  - intros _ _. keeps_seq.
    eapply keeps_bind; [apply keeps_matvec_new|]. intros v1 Hv1. keeps_seq.
    destruct (converged _ _); apply keeps_ret; simpl; assumption.
Qed.

Lemma keeps_projected_iteration (A : ref) (k : Z) (max_iter : nat) (sort : bool) :
  keeps n (projected_iteration projection normalize A k max_iter sort)
        (fun _ => True).
Proof.
  unfold projected_iteration, hfor_range. keeps_seq.
  eapply keeps_bind.
  - apply (keeps_for n (fun _ : unit => True)); [exact I|].
    intros i u _.
    eapply keeps_bind; [apply keeps_randn_new|]. intros v Hv.
    eapply keeps_bind.
    + apply (keeps_for n (fun v => (n <= v)%nat)); [exact Hv|].
      intros j v0 Hv0. apply keeps_projected_step. exact Hv0.
    + intros v' Hv'.
      eapply keeps_bind; [apply keeps_rayleigh_quotient|]. intros e _.
      keeps_seq. keeps_head. exact I.
  - intros _ _. destruct sort; [apply keeps_sort_eigen|apply keeps_ret; exact I].
Qed.

Lemma keeps_hessenberg_step (is_symm : bool) (M : nat) (W : ref) (i : nat)
      (vs : list ref) :
  (n <= W)%nat -> Forall (fun v => (n <= v)%nat) vs ->
  keeps n (hessenberg_step sign is_symm M W i vs)
        (fun c => Forall (fun v => (n <= v)%nat) (ctl_state c)).
Proof.
  intros HW Hvs. unfold hessenberg_step. cbv zeta. keeps_seq.
  eapply keeps_bind.
  - apply (keeps_for n (fun _ : unit => True)); [exact I|].
    intros j u _. keeps_seq. keeps_head. exact I.
  - intros _ _. eapply keeps_bind.
    + apply (keeps_for n (fun _ : unit => True)); [exact I|].
      intros j u _. keeps_seq. keeps_head. exact I.
    + intros _ _. apply keeps_ret. simpl.
      apply Forall_app. split; [exact Hvs|]. constructor; [assumption|constructor].
Qed.

Lemma keeps_hessenberg_q (M : nat) (vs : list ref) :
  keeps n (hessenberg_q M vs) (fun Q => (n <= Q)%nat).
Proof.
  unfold hessenberg_q, hfor_range. keeps_seq.
  eapply keeps_bind.
  - apply (keeps_for n (fun _ : unit => True)); [exact I|].
    intros i u _. eapply keeps_bind.
    + apply (keeps_for n (fun _ : unit => True)); [exact I|].
      intros j u' _. keeps_seq. keeps_head. exact I.
    + intros _ _. apply keeps_ret. exact I.
  - intros _ _. apply keeps_ret. assumption.
Qed.

Lemma keeps_hessenberg (A : ref) (calc_q : bool) :
  keeps n (hessenberg sign A calc_q) (fun r => (n <= fst r)%nat).
Proof.
  unfold hessenberg, hfor_range. cbv zeta. keeps_seq.
  eapply keeps_bind; [apply keeps_np_array|]. intros W HW.
  eapply keeps_bind.
  - apply (keeps_for n (fun vs => Forall (fun v => (n <= v)%nat) vs)); [constructor|].
    intros i vs Hvs. apply keeps_hessenberg_step; assumption.
  - intros vs Hvs. destruct calc_q.
    + eapply keeps_bind; [apply keeps_hessenberg_q|]. intros Q HQ.
      apply keeps_ret. exact HW.
    + apply keeps_ret. exact HW.
Qed.

Lemma keeps_qr_step (M : nat) (A : ref) :
  keeps n (qr_step QR_decompose QR_leaves M A) (fun _ => True).
Proof.
  unfold qr_step. keeps_seq.
  eapply keeps_bind; [apply keeps_call_QR; assumption|]. intros QR HQR. keeps_seq.
  destruct (converged2 _ _); apply keeps_ret; exact I.
Qed.

Lemma keeps_qr_algorithm (A : ref) (hess sort : bool) :
  keeps n (qr_algorithm sign solve QR_decompose QR_leaves solve_leaves_matrix
             solve_leaves_rhs A hess sort)
        (fun _ => True).
Proof.
  unfold qr_algorithm, hfor_range. cbv zeta. keeps_seq.
  eapply keeps_bind; [apply keeps_np_array|]. intros backup Hb.
  eapply keeps_bind.
  { instantiate (1 := fun _ => True). destruct hess.
    - eapply keeps_bind; [apply keeps_hessenberg|]. intros h _.
      apply keeps_ret. exact I.
    - apply keeps_ret. exact I. }
  intros A1 _. keeps_seq.
  eapply keeps_bind.
  { apply (keeps_for n (fun _ : ref => True)); [exact I|].
    intros i A2 _. eapply keeps_weaken; [apply keeps_qr_step|]. auto. }
  intros A3 _. keeps_seq.
  eapply keeps_bind.
  - apply (keeps_for n (fun _ : unit => True)); [exact I|].
    intros i u _.
    eapply keeps_bind; [apply keeps_rayleigh_quotient_iteration|]. intros ev Hev.
    keeps_seq. keeps_head. exact I.
  - intros _ _. destruct sort; [apply keeps_sort_eigen|apply keeps_ret; exact I].
Qed.

Lemma keeps_eig (A : ref) (sort : bool) :
  keeps n (eig sign solve QR_decompose QR_leaves solve_leaves_matrix
             solve_leaves_rhs A sort)
        (fun _ => True).
Proof.
  unfold eig. eapply keeps_bind; [apply keeps_qr_algorithm|]. intros ev _.
  apply keeps_ret. exact I.
Qed.

End RoutinesKeep.


Lemma unchanged_of_keeps {A : Type} (m : hp A) (P : nat -> A -> Prop) :
  (forall n, keeps n m (P n)) -> unchanged m.
Proof.
  intros H s. specialize (H (length (objs s)) s (Nat.le_refl _)).
  destruct (m s) as [[a s']|e]; [|exact I].
  destruct H as (_ & Hpre & _). rewrite Hpre. apply firstn_all.
Qed.

(** In particular the object a reference pointed to before the call is
    the one it points to afterwards. *)
Lemma unchanged_at {A : Type} (m : hp A) (s s' : hstate) (a : A) (r : ref) :
  unchanged m -> m s = Ok (a, s') -> (r < length (objs s))%nat ->
  nth_error (objs s') r = nth_error (objs s) r.
Proof.
  intros H Hrun Hr. specialize (H s). rewrite Hrun in H.
  transitivity (nth_error (firstn (length (objs s)) (objs s')) r).
  - rewrite nth_error_firstn.
    now replace (r <? length (objs s))%nat with true
      by (symmetry; apply Nat.ltb_lt; exact Hr).
  - now rewrite H.
Qed.

(** C9: whatever the store and the reference [A] the caller passes,
    [hessenberg], [qr_algorithm], [eig], [projected_iteration] and the three
    single-eigenpair iterations return with every object that was in the
    store before the call unchanged, the caller's matrix among them: all
    their writes go to arrays they allocated themselves, also when the
    decompositions and the solver work in place on what they are given. *)
Theorem routines_leave_store_unchanged
    (sign : R -> R)
    (projection : vec -> vec -> result vec) (normalize : vec -> result vec)
    (LU_decompose : matrix -> string -> result (list matrix))
    (solve : solve_arg -> vec -> result vec)
    (QR_decompose : matrix -> result (matrix * matrix))
    (LU_leaves QR_leaves : matrix -> matrix)
    (solve_leaves_matrix : matrix -> vec -> matrix)
    (solve_leaves_rhs : solve_arg -> vec -> vec)
    (A : ref) (k : Z) (max_iter : nat) (mu : R) (calc_q hess sort : bool) :
  unchanged (hessenberg sign A calc_q) /\
  unchanged (qr_algorithm sign solve QR_decompose QR_leaves solve_leaves_matrix
               solve_leaves_rhs A hess sort) /\
  unchanged (eig sign solve QR_decompose QR_leaves solve_leaves_matrix
               solve_leaves_rhs A sort) /\
  unchanged (projected_iteration projection normalize A k max_iter sort) /\
  unchanged (power_iteration A max_iter) /\
  unchanged (inverse_iteration LU_decompose solve LU_leaves solve_leaves_rhs
               A max_iter) /\
  unchanged (rayleigh_quotient_iteration solve solve_leaves_matrix solve_leaves_rhs
               A mu max_iter).
Proof.
  repeat split.
  - apply (unchanged_of_keeps _ (fun _ _ => True)). intros n.
    eapply keeps_weaken; [apply keeps_hessenberg|]. auto.
  - apply (unchanged_of_keeps _ (fun _ _ => True)). intros n.
    eapply keeps_weaken; [apply keeps_qr_algorithm|]. auto.
  - apply (unchanged_of_keeps _ (fun _ _ => True)). intros n.
    eapply keeps_weaken; [apply keeps_eig|]. auto.
  - apply (unchanged_of_keeps _ (fun _ _ => True)). intros n.
    eapply keeps_weaken; [apply keeps_projected_iteration|]. auto.
  - apply (unchanged_of_keeps _ (fun _ _ => True)). intros n.
    eapply keeps_weaken; [apply keeps_power_iteration|]. auto.
  - apply (unchanged_of_keeps _ (fun _ _ => True)). intros n.
    eapply keeps_weaken; [apply keeps_inverse_iteration|]. auto.
  - apply (unchanged_of_keeps _ (fun _ _ => True)). intros n.
    eapply keeps_weaken; [apply keeps_rayleigh_quotient_iteration|]. auto.
Qed.

End HeapFrame.

(** ** The store: hessenberg computes what the value model computes *)

Module HeapRefines.

Abbreviation value_hessenberg := hessenberg.
Abbreviation value_hessenberg_step := hessenberg_step.

Import Heap.

Lemma nth_error_set_nth_eq {A : Type} (r : nat) (x : A) (l : list A) :
  (r < length l)%nat -> nth_error (set_nth r x l) r = Some x.
Proof.
  revert r; induction l as [|h t IH]; intros [|r] H; simpl in *; try lia; auto.
  apply IH. lia.
Qed.

Lemma nth_error_set_nth_neq {A : Type} (r r' : nat) (x : A) (l : list A) :
  r <> r' -> nth_error (set_nth r x l) r' = nth_error l r'.
Proof.
  revert r r'; induction l as [|h t IH]; intros [|r] [|r'] H; simpl; auto; try lia.
Qed.

Lemma set_nth_same {A : Type} (r : nat) (x : A) (l : list A) :
  nth_error l r = Some x -> set_nth r x l = l.
Proof.
  revert r; induction l as [|h t IH]; intros [|r] H; simpl in *; try discriminate.
  - congruence.
  - f_equal. apply IH. exact H.
Qed.

Lemma set_nth_twice {A : Type} (r : nat) (x y : A) (l : list A) :
  set_nth r y (set_nth r x l) = set_nth r y l.
Proof.
  revert r; induction l as [|h t IH]; intros [|r]; simpl; auto. f_equal. apply IH.
Qed.

Lemma put_same (r : ref) (o : obj) (s : hstate) :
  nth_error (objs s) r = Some o -> put r o s = s.
Proof.
  intros H. unfold put. rewrite (set_nth_same r o _ H). destruct s; reflexivity.
Qed.

Lemma put_twice (r : ref) (o o' : obj) (s : hstate) :
  put r o' (put r o s) = put r o' s.
Proof. unfold put. cbn [objs outside]. now rewrite set_nth_twice. Qed.

Lemma load_mat_at (s : hstate) (r : ref) (a : matrix) :
  nth_error (objs s) r = Some (OMat a) -> load_mat r s = Ok (a, s).
Proof. intros H. unfold load_mat, load, hbind. rewrite H. reflexivity. Qed.

Lemma load_vec_at (s : hstate) (r : ref) (x : vec) :
  nth_error (objs s) r = Some (OVec x) -> load_vec r s = Ok (x, s).
Proof. intros H. unfold load_vec, load, hbind. rewrite H. reflexivity. Qed.

Lemma hbind_ok {A B : Type} (m : hp A) (k : A -> hp B) (s s' : hstate) (a : A) :
  m s = Ok (a, s') -> hbind m k s = k a s'.
Proof. intros H. unfold hbind. now rewrite H. Qed.

Lemma hbind_raise {A B : Type} (m : hp A) (k : A -> hp B) (s : hstate) (e : exn) :
  m s = Raise e -> hbind m k s = Raise e.
Proof. intros H. unfold hbind. now rewrite H. Qed.

(** A loop that rewrites the matrix at [W] pass by pass, reading the
    vector at [v], does to the store what the loop on values does to the
    matrix. *)
Lemma heap_update_loop (W v : ref) (x : vec)
      (g : vec -> matrix -> nat -> result vec) (h : matrix -> nat -> vec -> matrix)
      (js : list nat) (s : hstate) (w : matrix) :
  W <> v ->
  nth_error (objs s) W = Some (OMat w) ->
  nth_error (objs s) v = Some (OVec x) ->
  hfor_loop js
    (fun j _ =>
       w <<- load_mat W ;;
       x <<- load_vec v ;;
       y <<- hlift (g x w j) ;;
       store_at W (OMat (h w j y)) ;;>
       hret (Continue tt)) tt s
  = match for_loop js (fun j A => y <- g x A j ;; Ok (h A j y)) w with
    | Ok w' => Ok (tt, put W (OMat w') s)
    | Raise e => Raise e
    end.
Proof.
  intros HWv. revert s w. induction js as [|j js IH]; intros s w HW Hv.
  - cbn. now rewrite (put_same W (OMat w) s HW).
  - cbn [hfor_loop for_loop].
    destruct (g x w j) as [y|e] eqn:Hg; cbn [bind].
    2:{ apply hbind_raise. rewrite (hbind_ok _ _ s s w (load_mat_at s W w HW)).
        rewrite (hbind_ok _ _ s s x (load_vec_at s v x Hv)).
        apply hbind_raise. now rewrite Hg. }
    rewrite (hbind_ok _ _ s (put W (OMat (h w j y)) s) (Continue tt)).
    2:{ rewrite (hbind_ok _ _ s s w (load_mat_at s W w HW)).
        rewrite (hbind_ok _ _ s s x (load_vec_at s v x Hv)).
        rewrite (hbind_ok _ _ s s y) by now rewrite Hg.
        reflexivity. }
    assert (HWlt : (W < length (objs s))%nat)
      by (apply nth_error_Some; rewrite HW; discriminate).
    rewrite (IH (put W (OMat (h w j y)) s) (h w j y)).
    + destruct (for_loop js _ (h w j y)) as [w'|e]; [|reflexivity].
      now rewrite put_twice.
    + unfold put. cbn [objs]. apply nth_error_set_nth_eq. exact HWlt.
    + unfold put. cbn [objs]. rewrite nth_error_set_nth_neq by exact HWv. exact Hv.
Qed.

Lemma nth_error_app_old {A : Type} (l : list A) (x : A) (r : nat) (o : A) :
  nth_error l r = Some o -> nth_error (l ++ [x]) r = Some o.
Proof.
  intros H. rewrite nth_error_app1; [exact H|].
  apply nth_error_Some. rewrite H. discriminate.
Qed.

Lemma nth_error_app_new {A : Type} (l : list A) (x : A) :
  nth_error (l ++ [x]) (length l) = Some x.
Proof. rewrite nth_error_app2 by lia. now rewrite Nat.sub_diag. Qed.

Section HessenbergRefines.

Variable sign : R -> R.

(** A pass on the working copy at [W] leaves there what the pass on values
    returns, and fails where that fails. *)
Lemma heap_hessenberg_step (is_symm : bool) (M : nat) (W : ref) (i : nat)
      (vs : list ref) (pvs : list vec) (s : hstate) (w : matrix) :
  nth_error (objs s) W = Some (OMat w) ->
  match value_hessenberg_step sign is_symm M i (w, pvs) with
  | Ok st' =>
      exists s',
        hessenberg_step sign is_symm M W i vs s
        = Ok (Continue (vs ++ [length (objs s)]), s') /\
        nth_error (objs s') W = Some (OMat (fst st')) /\
        outside s' = outside s
  | Raise e => hessenberg_step sign is_symm M W i vs s = Raise e
  end.
Proof.
  intros HW.
  assert (HWlt : (W < length (objs s))%nat)
    by (apply nth_error_Some; rewrite HW; discriminate).
  unfold value_hessenberg_step, hessenberg_step. cbn [fst snd]. cbv zeta.
  rewrite (hbind_ok _ _ s s w (load_mat_at s W w HW)).
  set (a := col_from w (i + 1) i).
  destruct (basis_vec_flat 0 (length a)) as [e|err] eqn:He; cbn [bind].
  2:{ apply hbind_raise. reflexivity. }
  rewrite (hbind_ok _ _ s s e) by reflexivity.
  set (x := vadd a (scal (sign (nth 0 a 0) * l2_norm a) e)).
  set (s1 := {| objs := objs s ++ [OVec x]; outside := outside s |}).
  rewrite (hbind_ok _ _ s s1 (length (objs s))) by reflexivity.
  assert (HW1 : nth_error (objs s1) W = Some (OMat w))
    by (apply nth_error_app_old; exact HW).
  assert (Hx1 : nth_error (objs s1) (length (objs s)) = Some (OVec x))
    by apply nth_error_app_new.
  assert (Hne : W <> length (objs s)) by lia.
  pose proof (heap_update_loop W (length (objs s)) x
                (fun x w j => reflect_col x (col_from w (i + 1) j))
                (fun w j y => set_col_from w (i + 1) j y)
                (seq i (M - i)) s1 w Hne HW1 Hx1) as Hl1.
  cbv beta in Hl1.
  destruct (for_loop (seq i (M - i)) _ w) as [w1|err] eqn:Hp1; cbn [bind].
  2:{ apply hbind_raise. exact Hl1. }
  rewrite (hbind_ok _ _ _ _ _ Hl1).
  set (s2 := put W (OMat w1) s1).
  assert (HW2 : nth_error (objs s2) W = Some (OMat w1)).
  { unfold s2, put. cbn [objs]. apply nth_error_set_nth_eq.
    unfold s1. cbn [objs]. rewrite length_app. simpl. lia. }
  assert (Hx2 : nth_error (objs s2) (length (objs s)) = Some (OVec x)).
  { unfold s2, put. cbn [objs]. rewrite nth_error_set_nth_neq by exact Hne. exact Hx1. }
  pose proof (heap_update_loop W (length (objs s)) x
                (fun x w j => reflect_row x (row_from w j (i + 1)))
                (fun w j y => set_row_from w j (i + 1) y)
                (seq (if is_symm then i else 0%nat) (M - (if is_symm then i else 0%nat)))
                s2 w1 Hne HW2 Hx2) as Hl2.
  cbv beta in Hl2.
  destruct (for_loop (seq (if is_symm then i else 0%nat) _) _ w1) as [w2|err] eqn:Hp2;
    cbn [bind].
  2:{ apply hbind_raise. exact Hl2. }
  rewrite (hbind_ok _ _ _ _ _ Hl2).
  eexists. split; [reflexivity|]. split.
  - unfold s2, put, s1. cbn [objs fst]. apply nth_error_set_nth_eq.
    rewrite length_set_nth, length_app. simpl. lia.
  - reflexivity.
Qed.

Lemma heap_hessenberg_loop (is_symm : bool) (M : nat) (W : ref) (n i0 : nat)
      (vs : list ref) (pvs : list vec) (s : hstate) (w : matrix) :
  nth_error (objs s) W = Some (OMat w) ->
  match for_loop (seq i0 n) (value_hessenberg_step sign is_symm M) (w, pvs) with
  | Ok st' =>
      exists vs' s',
        hfor_loop (seq i0 n) (hessenberg_step sign is_symm M W) vs s = Ok (vs', s') /\
        nth_error (objs s') W = Some (OMat (fst st')) /\
        outside s' = outside s
  | Raise e => hfor_loop (seq i0 n) (hessenberg_step sign is_symm M W) vs s = Raise e
  end.
Proof.
  revert i0 vs pvs s w. induction n as [|n IH]; intros i0 vs pvs s w HW.
  - cbn. exists vs, s. auto.
  - cbn [seq for_loop hfor_loop].
    pose proof (heap_hessenberg_step is_symm M W i0 vs pvs s w HW) as Hstep.
    destruct (value_hessenberg_step sign is_symm M i0 (w, pvs)) as [[w1 pvs1]|err];
      cbn [bind].
    + destruct Hstep as (s1 & Hrun1 & HW1 & Hout1).
      rewrite (hbind_ok _ _ _ _ _ Hrun1). cbn [fst] in HW1.
      specialize (IH (S i0) (vs ++ [length (objs s)]) pvs1 s1 w1 HW1).
      destruct (for_loop (seq (S i0) n) _ (w1, pvs1)) as [st'|err].
      * destruct IH as (vs' & s' & Hrun & HW' & Hout).
        exists vs', s'. repeat split; [exact Hrun|exact HW'|congruence].
      * exact IH.
    + apply hbind_raise. exact Hstep.
Qed.

Lemma heap_hessenberg_runs (A : ref) (a : matrix) (s : hstate) :
  nth_error (objs s) A = Some (OMat a) ->
  match value_hessenberg sign a false with
  | Ok h =>
      exists s',
        Heap.hessenberg sign A false s = Ok ((length (objs s), None), s') /\
        nth_error (objs s') (length (objs s)) = Some (OMat (hess_A h)) /\
        outside s' = outside s
  | Raise e => Heap.hessenberg sign A false s = Raise e
  end.
Proof.
  intros HA.
  unfold value_hessenberg, Heap.hessenberg. cbv zeta.
  rewrite (hbind_ok _ _ s s a (load_mat_at s A a HA)).
  destruct (is_square a); cbn [assert bind].
  2:{ apply hbind_raise. reflexivity. }
  rewrite (hbind_ok _ _ s s tt) by reflexivity.
  set (s1 := {| objs := objs s ++ [OMat a]; outside := outside s |}).
  rewrite (hbind_ok _ _ s s1 (length (objs s))).
  2:{ unfold np_array. rewrite (hbind_ok _ _ s s (OMat a)); [reflexivity|].
      unfold load. now rewrite HA. }
  unfold for_range, hfor_range.
  pose proof (heap_hessenberg_loop (is_symmetric a) (nrows a) (length (objs s))
                (nrows a - 2) 0 [] [] s1 a (nth_error_app_new (objs s) (OMat a)))
    as Hloop.
  destruct (for_loop (seq 0 (nrows a - 2)) _ (a, [])) as [st'|err]; cbn [bind].
  - destruct Hloop as (vs' & s' & Hrun & HW & Hout).
    exists s'. rewrite (hbind_ok _ _ _ _ _ Hrun). cbn [hess_A].
    split; [reflexivity|]. split; [exact HW|exact Hout].
  - apply hbind_raise. exact Hloop.
Qed.

(** On a store where [A] refers to the matrix [a], [hessenberg(A)] returns
    a reference to a new object, which holds the matrix that the value
    model computes from [a], and raises what that raises; [A] still refers
    to [a]. *)
Theorem heap_hessenberg_refines (A : ref) (a : matrix) (s : hstate) :
  nth_error (objs s) A = Some (OMat a) ->
  match value_hessenberg sign a false with
  | Ok h =>
      exists s',
        Heap.hessenberg sign A false s = Ok ((length (objs s), None), s') /\
        nth_error (objs s') (length (objs s)) = Some (OMat (hess_A h)) /\
        nth_error (objs s') A = Some (OMat a) /\
        outside s' = outside s
  | Raise e => Heap.hessenberg sign A false s = Raise e
  end.
Proof.
  intros HA. pose proof (heap_hessenberg_runs A a s HA) as H.
  destruct (value_hessenberg sign a false) as [h|e]; [|exact H].
  destruct H as (s' & Hrun & HW & Hout).
  exists s'. split; [exact Hrun|]. split; [exact HW|]. split; [|exact Hout].
  rewrite <- HA.
  apply (HeapFrame.unchanged_at (Heap.hessenberg sign A false) s s'
           (length (objs s), None) A).
  - apply (HeapFrame.unchanged_of_keeps _ (fun _ _ => True)). intros n.
    eapply HeapFrame.keeps_weaken; [apply HeapFrame.keeps_hessenberg|]. auto.
  - exact Hrun.
  - apply nth_error_Some. rewrite HA. discriminate.
Qed.

End HessenbergRefines.


(** A run on a store that holds [arrow345] at reference 0: the tridiagonal
    result is a new object at reference 1 and reference 0 still holds
    [arrow345]. *)
Lemma heap_hessenberg_arrow345 :
  exists H s',
    Heap.hessenberg utils_sign 0%nat false {| objs := [OMat arrow345]; outside := e1_world |}
    = Ok ((1%nat, None), s') /\
    nth_error (objs s') 1%nat = Some (OMat H) /\
    nth_error (objs s') 0%nat = Some (OMat arrow345) /\
    tridiagonal H.
Proof.
  destruct hessenberg_arrow345 as (H & Hrun & Htri & _).
  pose proof (heap_hessenberg_refines utils_sign 0%nat arrow345
                {| objs := [OMat arrow345]; outside := e1_world |} eq_refl) as Href.
  rewrite Hrun in Href. destruct Href as (s' & Hh & HW & HA & _).
  exists H, s'. cbn [objs length hess_A] in *. auto.
Qed.

End HeapRefines.

(** * The remaining routines *)

(** ** l2_norm and norm *)

Lemma dot_self_scal (c : R) (x : vec) : dot (scal c x) (scal c x) = c * c * dot x x.
Proof. rewrite dot_scal_l, dot_scal_r. ring. Qed.

Lemma length_zeros (n : nat) : length (zeros n) = n.
Proof. apply repeat_length. Qed.

Lemma dot_zeros_self (n : nat) : dot (zeros n) (zeros n) = 0.
Proof. apply dot_zeros_r. Qed.

(** Cauchy-Schwarz, from the sign of [|x + t y|^2]. *)
Lemma cauchy_schwarz (x y : vec) :
  length x = length y -> dot x y * dot x y <= dot x x * dot y y.
Proof.
  intros Hlen.
  pose proof (dot_self_nonneg x) as Hx.
  pose proof (dot_self_nonneg y) as Hy.
  destruct (Req_dec_T (dot y y) 0) as [Hz|Hnz].
  - apply dot_self_eq0 in Hz. rewrite Hz, !dot_zeros_r. nra.
  - set (t := - dot x y / dot y y).
    pose proof (dot_self_nonneg (vadd x (scal t y))) as H.
    rewrite dot_vadd_l in H by (rewrite length_scal; exact Hlen).
    rewrite !dot_vadd_r in H by (rewrite length_scal; exact Hlen).
    rewrite !dot_scal_l, !dot_scal_r in H.
    rewrite (dot_comm y x) in H.
    assert (Hpos : 0 < dot y y) by lra.
    assert (E : dot x x + t * dot x y + (t * dot x y + t * (t * dot y y))
                = dot x x - dot x y * dot x y / dot y y).
    { unfold t. field. exact Hnz. }
    rewrite E in H.
    assert (H2 : dot x y * dot x y / dot y y <= dot x x) by lra.
    apply (Rmult_le_compat_r (dot y y)) in H2; [|lra].
    unfold Rdiv in H2. rewrite Rmult_assoc, Rinv_l, Rmult_1_r in H2 by exact Hnz.
    exact H2.
Qed.

Lemma dot_le_norms (x y : vec) :
  length x = length y -> dot x y <= l2_norm x * l2_norm y.
Proof.
  intros Hlen. pose proof (cauchy_schwarz x y Hlen) as H.
  pose proof (l2_norm_sqr x) as Hx. pose proof (l2_norm_sqr y) as Hy.
  assert (Hnx : 0 <= l2_norm x) by apply sqrt_pos.
  assert (Hny : 0 <= l2_norm y) by apply sqrt_pos.
  destruct (Rle_lt_dec (dot x y) (l2_norm x * l2_norm y)) as [Hle|Hgt]; [exact Hle|].
  exfalso.
  assert (0 <= l2_norm x * l2_norm y) by nra.
  assert (dot x x * dot y y < dot x y * dot x y) by nra.
  lra.
Qed.

(** X1: in exact arithmetic (overflow and underflow of binary64 apart),
    [l2_norm] is a norm on vectors of one length: it is not negative, zero
    on the zero vector only, absolutely homogeneous, and obeys the triangle
    inequality. *)
Theorem l2_norm_is_a_norm (x y : vec) (c : R) :
  length x = length y ->
  0 <= l2_norm x /\
  (l2_norm x = 0 <-> x = zeros (length x)) /\
  l2_norm (scal c x) = Rabs c * l2_norm x /\
  l2_norm (vadd x y) <= l2_norm x + l2_norm y.
Proof.
  intros Hlen.
  assert (Hnx : 0 <= l2_norm x) by apply sqrt_pos.
  assert (Hny : 0 <= l2_norm y) by apply sqrt_pos.
  split; [exact Hnx|]. split; [|split].
  - split.
    + intros H. apply dot_self_eq0.
      rewrite <- l2_norm_sqr, H. lra.
    + intros ->. unfold l2_norm.
      rewrite dot_zeros_self. apply sqrt_0.
  - unfold l2_norm. rewrite dot_self_scal.
    rewrite sqrt_mult_alt by nra.
    f_equal. replace (c * c) with (c²) by reflexivity. apply sqrt_Rsqr_abs.
  - apply Rsqr_incr_0_var; [|lra].
    unfold Rsqr. rewrite l2_norm_sqr.
    rewrite dot_vadd_l, !dot_vadd_r by exact Hlen.
    rewrite (dot_comm y x).
    pose proof (dot_le_norms x y Hlen) as H.
    pose proof (l2_norm_sqr x) as Hx. pose proof (l2_norm_sqr y) as Hy.
    nra.
Qed.

Lemma l2_norm_is_a_norm_witness :
  0 <= l2_norm [3; 4] /\
  (l2_norm [3; 4] = 0 <-> [3; 4] = zeros (length [3; 4])) /\
  l2_norm (scal 2 [3; 4]) = Rabs 2 * l2_norm [3; 4] /\
  l2_norm (vadd [3; 4] [1; 0]) <= l2_norm [3; 4] + l2_norm [1; 0].
Proof. apply (l2_norm_is_a_norm [3; 4] [1; 0] 2). reflexivity. Defined.

Lemma fold_right_squares (l : vec) :
  fold_right Rplus 0 (map (fun a => np_power (Rabs a) 2) l) = dot l l.
Proof.
  induction l as [|a l IH]; simpl; [reflexivity|]. rewrite IH. f_equal.
  unfold np_power. destruct (Req_dec_T (Rabs a) 0) as [Hz|Hnz].
  - destruct (Req_dec_T a 0) as [->|Ha]; [lra|].
    exfalso. revert Hz. apply Rabs_no_R0. exact Ha.
  - assert (Hpos : 0 < Rabs a) by (pose proof (Rabs_pos a); lra).
    replace 2 with (INR 2) by (simpl; lra).
    rewrite Rpower_pow by exact Hpos. simpl.
    rewrite Rmult_1_r. rewrite <- Rabs_mult. apply Rabs_pos_eq. nra.
Qed.

Lemma fold_right_abs (l : vec) :
  fold_right Rplus 0 (map (fun a => np_power (Rabs a) 1) l)
  = fold_right Rplus 0 (map Rabs l).
Proof.
  induction l as [|a l IH]; simpl; [reflexivity|]. rewrite IH. f_equal.
  apply np_power_1, Rabs_pos.
Qed.

Lemma fold_right_abs_nonneg (l : vec) : 0 <= fold_right Rplus 0 (map Rabs l).
Proof.
  induction l as [|a l IH]; simpl; [lra|]. pose proof (Rabs_pos a). lra.
Qed.

(** X2: whatever the dimension of [x], [norm(x, 2)] is [l2_norm] of the
    flattened entries (for a matrix: its Frobenius norm), and [norm(x, 1)]
    is the sum of their absolute values. *)
Theorem norm_2_is_l2_norm (x : ndarray) :
  norm x 2 = Ok (l2_norm (entries x)) /\
  norm x 1 = Ok (fold_right Rplus 0 (map Rabs (entries x))).
Proof.
  split.
  - rewrite norm_value by lra. f_equal.
    rewrite fold_right_squares. unfold np_power, l2_norm.
    pose proof (dot_self_nonneg (entries x)) as Hn.
    destruct (Req_dec_T (dot (entries x) (entries x)) 0) as [->|Hnz].
    + symmetry. apply sqrt_0.
    + replace (1 / 2) with (/ 2) by lra.
      apply Rpower_sqrt. lra.
  - rewrite norm_value by lra. f_equal.
    rewrite fold_right_abs. replace (1 / 1) with 1 by lra.
    apply np_power_1, fold_right_abs_nonneg.
Qed.

Lemma np_power_nonneg (x p : R) : 0 <= np_power x p.
Proof.
  unfold np_power. destruct (Req_dec_T x 0); [lra|].
  unfold Rpower. left. apply exp_pos.
Qed.

Lemma np_power_eq0 (x p : R) : np_power x p = 0 -> x = 0.
Proof.
  unfold np_power. destruct (Req_dec_T x 0) as [Hz|Hnz]; [intros _; exact Hz|].
  unfold Rpower. intros H. pose proof (exp_pos (p * ln x)). lra.
Qed.

Lemma np_power_mult (x y p : R) :
  0 <= x -> 0 <= y -> np_power (x * y) p = np_power x p * np_power y p.
Proof.
  intros Hx Hy. unfold np_power.
  destruct (Req_dec_T x 0) as [->|Hxn].
  - rewrite Rmult_0_l. destruct (Req_dec_T 0 0); [lra|contradiction].
  - destruct (Req_dec_T y 0) as [->|Hyn].
    + rewrite Rmult_0_r. destruct (Req_dec_T 0 0); [lra|contradiction].
    + destruct (Req_dec_T (x * y) 0) as [Hz|_].
      * exfalso. apply Rmult_integral in Hz. tauto.
      * symmetry. apply Rpower_mult_distr; lra.
Qed.

Lemma np_power_inverse (x p : R) : 0 <= x -> 1 <= p -> np_power (np_power x p) (1 / p) = x.
Proof.
  intros Hx Hp. unfold np_power at 1.
  destruct (Req_dec_T (np_power x p) 0) as [Hz|Hnz].
  - symmetry. exact (np_power_eq0 x p Hz).
  - unfold np_power in *. destruct (Req_dec_T x 0) as [Hxz|Hxn]; [contradiction|].
    rewrite Rpower_mult. replace (p * (1 / p)) with 1 by (field; lra).
    apply Rpower_1. lra.
Qed.

Lemma fold_right_powers_scal (c p : R) (l : vec) :
  fold_right Rplus 0 (map (fun a => np_power (Rabs a) p) (scal c l))
  = np_power (Rabs c) p * fold_right Rplus 0 (map (fun a => np_power (Rabs a) p) l).
Proof.
  unfold scal. induction l as [|a l IH]; simpl; [lra|]. rewrite IH.
  rewrite Rabs_mult, np_power_mult by apply Rabs_pos. lra.
Qed.

Lemma fold_right_powers_nonneg (p : R) (l : vec) :
  0 <= fold_right Rplus 0 (map (fun a => np_power (Rabs a) p) l).
Proof.
  induction l as [|a l IH]; simpl; [lra|].
  pose proof (np_power_nonneg (Rabs a) p). lra.
Qed.

Lemma fold_right_powers_eq0 (p : R) (l : vec) :
  fold_right Rplus 0 (map (fun a => np_power (Rabs a) p) l) = 0 <->
  l = zeros (length l).
Proof.
  induction l as [|a l IH]; simpl; [tauto|].
  pose proof (np_power_nonneg (Rabs a) p) as Ha.
  pose proof (fold_right_powers_nonneg p l) as Hl.
  unfold zeros in *. simpl. split.
  - intros H.
    assert (Hz : np_power (Rabs a) p = 0) by lra.
    apply np_power_eq0 in Hz.
    assert (a = 0).
    { destruct (Req_dec_T a 0) as [E|E]; [exact E|].
      exfalso. revert Hz. apply Rabs_no_R0. exact E. }
    subst a. f_equal. apply IH. lra.
  - intros H. injection H as Ha0 Hl0. subst a.
    rewrite Rabs_R0. unfold np_power at 1.
    destruct (Req_dec_T 0 0); [|contradiction].
    rewrite (proj2 IH Hl0). lra.
Qed.

(** X3: in exact arithmetic (overflow and underflow of binary64 apart),
    for every [p >= 1], [norm(x, p)] of a vector returns a value that is
    not negative, is zero exactly on the zero vector, and grows with the
    absolute value of a scalar factor: [norm(c x, p) = |c| norm(x, p)]. *)
Theorem norm_homogeneous (v : vec) (c p : R) :
  1 <= p ->
  exists r,
    norm (Nd1 v) p = Ok r /\
    0 <= r /\
    (r = 0 <-> v = zeros (length v)) /\
    norm (Nd1 (scal c v)) p = Ok (Rabs c * r).
Proof.
  intros Hp. rewrite !norm_value by exact Hp. cbn [entries].
  eexists. split; [reflexivity|].
  split; [apply np_power_nonneg|]. split.
  - split.
    + intros H. apply np_power_eq0 in H. apply (fold_right_powers_eq0 p). exact H.
    + intros H. apply (fold_right_powers_eq0 p) in H. rewrite H.
      unfold np_power. destruct (Req_dec_T 0 0); [reflexivity|contradiction].
  - f_equal. rewrite fold_right_powers_scal.
    rewrite np_power_mult by (apply np_power_nonneg || apply fold_right_powers_nonneg).
    rewrite np_power_inverse by (apply Rabs_pos || exact Hp).
    reflexivity.
Qed.

Lemma norm_homogeneous_witness :
  exists r,
    norm (Nd1 [3; 4]) 2 = Ok r /\
    0 <= r /\
    (r = 0 <-> [3; 4] = zeros (length [3; 4])) /\
    norm (Nd1 (scal (-2) [3; 4])) 2 = Ok (Rabs (-2) * r).
Proof. apply (norm_homogeneous [3; 4] (-2) 2). lra. Defined.

(** ** upper_diag, lower_diag and unit_diag *)

Lemma nth_error_row (A : matrix) (m n i : nat) :
  shape A m n -> (i < m)%nat ->
  exists r, nth_error A i = Some r /\ length r = n /\ nth i A [] = r.
Proof.
  intros [Hl Hf] Hi.
  destruct (nth_error A i) as [r|] eqn:E.
  - exists r. split; [reflexivity|]. split.
    + rewrite Forall_forall in Hf. apply Hf. eapply nth_error_In; eauto.
    + apply nth_error_nth. exact E.
  - apply nth_error_None in E. lia.
Qed.

Lemma get_item_ok (A : matrix) (m n i j : nat) :
  shape A m n -> (i < m)%nat -> (j < n)%nat -> get_item A i j = Ok (get A i j).
Proof.
  intros HA Hi Hj. unfold get_item, get.
  destruct (nth_error_row A m n i HA Hi) as (r & -> & Hr & ->).
  destruct (nth_error r j) as [x|] eqn:E.
  - f_equal. symmetry. apply nth_error_nth. exact E.
  - apply nth_error_None in E. lia.
Qed.

Lemma get_item_column_error (A : matrix) (m n i j : nat) :
  shape A m n -> (i < m)%nat -> (n <= j)%nat -> get_item A i j = Raise IndexError.
Proof.
  intros HA Hi Hj. unfold get_item.
  destruct (nth_error_row A m n i HA Hi) as (r & -> & Hr & _).
  destruct (nth_error r j) as [x|] eqn:E; [|reflexivity].
  assert (j < length r)%nat by (apply nth_error_Some; congruence). lia.
Qed.

Lemma set_item_ok (A : matrix) (m n i j : nat) (x : R) :
  shape A m n -> (i < m)%nat -> (j < n)%nat ->
  exists A',
    set_item A i j x = Ok A' /\ shape A' m n /\
    forall r c, get A' r c = if ((r =? i) && (c =? j))%nat then x else get A r c.
Proof.
  intros HA Hi Hj. unfold set_item.
  destruct (nth_error_row A m n i HA Hi) as (row & -> & Hr & Hnth).
  replace (j <? length row)%nat with true by (symmetry; apply Nat.ltb_lt; lia).
  eexists. split; [reflexivity|]. split.
  - destruct HA as [Hl Hf]. split; [rewrite length_set_nth; exact Hl|].
    apply Forall_set_nth; [exact Hf|]. rewrite length_set_nth. exact Hr.
  - intros r c. unfold get.
    destruct (Nat.eqb_spec r i) as [->|Hri].
    + rewrite nth_set_nth_eq by (destruct HA; lia).
      destruct (Nat.eqb_spec c j) as [->|Hcj]; cbn [andb].
      * apply nth_set_nth_eq. lia.
      * rewrite nth_set_nth_neq by congruence. rewrite Hnth. reflexivity.
    + cbn [andb]. rewrite nth_set_nth_neq by congruence. reflexivity.
Qed.

Lemma set_item_column_error (A : matrix) (m n i j : nat) (x : R) :
  shape A m n -> (i < m)%nat -> (n <= j)%nat -> set_item A i j x = Raise IndexError.
Proof.
  intros HA Hi Hj. unfold set_item.
  destruct (nth_error_row A m n i HA Hi) as (r & -> & Hr & _).
  replace (j <? length r)%nat with false by (symmetry; apply Nat.ltb_ge; lia).
  reflexivity.
Qed.

Lemma for_loop_app {S : Type} (l1 l2 : list nat) (body : nat -> S -> result S) (s : S) :
  for_loop (l1 ++ l2) body s = (s' <- for_loop l1 body s ;; for_loop l2 body s').
Proof.
  revert s. induction l1 as [|i l1 IH]; intros s; simpl; [reflexivity|].
  destruct (body i s) as [s'|e]; simpl; [apply IH|reflexivity].
Qed.

Lemma shape_zeros_like (A : matrix) (m n : nat) : shape A m n -> shape (zeros_like A) m n.
Proof.
  intros [Hl Hf]. split; unfold zeros_like; [rewrite length_map; exact Hl|].
  rewrite Forall_forall in *. intros r Hr. apply in_map_iff in Hr.
  destruct Hr as (r0 & <- & Hr0). rewrite length_map. auto.
Qed.

Lemma nth_map_zero (row : vec) (c : nat) : nth c (map (fun _ : R => 0) row) 0 = 0.
Proof. revert c. induction row as [|x row IH]; intros [|c]; simpl; auto. Qed.

Lemma get_zeros_like (A : matrix) (r c : nat) : get (zeros_like A) r c = 0.
Proof.
  unfold get, zeros_like. revert r.
  induction A as [|row A IH]; intros [|r]; simpl; auto.
  - destruct c; reflexivity.
  - destruct c; reflexivity.
  - apply nth_map_zero.
Qed.

Section CopyEntries.

Variable A : matrix.
Variables m n : nat.
Hypothesis A_shape : shape A m n.

(** The inner loops of [upper_diag] and [lower_diag]: the entries
    [l .. l+k-1] of row [i] are copied from [A]. *)
Lemma copy_row (i : nat) (k l : nat) (U : matrix) :
  (i < m)%nat -> (l + k <= n)%nat -> shape U m n ->
  exists U',
    for_loop (seq l k) (fun j U => x <- get_item A i j ;; set_item U i j x) U = Ok U' /\
    shape U' m n /\
    forall r c, get U' r c =
      if ((r =? i) && (l <=? c) && (c <? l + k))%nat then get A r c else get U r c.
Proof.
  intros Hi. revert l U. induction k as [|k IH]; intros l U Hk HU.
  - exists U. split; [reflexivity|]. split; [exact HU|].
    intros r c. replace (c <? l + 0)%nat with (c <? l)%nat by (f_equal; lia).
    destruct (r =? i)%nat; cbn [andb]; [|reflexivity].
    destruct (Nat.leb_spec l c); destruct (Nat.ltb_spec c l); cbn [andb];
      try reflexivity; lia.
  - cbn [seq for_loop].
    rewrite (get_item_ok A m n i l A_shape Hi) by lia. cbn [bind].
    destruct (set_item_ok U m n i l (get A i l) HU Hi) as (U1 & -> & HU1 & Hget1); [lia|].
    cbn [bind].
    destruct (IH (S l) U1) as (U' & Hrun & HU' & Hget'); [lia|exact HU1|].
    exists U'. split; [exact Hrun|]. split; [exact HU'|].
    intros r c. rewrite Hget', Hget1.
    destruct (Nat.eqb_spec r i) as [->|Hri]; cbn [andb]; [|reflexivity].
    destruct (Nat.eqb_spec c l) as [->|Hcl].
    + replace (S l <=? l)%nat with false by (symmetry; apply Nat.leb_gt; lia).
      replace (l <=? l)%nat with true by (symmetry; apply Nat.leb_le; lia).
      replace (l <? l + S k)%nat with true by (symmetry; apply Nat.ltb_lt; lia).
      reflexivity.
    + replace (c <? S l + k)%nat with (c <? l + S k)%nat by (f_equal; lia).
      destruct (Nat.leb_spec (S l) c); destruct (Nat.leb_spec l c); cbn [andb];
        try reflexivity; lia.
Qed.

(** A row whose range passes the last column stops the loop with an
    [IndexError]. *)
Lemma copy_row_error (i : nat) (k l : nat) (U : matrix) :
  (i < m)%nat -> (l <= n)%nat -> (n < l + k)%nat -> shape U m n ->
  for_loop (seq l k) (fun j U => x <- get_item A i j ;; set_item U i j x) U
  = Raise IndexError.
Proof.
  intros Hi Hl Hk HU.
  replace k with ((n - l) + (k - (n - l)))%nat by lia.
  rewrite seq_app, for_loop_app.
  destruct (copy_row i (n - l) l U) as (U' & -> & HU' & _); [exact Hi|lia|exact HU|].
  cbn [bind]. replace (l + (n - l))%nat with n by lia.
  replace (k - (n - l))%nat with (S (k - (n - l) - 1)) by lia.
  cbn [seq for_loop].
  rewrite (get_item_column_error A m n i n A_shape Hi) by lia. reflexivity.
Qed.

Variables lo len : nat -> nat.

(** The outer loops: every row [i] has its entries [lo i .. lo i + len i - 1]
    copied. *)
Lemma copy_rows (k i0 : nat) (U : matrix) :
  (i0 + k <= m)%nat ->
  (forall i, (i0 <= i < i0 + k)%nat -> (lo i + len i <= n)%nat) ->
  shape U m n ->
  exists U',
    for_loop (seq i0 k)
      (fun i U =>
         for_loop (seq (lo i) (len i))
           (fun j U => x <- get_item A i j ;; set_item U i j x) U) U = Ok U' /\
    shape U' m n /\
    forall r c, get U' r c =
      if ((i0 <=? r) && (r <? i0 + k) && (lo r <=? c) && (c <? lo r + len r))%nat
      then get A r c else get U r c.
Proof.
  revert i0 U. induction k as [|k IH]; intros i0 U Hk Hin HU.
  - exists U. split; [reflexivity|]. split; [exact HU|].
    intros r c.
    destruct (Nat.leb_spec i0 r); destruct (Nat.ltb_spec r (i0 + 0)); cbn [andb];
      try reflexivity; lia.
  - cbn [seq for_loop].
    destruct (copy_row i0 (len i0) (lo i0) U) as (U1 & -> & HU1 & Hget1);
      [lia|apply Hin; lia|exact HU|].
    cbn [bind].
    destruct (IH (S i0) U1) as (U' & Hrun & HU' & Hget');
      [lia|intros i Hi; apply Hin; lia|exact HU1|].
    exists U'. split; [exact Hrun|]. split; [exact HU'|].
    intros r c. rewrite Hget', Hget1.
    destruct (Nat.eqb_spec r i0) as [->|Hri].
    + replace (S i0 <=? i0)%nat with false by (symmetry; apply Nat.leb_gt; lia).
      replace (i0 <=? i0)%nat with true by (symmetry; apply Nat.leb_le; lia).
      replace (i0 <? i0 + S k)%nat with true by (symmetry; apply Nat.ltb_lt; lia).
      reflexivity.
    + replace (r <? S i0 + k)%nat with (r <? i0 + S k)%nat by (f_equal; lia).
      destruct (Nat.leb_spec (S i0) r); destruct (Nat.leb_spec i0 r); cbn [andb];
        try reflexivity; lia.
Qed.

End CopyEntries.

(** The entries of [upper_diag(A, diag)] and of [lower_diag(A, diag)] on an
    array with at least as many columns as rows. *)
Lemma upper_diag_entries (A : matrix) (m n : nat) (diag : bool) :
  shape A m n -> (m <= n)%nat ->
  exists U,
    upper_diag A diag = Ok U /\ shape U m n /\
    forall r c, (r < m)%nat ->
      get U r c = if ((c <? m) && ((r <? c) || (diag && (r =? c))))%nat
                  then get A r c else 0.
Proof.
  intros HA Hmn. unfold upper_diag, for_range. rewrite (proj1 HA).
  destruct (copy_rows A m n HA
              (fun i => if diag then i else (i + 1)%nat)
              (fun i => (m - (if diag then i else (i + 1)))%nat)
              m 0 (zeros_like A)) as (U & Hrun & HU & Hget).
  - lia.
  - intros i Hi. destruct diag; lia.
  - apply shape_zeros_like; exact HA.
  - exists U. split; [exact Hrun|]. split; [exact HU|].
    intros r c Hr. rewrite Hget, get_zeros_like.
    replace (0 <=? r)%nat with true by reflexivity.
    replace (r <? 0 + m)%nat with true by (symmetry; apply Nat.ltb_lt; lia).
    cbn [andb].
    destruct diag; cbn [andb orb].
    + destruct (Nat.leb_spec r c); destruct (Nat.ltb_spec c (r + (m - r)));
        destruct (Nat.ltb_spec c m); destruct (Nat.ltb_spec r c);
        destruct (Nat.eqb_spec r c); cbn [andb orb]; try reflexivity; lia.
    + destruct (Nat.leb_spec (r + 1) c); destruct (Nat.ltb_spec c (r + 1 + (m - (r + 1))));
        destruct (Nat.ltb_spec c m); destruct (Nat.ltb_spec r c);
        cbn [andb orb]; try reflexivity; lia.
Qed.

Lemma lower_diag_entries (A : matrix) (m n : nat) (diag : bool) :
  shape A m n -> (m <= n)%nat ->
  exists L,
    lower_diag A diag = Ok L /\ shape L m n /\
    forall r c, (r < m)%nat ->
      get L r c = if ((c <? r) || (diag && (r =? c)))%nat then get A r c else 0.
Proof.
  intros HA Hmn. unfold lower_diag, for_range. rewrite (proj1 HA).
  destruct (copy_rows A m n HA
              (fun _ => 0%nat)
              (fun i => if diag then (i + 1)%nat else i)
              m 0 (zeros_like A)) as (L & Hrun & HL & Hget).
  - lia.
  - intros i Hi. destruct diag; lia.
  - apply shape_zeros_like; exact HA.
  - exists L. split; [exact Hrun|]. split; [exact HL|].
    intros r c Hr. rewrite Hget, get_zeros_like.
    replace (0 <=? r)%nat with true by reflexivity.
    replace (r <? 0 + m)%nat with true by (symmetry; apply Nat.ltb_lt; lia).
    replace (0 <=? c)%nat with true by reflexivity.
    cbn [andb].
    destruct diag; cbn [andb orb].
    + destruct (Nat.ltb_spec c (0 + (r + 1))); destruct (Nat.ltb_spec c r);
        destruct (Nat.eqb_spec r c); cbn [andb orb]; try reflexivity; lia.
    + destruct (Nat.ltb_spec c (0 + r)); destruct (Nat.ltb_spec c r);
        cbn [andb orb]; try reflexivity; lia.
Qed.

(** X4: on an array with [m] rows and at least [m] columns, [upper_diag]
    and [lower_diag] return new arrays of the shape of [A]: [upper_diag]
    keeps the entries above the diagonal (with it when [diag] is set) of the
    leading [m]-by-[m] block only, so that the columns from [m] on are left
    zero; [lower_diag] keeps the entries below the diagonal (with it when
    [diag] is set). *)
Theorem diag_parts_entries (A : matrix) (m n : nat) (diag : bool) :
  shape A m n -> (m <= n)%nat ->
  exists U L,
    upper_diag A diag = Ok U /\ lower_diag A diag = Ok L /\
    shape U m n /\ shape L m n /\
    (forall r c, (r < m)%nat ->
       get U r c = if ((c <? m) && ((r <? c) || (diag && (r =? c))))%nat
                   then get A r c else 0) /\
    (forall r c, (r < m)%nat ->
       get L r c = if ((c <? r) || (diag && (r =? c)))%nat then get A r c else 0).
Proof.
  intros HA Hmn.
  destruct (upper_diag_entries A m n diag HA Hmn) as (U & HU & HsU & HgU).
  destruct (lower_diag_entries A m n diag HA Hmn) as (L & HL & HsL & HgL).
  exists U, L. conj_split; assumption.
Qed.

Lemma diag_parts_entries_witness :
  exists U L,
    upper_diag [[1; 2; 3]; [4; 5; 6]] false = Ok U /\
    lower_diag [[1; 2; 3]; [4; 5; 6]] false = Ok L /\
    shape U 2 3 /\ shape L 2 3 /\
    (forall r c, (r < 2)%nat ->
       get U r c = if ((c <? 2) && ((r <? c) || (false && (r =? c))))%nat
                   then get [[1; 2; 3]; [4; 5; 6]] r c else 0) /\
    (forall r c, (r < 2)%nat ->
       get L r c = if ((c <? r) || (false && (r =? c)))%nat
                   then get [[1; 2; 3]; [4; 5; 6]] r c else 0).
Proof.
  apply (diag_parts_entries [[1; 2; 3]; [4; 5; 6]] 2 3 false).
  - split; [reflexivity|repeat constructor].
  - lia.
Defined.

(** X5: a square array is the sum of its two parts when exactly one of
    them takes the diagonal: [upper_diag(A, d) + lower_diag(A, not d) = A],
    the first part zero below the diagonal and the second zero above it. *)
Theorem upper_lower_diag_split (A : matrix) (n : nat) (d : bool) :
  shape A n n ->
  exists U L,
    upper_diag A d = Ok U /\ lower_diag A (negb d) = Ok L /\
    madd U L = A /\ upper_triangular U /\ lower_triangular L.
Proof.
  intros HA.
  destruct (upper_diag_entries A n n d HA (Nat.le_refl n)) as (U & HU & HsU & HgU).
  destruct (lower_diag_entries A n n (negb d) HA (Nat.le_refl n)) as (L & HL & HsL & HgL).
  exists U, L. split; [exact HU|]. split; [exact HL|]. split; [|split].
  - apply (matrix_ext _ _ n n); [apply shape_madd; assumption|exact HA|].
    intros r c Hr Hc. rewrite (get_madd U L n n) by assumption.
    rewrite HgU, HgL by exact Hr.
    replace (c <? n)%nat with true by (symmetry; apply Nat.ltb_lt; lia).
    destruct d; cbn [andb orb negb];
      destruct (Nat.ltb_spec r c); destruct (Nat.ltb_spec c r);
      destruct (Nat.eqb_spec r c); cbn [andb orb]; try lra; lia.
  - intros r c Hcr.
    destruct (Nat.lt_ge_cases r n) as [Hr|Hr];
      [|apply (get_outside U n n); [exact HsU|left; exact Hr]].
    rewrite HgU by exact Hr.
    destruct (Nat.ltb_spec r c); destruct (Nat.eqb_spec r c);
      destruct (c <? n)%nat; destruct d; cbn [andb orb]; try reflexivity; lia.
  - intros r c Hrc.
    destruct (Nat.lt_ge_cases r n) as [Hr|Hr];
      [|apply (get_outside L n n); [exact HsL|left; exact Hr]].
    rewrite HgL by exact Hr.
    destruct (Nat.ltb_spec c r); destruct (Nat.eqb_spec r c);
      destruct d; cbn [andb orb negb]; try reflexivity; lia.
Qed.

Lemma upper_lower_diag_split_witness :
  exists U L,
    upper_diag [[1; 2]; [3; 4]] true = Ok U /\
    lower_diag [[1; 2]; [3; 4]] (negb true) = Ok L /\
    madd U L = [[1; 2]; [3; 4]] /\ upper_triangular U /\ lower_triangular L.
Proof.
  apply (upper_lower_diag_split [[1; 2]; [3; 4]] 2 true).
  split; [reflexivity|repeat constructor].
Defined.

(** X6: on an array with more rows than columns the loops run to the
    number of rows in the column index: [upper_diag] raises [IndexError]
    (for an array with at least one column), and [lower_diag] with its
    diagonal does. *)
Theorem diag_parts_tall_index_error (A : matrix) (m n : nat) (diag : bool) :
  shape A m n -> (0 < n)%nat -> (n < m)%nat ->
  upper_diag A diag = Raise IndexError /\
  lower_diag A true = Raise IndexError.
Proof.
  intros HA Hn Hnm. split.
  - unfold upper_diag, for_range. rewrite (proj1 HA).
    replace m with (S (m - 1)) at 1 by lia. cbn [seq for_loop].
    rewrite (copy_row_error A m n HA 0); [reflexivity|lia| | |].
    + destruct diag; lia.
    + destruct diag; lia.
    + apply shape_zeros_like; exact HA.
  - unfold lower_diag, for_range. rewrite (proj1 HA).
    replace m with (n + (m - n))%nat at 1 by lia.
    rewrite seq_app, for_loop_app.
    destruct (copy_rows A m n HA (fun _ => 0%nat) (fun i => (i + 1)%nat)
                n 0 (zeros_like A)) as (L & Hrun & HL & _).
    + lia.
    + intros i Hi. lia.
    + apply shape_zeros_like; exact HA.
    + rewrite Hrun. cbn [bind].
      replace (m - n)%nat with (S (m - n - 1)) by lia. cbn [seq for_loop].
      rewrite (copy_row_error A m n HA (0 + n)); [reflexivity|lia|lia|lia|exact HL].
Qed.

Lemma diag_parts_tall_index_error_witness :
  upper_diag [[1]; [2]] false = Raise IndexError /\
  lower_diag [[1]; [2]] true = Raise IndexError.
Proof.
  apply (diag_parts_tall_index_error [[1]; [2]] 2 1 false).
  - split; [reflexivity|repeat constructor].
  - lia.
  - lia.
Defined.

(** X7: on a square array, the upper part of the transpose is the
    transpose of the lower part. *)
Theorem upper_diag_transpose (A : matrix) (n : nat) (diag : bool) :
  shape A n n -> (0 < n)%nat ->
  exists L,
    lower_diag A diag = Ok L /\
    upper_diag (transpose A) diag = Ok (transpose L).
Proof.
  intros HA Hn.
  destruct (lower_diag_entries A n n diag HA (Nat.le_refl n)) as (L & HL & HsL & HgL).
  assert (HT : shape (transpose A) n n) by (apply shape_transpose; assumption).
  destruct (upper_diag_entries (transpose A) n n diag HT (Nat.le_refl n))
    as (U & HU & HsU & HgU).
  exists L. split; [exact HL|]. rewrite HU. f_equal.
  apply (matrix_ext _ _ n n); [exact HsU|apply shape_transpose; assumption|].
  intros r c Hr Hc.
  rewrite HgU by exact Hr.
  rewrite (get_transpose L n n) by assumption.
  rewrite (get_transpose A n n) by assumption.
  rewrite HgL by exact Hc.
  replace (c <? n)%nat with true by (symmetry; apply Nat.ltb_lt; lia).
  cbn [andb]. rewrite (Nat.eqb_sym c r). reflexivity.
Qed.

Lemma upper_diag_transpose_witness :
  exists L,
    lower_diag [[1; 2]; [3; 4]] false = Ok L /\
    upper_diag (transpose [[1; 2]; [3; 4]]) false = Ok (transpose L).
Proof.
  apply (upper_diag_transpose [[1; 2]; [3; 4]] 2 false).
  - split; [reflexivity|repeat constructor].
  - lia.
Defined.

Lemma unit_diag_loop (m n : nat) (k i0 : nat) (A : matrix) :
  shape A m n -> (i0 + k <= m)%nat -> (i0 + k <= n)%nat ->
  exists A',
    for_loop (seq i0 k) (fun i A => set_item A i i 1) A = Ok A' /\
    shape A' m n /\
    forall r c, get A' r c =
      if ((r =? c) && (i0 <=? r) && (r <? i0 + k))%nat then 1 else get A r c.
Proof.
  revert i0 A. induction k as [|k IH]; intros i0 A HA Hm Hn.
  - exists A. split; [reflexivity|]. split; [exact HA|].
    intros r c.
    destruct (r =? c)%nat; destruct (Nat.leb_spec i0 r);
      destruct (Nat.ltb_spec r (i0 + 0)); cbn [andb]; try reflexivity; lia.
  - cbn [seq for_loop].
    destruct (set_item_ok A m n i0 i0 1 HA) as (A1 & -> & HA1 & Hget1); [lia|lia|].
    cbn [bind].
    destruct (IH (S i0) A1 HA1) as (A' & Hrun & HA' & Hget'); [lia|lia|].
    exists A'. split; [exact Hrun|]. split; [exact HA'|].
    intros r c. rewrite Hget', Hget1.
    destruct (Nat.eqb_spec r c) as [->|Hrc]; cbn [andb].
    + destruct (Nat.eqb_spec c i0) as [->|Hci]; cbn [andb].
      * replace (i0 <=? i0)%nat with true by (symmetry; apply Nat.leb_le; lia).
        replace (i0 <? i0 + S k)%nat with true by (symmetry; apply Nat.ltb_lt; lia).
        cbn [andb]. destruct ((S i0 <=? i0) && (i0 <? S i0 + k))%nat; reflexivity.
      * replace (c <? S i0 + k)%nat with (c <? i0 + S k)%nat by (f_equal; lia).
        destruct (Nat.leb_spec (S i0) c); destruct (Nat.leb_spec i0 c); cbn [andb];
          try reflexivity; lia.
    + destruct (Nat.eqb_spec r i0); destruct (Nat.eqb_spec c i0); cbn [andb];
        try reflexivity; lia.
Qed.

(** X8: [unit_diag] puts ones on the diagonal of an array with at least
    as many columns as rows and changes nothing else, so that a second
    call changes nothing; on an array with more rows than columns it
    raises [IndexError]. *)
Theorem unit_diag_spec (A : matrix) (m n : nat) :
  shape A m n ->
  ((m <= n)%nat ->
   exists A',
     unit_diag A = Ok A' /\ shape A' m n /\
     (forall r c, (r < m)%nat -> get A' r c = if (r =? c)%nat then 1 else get A r c) /\
     unit_diag A' = Ok A') /\
  ((n < m)%nat -> unit_diag A = Raise IndexError).
Proof.
  intros HA. split.
  - intros Hmn. unfold unit_diag, for_range. rewrite (proj1 HA).
    destruct (unit_diag_loop m n m 0 A HA) as (A' & Hrun & HA' & Hget); [lia|lia|].
    exists A'. split; [exact Hrun|]. split; [exact HA'|]. split.
    + intros r c Hr. rewrite Hget.
      replace (r <? 0 + m)%nat with true by (symmetry; apply Nat.ltb_lt; lia).
      destruct (r =? c)%nat; reflexivity.
    + rewrite (proj1 HA').
      destruct (unit_diag_loop m n m 0 A' HA') as (A2 & Hrun2 & HA2 & Hget2); [lia|lia|].
      rewrite Hrun2. f_equal.
      apply (matrix_ext _ _ m n); [exact HA2|exact HA'|].
      intros r c Hr Hc. rewrite Hget2, Hget.
      destruct ((r =? c) && (0 <=? r) && (r <? 0 + m))%nat; reflexivity.
  - intros Hnm. unfold unit_diag, for_range. rewrite (proj1 HA).
    replace m with (n + (m - n))%nat at 1 by lia.
    rewrite seq_app, for_loop_app.
    destruct (unit_diag_loop m n n 0 A HA) as (A' & -> & HA' & _); [lia|lia|].
    cbn [bind]. replace (m - n)%nat with (S (m - n - 1)) by lia.
    cbn [seq for_loop].
    rewrite (set_item_column_error A' m n (0 + n) (0 + n) 1 HA') by lia.
    reflexivity.
Qed.

Lemma unit_diag_spec_witness :
  ((2 <= 2)%nat ->
   exists A',
     unit_diag [[2; 3]; [4; 5]] = Ok A' /\ shape A' 2 2 /\
     (forall r c, (r < 2)%nat ->
        get A' r c = if (r =? c)%nat then 1 else get [[2; 3]; [4; 5]] r c) /\
     unit_diag A' = Ok A') /\
  ((2 < 2)%nat -> unit_diag [[2; 3]; [4; 5]] = Raise IndexError).
Proof.
  apply (unit_diag_spec [[2; 3]; [4; 5]] 2 2).
  split; [reflexivity|repeat constructor].
Defined.

(** ** The utilities on the store *)

Module HeapUtilsFacts.

Import Heap.

Lemma setitem_at (A : ref) (i j : nat) (x : R) (s : hstate) (a : matrix) :
  nth_error (objs s) A = Some (OMat a) ->
  HeapUtils.setitem A i j x s
  = match set_item a i j x with
    | Ok a' => Ok (tt, put A (OMat a') s)
    | Raise e => Raise e
    end.
Proof.
  intros HA. unfold HeapUtils.setitem.
  rewrite (HeapRefines.hbind_ok _ _ s s a (HeapRefines.load_mat_at s A a HA)).
  destruct (set_item a i j x) as [a'|e]; reflexivity.
Qed.

Lemma getitem_at (A : ref) (i j : nat) (s : hstate) (a : matrix) :
  nth_error (objs s) A = Some (OMat a) ->
  HeapUtils.getitem A i j s
  = match get_item a i j with
    | Ok x => Ok (x, s)
    | Raise e => Raise e
    end.
Proof.
  intros HA. unfold HeapUtils.getitem.
  rewrite (HeapRefines.hbind_ok _ _ s s a (HeapRefines.load_mat_at s A a HA)).
  destruct (get_item a i j) as [x|e]; reflexivity.
Qed.

Lemma nth_error_put_eq (r : ref) (o o0 : obj) (s : hstate) :
  nth_error (objs s) r = Some o0 -> nth_error (objs (put r o s)) r = Some o.
Proof.
  intros H. unfold put. cbn [objs]. apply HeapRefines.nth_error_set_nth_eq.
  apply nth_error_Some. rewrite H. discriminate.
Qed.

Lemma nth_error_put_neq (r r' : ref) (o : obj) (s : hstate) :
  r <> r' -> nth_error (objs (put r o s)) r' = nth_error (objs s) r'.
Proof. intros H. unfold put. cbn [objs]. apply HeapRefines.nth_error_set_nth_neq. exact H. Qed.

(** A loop of writes to the array at [W] does to the store what the loop
    on values does to the array written. *)
Lemma heap_write_loop (W : ref) (f : nat -> matrix -> result matrix)
      (body : nat -> unit -> hp (ctl unit)) (js : list nat) :
  (forall j s w, nth_error (objs s) W = Some (OMat w) ->
     body j tt s = match f j w with
                   | Ok w' => Ok (Continue tt, put W (OMat w') s)
                   | Raise e => Raise e
                   end) ->
  forall s w, nth_error (objs s) W = Some (OMat w) ->
    hfor_loop js body tt s
    = match for_loop js f w with
      | Ok w' => Ok (tt, put W (OMat w') s)
      | Raise e => Raise e
      end.
Proof.
  intros Hbody. induction js as [|j js IH]; intros s w HW.
  - cbn. now rewrite (HeapRefines.put_same W (OMat w) s HW).
  - cbn [hfor_loop for_loop]. unfold hbind at 1. rewrite (Hbody j s w HW).
    destruct (f j w) as [w'|e]; cbn [bind]; [|reflexivity].
    rewrite (IH (put W (OMat w') s) w') by (eapply nth_error_put_eq; exact HW).
    destruct (for_loop js f w') as [w2|e]; [|reflexivity].
    now rewrite HeapRefines.put_twice.
Qed.

(** X9: [unit_diag] works in place: it returns the reference it was
    given, and the array that the caller holds under it has been replaced
    by the array with the unit diagonal (where that exists; otherwise the
    call raises what the writes raise). *)
Theorem unit_diag_in_place (A : ref) (s : hstate) (a : matrix) :
  nth_error (objs s) A = Some (OMat a) ->
  HeapUtils.unit_diag A s
  = match unit_diag a with
    | Ok a' => Ok (A, put A (OMat a') s)
    | Raise e => Raise e
    end.
Proof.
  intros HA. unfold HeapUtils.unit_diag.
  rewrite (HeapRefines.hbind_ok _ _ s s a (HeapRefines.load_mat_at s A a HA)).
  unfold hbind, hfor_range, unit_diag, for_range.
  rewrite (heap_write_loop A (fun i A => set_item A i i 1) _ (seq 0 (length a))
             ) with (w := a); [|intros j s0 w Hw|exact HA].
  - destruct (for_loop _ _ a) as [a'|e]; reflexivity.
  - unfold hbind. rewrite (setitem_at A j j 1 s0 w Hw).
    destruct (set_item w j j 1); reflexivity.
Qed.

Lemma unit_diag_in_place_witness :
  HeapUtils.unit_diag 0%nat
    {| objs := [OMat [[2; 3]; [4; 5]]]; outside := ones_world |}
  = match unit_diag [[2; 3]; [4; 5]] with
    | Ok a' => Ok (0%nat, put 0%nat (OMat a')
                            {| objs := [OMat [[2; 3]; [4; 5]]]; outside := ones_world |})
    | Raise e => Raise e
    end.
Proof.
  apply (unit_diag_in_place 0%nat
           {| objs := [OMat [[2; 3]; [4; 5]]]; outside := ones_world |}
           [[2; 3]; [4; 5]]).
  reflexivity.
Defined.

(** The store with one more object. *)
Lemma put_new (s : hstate) (o o' : obj) :
  put (length (objs s)) o' {| objs := objs s ++ [o]; outside := outside s |}
  = {| objs := objs s ++ [o']; outside := outside s |}.
Proof.
  unfold put. cbn [objs outside]. f_equal.
  induction (objs s) as [|h t IH]; simpl; [reflexivity|]. now rewrite IH.
Qed.

Section FillRefines.

Variable A U : ref.
Hypothesis A_not_U : A <> U.
Variable a : matrix.
Variables lo len : nat -> nat.

Let inner (i : nat) : nat -> unit -> hp (ctl unit) :=
  fun j _ =>
    x <<- HeapUtils.getitem A i j ;;
    HeapUtils.setitem U i j x ;;>
    hret (Continue tt).

Lemma heap_copy_row (i : nat) (js : list nat) (s : hstate) (u : matrix) :
  nth_error (objs s) A = Some (OMat a) ->
  nth_error (objs s) U = Some (OMat u) ->
  hfor_loop js (inner i) tt s
  = match for_loop js (fun j U => x <- get_item a i j ;; set_item U i j x) u with
    | Ok u' => Ok (tt, put U (OMat u') s)
    | Raise e => Raise e
    end.
Proof.
  revert s u. induction js as [|j js IH]; intros s u HA HU.
  - cbn. now rewrite (HeapRefines.put_same U (OMat u) s HU).
  - cbn [hfor_loop for_loop]. unfold hbind at 1. unfold inner at 1.
    unfold hbind at 1. rewrite (getitem_at A i j s a HA).
    destruct (get_item a i j) as [x|e]; cbn [bind]; [|reflexivity].
    unfold hbind at 1. rewrite (setitem_at U i j x s u HU).
    destruct (set_item u i j x) as [u'|e]; cbn [bind]; [|reflexivity].
    cbn [hret].
    rewrite (IH (put U (OMat u') s) u').
    + destruct (for_loop js _ u') as [u2|e]; [|reflexivity].
      now rewrite HeapRefines.put_twice.
    + rewrite nth_error_put_neq by congruence. exact HA.
    + eapply nth_error_put_eq; exact HU.
Qed.

Lemma heap_copy_rows (rows : list nat) (s : hstate) (u : matrix) :
  nth_error (objs s) A = Some (OMat a) ->
  nth_error (objs s) U = Some (OMat u) ->
  hfor_loop rows
    (fun i _ => hfor_loop (seq (lo i) (len i)) (inner i) tt ;;> hret (Continue tt)) tt s
  = match for_loop rows
            (fun i U =>
               for_loop (seq (lo i) (len i))
                 (fun j U => x <- get_item a i j ;; set_item U i j x) U) u with
    | Ok u' => Ok (tt, put U (OMat u') s)
    | Raise e => Raise e
    end.
Proof.
  revert s u. induction rows as [|i rows IH]; intros s u HA HU.
  - cbn. now rewrite (HeapRefines.put_same U (OMat u) s HU).
  - cbn [hfor_loop for_loop]. unfold hbind at 1. unfold hbind at 1.
    rewrite (heap_copy_row i _ s u HA HU).
    destruct (for_loop (seq (lo i) (len i)) _ u) as [u'|e]; cbn [bind hret]; [|reflexivity].
    rewrite (IH (put U (OMat u') s) u').
    + destruct (for_loop rows _ u') as [u2|e]; [|reflexivity].
      now rewrite HeapRefines.put_twice.
    + rewrite nth_error_put_neq by congruence. exact HA.
    + eapply nth_error_put_eq; exact HU.
Qed.

End FillRefines.

(** X10: [upper_diag] and [lower_diag] do not touch the array they are
    given: they return a reference to a new array, the one the value model
    computes, and every object of the store is as before. *)
Theorem diag_parts_allocate (A : ref) (diag : bool) (s : hstate) (a : matrix) :
  nth_error (objs s) A = Some (OMat a) ->
  HeapUtils.upper_diag A diag s
  = match upper_diag a diag with
    | Ok u => Ok (length (objs s),
                  {| objs := objs s ++ [OMat u]; outside := outside s |})
    | Raise e => Raise e
    end /\
  HeapUtils.lower_diag A diag s
  = match lower_diag a diag with
    | Ok l => Ok (length (objs s),
                  {| objs := objs s ++ [OMat l]; outside := outside s |})
    | Raise e => Raise e
    end.
Proof.
  intros HA.
  assert (HAlt : (A < length (objs s))%nat)
    by (apply nth_error_Some; rewrite HA; discriminate).
  set (s1 := {| objs := objs s ++ [OMat (zeros_like a)]; outside := outside s |}).
  assert (HA1 : nth_error (objs s1) A = Some (OMat a))
    by (apply HeapRefines.nth_error_app_old; exact HA).
  assert (HU1 : nth_error (objs s1) (length (objs s)) = Some (OMat (zeros_like a)))
    by apply HeapRefines.nth_error_app_new.
  split.
  - unfold HeapUtils.upper_diag.
    rewrite (HeapRefines.hbind_ok _ _ s s a (HeapRefines.load_mat_at s A a HA)).
    unfold hbind at 1. unfold alloc at 1. fold s1.
    unfold hbind at 1. unfold hfor_range, upper_diag, for_range.
    rewrite (heap_copy_rows A (length (objs s)) (ltac:(lia)) a
               (fun i => if diag then i else (i + 1)%nat)
               (fun i => (length a - (if diag then i else (i + 1)))%nat)
               (seq 0 (length a)) s1 (zeros_like a) HA1 HU1).
    destruct (for_loop _ _ (zeros_like a)) as [u|e]; [|reflexivity].
    cbn [hret]. unfold s1. now rewrite put_new.
  - unfold HeapUtils.lower_diag.
    rewrite (HeapRefines.hbind_ok _ _ s s a (HeapRefines.load_mat_at s A a HA)).
    unfold hbind at 1. unfold alloc at 1. fold s1.
    unfold hbind at 1. unfold hfor_range, lower_diag, for_range.
    rewrite (heap_copy_rows A (length (objs s)) (ltac:(lia)) a
               (fun _ => 0%nat)
               (fun i => if diag then (i + 1)%nat else i)
               (seq 0 (length a)) s1 (zeros_like a) HA1 HU1).
    destruct (for_loop _ _ (zeros_like a)) as [l|e]; [|reflexivity].
    cbn [hret]. unfold s1. now rewrite put_new.
Qed.

Lemma diag_parts_allocate_witness :
  HeapUtils.upper_diag 0%nat true
    {| objs := [OMat [[2; 3]; [4; 5]]]; outside := ones_world |}
  = match upper_diag [[2; 3]; [4; 5]] true with
    | Ok u => Ok (length (objs {| objs := [OMat [[2; 3]; [4; 5]]];
                                  outside := ones_world |}),
                  {| objs := objs {| objs := [OMat [[2; 3]; [4; 5]]];
                                     outside := ones_world |} ++ [OMat u];
                     outside := outside {| objs := [OMat [[2; 3]; [4; 5]]];
                                           outside := ones_world |} |})
    | Raise e => Raise e
    end /\
  HeapUtils.lower_diag 0%nat true
    {| objs := [OMat [[2; 3]; [4; 5]]]; outside := ones_world |}
  = match lower_diag [[2; 3]; [4; 5]] true with
    | Ok l => Ok (length (objs {| objs := [OMat [[2; 3]; [4; 5]]];
                                  outside := ones_world |}),
                  {| objs := objs {| objs := [OMat [[2; 3]; [4; 5]]];
                                     outside := ones_world |} ++ [OMat l];
                     outside := outside {| objs := [OMat [[2; 3]; [4; 5]]];
                                           outside := ones_world |} |})
    | Raise e => Raise e
    end.
Proof.
  apply (diag_parts_allocate 0%nat true
           {| objs := [OMat [[2; 3]; [4; 5]]]; outside := ones_world |}
           [[2; 3]; [4; 5]]).
  reflexivity.
Defined.

End HeapUtilsFacts.

(** ** multi_dot *)

Lemma np_dot_ok (A B : matrix) (m p n : nat) :
  shape A m p -> shape B p n -> (0 < m)%nat -> np_dot A B = Ok (mmul A B).
Proof.
  intros HA HB Hm. unfold np_dot, nrows.
  rewrite (shape_ncols A m p HA Hm), (proj1 HB), Nat.eqb_refl. reflexivity.
Qed.

Lemma np_dot_mismatch (A B : matrix) (m p q n : nat) :
  shape A m p -> shape B q n -> (0 < m)%nat -> p <> q -> np_dot A B = Raise ValueError.
Proof.
  intros HA HB Hm Hpq. unfold np_dot, nrows.
  rewrite (shape_ncols A m p HA Hm), (proj1 HB).
  destruct (Nat.eqb_spec p q); [contradiction|reflexivity].
Qed.

Lemma chain_pos (m n : nat) (l : list matrix) : chain m l n -> (0 < m)%nat /\ (0 < n)%nat.
Proof. induction 1; split; tauto. Qed.

Lemma chain_app (m p n : nat) (l1 l2 : list matrix) :
  chain m l1 p -> chain p l2 n -> chain m (l1 ++ l2) n.
Proof.
  intros H1 H2. induction H1 as [m p A HA Hm Hp|m q p A l HA Hm Hq Hl IH]; simpl.
  - apply (chain_cons m p n); assumption.
  - apply (chain_cons m q n); auto.
Qed.

(** Along a chain [reduce] meets no error and returns the product. *)
Lemma reduce_from_chain (m p n : nat) (acc : matrix) (l : list matrix) :
  shape acc m p -> (0 < m)%nat -> chain p l n ->
  reduce_from np_dot acc l = Ok (product_from acc l) /\
  shape (product_from acc l) m n.
Proof.
  intros Hacc Hm Hl. revert m acc Hacc Hm.
  induction Hl as [p n B HB Hp Hn|p q n B l HB Hp Hq Hl IH]; intros m acc Hacc Hm.
  - cbn [reduce_from product_from]. rewrite (np_dot_ok acc B m p n) by assumption.
    split; [reflexivity|]. apply (shape_mmul acc B m p n); assumption.
  - cbn [reduce_from product_from]. rewrite (np_dot_ok acc B m p q) by assumption.
    cbn [bind]. apply IH; [|exact Hm]. apply (shape_mmul acc B m p q); assumption.
Qed.

Lemma multi_dot_chain (m n : nat) (l : list matrix) :
  chain m l n ->
  exists P, multi_dot l = Ok P /\ shape P m n.
Proof.
  intros Hl. inversion Hl as [m' n' A HA Hm Hn|m' p n' A l' HA Hm Hp Hl']; subst.
  - exists A. split; [reflexivity|exact HA].
  - exists (product_from A l'). unfold multi_dot, reduce.
    apply (reduce_from_chain m p n); assumption.
Qed.

Lemma chain_inv (q n : nat) (C : matrix) (l : list matrix) :
  chain q (C :: l) n ->
  exists r, shape C q r /\ (0 < q)%nat /\ (0 < r)%nat /\
            (l = [] /\ r = n \/ chain r l n).
Proof.
  intros H. inversion H; subst.
  - exists n. split; [assumption|]. split; [assumption|]. split; [assumption|].
    left. split; reflexivity.
  - eexists. split; [eassumption|]. split; [assumption|].
    split; [assumption|]. right. assumption.
Qed.

Lemma shape_product_from (p q n : nat) (B : matrix) (l : list matrix) :
  shape B p q -> (0 < p)%nat -> (l = [] /\ q = n \/ chain q l n) ->
  shape (product_from B l) p n.
Proof.
  intros HB Hp [[-> ->]|Hl]; [exact HB|].
  apply (reduce_from_chain p q n B l HB Hp Hl).
Qed.

(** The product from an accumulator is the accumulator times the product
    of the rest: [np.dot] is associative. *)
Lemma product_from_mmul (l : list matrix) :
  forall (m p q n : nat) (acc B : matrix),
  shape acc m p -> (0 < m)%nat -> (0 < p)%nat -> shape B p q -> (0 < q)%nat ->
  (l = [] /\ q = n \/ chain q l n) ->
  product_from acc (B :: l) = mmul acc (product_from B l).
Proof.
  induction l as [|C l IH]; intros m p q n acc B Hacc Hm Hp HB Hq Hl.
  - reflexivity.
  - destruct Hl as [[Hnil _]|Hl]; [discriminate|].
    destruct (chain_inv q n C l Hl) as (r & HC & _ & Hr & Hrest).
    change (product_from acc (B :: C :: l))
      with (product_from (mmul acc B) (C :: l)).
    rewrite (IH m q r n (mmul acc B) C); try assumption;
      [|apply (shape_mmul acc B m p q); assumption].
    change (product_from B (C :: l)) with (product_from (mmul B C) l).
    change (product_from (mmul B C) l) with (product_from B (C :: l)).
    rewrite (IH p q r n B C); try assumption.
    apply (mmul_assoc acc B (product_from C l) m p q n); try assumption.
    apply (shape_product_from q r n); assumption.
Qed.

(** X11: [multi_dot] of a list of arrays whose shapes fit, split at any
    place, is the product of [multi_dot] of the two parts: the product
    from left to right does not depend on the grouping. *)
Theorem multi_dot_append (l1 l2 : list matrix) (m p n : nat) :
  chain m l1 p -> chain p l2 n ->
  exists P1 P2,
    multi_dot l1 = Ok P1 /\ multi_dot l2 = Ok P2 /\
    shape P1 m p /\ shape P2 p n /\
    multi_dot (l1 ++ l2) = Ok (mmul P1 P2).
Proof.
  intros H1 H2. revert l2 n H2.
  induction H1 as [m p A HA Hm Hp|m q p A l HA Hm Hq Hl IH]; intros l2 n H2.
  - destruct l2 as [|B l2]; [inversion H2|].
    destruct (chain_inv p n B l2 H2) as (r & HB & _ & Hr & Hrest).
    exists A, (product_from B l2).
    split; [reflexivity|]. split.
    { unfold multi_dot, reduce. destruct Hrest as [[-> ->]|Hrest]; [reflexivity|].
      apply (reduce_from_chain p r n B l2 HB Hp Hrest). }
    split; [exact HA|]. split; [apply (shape_product_from p r n); assumption|].
    cbn [app]. unfold multi_dot, reduce.
    rewrite (proj1 (reduce_from_chain m p n A (B :: l2) HA Hm H2)). f_equal.
    apply (product_from_mmul l2 m p r n); assumption.
  - destruct (IH l2 n H2) as (P1 & P2 & HP1 & HP2 & Hs1 & Hs2 & Happ).
    exists (mmul A P1), P2.
    assert (Hl2 : chain q (l ++ l2) n) by (apply (chain_app q p n); assumption).
    destruct l as [|B l]; [inversion Hl|].
    destruct (chain_inv q p B l Hl) as (r & HB & _ & Hr & Hrest).
    assert (E1 : P1 = product_from B l).
    { unfold multi_dot, reduce in HP1.
      destruct Hrest as [[-> ->]|Hrest]; [cbn in HP1 |- *; congruence|].
      rewrite (proj1 (reduce_from_chain q r p B l HB Hq Hrest)) in HP1. congruence. }
    split.
    { unfold multi_dot, reduce.
      rewrite (proj1 (reduce_from_chain m q p A (B :: l) HA Hm Hl)). f_equal.
      rewrite E1. apply (product_from_mmul l m q r p); assumption. }
    split; [exact HP2|].
    split; [apply (shape_mmul A P1 m q p); assumption|]. split; [exact Hs2|].
    cbn [app] in *. unfold multi_dot, reduce in *.
    rewrite (proj1 (reduce_from_chain m q n A (B :: l ++ l2) HA Hm Hl2)).
    f_equal.
    destruct (chain_inv q n B (l ++ l2) Hl2) as (r' & HB' & _ & Hr' & Hrest').
    rewrite (product_from_mmul (l ++ l2) m q r' n A B) by assumption.
    assert (E : product_from B (l ++ l2) = mmul P1 P2).
    { destruct Hrest' as [[Hnil _]|Hrest'].
      - destruct l; [cbn in Hnil; subst l2; inversion H2|discriminate].
      - rewrite (proj1 (reduce_from_chain q r' n B (l ++ l2) HB' Hq Hrest')) in Happ.
        congruence. }
    rewrite E. symmetry.
    apply (mmul_assoc A P1 P2 m q p n); try assumption.
    apply (chain_pos p n l2 H2).
Qed.

Lemma multi_dot_append_witness :
  exists P1 P2,
    multi_dot [[[1; 2]]; [[3]; [4]]] = Ok P1 /\ multi_dot [[[5; 6]]] = Ok P2 /\
    shape P1 1 1 /\ shape P2 1 2 /\
    multi_dot ([[[1; 2]]; [[3]; [4]]] ++ [[[5; 6]]]) = Ok (mmul P1 P2).
Proof.
  apply (multi_dot_append [[[1; 2]]; [[3]; [4]]] [[[5; 6]]] 1 1 2).
  - apply (chain_cons 1 2 1); [split; [reflexivity|repeat constructor]|lia|lia|].
    apply chain_one; [split; [reflexivity|repeat constructor]|lia|lia].
  - apply chain_one; [split; [reflexivity|repeat constructor]|lia|lia].
Defined.

(** X12: [multi_dot] of an empty list raises [TypeError] (a [reduce]
    without initial value); where the first inner dimensions that do not
    agree are met, it raises [ValueError], whatever follows in the list. *)
Theorem multi_dot_errors (l1 l2 : list matrix) (B : matrix) (m p q n : nat) :
  chain m l1 p -> shape B q n -> p <> q ->
  multi_dot [] = Raise TypeError /\
  multi_dot (l1 ++ B :: l2) = Raise ValueError.
Proof.
  intros H1 HB Hpq. split; [reflexivity|].
  assert (Hred : forall l p0, chain p0 l p ->
            forall m0 acc, shape acc m0 p0 -> (0 < m0)%nat ->
            reduce_from np_dot acc (l ++ B :: l2) = Raise ValueError).
  { intros l p0 Hl. remember p as p1 eqn:Ep in Hl.
    induction Hl as [p0 p1 C HC Hp0 Hp1|p0 r p1 C l HC Hp0 Hr Hl IH];
      intros m0 acc Hacc Hm0; subst p1.
    - cbn [app reduce_from]. rewrite (np_dot_ok acc C m0 p0 p) by assumption.
      cbn [bind].
      rewrite (np_dot_mismatch (mmul acc C) B m0 p q n); try assumption;
        [reflexivity|apply (shape_mmul acc C m0 p0 p); assumption].
    - cbn [app reduce_from]. rewrite (np_dot_ok acc C m0 p0 r) by assumption.
      cbn [bind]. apply (IH eq_refl m0); [|exact Hm0].
      apply (shape_mmul acc C m0 p0 r); assumption. }
  inversion H1 as [m' p' A HA Hm Hp|m' r p' A l HA Hm Hr Hl]; subst.
  - cbn [app]. unfold multi_dot, reduce. cbn [reduce_from].
    rewrite (np_dot_mismatch A B m p q n) by assumption. reflexivity.
  - cbn [app]. unfold multi_dot, reduce. apply (Hred l r Hl m); assumption.
Qed.

Lemma multi_dot_errors_witness :
  multi_dot [] = Raise TypeError /\
  multi_dot ([[[1; 2]]] ++ [[3]] :: [[[4]]]) = Raise ValueError.
Proof.
  apply (multi_dot_errors [[[1; 2]]] [[[4]]] [[3]] 1 2 1 1).
  - apply chain_one; [split; [reflexivity|repeat constructor]|lia|lia].
  - split; [reflexivity|repeat constructor].
  - lia.
Defined.

(** ** basis_vec and basis_arr *)

Lemma py_index_in_range (len : nat) (k : Z) :
  (0 <= k < Z.of_nat len)%Z -> py_index len k = Ok (Z.to_nat k).
Proof.
  intros H. unfold py_index.
  replace ((0 <=? k) && (k <? Z.of_nat len))%Z with true; [reflexivity|].
  symmetry. apply andb_true_iff. split; [apply Z.leb_le|apply Z.ltb_lt]; lia.
Qed.

Lemma set_nth_unit_column (n i : nat) :
  (i < n)%nat ->
  set_nth i [1] (repeat [0] n)
  = map (fun r => [if (r =? i)%nat then 1 else 0]) (seq 0 n).
Proof.
  intros Hi. apply (nth_ext _ _ [] []).
  - now rewrite length_set_nth, repeat_length, length_map, length_seq.
  - intros r Hr. rewrite length_set_nth, repeat_length in Hr.
    rewrite (nth_map_seq (fun r => [if (r =? i)%nat then 1 else 0]) n r []) by exact Hr.
    destruct (Nat.eqb_spec r i) as [->|Hri].
    + apply nth_set_nth_eq. now rewrite repeat_length.
    + rewrite nth_set_nth_neq by congruence. apply nth_repeat_lt. exact Hr.
Qed.

(** X13: [basis_vec(k, n)] for an index within [0 <= k < n] is the column
    with a one in row [k] and zeros elsewhere; every index [k' >= n] fails
    the assertion with its message, and every index below [-n] passes it
    and raises [IndexError] at the write. *)
Theorem basis_vec_in_range (k k' n : Z) :
  (0 <= k < n)%Z ->
  basis_vec k n
  = Ok (map (fun r => [if (r =? Z.to_nat k)%nat then 1 else 0]) (seq 0 (Z.to_nat n))) /\
  ((n <= k')%Z ->
   basis_vec k' n
   = Raise (AssertionError
              ("[!] k cannot exceed " ++ NilZero.string_of_int (Z.to_int n) ++ "."))) /\
  ((k' < - n)%Z -> basis_vec k' n = Raise IndexError).
Proof.
  intros Hk. split; [|split].
  - unfold basis_vec.
    replace (k <? n)%Z with true by (symmetry; apply Z.ltb_lt; lia).
    replace (n <? 0)%Z with false by (symmetry; apply Z.ltb_ge; lia).
    cbn [assert bind]. unfold zeros2, zeros. rewrite repeat_length.
    rewrite py_index_in_range by lia. cbn [bind]. f_equal.
    rewrite nth_repeat_lt by lia. cbn [repeat map].
    apply set_nth_unit_column. lia.
  - intros Hk'. unfold basis_vec.
    replace (k' <? n)%Z with false by (symmetry; apply Z.ltb_ge; lia). reflexivity.
  - intros Hk'. apply basis_vec_below_range; lia.
Qed.

Lemma basis_vec_in_range_witness :
  basis_vec 1 3
  = Ok (map (fun r => [if (r =? Z.to_nat 1)%nat then 1 else 0]) (seq 0 (Z.to_nat 3))) /\
  ((3 <= 5)%Z ->
   basis_vec 5 3
   = Raise (AssertionError
              ("[!] k cannot exceed " ++ NilZero.string_of_int (Z.to_int 3) ++ "."))) /\
  ((5 < - 3)%Z -> basis_vec 5 3 = Raise IndexError).
Proof. apply (basis_vec_in_range 1 5 3). lia. Defined.

Lemma fold_left_max_ge (l : list Z) (k : Z) : (k <= fold_left Z.max l k)%Z.
Proof.
  revert k. induction l as [|a l IH]; intros k; simpl; [lia|].
  specialize (IH (Z.max k a)). lia.
Qed.

Lemma fold_left_max_lt (l : list Z) (k n : Z) :
  (k < n)%Z -> Forall (fun a => (a < n)%Z) l -> (fold_left Z.max l k < n)%Z.
Proof.
  revert k. induction l as [|a l IH]; intros k Hk Hl; simpl; [exact Hk|].
  inversion Hl; subst. apply IH; [lia|assumption].
Qed.

Lemma fold_left_max_member (l : list Z) (k a : Z) :
  In a l -> (a <= fold_left Z.max l k)%Z.
Proof.
  revert k. induction l as [|b l IH]; intros k; simpl; [tauto|].
  intros [->|Hin].
  - pose proof (fold_left_max_ge l (Z.max k a)). lia.
  - apply IH. exact Hin.
Qed.

Lemma np_max_lt (ks : list Z) (n : Z) :
  ks <> [] -> Forall (fun a => (a < n)%Z) ks ->
  exists m, np_max ks = Ok m /\ (m < n)%Z.
Proof.
  intros Hne Hall. destruct ks as [|k ks]; [contradiction|].
  inversion Hall; subst. eexists. split; [reflexivity|].
  apply fold_left_max_lt; assumption.
Qed.

Lemma set_item_z_in_range (A : matrix) (m n i : nat) (k : Z) (x : R) :
  shape A m n -> (i < m)%nat -> (0 <= k < Z.of_nat n)%Z ->
  set_item_z A i k x = set_item A i (Z.to_nat k) x.
Proof.
  intros HA Hi Hk. unfold set_item_z, set_item.
  destruct (nth_error_row A m n i HA Hi) as (r & -> & Hr & _).
  rewrite Hr, py_index_in_range by exact Hk. cbn [bind].
  replace (Z.to_nat k <? n)%nat with true by (symmetry; apply Nat.ltb_lt; lia).
  reflexivity.
Qed.

(** The loop of [basis_arr] over the rows [i0 .. i0+k-1]. *)
Lemma basis_arr_loop (js : list nat) (n : nat) (k i0 : nat) (b : matrix) :
  shape b n n -> (i0 + k <= length js)%nat -> (i0 + k <= n)%nat ->
  Forall (fun j => (j < n)%nat) js ->
  exists b',
    for_loop (seq i0 k)
      (fun i b => set_item_z b i (nth i (map Z.of_nat js) 0%Z) 1) b = Ok b' /\
    shape b' n n /\
    forall r c, get b' r c =
      if ((i0 <=? r) && (r <? i0 + k) && (c =? nth r js 0%nat))%nat
      then 1 else get b r c.
Proof.
  intros Hb Hlen Hn Hall. revert i0 b Hb Hlen Hn.
  induction k as [|k IH]; intros i0 b Hb Hlen Hn.
  - exists b. split; [reflexivity|]. split; [exact Hb|].
    intros r c.
    destruct (Nat.leb_spec i0 r); destruct (Nat.ltb_spec r (i0 + 0)); cbn [andb];
      try reflexivity; lia.
  - cbn [seq for_loop].
    assert (Hj : (nth i0 js 0 < n)%nat).
    { rewrite Forall_forall in Hall. apply Hall, nth_In. lia. }
    assert (Hz : nth i0 (map Z.of_nat js) 0%Z = Z.of_nat (nth i0 js 0%nat)).
    { change 0%Z with (Z.of_nat 0). apply map_nth. }
    rewrite Hz, (set_item_z_in_range b n n i0) by (assumption || lia).
    rewrite Nat2Z.id.
    destruct (set_item_ok b n n i0 (nth i0 js 0%nat) 1 Hb) as (b1 & -> & Hb1 & Hget1);
      [lia|exact Hj|].
    cbn [bind].
    destruct (IH (S i0) b1 Hb1) as (b' & Hrun & Hb' & Hget'); [lia|lia|].
    exists b'. split; [exact Hrun|]. split; [exact Hb'|].
    intros r c. rewrite Hget', Hget1.
    destruct (Nat.eqb_spec r i0) as [->|Hri].
    + replace (S i0 <=? i0)%nat with false by (symmetry; apply Nat.leb_gt; lia).
      replace (i0 <=? i0)%nat with true by (symmetry; apply Nat.leb_le; lia).
      replace (i0 <? i0 + S k)%nat with true by (symmetry; apply Nat.ltb_lt; lia).
      reflexivity.
    + replace (r <? S i0 + k)%nat with (r <? i0 + S k)%nat by (f_equal; lia).
      destruct (Nat.leb_spec (S i0) r); destruct (Nat.leb_spec i0 r); cbn [andb];
        try reflexivity; lia.
Qed.

Lemma get_zeros2 (m n r c : nat) : get (zeros2 m n) r c = 0.
Proof.
  unfold get, zeros2, zeros.
  destruct (Nat.lt_ge_cases r m) as [Hr|Hr].
  - rewrite nth_repeat_lt by exact Hr.
    destruct (Nat.lt_ge_cases c n) as [Hc|Hc].
    + apply nth_repeat_lt. exact Hc.
    + apply nth_overflow. now rewrite repeat_length.
  - rewrite (nth_overflow _ []) by now rewrite repeat_length.
    destruct c; reflexivity.
Qed.

Lemma basis_arr_entries (js : list nat) (n : nat) :
  js <> [] -> (length js <= n)%nat -> Forall (fun j => (j < n)%nat) js ->
  exists b,
    basis_arr (map Z.of_nat js) (Z.of_nat n) = Ok b /\ shape b n n /\
    forall r c, get b r c =
      if ((r <? length js) && (c =? nth r js 0%nat))%nat then 1 else 0.
Proof.
  intros Hne Hlen Hall. unfold basis_arr.
  destruct (np_max_lt (map Z.of_nat js) (Z.of_nat n)) as (mx & -> & Hmx).
  - destruct js; [contradiction|discriminate].
  - rewrite Forall_forall in *. intros a Ha. apply in_map_iff in Ha.
    destruct Ha as (j & <- & Hj). specialize (Hall j Hj). lia.
  - cbn [bind].
    replace (mx <? Z.of_nat n)%Z with true by (symmetry; apply Z.ltb_lt; lia).
    replace (Z.of_nat n <? 0)%Z with false by (symmetry; apply Z.ltb_ge; lia).
    cbn [assert bind]. rewrite Nat2Z.id, length_map. unfold for_range.
    destruct (basis_arr_loop js n (length js) 0 (zeros2 n n)) as (b & Hrun & Hb & Hget);
      [apply shape_zeros2|lia|lia|exact Hall|].
    exists b. split; [exact Hrun|]. split; [exact Hb|].
    intros r c. rewrite Hget, get_zeros2. reflexivity.
Qed.

(** The rows of [basis_arr] and what [b @ x] is. *)
Lemma basis_arr_selects (js : list nat) (n : nat) (x : vec) :
  js <> [] -> (length js <= n)%nat -> Forall (fun j => (j < n)%nat) js ->
  length x = n ->
  exists b,
    basis_arr (map Z.of_nat js) (Z.of_nat n) = Ok b /\ shape b n n /\
    (forall r c, get b r c =
       if ((r <? length js) && (c =? nth r js 0%nat))%nat then 1 else 0) /\
    matvec b x = map (fun j => nth j x 0) js ++ zeros (n - length js).
Proof.
  intros Hne Hlen Hall Hx.
  destruct (basis_arr_entries js n Hne Hlen Hall) as (b & Hrun & Hb & Hget).
  exists b. split; [exact Hrun|]. split; [exact Hb|]. split; [exact Hget|].
  apply vec_ext.
  - rewrite length_matvec, length_app, length_map, length_zeros.
    rewrite (proj1 Hb). lia.
  - intros i Hi. rewrite length_matvec, (proj1 Hb) in Hi.
    rewrite (nth_matvec_sumn b n n x i Hb Hi).
    destruct (Nat.lt_ge_cases i (length js)) as [Hij|Hij].
    + rewrite app_nth1 by now rewrite length_map.
      rewrite (nth_indep _ 0 ((fun j => nth j x 0) 0%nat)) by now rewrite length_map.
      rewrite (map_nth (fun j => nth j x 0) js 0%nat i).
      rewrite (sumn_ext n _ (fun k => (if (nth i js 0%nat =? k)%nat then 1 else 0)
                                      * nth k x 0)).
      * apply sumn_delta. rewrite Forall_forall in Hall. apply Hall, nth_In. exact Hij.
      * intros k Hk. rewrite Hget.
        replace (i <? length js)%nat with true by (symmetry; apply Nat.ltb_lt; lia).
        cbn [andb]. now rewrite Nat.eqb_sym.
    + rewrite app_nth2 by now rewrite length_map.
      rewrite nth_zeros. apply sumn_zero. intros k Hk. rewrite Hget.
      replace (i <? length js)%nat with false by (symmetry; apply Nat.ltb_ge; lia).
      cbn [andb]. lra.
Qed.

(** X14: [basis_arr(ks, n)] for at most [n] indices within [0 .. n-1] is
    the [n]-by-[n] array whose row [i] is the basis vector of [ks[i]], the
    rows from [len(ks)] on being zero; so [b @ x] picks the entries of [x]
    in the order of [ks]. *)
Theorem basis_arr_rows (js : list nat) (n : nat) (x : vec) :
  js <> [] -> (length js <= n)%nat -> Forall (fun j => (j < n)%nat) js ->
  length x = n ->
  exists b,
    basis_arr (map Z.of_nat js) (Z.of_nat n) = Ok b /\ shape b n n /\
    (forall r c, get b r c =
       if ((r <? length js) && (c =? nth r js 0%nat))%nat then 1 else 0) /\
    matvec b x = map (fun j => nth j x 0) js ++ zeros (n - length js).
Proof. apply basis_arr_selects. Qed.

Lemma basis_arr_rows_witness :
  exists b,
    basis_arr (map Z.of_nat [1; 0]%nat) (Z.of_nat 2) = Ok b /\ shape b 2 2 /\
    (forall r c, get b r c =
       if ((r <? length [1; 0]%nat) && (c =? nth r [1; 0]%nat 0%nat))%nat
       then 1 else 0) /\
    matvec b [7; 8] = map (fun j => nth j [7; 8] 0) [1; 0]%nat
                      ++ zeros (2 - length [1; 0]%nat).
Proof.
  apply (basis_arr_rows [1; 0]%nat 2 [7; 8]).
  - discriminate.
  - simpl; lia.
  - repeat constructor.
  - reflexivity.
Defined.

(** X15: [basis_arr] of an empty list raises [ValueError] ([np.max] of
    an empty array); with an index [>= n] anywhere in the list it fails its
    assertion; with more than [n] indices, all within range, it passes the
    assertion and raises [IndexError] at row [n]. *)
Theorem basis_arr_errors (js : list nat) (n : nat) :
  (n < length js)%nat -> Forall (fun j => (j < n)%nat) js ->
  basis_arr [] (Z.of_nat n) = Raise ValueError /\
  (forall ks k, In k ks -> (Z.of_nat n <= k)%Z ->
     basis_arr ks (Z.of_nat n)
     = Raise (AssertionError
                ("[!] ks cannot exceed "
                   ++ NilZero.string_of_int (Z.to_int (Z.of_nat n)) ++ "."))) /\
  basis_arr (map Z.of_nat js) (Z.of_nat n) = Raise IndexError.
Proof.
  intros Hlen Hall. split; [reflexivity|]. split.
  - intros ks k Hin Hk. unfold basis_arr.
    destruct ks as [|k0 ks]; [contradiction|].
    cbn [np_max bind].
    assert (Hge : (k <= fold_left Z.max ks k0)%Z).
    { destruct Hin as [->|Hin]; [apply fold_left_max_ge|].
      apply fold_left_max_member; exact Hin. }
    replace (fold_left Z.max ks k0 <? Z.of_nat n)%Z with false
      by (symmetry; apply Z.ltb_ge; lia).
    reflexivity.
  - unfold basis_arr.
    destruct (np_max_lt (map Z.of_nat js) (Z.of_nat n)) as (mx & -> & Hmx).
    + destruct js; [simpl in Hlen; lia|discriminate].
    + rewrite Forall_forall in *. intros a Ha. apply in_map_iff in Ha.
      destruct Ha as (j & <- & Hj). specialize (Hall j Hj). lia.
    + cbn [bind].
      replace (mx <? Z.of_nat n)%Z with true by (symmetry; apply Z.ltb_lt; lia).
      replace (Z.of_nat n <? 0)%Z with false by (symmetry; apply Z.ltb_ge; lia).
      cbn [assert bind]. rewrite Nat2Z.id, length_map. unfold for_range.
      replace (length js) with (n + (length js - n))%nat at 1 by lia.
      rewrite seq_app, for_loop_app.
      destruct (basis_arr_loop js n n 0 (zeros2 n n)) as (b & -> & Hb & _);
        [apply shape_zeros2|lia|lia|exact Hall|].
      cbn [bind].
      replace (length js - n)%nat with (S (length js - n - 1)) by lia.
      cbn [seq for_loop]. unfold set_item_z.
      replace (nth_error b (0 + n)) with (@None (list R));
        [reflexivity|].
      symmetry. apply nth_error_None. rewrite (proj1 Hb). lia.
Qed.

Lemma basis_arr_errors_witness :
  basis_arr [] (Z.of_nat 1) = Raise ValueError /\
  (forall ks k, In k ks -> (Z.of_nat 1 <= k)%Z ->
     basis_arr ks (Z.of_nat 1)
     = Raise (AssertionError
                ("[!] ks cannot exceed "
                   ++ NilZero.string_of_int (Z.to_int (Z.of_nat 1)) ++ "."))) /\
  basis_arr (map Z.of_nat [0; 0]%nat) (Z.of_nat 1) = Raise IndexError.
Proof.
  apply (basis_arr_errors [0; 0]%nat 1).
  - simpl; lia.
  - repeat constructor.
Defined.

Lemma sumn_count (js : list nat) (c : nat) :
  sumn (length js) (fun i => if (nth i js 0%nat =? c)%nat then 1 else 0)
  = INR (count_occ Nat.eq_dec js c).
Proof.
  induction js as [|j js IH]; [reflexivity|].
  cbn [length]. rewrite sumn_shift. cbn [nth count_occ]. rewrite IH.
  destruct (Nat.eq_dec j c) as [->|Hne].
  - rewrite Nat.eqb_refl, S_INR. lra.
  - replace (j =? c)%nat with false by (symmetry; apply Nat.eqb_neq; exact Hne). lra.
Qed.

(** X16: when [ks] is a permutation of [0 .. n-1], [basis_arr(ks, n)] is
    a permutation matrix: orthogonal, with [b @ x] the entries of [x]
    rearranged in the order of [ks]. *)
Theorem basis_arr_permutation (js : list nat) (n : nat) (x : vec) :
  (0 < n)%nat -> Permutation js (seq 0 n) -> length x = n ->
  exists b,
    basis_arr (map Z.of_nat js) (Z.of_nat n) = Ok b /\
    orthogonal n b /\
    matvec b x = map (fun j => nth j x 0) js.
Proof.
  intros Hn Hperm Hx.
  assert (Hlen : length js = n)
    by (rewrite (Permutation_length Hperm); apply length_seq).
  assert (Hall : Forall (fun j => (j < n)%nat) js).
  { rewrite Forall_forall. intros j Hj.
    apply (Permutation_in _ Hperm) in Hj. apply in_seq in Hj. lia. }
  assert (Hnd : NoDup js)
    by (apply (Permutation_NoDup (Permutation_sym Hperm)), seq_NoDup).
  assert (Hne : js <> []) by (destruct js; [simpl in Hlen; lia|discriminate]).
  destruct (basis_arr_selects js n x Hne) as (b & Hrun & Hb & Hget & Hmv);
    [lia|exact Hall|exact Hx|].
  exists b. split; [exact Hrun|]. split.
  - assert (HbT : shape (transpose b) n n) by (apply shape_transpose; assumption).
    split; [exact Hb|]. split.
    + apply (matrix_ext _ _ n n); [eauto with shapes|apply shape_eye|].
      intros c d Hc Hd.
      rewrite (get_mmul (transpose b) b n n n) by assumption.
      rewrite get_eye by assumption.
      rewrite (sumn_ext n _
                 (fun i => if ((nth i js 0%nat =? c) && (c =? d))%nat then 1 else 0)).
      * destruct (Nat.eqb_spec c d) as [->|Hcd].
        -- rewrite (sumn_ext n _ (fun i => if (nth i js 0%nat =? d)%nat then 1 else 0))
             by (intros i _; now rewrite andb_true_r).
           rewrite <- Hlen, sumn_count.
           rewrite (proj1 (Permutation_count_occ Nat.eq_dec js (seq 0 n)) Hperm d).
           rewrite (proj1 (NoDup_count_occ' Nat.eq_dec (seq 0 n)) (seq_NoDup n 0));
             [reflexivity|apply in_seq; lia].
        -- apply sumn_zero. intros i _. now rewrite andb_false_r.
      * intros i Hi.
        rewrite (get_transpose b n n) by assumption. rewrite !Hget.
        replace (i <? length js)%nat with true by (symmetry; apply Nat.ltb_lt; lia).
        cbn [andb].
        destruct (Nat.eqb_spec c (nth i js 0%nat)) as [->|Hci].
        -- rewrite Nat.eqb_refl. cbn [andb]. rewrite (Nat.eqb_sym d).
           destruct (nth i js 0 =? d)%nat; lra.
        -- replace (nth i js 0 =? c)%nat with false
             by (symmetry; apply Nat.eqb_neq; congruence).
           cbn [andb]. lra.
    + apply (matrix_ext _ _ n n); [eauto with shapes|apply shape_eye|].
      intros r s Hr Hs.
      rewrite (get_mmul b (transpose b) n n n) by assumption.
      rewrite get_eye by assumption.
      rewrite (sumn_ext n _
                 (fun k => (if (nth r js 0%nat =? k)%nat then 1 else 0)
                           * (if (k =? nth s js 0%nat)%nat then 1 else 0))).
      * rewrite sumn_delta
          by (rewrite Forall_forall in Hall; apply Hall, nth_In; lia).
        destruct (Nat.eqb_spec r s) as [->|Hrs].
        -- now rewrite Nat.eqb_refl.
        -- replace (nth r js 0 =? nth s js 0)%nat with false; [reflexivity|].
           symmetry. apply Nat.eqb_neq. intros E. apply Hrs.
           apply (proj1 (NoDup_nth js 0%nat) Hnd); [lia|lia|exact E].
      * intros k Hk.
        rewrite (get_transpose b n n) by assumption. rewrite !Hget.
        replace (r <? length js)%nat with true by (symmetry; apply Nat.ltb_lt; lia).
        replace (s <? length js)%nat with true by (symmetry; apply Nat.ltb_lt; lia).
        cbn [andb]. now rewrite (Nat.eqb_sym k (nth r js 0%nat)).
  - rewrite Hmv, Hlen, Nat.sub_diag. apply app_nil_r.
Qed.

Lemma basis_arr_permutation_witness :
  exists b,
    basis_arr (map Z.of_nat [1; 0]%nat) (Z.of_nat 2) = Ok b /\
    orthogonal 2 b /\
    matvec b [7; 8] = map (fun j => nth j [7; 8] 0) [1; 0]%nat.
Proof.
  apply (basis_arr_permutation [1; 0]%nat 2 [7; 8]).
  - lia.
  - apply perm_swap.
  - reflexivity.
Defined.

(** ** herm and is_hermitian *)

Lemma cshape_row (A : cmatrix) (m n i : nat) :
  cshape A m n -> (i < m)%nat -> length (nth i A []) = n.
Proof.
  intros [Hl Hf] Hi. rewrite Forall_forall in Hf. apply Hf, nth_In. lia.
Qed.

Lemma cmatrix_ext (A B : cmatrix) (m n : nat) :
  cshape A m n -> cshape B m n ->
  (forall i j, (i < m)%nat -> (j < n)%nat -> cget A i j = cget B i j) -> A = B.
Proof.
  intros HA HB H. apply (nth_ext _ _ [] []).
  - destruct HA, HB. congruence.
  - intros i Hi. rewrite (proj1 HA) in Hi.
    apply (nth_ext _ _ (0, 0) (0, 0)).
    + rewrite (cshape_row A m n), (cshape_row B m n); auto.
    + intros j Hj. rewrite (cshape_row A m n i HA Hi) in Hj. apply H; assumption.
Qed.

Lemma cshape_ncols (A : cmatrix) (m n : nat) :
  cshape A m n -> (0 < m)%nat -> length (hd [] A) = n.
Proof.
  intros [Hl Hf] Hm. destruct A as [|r A]; [simpl in Hl; lia|].
  inversion Hf; assumption.
Qed.

Lemma cshape_ctranspose (A : cmatrix) (m n : nat) :
  cshape A m n -> (0 < m)%nat -> cshape (ctranspose A) n m.
Proof.
  intros HA Hm. unfold ctranspose. rewrite (cshape_ncols A m n HA Hm). split.
  - now rewrite length_map, length_seq.
  - rewrite Forall_forall. intros r Hr. apply in_map_iff in Hr.
    destruct Hr as (j & <- & _). unfold ccol. rewrite length_map. apply HA.
Qed.

Lemma cget_ctranspose (A : cmatrix) (m n i j : nat) :
  cshape A m n -> (0 < m)%nat -> (i < n)%nat -> (j < m)%nat ->
  cget (ctranspose A) i j = cget A j i.
Proof.
  intros HA Hm Hi Hj. unfold cget at 1, ctranspose.
  rewrite (cshape_ncols A m n HA Hm).
  rewrite (nth_map_seq (fun j => ccol j A) n i []) by exact Hi.
  unfold ccol.
  rewrite (nth_indep _ (0, 0) ((fun r => nth i r (0, 0)) []))
    by (rewrite length_map, (proj1 HA); exact Hj).
  rewrite (map_nth (fun r => nth i r (0, 0)) A [] j). reflexivity.
Qed.

Lemma cshape_cconj (A : cmatrix) (m n : nat) : cshape A m n -> cshape (cconj A) m n.
Proof.
  intros [Hl Hf]. unfold cconj. split; [now rewrite length_map|].
  rewrite Forall_forall in *. intros r Hr. apply in_map_iff in Hr.
  destruct Hr as (r0 & <- & Hr0). rewrite length_map. auto.
Qed.

Lemma cget_cconj (A : cmatrix) (m n i j : nat) :
  cshape A m n -> (i < m)%nat -> (j < n)%nat ->
  cget (cconj A) i j = conjugate (cget A i j).
Proof.
  intros HA Hi Hj. unfold cget, cconj.
  rewrite (nth_indep _ [] (map conjugate [])) by (rewrite length_map, (proj1 HA); exact Hi).
  rewrite (map_nth (map conjugate) A [] i).
  rewrite (nth_indep _ (0, 0) (conjugate (0, 0)))
    by (rewrite length_map, (cshape_row A m n i HA Hi); exact Hj).
  apply map_nth.
Qed.

Lemma conj_involutive (z : complex) : conjugate (conjugate z) = z.
Proof. destruct z as [a b]. unfold conjugate. cbn [fst snd]. f_equal. lra. Qed.

Lemma herm_entries_aux (A : cmatrix) (m n : nat) :
  cshape A m n -> (0 < m)%nat ->
  cshape (herm A) n m /\
  forall i j, (i < n)%nat -> (j < m)%nat -> cget (herm A) i j = conjugate (cget A j i).
Proof.
  intros HA Hm.
  assert (HT : cshape (ctranspose A) n m) by (apply cshape_ctranspose; assumption).
  split; [apply cshape_cconj; exact HT|].
  intros i j Hi Hj. unfold herm.
  rewrite (cget_cconj _ n m) by assumption.
  now rewrite (cget_ctranspose A m n) by assumption.
Qed.

(** X17: [herm(A)] of an [m]-by-[n] complex array is the [n]-by-[m] array
    of the conjugates of the transposed entries, and [herm(herm(A))] is
    [A] again. *)
Theorem herm_involutive (A : cmatrix) (m n : nat) :
  cshape A m n -> (0 < m)%nat -> (0 < n)%nat ->
  cshape (herm A) n m /\
  (forall i j, (i < n)%nat -> (j < m)%nat -> cget (herm A) i j = conjugate (cget A j i)) /\
  herm (herm A) = A.
Proof.
  intros HA Hm Hn.
  destruct (herm_entries_aux A m n HA Hm) as [HH Hget].
  split; [exact HH|]. split; [exact Hget|].
  apply (cmatrix_ext _ _ m n); [|exact HA|].
  - apply cshape_cconj, cshape_ctranspose; assumption.
  - intros i j Hi Hj. unfold herm at 1.
    rewrite (cget_cconj _ m n); [|apply cshape_ctranspose; assumption|exact Hi|exact Hj].
    rewrite (cget_ctranspose (herm A) n m) by assumption.
    rewrite Hget by assumption. apply conj_involutive.
Qed.

Lemma herm_involutive_witness :
  cshape (herm [[(1, 2); (3, 4)]]) 2 1 /\
  (forall i j, (i < 2)%nat -> (j < 1)%nat ->
     cget (herm [[(1, 2); (3, 4)]]) i j = conjugate (cget [[(1, 2); (3, 4)]] j i)) /\
  herm (herm [[(1, 2); (3, 4)]]) = [[(1, 2); (3, 4)]].
Proof.
  apply (herm_involutive [[(1, 2); (3, 4)]] 1 2).
  - split; [reflexivity|repeat constructor].
  - lia.
  - lia.
Defined.

Lemma cabs_real (d e : R) : e = 0 -> cabs (d, e) = Rabs d.
Proof.
  intros ->. unfold cabs. cbn [fst snd].
  replace (d * d + 0 * 0) with (d²) by (unfold Rsqr; ring). apply sqrt_Rsqr_abs.
Qed.

Lemma cisclose_real (a b : R) : cisclose (a, 0) (conjugate (b, 0)) = isclose a b.
Proof.
  unfold cisclose, isclose, csub, conjugate. cbn [fst snd].
  rewrite !cabs_real by lra. reflexivity.
Qed.

Lemma callclose_real (A B : matrix) :
  callclose (of_real A) (cconj (of_real B)) = allclose A B.
Proof.
  unfold callclose, allclose, of_real, cconj.
  revert B. induction A as [|r A IH]; intros [|r' B]; try reflexivity.
  cbn [map combine forallb fst snd]. rewrite IH. f_equal.
  clear. revert r'. induction r as [|a r IH]; intros [|b r']; try reflexivity.
  cbn [map combine forallb fst snd]. rewrite IH, cisclose_real. reflexivity.
Qed.

Lemma ctranspose_of_real (A : matrix) : ctranspose (of_real A) = of_real (transpose A).
Proof.
  unfold ctranspose, transpose, of_real, ncols.
  replace (length (hd [] (map (map (fun x : R => (x, 0))) A))) with (length (hd [] A))
    by (destruct A; cbn; [reflexivity|now rewrite length_map]).
  rewrite map_map. apply map_ext. intros j.
  unfold ccol, col. rewrite !map_map. apply map_ext. intros r.
  change (0, 0) with ((fun x : R => (x, 0)) 0). apply map_nth.
Qed.

Lemma cisclose_refl (z : complex) : cisclose z z = true.
Proof.
  unfold cisclose, csub, atol, rtol. apply Rleb_true.
  rewrite !Rminus_diag. rewrite cabs_real by reflexivity. rewrite Rabs_R0.
  assert (0 <= cabs z) by apply sqrt_pos. lra.
Qed.

Lemma callclose_refl (A : cmatrix) : callclose A A = true.
Proof.
  unfold callclose. induction A as [|r A IH]; [reflexivity|].
  cbn [combine forallb fst snd]. rewrite IH, andb_true_r.
  induction r as [|z r IHr]; [reflexivity|].
  cbn [combine forallb fst snd]. now rewrite cisclose_refl, IHr.
Qed.

(** X18: on an array of real entries [is_hermitian] is [is_symmetric];
    an array that equals its conjugate transpose passes [is_hermitian], and
    its diagonal is real. *)
Theorem is_hermitian_spec (A : matrix) (H : cmatrix) (n : nat) :
  cshape H n n -> herm H = H ->
  is_hermitian (of_real A) = is_symmetric A /\
  is_hermitian H = true /\
  forall i, (i < n)%nat -> snd (cget H i i) = 0.
Proof.
  intros HH Hherm. split; [|split].
  - unfold is_hermitian, is_symmetric.
    rewrite ctranspose_of_real. apply callclose_real.
  - unfold is_hermitian. unfold herm in Hherm. rewrite Hherm. apply callclose_refl.
  - intros i Hi.
    assert (Hn : (0 < n)%nat) by lia.
    destruct (herm_entries_aux H n n HH Hn) as [_ Hget].
    specialize (Hget i i Hi Hi). rewrite Hherm in Hget.
    destruct (cget H i i) as [a b]. unfold conjugate in Hget. cbn [fst snd] in *.
    injection Hget as Hb. lra.
Qed.

Lemma is_hermitian_spec_witness :
  is_hermitian (of_real [[1; 2]; [2; 1]]) = is_symmetric [[1; 2]; [2; 1]] /\
  is_hermitian [[(1, 0); (2, 3)]; [(2, -3); (5, 0)]] = true /\
  forall i, (i < 2)%nat -> snd (cget [[(1, 0); (2, 3)]; [(2, -3); (5, 0)]] i i) = 0.
Proof.
  apply (is_hermitian_spec [[1; 2]; [2; 1]] [[(1, 0); (2, 3)]; [(2, -3); (5, 0)]] 2).
  - split; [reflexivity|repeat constructor].
  - unfold herm, cconj, ctranspose, ccol, conjugate. cbn.
    repeat (f_equal; try lra).
Defined.

(** ** rayleigh_quotient and power_iteration, further *)

Lemma isclose_0_1 : isclose 0 1 = false.
Proof.
  unfold isclose, atol, rtol. apply Rleb_false.
  assert (E : Rabs (0 - 1) = 1) by (unfold Rabs; destruct (Rcase_abs (0 - 1)); lra).
  rewrite E, Rabs_R1. lra.
Qed.

(** X19: at an eigenvector [x] of [A] for the eigenvalue [lam],
    [rayleigh_quotient] returns [lam], unless [x.T x] passes the test
    [np.isclose(x.T x, 1)], when it returns the undivided [lam * x.T x];
    at the zero vector it divides 0 by 0. *)
Theorem rayleigh_quotient_eigenpair (A : matrix) (n : nat) (lam : R) (x : vec) :
  shape A n n -> (0 < n)%nat -> length x = n -> x <> zeros n ->
  eigenpair A lam x ->
  rayleigh_quotient A x
  = Ok (if isclose (dot x x) 1 then lam * dot x x else lam) /\
  rayleigh_quotient A (zeros n) = Raise NotFinite.
Proof.
  intros HA Hn Hx Hnz Heig. split.
  - unfold rayleigh_quotient. cbv zeta. unfold eigenpair in Heig.
    rewrite (quadratic_form A n x HA Hn Hx), Heig, dot_scal_r.
    destruct (isclose (dot x x) 1); [reflexivity|].
    unfold fdiv. destruct (Req_dec_T (dot x x) 0) as [Hz|Hz].
    + exfalso. apply Hnz. rewrite <- Hx. apply dot_self_eq0. exact Hz.
    + f_equal. field. exact Hz.
  - unfold rayleigh_quotient. rewrite dot_zeros_self, isclose_0_1.
    unfold fdiv. destruct (Req_dec_T 0 0); [reflexivity|contradiction].
Qed.

Lemma rayleigh_quotient_eigenpair_witness :
  rayleigh_quotient diag21 [3; 0]
  = Ok (if isclose (dot [3; 0] [3; 0]) 1 then 2 * dot [3; 0] [3; 0] else 2) /\
  rayleigh_quotient diag21 (zeros 2) = Raise NotFinite.
Proof.
  apply (rayleigh_quotient_eigenpair diag21 2 2 [3; 0]).
  - exact shape_diag21.
  - lia.
  - reflexivity.
  - intros H. injection H as H1. lra.
  - unfold eigenpair, diag21. cbn. list_lra.
Defined.

Lemma l2_norm_div (x : vec) (c : R) :
  0 < c -> l2_norm (map (fun a => a / c) x) = l2_norm x / c.
Proof.
  intros Hc. unfold l2_norm. rewrite dot_div_l, dot_div_r.
  replace (dot x x / c / c) with (dot x x / (c * c)) by (field; lra).
  rewrite sqrt_div_alt by nra. rewrite sqrt_square by lra. reflexivity.
Qed.

Lemma normalized_div (x : vec) (c : R) :
  0 < c -> 0 < dot x x -> normalized (map (fun a => a / c) x) = normalized x.
Proof.
  intros Hc Hx. unfold normalized. rewrite l2_norm_div by exact Hc.
  rewrite map_map. apply map_ext. intros a.
  pose proof (l2_norm_pos x Hx). field. split; lra.
Qed.

Lemma length_iter_matvec (A : matrix) (N n : nat) (v : vec) :
  shape A N N -> length v = N -> length (Nat.iter n (matvec A) v) = N.
Proof.
  intros HA Hv. destruct n; [exact Hv|].
  rewrite Nat.iter_succ, length_matvec. apply HA.
Qed.

Section PowerClosedForm.

Variable A : matrix.
Variable N : nat.
Hypothesis A_shape : shape A N N.
Hypothesis A_symm : symmetric A.
Hypothesis N_pos : (0 < N)%nat.

(** Renormalising in every pass gives what one normalisation at the end
    gives. *)
Lemma iter_power_step (n : nat) (v : vec) :
  length v = N -> 0 < dot (matvec A v) (matvec A v) ->
  Nat.iter (S n) (power_step A) v = normalized (Nat.iter (S n) (matvec A) v) /\
  0 < dot (Nat.iter (S n) (matvec A) v) (Nat.iter (S n) (matvec A) v).
Proof.
  intros Hv Hpos. induction n as [|n [IHeq IHpos]].
  - split; [reflexivity|exact Hpos].
  - assert (Hnext : 0 < dot (Nat.iter (S (S n)) (matvec A) v)
                             (Nat.iter (S (S n)) (matvec A) v)).
    { change (Nat.iter (S (S n)) (matvec A) v)
        with (matvec A (matvec A (Nat.iter n (matvec A) v))).
      apply (symmetric_image_nonzero A N A_shape A_symm N_pos).
      - apply length_iter_matvec; assumption.
      - exact IHpos. }
    split; [|exact Hnext].
    change (Nat.iter (S (S n)) (power_step A) v)
      with (power_step A (Nat.iter (S n) (power_step A) v)).
    rewrite IHeq. set (u := Nat.iter (S n) (matvec A) v) in *.
    change (Nat.iter (S (S n)) (matvec A) v) with (matvec A u) in *.
    change (power_step A (normalized u)) with (normalized (matvec A (normalized u))).
    unfold normalized at 2. rewrite matvec_div.
    apply normalized_div; [apply l2_norm_pos; exact IHpos|exact Hnext].
Qed.

End PowerClosedForm.

Lemma iter_matvec_eigen (A : matrix) (lam : R) (x : vec) (n : nat) :
  eigenpair A lam x -> Nat.iter n (matvec A) x = scal (lam ^ n) x.
Proof.
  intros Heig. induction n as [|n IH].
  - cbn. unfold scal. rewrite <- (map_id x) at 1. apply map_ext. intros a. lra.
  - rewrite Nat.iter_succ, IH, matvec_scal, Heig.
    unfold scal. rewrite map_map. apply map_ext. intros a. cbn [pow]. ring.
Qed.

Lemma eigenpair_scal (A : matrix) (lam c : R) (x : vec) :
  eigenpair A lam x -> eigenpair A lam (scal c x).
Proof.
  unfold eigenpair. intros H. rewrite matvec_scal, H.
  unfold scal. rewrite !map_map. apply map_ext. intros a. ring.
Qed.

Lemma eigenpair_div (A : matrix) (lam c : R) (x : vec) :
  eigenpair A lam x -> eigenpair A lam (map (fun a => a / c) x).
Proof.
  unfold eigenpair. intros H. rewrite matvec_div, H.
  unfold scal. rewrite !map_map. apply map_ext. intros a. unfold Rdiv. ring.
Qed.

(** X20: on a symmetric [A] and a start vector [v0] with [A v0 <> 0],
    [power_iteration] with [max_iter = k >= 1] draws the [N] entries of
    [v0], calls no decomposition, and returns the vector
    [A^k v0 / |A^k v0|] with its Rayleigh quotient: renormalising in every
    pass changes nothing.  When [v0] is an eigenvector for [lam], what is
    returned is [lam] and a unit eigenvector for it. *)
Theorem power_iteration_closed_form (A : matrix) (N max_iter : nat) (w : world) :
  shape A N N -> symmetric A -> (1 <= max_iter)%nat ->
  matvec A (drawn N w) <> zeros N ->
  let v := normalized (Nat.iter max_iter (matvec A) (drawn N w)) in
  power_iteration A max_iter w
  = Ok ((dot v (matvec A v), v),
        {| gen := {| samples := samples (gen w); cursor := cursor (gen w) + N |};
           calls := calls w |}) /\
  dot v v = 1 /\
  forall lam, eigenpair A lam (drawn N w) ->
    dot v (matvec A v) = lam /\ eigenpair A lam v.
Proof.
  intros HA Hsym Hit Himg v.
  assert (HN : (0 < N)%nat).
  { destruct N; [|lia]. exfalso; apply Himg.
    destruct HA as [HA _]. destruct A; [reflexivity|discriminate]. }
  assert (Hv0 : length (drawn N w) = N)
    by (unfold drawn; rewrite length_map, length_seq; reflexivity).
  assert (Hpos : 0 < dot (matvec A (drawn N w)) (matvec A (drawn N w))).
  { apply dot_self_pos. rewrite length_matvec.
    destruct HA as [-> _]. exact Himg. }
  destruct (power_loop A N HA Hsym HN max_iter 0 (drawn N w) Hv0 Hpos)
    as (Hrun & Hlen & Hone).
  specialize (Hone Hit).
  destruct max_iter as [|k]; [lia|].
  destruct (iter_power_step A N HA Hsym HN k (drawn N w) Hv0 Hpos) as [Heq Hpk].
  rewrite Heq in Hrun, Hlen, Hone. fold v in Hrun, Hlen, Hone.
  split; [|split].
  - unfold power_iteration, mbind, lift, ret, randn, for_range.
    rewrite (symmetric_is_symmetric A Hsym). cbn [assert].
    unfold nrows. destruct HA as [HAl HAr]. rewrite HAl.
    fold (drawn N w). cbv zeta in Hrun. rewrite Hrun.
    rewrite (rayleigh_quotient_unit A v Hone).
    rewrite (quadratic_form A N v (conj HAl HAr) HN Hlen). reflexivity.
  - exact Hone.
  - intros lam Heig.
    assert (Hev : eigenpair A lam v).
    { unfold v, normalized. apply eigenpair_div.
      rewrite (iter_matvec_eigen A lam _ (S k) Heig). apply eigenpair_scal. exact Heig. }
    split; [|exact Hev].
    rewrite Hev, dot_scal_r, Hone. lra.
Qed.

Lemma power_iteration_closed_form_witness :
  let v := normalized (Nat.iter 1 (matvec diag21) (drawn 2 ones_world)) in
  power_iteration diag21 1 ones_world
  = Ok ((dot v (matvec diag21 v), v),
        {| gen := {| samples := samples (gen ones_world);
                     cursor := cursor (gen ones_world) + 2 |};
           calls := calls ones_world |}) /\
  dot v v = 1 /\
  forall lam, eigenpair diag21 lam (drawn 2 ones_world) ->
    dot v (matvec diag21 v) = lam /\ eigenpair diag21 lam v.
Proof.
  apply (power_iteration_closed_form diag21 2 1 ones_world).
  - exact shape_diag21.
  - exact symmetric_diag21.
  - lia.
  - simpl. intros H. injection H as H1 H2. lra.
Defined.

(** ** hessenberg with calc_q: the product of the reflections *)

Lemma shape_reflections (M i0 : nat) (vs : list vec) :
  (0 < M)%nat -> shape (reflections M i0 vs) M M.
Proof.
  intros HM. revert i0. induction vs as [|v vs IH]; intros i0; cbn [reflections].
  - apply shape_eye.
  - apply (shape_mmul _ _ M M M); [apply shape_householder|apply IH|exact HM].
Qed.

Lemma orthogonal_reflections (M i0 : nat) (vs : list vec) :
  (0 < M)%nat -> reflectors M i0 vs -> orthogonal M (reflections M i0 vs).
Proof.
  intros HM. revert i0. induction vs as [|v vs IH]; intros i0 Hvs; cbn [reflections].
  - apply orthogonal_eye. exact HM.
  - destruct Hvs as (Hlen & Hnz & Hrest).
    apply orthogonal_mmul; [exact HM| |apply IH; exact Hrest].
    apply householder_orthogonal; assumption.
Qed.

Section HessenbergConjugation.

Variable sign : R -> R.
Hypothesis sign_unit : forall x, sign x * sign x = 1.
Variable M : nat.
Variable is_symm : bool.

(** A pass that meets no zero vector replaces the working copy [A] by
    [P A P], [P] the reflection along its vector. *)
Lemma hessenberg_step_conjugation (i : nat) (A : matrix) (vs : list vec) :
  shape A M M -> (i + 3 <= M)%nat -> hessenberg_upto i A ->
  (is_symm = true -> symmetric A) ->
  let v := reflection_vector sign A i in
  dot v v <> 0 ->
  (i + 1 + length v)%nat = M /\
  hessenberg_step sign is_symm M i (A, vs)
  = Ok (mmul (mmul (householder M (i + 1) v) A) (householder M (i + 1) v), vs ++ [v]).
Proof.
  intros HA Hi Hup Hsym.
  assert (HM : (0 < M)%nat) by lia.
  unfold hessenberg_step, reflection_vector. cbn [fst snd]. cbv zeta.
  set (a := col_from A (i + 1) i).
  assert (Ha : length a = S (M - i - 2))
    by (unfold a; rewrite length_col_from; destruct HA; lia).
  replace (basis_vec_flat 0 (length a)) with (Ok (set_nth 0 1 (zeros (length a))))
    by (rewrite Ha; reflexivity).
  cbn [bind].
  set (v := vadd a (scal (sign (nth 0 a 0) * l2_norm a) (set_nth 0 1 (zeros (length a))))).
  destruct (householder_vector a (sign (nth 0 a 0)) (M - i - 2) Ha (sign_unit _))
    as (Hvl & Hva & Hvk).
  fold v in Hvl, Hva, Hvk.
  assert (v_length : (i + 1 + length v)%nat = M) by lia.
  intros Hnz. split; [exact v_length|].
  set (P := householder M (i + 1) v).
  assert (HP : shape P M M) by apply shape_householder.
  destruct (left_loop M (i + 1) v v_length Hnz (M - i) i A HA) as (A1 & Hrun1 & HA1 & Hget1);
    [lia|].
  set (lo := if is_symm then i else 0%nat).
  destruct (right_loop M (i + 1) v v_length Hnz (M - lo) lo A1 HA1)
    as (A2 & Hrun2 & HA2 & Hget2); [unfold lo; destruct is_symm; lia|].
  rewrite Hrun1. cbn [bind]. rewrite Hrun2. cbn [bind].
  fold P in Hget1, Hget2.
  assert (Hcol0 : forall c, (c < i)%nat ->
            sumn M (fun t => embed (i + 1) v t * get A t c) = 0).
  { intros c Hc. apply sumn_zero. intros t Ht.
    destruct (Nat.lt_ge_cases t (i + 1)) as [Hlt|Hge].
    - rewrite embed_low by exact Hlt. lra.
    - rewrite (Hup t c) by lia. lra. }
  assert (E1 : A1 = mmul P A).
  { apply (matrix_ext _ _ M M); eauto with shapes.
    intros r c Hr Hc. rewrite (Hget1 r c Hr Hc).
    destruct (Nat.leb_spec i c) as [Hic|Hic].
    - replace (c <? i + (M - i))%nat with true by (symmetry; apply Nat.ltb_lt; lia).
      reflexivity.
    - cbn [andb]. unfold P.
      rewrite (get_householder_l M (i + 1) v v_length Hnz A r c HA Hr Hc).
      rewrite Hcol0 by exact Hic. lra. }
  assert (E2 : A2 = mmul A1 P).
  { apply (matrix_ext _ _ M M); eauto with shapes.
    intros r c Hr Hc. rewrite (Hget2 r c Hr Hc).
    destruct (Nat.leb_spec lo r) as [Hlr|Hlr].
    - replace (r <? lo + (M - lo))%nat with true
        by (symmetry; apply Nat.ltb_lt; unfold lo; destruct is_symm; lia).
      reflexivity.
    - cbn [andb]. unfold P.
      rewrite (get_householder_r M (i + 1) v v_length Hnz A1 r c HA1 Hr Hc).
      assert (Hs : is_symm = true)
        by (unfold lo in Hlr; destruct is_symm; [reflexivity|lia]).
      assert (Hri : (r < i)%nat) by (unfold lo in Hlr; rewrite Hs in Hlr; exact Hlr).
      rewrite sumn_zero; [lra|].
      intros t Ht.
      destruct (Nat.lt_ge_cases t (i + 1)) as [Hlt|Hge].
      + rewrite embed_low by exact Hlt. lra.
      + rewrite E1. unfold P.
        rewrite (get_householder_l M (i + 1) v v_length Hnz A r t HA Hr Ht).
        rewrite (embed_low (i + 1) v r) by lia.
        rewrite (symmetric_get A M r t HA HM (Hsym Hs)).
        rewrite (Hup t r) by lia. lra. }
  rewrite E2, E1. reflexivity.
Qed.

(** The passes [i0 .. i0+n-1], when they return: the working copy has
    become [Q.T A Q] for the product [Q] of their reflections. *)
Lemma hessenberg_loop_conjugation (n i0 : nat) (A A' : matrix) (vs vs' : list vec) :
  (i0 + n + 2 = M)%nat -> shape A M M -> hessenberg_upto i0 A ->
  (is_symm = true -> symmetric A) ->
  for_loop (seq i0 n) (hessenberg_step sign is_symm M) (A, vs) = Ok (A', vs') ->
  exists ws,
    vs' = vs ++ ws /\ length ws = n /\ reflectors M i0 ws /\
    A' = mmul (mmul (transpose (reflections M i0 ws)) A) (reflections M i0 ws).
Proof.
  revert i0 A vs. induction n as [|n IH]; intros i0 A vs Hn HA Hup Hsym Hrun.
  - cbn in Hrun. injection Hrun as <- <-.
    assert (HM : (0 < M)%nat) by lia.
    exists []. rewrite app_nil_r. cbn [reflections reflectors length].
    split; [reflexivity|]. split; [reflexivity|]. split; [exact I|].
    rewrite transpose_eye by exact HM.
    rewrite (mmul_eye_l A M M HA HM), (mmul_eye_r A M M HA HM). reflexivity.
  - assert (HM : (0 < M)%nat) by lia.
    cbn [seq for_loop] in Hrun.
    destruct (hessenberg_step_spec sign sign_unit M is_symm i0 A vs HA) as
      [[_ Hfail]|(Hnz & A1 & Hstep & HA1 & Hup1 & Hcond)]; try assumption; [lia| |].
    { rewrite Hfail in Hrun. discriminate. }
    destruct (Hcond Hsym) as [_ Hsym1].
    destruct (hessenberg_step_conjugation i0 A vs HA) as (Hlen & Hstep'); try assumption;
      [lia|].
    set (v := reflection_vector sign A i0) in *.
    set (P := householder M (i0 + 1) v) in *.
    assert (E1 : A1 = mmul (mmul P A) P) by congruence.
    rewrite Hstep in Hrun. cbn [bind] in Hrun.
    destruct (IH (S i0) A1 (vs ++ [v])) as (ws & Hvs & Hws & Hrefl & EA');
      try assumption; [lia|].
    exists (v :: ws). split; [rewrite Hvs, <- app_assoc; reflexivity|].
    split; [cbn; lia|]. split; [cbn [reflectors]; auto|].
    cbn [reflections]. fold P.
    set (R' := reflections M (S i0) ws) in *.
    assert (HP : shape P M M) by apply shape_householder.
    assert (HR : shape R' M M) by (apply shape_reflections; exact HM).
    assert (HRT : shape (transpose R') M M) by (apply shape_transpose; assumption).
    assert (HPsym : transpose P = P) by (apply householder_symmetric; assumption).
    rewrite (transpose_mmul P R' M M M) by assumption. rewrite HPsym.
    rewrite EA', E1.
    (* R'.T ((P A) P) R' = ((R'.T P) A) (P R') *)
    assert (HPA : shape (mmul P A) M M) by eauto with shapes.
    rewrite (mmul_assoc (transpose R') P A M M M M) by assumption.
    rewrite <- (mmul_assoc (transpose R') (mmul P A) P M M M M) by assumption.
    rewrite (mmul_assoc (mmul (transpose R') (mmul P A)) P R' M M M M);
      eauto with shapes.
Qed.

End HessenbergConjugation.

Lemma for_loop_ext {S : Type} (l : list nat) (f g : nat -> S -> result S) (s : S) :
  (forall j s, In j l -> f j s = g j s) -> for_loop l f s = for_loop l g s.
Proof.
  revert s. induction l as [|j l IH]; intros s H; [reflexivity|].
  cbn [for_loop]. rewrite (H j s) by (left; reflexivity).
  destruct (g j s) as [s'|e]; [|reflexivity]. cbn [bind].
  apply IH. intros j' s0 Hj'. apply H. right. exact Hj'.
Qed.

Lemma for_loop_skip {S : Type} (l : list nat) (s : S) :
  for_loop l (fun _ s => Ok s) s = Ok s.
Proof. induction l as [|j l IH]; [reflexivity|exact IH]. Qed.

Section AccumulateQ.

Variable M : nat.

(** The inner loop of the accumulation on column [i]: the column is
    multiplied by the product of the reflections. *)
Lemma q_column_loop (vs : list vec) :
  forall (i0 : nat) (Q : matrix) (i : nat),
  reflectors M i0 vs -> (i0 + length vs + 2 = M)%nat -> shape Q M M -> (i < M)%nat ->
  exists Q',
    for_loop (seq 0 (length vs))
      (fun j Q =>
         let v := nth j (rev vs) [] in
         w <- reflect_col v (col_from Q (M - j - 2) i) ;;
         Ok (set_col_from Q (M - j - 2) i w)) Q = Ok Q' /\
    shape Q' M M /\
    forall r c, (r < M)%nat -> (c < M)%nat ->
      get Q' r c = if (c =? i)%nat then get (mmul (reflections M i0 vs) Q) r c
                   else get Q r c.
Proof.
  induction vs as [|v vs IH]; intros i0 Q i Hvs Hlen HQ Hi.
  - assert (HM : (0 < M)%nat) by lia.
    exists Q. split; [reflexivity|]. split; [exact HQ|].
    intros r c Hr Hc. cbn [reflections]. rewrite (mmul_eye_l Q M M HQ HM).
    destruct (c =? i)%nat; reflexivity.
  - assert (HM : (0 < M)%nat) by lia.
    destruct Hvs as (Hv & Hnz & Hrest). cbn [length] in *.
    rewrite seq_S, for_loop_app. cbn [Nat.add].
    rewrite (for_loop_ext (seq 0 (length vs)) _
               (fun j Q =>
                  w <- reflect_col (nth j (rev vs) []) (col_from Q (M - j - 2) i) ;;
                  Ok (set_col_from Q (M - j - 2) i w))).
    2:{ intros j s Hj. apply in_seq in Hj. cbv zeta. cbn [rev].
        rewrite app_nth1 by (rewrite length_rev; lia). reflexivity. }
    destruct (IH (S i0) Q i Hrest) as (Q1 & Hrun1 & HQ1 & Hget1); [lia|exact HQ|exact Hi|].
    rewrite Hrun1. cbn [bind for_loop]. cbv zeta. cbn [rev].
    rewrite app_nth2 by (rewrite length_rev; lia).
    rewrite length_rev, Nat.sub_diag. cbn [nth].
    replace (M - length vs - 2)%nat with (i0 + 1)%nat by lia.
    destruct (left_update M (i0 + 1) v Hv Hnz Q1 i HQ1 Hi) as (Q' & Hrun' & HQ' & Hget').
    rewrite Hrun'. cbn [bind].
    exists Q'. split; [reflexivity|]. split; [exact HQ'|].
    intros r c Hr Hc. rewrite (Hget' r c Hr Hc).
    destruct (Nat.eqb_spec c i) as [->|Hci].
    + cbn [reflections].
      set (P := householder M (i0 + 1) v). set (R' := reflections M (S i0) vs).
      assert (HP : shape P M M) by apply shape_householder.
      assert (HR : shape R' M M) by (apply shape_reflections; exact HM).
      rewrite (mmul_assoc P R' Q M M M M) by assumption.
      rewrite (get_mmul P Q1 M M M) by assumption.
      rewrite (get_mmul P (mmul R' Q) M M M); eauto with shapes.
      apply sumn_ext. intros k Hk. rewrite (Hget1 k i Hk Hi), Nat.eqb_refl.
      reflexivity.
    + rewrite (Hget1 r c Hr Hc).
      replace (c =? i)%nat with false by (symmetry; apply Nat.eqb_neq; exact Hci).
      reflexivity.
Qed.

(** The outer loop: column after column. *)
Lemma q_columns_loop (vs : list vec) (i0 : nat) :
  reflectors M i0 vs -> (i0 + length vs + 2 = M)%nat ->
  forall (n k0 : nat) (Q : matrix),
  (k0 + n <= M)%nat -> shape Q M M ->
  exists Q',
    for_loop (seq k0 n)
      (fun i Q =>
         for_loop (seq 0 (length vs))
           (fun j Q =>
              let v := nth j (rev vs) [] in
              w <- reflect_col v (col_from Q (M - j - 2) i) ;;
              Ok (set_col_from Q (M - j - 2) i w)) Q) Q = Ok Q' /\
    shape Q' M M /\
    forall r c, (r < M)%nat -> (c < M)%nat ->
      get Q' r c = if ((k0 <=? c) && (c <? k0 + n))%nat
                   then get (mmul (reflections M i0 vs) Q) r c else get Q r c.
Proof.
  intros Hvs Hlen. assert (HM : (0 < M)%nat) by lia.
  induction n as [|n IH]; intros k0 Q Hk HQ.
  - exists Q. split; [reflexivity|]. split; [exact HQ|].
    intros r c Hr Hc.
    destruct (Nat.leb_spec k0 c); destruct (Nat.ltb_spec c (k0 + 0)); cbn [andb];
      try reflexivity; lia.
  - cbn [seq for_loop].
    destruct (q_column_loop vs i0 Q k0 Hvs Hlen HQ) as (Q1 & Hrun1 & HQ1 & Hget1); [lia|].
    cbv zeta in Hrun1 |- *. rewrite Hrun1. cbn [bind].
    destruct (IH (S k0) Q1) as (Q' & Hrun' & HQ' & Hget'); [lia|exact HQ1|].
    exists Q'. split; [exact Hrun'|]. split; [exact HQ'|].
    intros r c Hr Hc. rewrite (Hget' r c Hr Hc).
    set (R := reflections M i0 vs) in *.
    assert (HR : shape R M M) by (apply shape_reflections; exact HM).
    destruct (Nat.eqb_spec c k0) as [->|Hck].
    + replace (S k0 <=? k0)%nat with false by (symmetry; apply Nat.leb_gt; lia).
      replace (k0 <=? k0)%nat with true by (symmetry; apply Nat.leb_le; lia).
      replace (k0 <? k0 + S n)%nat with true by (symmetry; apply Nat.ltb_lt; lia).
      cbn [andb]. rewrite (Hget1 r k0 Hr Hc), Nat.eqb_refl. reflexivity.
    + replace (c <? S k0 + n)%nat with (c <? k0 + S n)%nat by (f_equal; lia).
      destruct (Nat.leb_spec (S k0) c); destruct (Nat.leb_spec k0 c);
        cbn [andb]; try lia.
      * destruct (c <? k0 + S n)%nat.
        -- rewrite (get_mmul R Q1 M M M), (get_mmul R Q M M M) by assumption.
           apply sumn_ext. intros t Ht. rewrite (Hget1 t c Ht Hc).
           replace (c =? k0)%nat with false by (symmetry; apply Nat.eqb_neq; exact Hck).
           reflexivity.
        -- rewrite (Hget1 r c Hr Hc).
           replace (c =? k0)%nat with false by (symmetry; apply Nat.eqb_neq; exact Hck).
           reflexivity.
      * rewrite (Hget1 r c Hr Hc).
        replace (c =? k0)%nat with false by (symmetry; apply Nat.eqb_neq; exact Hck).
        reflexivity.
Qed.

(** [Q] is the product of the reflections of the passes. *)
Lemma hessenberg_q_product (vs : list vec) :
  reflectors M 0 vs -> (length vs + 2 = M)%nat ->
  hessenberg_q M vs = Ok (reflections M 0 vs).
Proof.
  intros Hvs Hlen. assert (HM : (0 < M)%nat) by lia.
  unfold hessenberg_q, for_range.
  destruct (q_columns_loop vs 0 Hvs Hlen M 0 (eye M)) as (Q' & Hrun & HQ' & Hget);
    [lia|apply shape_eye|].
  cbv zeta in Hrun |- *. rewrite Hrun. f_equal.
  apply (matrix_ext _ _ M M); [exact HQ'|apply shape_reflections; exact HM|].
  intros r c Hr Hc. rewrite (Hget r c Hr Hc).
  replace (c <? 0 + M)%nat with true by (symmetry; apply Nat.ltb_lt; lia).
  cbn [Nat.leb andb].
  rewrite (mmul_eye_r (reflections M 0 vs) M M); [reflexivity| |exact HM].
  apply shape_reflections; exact HM.
Qed.

End AccumulateQ.

Lemma orthogonal_nil : orthogonal 0 [].
Proof. repeat split; constructor. Qed.

(** X21: for a square array of floats [A], in exact arithmetic, that is
    exactly symmetric, or that fails the test of [is_symmetric], and a
    [sign] with values 1 and -1:
    [hessenberg(A, calc_q=True)] divides by zero exactly when
    [hessenberg(A)] does; otherwise it returns the matrix [H] that
    [hessenberg(A)] returns together with an orthogonal [Q], the product of
    the Householder reflections, for which [H = Q.T A Q]. *)
Theorem hessenberg_calc_q (sign : R -> R) (A : matrix) (M : nat) :
  (forall x, sign x * sign x = 1) ->
  shape A M M ->
  symmetric A \/ is_symmetric A = false ->
  (hessenberg sign A true = Raise NotFinite /\
   hessenberg sign A false = Raise NotFinite) \/
  exists H Q,
    hessenberg sign A true = Ok (HessAQ H Q) /\
    hessenberg sign A false = Ok (HessA H) /\
    orthogonal M Q /\
    H = mmul (mmul (transpose Q) A) Q /\
    upper_hessenberg H.
Proof.
  intros Hsign HA Hmode.
  assert (Hsym : is_symmetric A = true -> symmetric A).
  { intros Ht. destruct Hmode as [Hs|Hf]; [exact Hs|congruence]. }
  unfold hessenberg. rewrite (is_square_shape A M HA). cbn [assert bind].
  unfold for_range, nrows. rewrite (proj1 HA).
  destruct (Nat.le_gt_cases M 2) as [Hsmall|Hbig].
  - right. replace (M - 2)%nat with 0%nat by lia. cbn [seq for_loop bind fst snd].
    unfold hessenberg_q, for_range. cbn [length seq for_loop]. rewrite for_loop_skip.
    cbn [bind]. exists A, (eye M).
    split; [reflexivity|]. split; [reflexivity|].
    assert (Hup : upper_hessenberg A).
    { intros r c Hrc. apply (get_outside A M M r c HA). left; lia. }
    destruct M as [|M'].
    + destruct HA as [Hl _]. destruct A; [|discriminate].
      split; [exact orthogonal_nil|]. split; [reflexivity|exact Hup].
    + split; [apply orthogonal_eye; lia|]. split; [|exact Hup].
      rewrite transpose_eye by lia.
      rewrite (mmul_eye_l A (S M') (S M') HA), (mmul_eye_r A (S M') (S M') HA) by lia.
      reflexivity.
  - destruct (hessenberg_loop sign Hsign M (is_symmetric A) (M - 2) 0 A [])
      as [Hfail|(H & vs & Hrun & HH & Hup & _)]; try assumption.
    + lia.
    + intros r c Hc _. lia.
    + left. rewrite Hfail. split; reflexivity.
    + right. rewrite Hrun. cbn [bind fst snd].
      destruct (hessenberg_loop_conjugation sign Hsign M (is_symmetric A)
                  (M - 2) 0 A H [] vs) as (ws & Hvs & Hlen & Hrefl & EH);
        try assumption; [lia|intros r c Hc _; lia|].
      cbn [app] in Hvs. subst vs.
      rewrite (hessenberg_q_product M ws Hrefl) by lia. cbn [bind].
      exists H, (reflections M 0 ws).
      split; [reflexivity|]. split; [reflexivity|].
      split; [apply orthogonal_reflections; [lia|exact Hrefl]|].
      split; [exact EH|].
      apply (upper_hessenberg_of_upto H M HH); exact Hup.
Qed.

Lemma hessenberg_calc_q_witness :
  (hessenberg utils_sign arrow345 true = Raise NotFinite /\
   hessenberg utils_sign arrow345 false = Raise NotFinite) \/
  exists H Q,
    hessenberg utils_sign arrow345 true = Ok (HessAQ H Q) /\
    hessenberg utils_sign arrow345 false = Ok (HessA H) /\
    orthogonal 3 Q /\
    H = mmul (mmul (transpose Q) arrow345) Q /\
    upper_hessenberg H.
Proof.
  apply (hessenberg_calc_q utils_sign arrow345 3).
  - exact utils_sign_unit.
  - split; [reflexivity|repeat constructor].
  - left. reflexivity.
Defined.

(** ** The guards of the eigenvalue routines *)

Lemma isclose_1_0 : isclose 1 0 = false.
Proof.
  unfold isclose, atol, rtol. apply Rleb_false.
  rewrite Rminus_0_r, Rabs_R0, Rabs_R1. lra.
Qed.

Lemma is_symmetric_shear01 : is_symmetric shear01 = false.
Proof.
  unfold is_symmetric, allclose, shear01.
  cbn [transpose ncols hd length seq map col nth combine forallb fst snd].
  rewrite isclose_1_0, !isclose_refl. reflexivity.
Qed.

Lemma mbind_raise {A B : Type} (m : py A) (k : A -> py B) (w : world) (e : exn) :
  m w = Raise e -> mbind m k w = Raise e.
Proof. intros H. unfold mbind. now rewrite H. Qed.

Lemma mbind_run {A B : Type} (m : py A) (k : A -> py B) (w w1 : world) (a : A) :
  m w = Ok (a, w1) -> mbind m k w = k a w1.
Proof. intros H. unfold mbind. now rewrite H. Qed.

(** X22: on a square matrix that fails the test of [is_symmetric], each
    of [power_iteration], [inverse_iteration],
    [rayleigh_quotient_iteration], [projected_iteration], [qr_algorithm]
    and [eig] ends with the assertion error on symmetry, whatever its
    other arguments and the helpers are; on a square matrix that passes
    it, [projected_iteration] with [k] outside [1 .. N] ends with the
    assertion error that names [N]. *)
Theorem routine_guards
    (sign : R -> R)
    (projection : vec -> vec -> result vec) (normalize : vec -> result vec)
    (LU_decompose : matrix -> string -> result (list matrix))
    (solve : solve_arg -> vec -> result vec)
    (QR_decompose : matrix -> result (matrix * matrix))
    (A B : matrix) (M N : nat) (k k' : Z) (max_iter : nat) (mu : R)
    (hess sort : bool) (w : world) :
  shape A M M -> is_symmetric A = false ->
  shape B N N -> is_symmetric B = true -> (k' <= 0 \/ Z.of_nat N < k')%Z ->
  power_iteration A max_iter w
  = Raise (AssertionError "[!] Matrix must be symmetric.") /\
  inverse_iteration LU_decompose solve A max_iter w
  = Raise (AssertionError "[!] Matrix must be symmetric.") /\
  rayleigh_quotient_iteration solve A mu max_iter w
  = Raise (AssertionError "[!] Matrix must be symmetric.") /\
  projected_iteration projection normalize A k max_iter sort w
  = Raise (AssertionError "[!] Matrix must be symmetric.") /\
  qr_algorithm sign solve QR_decompose A hess sort w
  = Raise (AssertionError "[!] Matrix must be symmetric.") /\
  eig sign solve QR_decompose A sort w
  = Raise (AssertionError "[!] Matrix must be symmetric.") /\
  projected_iteration projection normalize B k' max_iter sort w
  = Raise (AssertionError
             ("[!] k must be between 1 and "
                ++ NilZero.string_of_uint (Nat.to_uint N) ++ ".")).
Proof.
  intros _ HA HBs HB Hk.
  assert (Hguard : forall w0,
            lift (assert (is_symmetric A) "[!] Matrix must be symmetric.") w0
            = Raise (AssertionError "[!] Matrix must be symmetric."))
    by (intros w0; rewrite HA; reflexivity).
  conj_split.
  - unfold power_iteration. apply mbind_raise, Hguard.
  - unfold inverse_iteration. apply mbind_raise, Hguard.
  - unfold rayleigh_quotient_iteration. apply mbind_raise, Hguard.
  - unfold projected_iteration. apply mbind_raise, Hguard.
  - unfold qr_algorithm. apply mbind_raise, Hguard.
  - unfold eig. apply mbind_raise. unfold qr_algorithm. apply mbind_raise, Hguard.
  - unfold projected_iteration.
    rewrite (mbind_run _ _ w w tt) by (rewrite HB; reflexivity).
    apply mbind_raise. unfold nrows. rewrite (proj1 HBs).
    replace ((0 <? k')%Z && (k' <=? Z.of_nat N)%Z) with false; [reflexivity|].
    symmetry. apply andb_false_iff.
    destruct Hk as [Hk|Hk]; [left; apply Z.ltb_ge|right; apply Z.leb_gt]; lia.
Qed.

Lemma routine_guards_witness :
  power_iteration shear01 3 e1_world
  = Raise (AssertionError "[!] Matrix must be symmetric.") /\
  inverse_iteration lu_identity solve_identity shear01 3 e1_world
  = Raise (AssertionError "[!] Matrix must be symmetric.") /\
  rayleigh_quotient_iteration solve_identity shear01 0 3 e1_world
  = Raise (AssertionError "[!] Matrix must be symmetric.") /\
  projected_iteration utils_projection utils_normalize shear01 1 3 true e1_world
  = Raise (AssertionError "[!] Matrix must be symmetric.") /\
  qr_algorithm utils_sign solve_identity qr_identity shear01 true true e1_world
  = Raise (AssertionError "[!] Matrix must be symmetric.") /\
  eig utils_sign solve_identity qr_identity shear01 true e1_world
  = Raise (AssertionError "[!] Matrix must be symmetric.") /\
  projected_iteration utils_projection utils_normalize diag21 3 3 true e1_world
  = Raise (AssertionError
             ("[!] k must be between 1 and "
                ++ NilZero.string_of_uint (Nat.to_uint 2) ++ ".")).
Proof.
  apply (routine_guards utils_sign utils_projection utils_normalize lu_identity
           solve_identity qr_identity shear01 diag21 2 2 1 3 3 0 true true e1_world).
  - split; [reflexivity|repeat constructor].
  - exact is_symmetric_shear01.
  - exact shape_diag21.
  - exact is_symmetric_diag21.
  - right. simpl. lia.
Defined.

(** ** rayleigh_quotient_iteration *)

Lemma vdiv_unit (x v : vec) :
  vdiv x (l2_norm x) = Ok v -> v <> [] -> dot v v = 1.
Proof.
  intros Hdiv Hne. unfold vdiv in Hdiv.
  destruct x as [|a x']; [injection Hdiv as <-; contradiction|].
  destruct (Req_dec_T (l2_norm (a :: x')) 0) as [Hz|Hnz]; [discriminate|].
  injection Hdiv as <-. apply (dot_normalized (a :: x')).
  pose proof (dot_self_nonneg (a :: x')) as Hge.
  destruct Hge as [Hpos|Hzero]; [exact Hpos|].
  exfalso. apply Hnz. unfold l2_norm. rewrite <- Hzero. apply sqrt_0.
Qed.

Lemma rayleigh_quotient_nil (A : matrix) (e : R) : rayleigh_quotient A [] <> Ok e.
Proof.
  unfold rayleigh_quotient. cbn [dot]. rewrite isclose_0_1. unfold fdiv.
  destruct (Req_dec_T 0 0); [discriminate|contradiction].
Qed.

Section RayleighQuotientIteration.

Variable solve : solve_arg -> vec -> result vec.
Variable A : matrix.

Lemma rqi_loop (n i0 : nat) (st st' : R * vec) (w w' : world) :
  mfor_loop (seq i0 n)
    (fun _ st =>
       v <~ call_solve solve (Mat (msub A (mscal (fst st) (eye (nrows A))))) (snd st) ;;
       v <~ lift (vdiv v (l2_norm v)) ;;
       mu <~ lift (rayleigh_quotient A v) ;;
       ret (Continue (mu, v))) st w = Ok (st', w') ->
  exists cs,
    length cs = n /\
    calls w' = calls w ++ cs /\
    rqi_chain solve A st cs st' /\
    ((1 <= n)%nat ->
     dot (snd st') (snd st') = 1 /\ fst st' = dot (vecmat (snd st') A) (snd st')).
Proof.
  revert i0 st w; induction n as [|n IH]; intros i0 st w H.
  - cbn in H. injection H as -> ->. exists []. simpl.
    rewrite app_nil_r. repeat split; [constructor|lia|lia].
  - cbn [seq mfor_loop] in H. unfold call_solve in H.
    apply mbind_ok in H. destruct H as (c & w1 & Hbody & Hrest).
    apply mbind_ok in Hbody. destruct Hbody as (x & w2 & Hsolve & Hbody).
    apply mbind_ok in Hsolve. destruct Hsolve as (u & w3 & Hrec & Hsolve).
    apply record_ok in Hrec. destruct Hrec as [_ Hcalls3].
    apply lift_ok in Hsolve. destruct Hsolve as [Hsolve ->].
    apply mbind_ok in Hbody. destruct Hbody as (v' & w4 & Hdiv & Hbody).
    apply lift_ok in Hdiv. destruct Hdiv as [Hdiv ->].
    apply mbind_ok in Hbody. destruct Hbody as (mu' & w5 & Hrq & Hbody).
    apply lift_ok in Hrq. destruct Hrq as [Hrq ->].
    apply ret_ok in Hbody. destruct Hbody as [-> ->].
    apply IH in Hrest. destruct Hrest as (cs & Hlen & Hcalls & Hchain & Hunit).
    destruct st as [mu v]. cbn [fst snd] in *.
    exists (CallSolve (Mat (msub A (mscal mu (eye (nrows A))))) v :: cs).
    split; [cbn; lia|]. split.
    + rewrite Hcalls, Hcalls3, <- app_assoc. reflexivity.
    + split; [econstructor; eassumption|].
      intros _. destruct n as [|n].
      * destruct cs as [|c0 cs]; [|simpl in Hlen; lia].
        inversion Hchain; subst. cbn [fst snd].
        assert (Hne : v' <> []).
        { intros ->. exact (rayleigh_quotient_nil A mu' Hrq). }
        pose proof (vdiv_unit x v' Hdiv Hne) as Hone.
        split; [exact Hone|].
        rewrite (rayleigh_quotient_unit A v' Hone) in Hrq. congruence.
      * apply Hunit. lia.
Qed.

End RayleighQuotientIteration.

(** X23: a run of [rayleigh_quotient_iteration(A, mu, max_iter)] that
    returns has passed the test of [is_symmetric], asked for no
    factorization, and called [solve] exactly [max_iter] times, each time
    with the matrix [A - mu I] of the current estimate [mu], starting from
    the [mu] given; when [max_iter >= 1] the vector returned has norm 1 and
    the value returned is its Rayleigh quotient [v.T A v]. *)
Theorem rayleigh_quotient_iteration_spec
    (solve : solve_arg -> vec -> result vec)
    (A : matrix) (mu mu' : R) (max_iter : nat) (v : vec) (w w' : world) :
  rayleigh_quotient_iteration solve A mu max_iter w = Ok ((mu', v), w') ->
  is_symmetric A = true /\
  exists cs,
    length cs = max_iter /\
    calls w' = calls w ++ cs /\
    rqi_chain solve A (mu, drawn (nrows A) w) cs (mu', v) /\
    count_LU (calls w') = count_LU (calls w) /\
    ((1 <= max_iter)%nat -> dot v v = 1 /\ mu' = dot (vecmat v A) v).
Proof.
  unfold rayleigh_quotient_iteration, mfor_range. intros H.
  apply mbind_ok in H. destruct H as (u & w1 & Hguard & H).
  apply lift_ok in Hguard. destruct Hguard as [Hguard ->].
  apply assert_ok in Hguard. split; [exact Hguard|].
  apply mbind_ok in H. destruct H as (v0 & w2 & Hrand & H).
  apply randn_ok in Hrand. destruct Hrand as [-> Hcalls2].
  apply rqi_loop in H. destruct H as (cs & Hlen & Hcalls & Hchain & Hunit).
  exists cs. rewrite Hcalls2 in Hcalls.
  split; [exact Hlen|]. split; [exact Hcalls|]. split; [exact Hchain|]. split.
  - rewrite Hcalls, count_LU_app.
    assert (Hno : count_LU cs = 0%nat).
    { clear -Hchain. induction Hchain; [reflexivity|exact IHHchain]. }
    lia.
  - exact Hunit.
Qed.

Lemma dot_10 : 0 < dot [1; 0] [1; 0].
Proof. simpl. lra. Qed.

(** A run of one pass on [diag21] with a solver that returns its
    right-hand side. *)
Lemma rqi_run_diag21 :
  rayleigh_quotient_iteration solve_identity diag21 0 1 e1_world
  = Ok ((dot (vecmat (normalized [1; 0]) diag21) (normalized [1; 0]),
         normalized [1; 0]),
        {| gen := {| samples := samples (gen e1_world); cursor := 2 |};
           calls := [CallSolve (Mat (msub diag21 (mscal 0 (eye 2)))) [1; 0]] |}).
Proof.
  unfold rayleigh_quotient_iteration, mfor_range.
  erewrite mbind_run by (rewrite is_symmetric_diag21; reflexivity).
  rewrite (mbind_run (randn (nrows diag21)) _ e1_world
             {| gen := {| samples := samples (gen e1_world); cursor := 2 |};
                calls := [] |} [1; 0]) by reflexivity.
  cbn [seq mfor_loop fst snd].
  erewrite mbind_run.
  2:{ unfold call_solve.
      erewrite mbind_run by (erewrite mbind_run by reflexivity; reflexivity).
      erewrite mbind_run by (unfold lift; rewrite (vdiv_normalized [1; 0] dot_10);
                             reflexivity).
      erewrite mbind_run
        by (unfold lift;
            rewrite (rayleigh_quotient_unit diag21 (normalized [1; 0])
                       (dot_normalized [1; 0] dot_10));
            reflexivity).
      reflexivity. }
  reflexivity.
Qed.

Lemma rayleigh_quotient_iteration_spec_witness :
  is_symmetric diag21 = true /\
  exists cs,
    length cs = 1%nat /\
    calls {| gen := {| samples := samples (gen e1_world); cursor := 2 |};
             calls := [CallSolve (Mat (msub diag21 (mscal 0 (eye 2)))) [1; 0]] |}
    = calls e1_world ++ cs /\
    rqi_chain solve_identity diag21 (0, drawn (nrows diag21) e1_world) cs
      (dot (vecmat (normalized [1; 0]) diag21) (normalized [1; 0]),
       normalized [1; 0]) /\
    count_LU
      (calls {| gen := {| samples := samples (gen e1_world); cursor := 2 |};
                calls := [CallSolve (Mat (msub diag21 (mscal 0 (eye 2)))) [1; 0]] |})
    = count_LU (calls e1_world) /\
    ((1 <= 1)%nat ->
     dot (normalized [1; 0]) (normalized [1; 0]) = 1 /\
     dot (vecmat (normalized [1; 0]) diag21) (normalized [1; 0])
     = dot (vecmat (normalized [1; 0]) diag21) (normalized [1; 0])).
Proof.
  apply (rayleigh_quotient_iteration_spec solve_identity diag21 0 _ 1 _ e1_world).
  exact rqi_run_diag21.
Defined.

(** ** projected_iteration: what a run that returns has done *)

Lemma mfor_loop_lift_world {S : Type} (idx : list nat) (f : nat -> S -> result (ctl S))
      (s s' : S) (w w' : world) :
  mfor_loop idx (fun i s => lift (f i s)) s w = Ok (s', w') -> w' = w.
Proof.
  revert s w. induction idx as [|i idx IH]; intros s w H.
  - cbn in H. injection H as _ <-. reflexivity.
  - cbn [mfor_loop] in H. apply mbind_ok in H. destruct H as (c & w1 & Hb & H).
    apply lift_ok in Hb. destruct Hb as [_ ->].
    destruct c as [s1|s1].
    + apply IH in H. exact H.
    + apply ret_ok in H. destruct H as [_ ->]. reflexivity.
Qed.

Lemma randn_run (n : nat) (w w' : world) (v : vec) :
  randn n w = Ok (v, w') ->
  v = drawn n w /\ calls w' = calls w /\
  samples (gen w') = samples (gen w) /\ cursor (gen w') = (cursor (gen w) + n)%nat.
Proof. unfold randn. intros H. injection H as <- <-. cbn. auto. Qed.

Section ProjectedRun.

Variable projection : vec -> vec -> result vec.
Variable normalize : vec -> result vec.
Variable A : matrix.
Variable max_iter : nat.
Variable K : nat.

(** The outer loop: every pass draws [N] numbers, calls nothing, and
    writes the eigenvalue of its slot only. *)
Lemma projected_outer_loop (n i0 : nat) (st st' : vec * matrix) (w w' : world) :
  (i0 + n <= K)%nat ->
  mfor_loop (seq i0 n)
    (fun i st =>
       v <~ randn (nrows A) ;;
       v <~ mfor_range max_iter
              (fun _ v => lift (projected_step projection normalize A (snd st) i v)) v ;;
       e <~ lift (rayleigh_quotient A v) ;;
       eigvecs <~ lift (set_col i v (snd st)) ;;
       ret (Continue (set_nth i e (fst st), eigvecs))) st w = Ok (st', w') ->
  calls w' = calls w /\
  samples (gen w') = samples (gen w) /\
  cursor (gen w') = (cursor (gen w) + n * nrows A)%nat /\
  forall i, (K <= i)%nat -> nth i (fst st') 0 = nth i (fst st) 0.
Proof.
  revert i0 st w. induction n as [|n IH]; intros i0 st w Hk H.
  - cbn in H. injection H as <- <-. repeat split; lia.
  - cbn [seq mfor_loop] in H.
    apply mbind_ok in H. destruct H as (c & w1 & Hb & H).
    apply mbind_ok in Hb. destruct Hb as (v0 & w2 & Hrand & Hb).
    apply randn_run in Hrand. destruct Hrand as (-> & Hc2 & Hs2 & Hcur2).
    apply mbind_ok in Hb. destruct Hb as (v1 & w3 & Hinner & Hb).
    unfold mfor_range in Hinner. apply mfor_loop_lift_world in Hinner. subst w3.
    apply mbind_ok in Hb. destruct Hb as (e & w4 & He & Hb).
    apply lift_ok in He. destruct He as [He ->].
    apply mbind_ok in Hb. destruct Hb as (E & w5 & HE & Hb).
    apply lift_ok in HE. destruct HE as [HE ->].
    apply ret_ok in Hb. destruct Hb as [-> ->].
    apply IH in H; [|lia]. destruct H as (Hc & Hs & Hcur & Hz).
    cbn [fst snd] in Hz.
    split; [congruence|]. split; [congruence|]. split; [rewrite Hcur, Hcur2; lia|].
    intros i Hi. rewrite (Hz i Hi). apply nth_set_nth_neq. lia.
Qed.

End ProjectedRun.

(** X24: a run of [projected_iteration(A, k, max_iter, sort)] that
    returns has passed both assertions, called no decomposition and drawn
    [k N] random numbers; the eigenvalue array has [N] entries, not [k],
    those from [k] on being the zeros it was allocated with when
    [sort=False], and the eigenvector array is [N]-by-[k]; with
    [sort=True] it can only return when [k = N], and then the eigenvalues
    come in decreasing order of magnitude. *)
Theorem projected_iteration_output
    (projection : vec -> vec -> result vec) (normalize : vec -> result vec)
    (A : matrix) (k : Z) (max_iter : nat) (sort : bool)
    (w w' : world) (eigvals : vec) (eigvecs : matrix) :
  projected_iteration projection normalize A k max_iter sort w
  = Ok ((eigvals, eigvecs), w') ->
  is_symmetric A = true /\
  (0 < k <= Z.of_nat (nrows A))%Z /\
  calls w' = calls w /\
  cursor (gen w') = (cursor (gen w) + Z.to_nat k * nrows A)%nat /\
  length eigvals = nrows A /\
  shape eigvecs (nrows A) (Z.to_nat k) /\
  (sort = false -> forall i, (Z.to_nat k <= i)%nat -> nth i eigvals 0 = 0) /\
  (sort = true -> Z.to_nat k = nrows A /\ decreasing_abs eigvals).
Proof.
  intros Hrun.
  destruct (projected_iteration_shapes projection normalize A k max_iter sort
              w w' eigvals eigvecs Hrun) as (Hlen & Hshape & Hsort).
  unfold projected_iteration, mfor_range in Hrun.
  apply mbind_ok in Hrun. destruct Hrun as (u1 & w1 & Hsym & H).
  apply lift_ok in Hsym. destruct Hsym as [Hsym ->]. apply assert_ok in Hsym.
  apply mbind_ok in H. destruct H as (u2 & w2 & Hguard & H).
  apply lift_ok in Hguard. destruct Hguard as [Hguard ->].
  apply assert_ok, andb_prop in Hguard. destruct Hguard as [Hk0 Hk1].
  apply Z.ltb_lt in Hk0. apply Z.leb_le in Hk1.
  apply mbind_ok in H. destruct H as (st & w3 & Hloop & H).
  apply (projected_outer_loop projection normalize A max_iter (Z.to_nat k)) in Hloop;
    [|lia].
  destruct Hloop as (Hc & Hs & Hcur & Hz). cbn [fst snd] in Hz.
  assert (Hw : w' = w3 /\ (sort = false -> st = (eigvals, eigvecs))).
  { destruct sort.
    - apply lift_ok in H. destruct H as [_ ->]. split; [reflexivity|discriminate].
    - apply ret_ok in H. destruct H as [<- ->]. split; reflexivity. }
  destruct Hw as [-> Hst].
  conj_split; try assumption; try lia.
  intros Hf i Hi. rewrite (Hst Hf) in Hz. cbn [fst] in Hz.
  rewrite (Hz i Hi). apply nth_zeros.
Qed.

Lemma projected_iteration_output_witness :
  is_symmetric diag21 = true /\
  (0 < 1 <= Z.of_nat (nrows diag21))%Z /\
  calls {| gen := {| samples := samples (gen e1_world); cursor := 0 + 2 |};
           calls := calls e1_world |} = calls e1_world /\
  cursor (gen {| gen := {| samples := samples (gen e1_world); cursor := 0 + 2 |};
                 calls := calls e1_world |})
  = (cursor (gen e1_world) + Z.to_nat 1 * nrows diag21)%nat /\
  length [2; 0] = nrows diag21 /\
  shape [[1]; [0]] (nrows diag21) (Z.to_nat 1) /\
  (false = false -> forall i, (Z.to_nat 1 <= i)%nat -> nth i [2; 0] 0 = 0) /\
  (false = true -> Z.to_nat 1 = nrows diag21 /\ decreasing_abs [2; 0]).
Proof.
  apply (projected_iteration_output utils_projection utils_normalize diag21 1 1000 false
           e1_world).
  unfold projected_iteration.
  erewrite mbind_run by (rewrite is_symmetric_diag21; reflexivity).
  erewrite mbind_run by reflexivity.
  erewrite mbind_run by (apply (projected_loop_diag21 e1_world); reflexivity).
  reflexivity.
Defined.

(** ** qr_algorithm: the eigenpairs it returns *)

Lemma for_loop_invariant {S : Type} (P : S -> Prop) (idx : list nat)
      (body : nat -> S -> result S) (s s' : S) :
  (forall i s s', In i idx -> P s -> body i s = Ok s' -> P s') ->
  P s -> for_loop idx body s = Ok s' -> P s'.
Proof.
  revert s. induction idx as [|i idx IH]; intros s Hbody Hs H.
  - cbn in H. injection H as <-. exact Hs.
  - cbn [for_loop] in H. apply bind_ok in H. destruct H as (s1 & Hb & H).
    apply (IH s1); [|eapply Hbody; [left; reflexivity|exact Hs|exact Hb]|exact H].
    intros j t t' Hj. apply Hbody. right. exact Hj.
Qed.

(** A pass of [hessenberg] that returns keeps the shape of the working
    copy, whatever [sign] is. *)
Lemma hessenberg_step_shape (sign : R -> R) (is_symm : bool) (M i : nat)
      (A A' : matrix) (vs vs' : list vec) :
  shape A M M -> (i + 2 <= M)%nat ->
  hessenberg_step sign is_symm M i (A, vs) = Ok (A', vs') -> shape A' M M.
Proof.
  intros HA Hi. unfold hessenberg_step. cbn [fst snd]. cbv zeta.
  set (a := col_from A (i + 1) i).
  assert (Ha : length a = S (M - i - 2))
    by (unfold a; rewrite length_col_from; destruct HA; lia).
  replace (basis_vec_flat 0 (length a)) with (Ok (set_nth 0 1 (zeros (length a))))
    by (rewrite Ha; reflexivity).
  cbn [bind].
  set (v := vadd a (scal (sign (nth 0 a 0) * l2_norm a) (set_nth 0 1 (zeros (length a))))).
  assert (Hvl : length v = length a).
  { unfold v. apply length_vadd. now rewrite length_scal, length_basis. }
  assert (v_length : (i + 1 + length v)%nat = M) by lia.
  destruct (Req_dec_T (dot v v) 0) as [Hz|Hnz].
  { replace (M - i)%nat with (S (M - i - 1)) by lia.
    cbn [seq for_loop]. unfold reflect_col at 1, fdiv.
    destruct (Req_dec_T (dot v v) 0); [discriminate|contradiction]. }
  destruct (left_loop M (i + 1) v v_length Hnz (M - i) i A HA) as (A1 & Hrun1 & HA1 & _);
    [lia|].
  set (lo := if is_symm then i else 0%nat).
  destruct (right_loop M (i + 1) v v_length Hnz (M - lo) lo A1 HA1)
    as (A2 & Hrun2 & HA2 & _); [unfold lo; destruct is_symm; lia|].
  rewrite Hrun1. cbn [bind]. rewrite Hrun2. cbn [bind].
  intros H. injection H as <- _. exact HA2.
Qed.

Lemma hessenberg_shape (sign : R -> R) (A : matrix) (M : nat) (h : hess_out) :
  shape A M M -> hessenberg sign A false = Ok h -> shape (hess_A h) M M.
Proof.
  intros HA. unfold hessenberg. rewrite (is_square_shape A M HA). cbn [assert bind].
  unfold for_range, nrows. rewrite (proj1 HA). intros H.
  apply bind_ok in H. destruct H as (st & Hloop & H). injection H as <-. cbn [hess_A].
  revert Hloop.
  apply (for_loop_invariant (fun st => shape (fst st) M M)); [|exact HA].
  intros i [A1 vs1] [A2 vs2] Hin HA1 Hstep. cbn [fst] in *.
  apply in_seq in Hin.
  apply (hessenberg_step_shape sign (is_symmetric A) M i A1 A2 vs1 vs2 HA1);
    [lia|exact Hstep].
Qed.

(** One pass of [rayleigh_quotient_iteration] that returns. *)
Lemma rqi_one_pass (solve : solve_arg -> vec -> result vec)
      (A : matrix) (mu mu' : R) (v : vec) (w w' : world) :
  rayleigh_quotient_iteration solve A mu 1 w = Ok ((mu', v), w') ->
  exists x,
    solve (Mat (msub A (mscal mu (eye (nrows A))))) (drawn (nrows A) w) = Ok x /\
    length v = length x /\
    dot v v = 1 /\ mu' = dot (vecmat v A) v /\
    calls w' = calls w
               ++ [CallSolve (Mat (msub A (mscal mu (eye (nrows A)))))
                             (drawn (nrows A) w)] /\
    samples (gen w') = samples (gen w) /\
    cursor (gen w') = (cursor (gen w) + nrows A)%nat.
Proof.
  unfold rayleigh_quotient_iteration, mfor_range. intros H.
  apply mbind_ok in H. destruct H as (u & w1 & Hguard & H).
  apply lift_ok in Hguard. destruct Hguard as [_ ->].
  apply mbind_ok in H. destruct H as (v0 & w2 & Hrand & H).
  apply randn_run in Hrand. destruct Hrand as (-> & Hc2 & Hs2 & Hcur2).
  cbn [seq mfor_loop fst snd] in H. unfold call_solve in H.
  apply mbind_ok in H. destruct H as (c & w3 & Hbody & Hrest).
  apply mbind_ok in Hbody. destruct Hbody as (x & w4 & Hsolve & Hbody).
  apply mbind_ok in Hsolve. destruct Hsolve as (u' & w5 & Hrec & Hsolve).
  apply record_ok in Hrec. destruct Hrec as [Hg5 Hc5].
  apply lift_ok in Hsolve. destruct Hsolve as [Hsolve ->].
  apply mbind_ok in Hbody. destruct Hbody as (v' & w6 & Hdiv & Hbody).
  apply lift_ok in Hdiv. destruct Hdiv as [Hdiv ->].
  apply mbind_ok in Hbody. destruct Hbody as (m' & w7 & Hrq & Hbody).
  apply lift_ok in Hrq. destruct Hrq as [Hrq ->].
  apply ret_ok in Hbody. destruct Hbody as [-> ->].
  apply ret_ok in Hrest. destruct Hrest as [Hst ->].
  injection Hst as -> ->.
  assert (Hne : v' <> []) by (intros ->; exact (rayleigh_quotient_nil A m' Hrq)).
  pose proof (vdiv_unit x v' Hdiv Hne) as Hone.
  exists x. split; [exact Hsolve|]. split.
  - unfold vdiv in Hdiv. destruct x as [|a x']; [injection Hdiv as <-; contradiction|].
    destruct (Req_dec_T _ 0); [discriminate|]. injection Hdiv as <-.
    simpl. now rewrite length_map.
  - split; [exact Hone|]. split.
    + rewrite (rayleigh_quotient_unit A v' Hone) in Hrq. congruence.
    + rewrite Hc5, Hg5, Hc2, Hs2, Hcur2. auto.
Qed.

Lemma col_zip_set (i j : nat) (E : matrix) (v : vec) (n : nat) :
  length v = length E -> Forall (fun r => length r = n) E -> (i < n)%nat ->
  col j (zip_with (fun r x => set_nth i x r) E v) = if (j =? i)%nat then v else col j E.
Proof.
  revert v. induction E as [|r E IH]; intros [|x v] Hlen Hall Hi;
    try discriminate.
  - destruct (j =? i)%nat; reflexivity.
  - inversion Hall as [|r0 E0 Hr HE]; subst. cbn [zip_with col map].
    injection Hlen as Hlen.
    specialize (IH v Hlen HE Hi). unfold col in IH. rewrite IH.
    destruct (Nat.eqb_spec j i) as [->|Hji].
    + f_equal. apply nth_set_nth_eq. lia.
    + f_equal. apply nth_set_nth_neq. congruence.
Qed.

Lemma col_set_col (i j m n : nat) (E E' : matrix) (v : vec) :
  shape E m n -> length v = m -> (i < n)%nat -> set_col i v E = Ok E' ->
  col j E' = if (j =? i)%nat then v else col j E.
Proof.
  intros [Hl Hf] Hv Hi. unfold set_col.
  replace (length v =? length E)%nat with true by (symmetry; apply Nat.eqb_eq; lia).
  intros H. injection H as <-. apply (col_zip_set i j E v n); [lia|exact Hf|exact Hi].
Qed.

Lemma col_take (idx : list nat) (E : matrix) (j : nat) :
  (j < length idx)%nat ->
  col j (map (fun r => map (fun t => nth t r 0) idx) E) = col (nth j idx 0%nat) E.
Proof.
  intros Hj. unfold col. rewrite map_map. apply map_ext. intros r.
  rewrite (nth_indep _ 0 ((fun t => nth t r 0) 0%nat)) by (rewrite length_map; exact Hj).
  apply (map_nth (fun t => nth t r 0)).
Qed.

Section QRAlgorithmOutput.

Variable sign : R -> R.
Variable solve : solve_arg -> vec -> result vec.
Variable QR_decompose : matrix -> result (matrix * matrix).
Variable A : matrix.
Variable M : nat.
Hypothesis M_pos : (0 < M)%nat.
Hypothesis A_shape : shape A M M.
Hypothesis solve_length : forall a b x, solve a b = Ok x -> length x = length b.

(** What every filled slot holds: a unit vector and its Rayleigh
    quotient on [A]. *)
Let paired (n : nat) (st : vec * matrix) : Prop :=
  length (fst st) = M /\ shape (snd st) M M /\
  forall j, (j < n)%nat ->
    dot (col j (snd st)) (col j (snd st)) = 1 /\
    nth j (fst st) 0 = dot (vecmat (col j (snd st)) A) (col j (snd st)).

Lemma qr_pairs_loop (mus : vec) (n i0 : nat) (st st' : vec * matrix) (w w' : world) :
  (i0 + n <= M)%nat -> paired i0 st ->
  mfor_loop (seq i0 n)
    (fun i st =>
       ev <~ rayleigh_quotient_iteration solve A (nth i mus 0) 1 ;;
       eigvecs <~ lift (set_col i (snd ev) (snd st)) ;;
       ret (Continue (set_nth i (fst ev) (fst st), eigvecs))) st w = Ok (st', w') ->
  paired (i0 + n) st' /\
  cursor (gen w') = (cursor (gen w) + n * M)%nat /\
  count_LU (calls w') = count_LU (calls w).
Proof.
  revert i0 st w. induction n as [|n IH]; intros i0 st w Hn Hst H.
  - cbn in H. injection H as <- <-. rewrite Nat.add_0_r. repeat split; try apply Hst; lia.
  - cbn [seq mfor_loop] in H.
    apply mbind_ok in H. destruct H as (c & w1 & Hb & H).
    apply mbind_ok in Hb. destruct Hb as ([mu' v] & w2 & Hrqi & Hb).
    apply rqi_one_pass in Hrqi.
    destruct Hrqi as (x & Hsolve & Hvx & Hone & Hmu & Hcalls & _ & Hcur).
    apply mbind_ok in Hb. destruct Hb as (E' & w3 & Hset & Hb).
    apply lift_ok in Hset. destruct Hset as [Hset ->].
    apply ret_ok in Hb. destruct Hb as [-> ->].
    cbn [fst snd] in *.
    destruct Hst as (Hlen & HE & Hpairs).
    assert (Hv : length v = M).
    { rewrite Hvx, (solve_length _ _ _ Hsolve). unfold drawn.
      rewrite length_map, length_seq. apply A_shape. }
    apply IH in H; [|lia|].
    + destruct H as (Hp & Hcur' & Hlu).
      replace (i0 + S n)%nat with (S i0 + n)%nat by lia.
      split; [exact Hp|]. split.
      * rewrite Hcur', Hcur. unfold nrows. rewrite (proj1 A_shape). lia.
      * rewrite Hlu, Hcalls, count_LU_app. cbn. lia.
    + split; [cbn [fst]; rewrite length_set_nth; exact Hlen|].
      split; [cbn [snd]; eapply shape_set_col; eassumption|].
      intros j Hj. cbn [fst snd].
      rewrite (col_set_col i0 j M M (snd st) E' v HE Hv) by (lia || exact Hset).
      destruct (Nat.eqb_spec j i0) as [->|Hji].
      * split; [exact Hone|]. rewrite nth_set_nth_eq by lia. exact Hmu.
      * rewrite nth_set_nth_neq by congruence. apply Hpairs. lia.
Qed.

End QRAlgorithmOutput.

Lemma count_LU_QRs (Xs : list matrix) : count_LU (map CallQR Xs) = 0%nat.
Proof. induction Xs as [|X Xs IH]; simpl; auto. Qed.

Lemma length_diag (A : matrix) (M : nat) :
  shape A M M -> (0 < M)%nat -> length (diag A) = M.
Proof.
  intros HA HM. unfold diag, nrows.
  rewrite length_map, length_seq, (shape_ncols A M M HA HM), (proj1 HA). lia.
Qed.

(** X25: on an [N]-by-[N] array of floats, with a QR factorization that meets
    its specification and a solver that returns vectors of the length of
    the right-hand side, a run of [qr_algorithm] that returns gives [N]
    eigenvalues and an [N]-by-[N] array of eigenvectors in which every
    column has norm 1 and the eigenvalue of the same index is the Rayleigh
    quotient [v.T A v] of that column on the matrix given, also after
    sorting, which puts the eigenvalues in decreasing order of magnitude;
    no LU factorization is asked for. *)
Theorem qr_algorithm_output
    (sign : R -> R) (solve : solve_arg -> vec -> result vec)
    (QR_decompose : matrix -> result (matrix * matrix))
    (A : matrix) (M : nat) (hess sort : bool)
    (w w' : world) (eigvals : vec) (eigvecs : matrix) :
  (0 < M)%nat -> shape A M M -> QR_spec M QR_decompose ->
  (forall a b x, solve a b = Ok x -> length x = length b) ->
  qr_algorithm sign solve QR_decompose A hess sort w = Ok ((eigvals, eigvecs), w') ->
  length eigvals = M /\
  shape eigvecs M M /\
  (forall j, (j < M)%nat ->
     dot (col j eigvecs) (col j eigvecs) = 1 /\
     nth j eigvals 0 = dot (vecmat (col j eigvecs) A) (col j eigvecs)) /\
  (sort = true -> decreasing_abs eigvals) /\
  count_LU (calls w') = count_LU (calls w).
Proof.
  intros HM HA HQR Hsolve Hrun. unfold qr_algorithm in Hrun.
  apply mbind_ok in Hrun. destruct Hrun as (u & w0 & Hguard & H).
  apply lift_ok in Hguard. destruct Hguard as [_ ->].
  apply mbind_ok in H. destruct H as (A1 & w1 & Hhess & H).
  assert (HA1 : shape A1 M M /\ w1 = w).
  { destruct hess.
    - apply lift_ok in Hhess. destruct Hhess as [Hh ->].
      apply bind_ok in Hh. destruct Hh as (h & Hh & E). injection E as <-.
      split; [apply (hessenberg_shape sign A M h HA Hh)|reflexivity].
    - apply ret_ok in Hhess. destruct Hhess as [-> ->]. split; [exact HA|reflexivity]. }
  destruct HA1 as [HA1 ->].
  apply mbind_ok in H. destruct H as (A2 & w2 & Hloop & H).
  unfold nrows at 1 in Hloop. rewrite (proj1 HA1) in Hloop. unfold mfor_range in Hloop.
  destruct (qr_loop_run QR_decompose M HM HQR 1000 0 A1 w HA1)
    as (A' & w'' & Xs & Hrun' & Hcalls2 & _ & _ & _ & HA2).
  rewrite Hrun' in Hloop. injection Hloop as <- <-.
  apply mbind_ok in H. destruct H as (st & w3 & Hpairs & H).
  unfold mfor_range in Hpairs.
  rewrite (length_diag A' M HA2 HM) in Hpairs.
  unfold nrows in Hpairs. rewrite (proj1 HA2), (shape_ncols A' M M HA2 HM) in Hpairs.
  apply (qr_pairs_loop solve A M HM HA Hsolve) in Hpairs; [|lia|].
  2:{ split; [apply length_zeros|]. split; [apply shape_zeros2|]. intros j Hj. lia. }
  destruct Hpairs as ((Hlen & HE & Hp) & _ & Hlu). cbn [Nat.add] in Hp.
  assert (Hcount : count_LU (calls w3) = count_LU (calls w)).
  { rewrite Hlu, Hcalls2, count_LU_app, count_LU_QRs. lia. }
  rewrite (shape_ncols A' M M HA2 HM) in H.
  destruct sort.
  - apply lift_ok in H. destruct H as [Hsort ->].
    destruct (sort_eigen_sorted _ _ _ _ _ Hsort) as (idx & Hperm & Hvals & Hvecs & Hdec).
    assert (Hidx : length idx = M)
      by (rewrite (Permutation_length Hperm), length_seq; exact Hlen).
    assert (Hin : forall j, (j < M)%nat -> (nth j idx 0 < M)%nat).
    { intros j Hj.
      assert (Hi : In (nth j idx 0%nat) (seq 0 (length (fst st))))
        by (apply (Permutation_in _ Hperm), nth_In; lia).
      apply in_seq in Hi. lia. }
    split; [rewrite Hvals, length_map; exact Hidx|]. split.
    { rewrite Hvecs. split; [rewrite length_map; apply HE|].
      apply Forall_map, Forall_forall. intros r _. now rewrite length_map. }
    split; [|split; [intros _; exact Hdec|exact Hcount]].
    intros j Hj. rewrite Hvecs, Hvals.
    rewrite col_take by lia.
    rewrite (nth_indep _ 0 ((fun t => nth t (fst st) 0) 0%nat))
      by (rewrite length_map; lia).
    rewrite (map_nth (fun t => nth t (fst st) 0) idx 0%nat j).
    apply Hp, Hin, Hj.
  - apply ret_ok in H. destruct H as [E ->]. subst st. cbn [fst snd] in *.
    split; [exact Hlen|]. split; [exact HE|]. split; [exact Hp|].
    split; [discriminate|exact Hcount].
Qed.

(** ** qr_algorithm: the loop within the routine *)

(** A test on every entry of an array, read off the entries. *)
Lemma forallb_entries (p : R -> bool) (Z : matrix) (m n : nat) :
  shape Z m n ->
  (forallb (forallb p) Z = true <->
   forall i j, (i < m)%nat -> (j < n)%nat -> p (get Z i j) = true).
Proof.
  intros [Hl Hr]. rewrite Forall_forall in Hr. split.
  - intros H i j Hi Hj. rewrite forallb_forall in H.
    assert (Hin : In (nth i Z []) Z) by (apply nth_In; lia).
    specialize (H _ Hin). rewrite forallb_forall in H.
    apply H. unfold get. apply nth_In. rewrite (Hr _ Hin). exact Hj.
  - intros H. apply forallb_forall. intros r Hin.
    apply forallb_forall. intros x Hx.
    destruct (In_nth Z r [] Hin) as (i & Hi & Er).
    destruct (In_nth r x 0 Hx) as (j & Hj & Ex).
    rewrite <- Ex, <- Er. apply H; [lia|].
    rewrite <- (Hr r Hin). exact Hj.
Qed.

(** The test [np.all(np.abs(A_new - A) < 1e-8)] holds exactly when every
    entry differs by less than [1e-8]. *)
Lemma converged2_within (M : nat) (X Y : matrix) :
  shape X M M -> shape Y M M ->
  (converged2 X Y = true <-> entries_within M X Y).
Proof.
  intros HX HY. unfold converged2, entries_within.
  rewrite (forallb_entries _ (msub X Y) M M) by (apply shape_msub; assumption).
  split; intros H i j Hi Hj; specialize (H i j Hi Hj);
    rewrite (get_msub X Y M M) in * by assumption.
  - unfold Rltb in H. destruct (Rlt_dec _ _); [assumption|discriminate].
  - apply Rltb_true. exact H.
Qed.

Section QRPasses.

Variable QR_decompose : matrix -> result (matrix * matrix).
Variable M : nat.
Hypothesis M_pos : (0 < M)%nat.
Hypothesis QR_ok : QR_spec M QR_decompose.

Lemma qr_loop_passes (n i0 : nat) (A : matrix) (w : world) :
  shape A M M ->
  exists Xs A',
    mfor_loop (seq i0 n) (fun _ A => qr_step QR_decompose M A) A w
    = Ok (A', {| gen := gen w; calls := calls w ++ map CallQR Xs |}) /\
    qr_passes QR_decompose M n A Xs A' /\
    (length Xs <= n)%nat /\
    similar M A A' /\ shape A' M M.
Proof.
  revert i0 A w. induction n as [|n IH]; intros i0 A w HA.
  - exists [], A. cbn. rewrite app_nil_r. destruct w as [g cs]. cbn.
    repeat split; try (apply HA); try lia.
    + constructor.
    + apply similar_refl; assumption.
  - destruct (QR_ok (qr_shift M A) (shape_qr_shift M A HA))
      as (Q & R & HQR & HQ & HR & Hmul).
    pose proof (qr_next_similarity M M_pos A Q R HA HQ HR Hmul) as Hnext.
    assert (Hsim : similar M A (qr_next M A (Q, R)))
      by (exists Q; split; assumption).
    assert (HA1 : shape (qr_next M A (Q, R)) M M)
      by (apply (similar_shape M A _ M_pos HA Hsim)).
    cbn [seq mfor_loop]. unfold mbind at 1.
    rewrite (qr_step_run QR_decompose M M_pos A Q R w HQR).
    destruct (converged2 (qr_next M A (Q, R)) A) eqn:Hconv.
    + exists [qr_shift M A], A. cbn. repeat split; try (apply HA); try lia.
      * apply (qr_passes_break _ _ n A Q R HQR).
        apply (converged2_within M); assumption.
      * apply similar_refl; assumption.
    + destruct (IH (S i0) _ (after_call (CallQR (qr_shift M A)) w) HA1)
        as (Xs & A' & Hrun & Hpass & Hlen & Hsim' & HA').
      exists (qr_shift M A :: Xs), A'. repeat split; try (apply HA').
      * rewrite Hrun. cbn. rewrite <- app_assoc. reflexivity.
      * apply (qr_passes_continue _ _ n A Q R A' Xs HQR); [|exact Hpass].
        intros Hw. apply (converged2_within M) in Hw; try assumption. congruence.
      * cbn. lia.
      * apply (similar_trans M A _ A' M_pos HA Hsim Hsim').
Qed.

End QRPasses.

(** C7: in a call of [qr_algorithm] on an [M]-by-[M] array that passes the
    symmetry guard, with a [QR] that factors as the spec says, the loop
    starts from [A0], the array given or its Hessenberg form, and makes at
    most 1000 passes: each takes the shift [mu = A[M-1, M-1]], factors
    [A - mu I] and forms [R Q + mu I]; it breaks at the first pass where
    that differs from [A] by less than [1e-8] in every entry, and goes on
    with it otherwise.  The factorizations [Xs] are the only calls
    recorded up to there, and the call continues from the iterate [Afin]
    with the eigenpair stage.  Every pass is [Q.T A Q] for the orthogonal
    [Q] of its factorization, so that [Afin] is orthogonally similar to
    [A0], with the same eigenvalues and corresponding eigenvectors. *)
Theorem qr_algorithm_iteration
    (sign : R -> R) (solve : solve_arg -> vec -> result vec)
    (QR_decompose : matrix -> result (matrix * matrix))
    (A A0 : matrix) (M : nat) (hess sort : bool) (w : world) :
  (0 < M)%nat -> shape A M M -> QR_spec M QR_decompose ->
  is_symmetric A = true ->
  (if hess then hessenberg sign A false = Ok (HessA A0) else A0 = A) ->
  exists Xs Afin,
    qr_passes QR_decompose M 1000 A0 Xs Afin /\
    (length Xs <= 1000)%nat /\
    qr_algorithm sign solve QR_decompose A hess sort w
    = qr_eigenpairs solve A Afin sort
        {| gen := gen w; calls := calls w ++ map CallQR Xs |} /\
    (forall X Q R,
       shape X M M -> QR_decompose (qr_shift M X) = Ok (Q, R) ->
       orthogonal M Q /\ qr_next M X (Q, R) = mmul (mmul (transpose Q) X) Q) /\
    similar M A0 Afin /\
    same_eigenpairs M A0 Afin.
Proof.
  intros HM HA HQR Hsym Hhess.
  assert (HA0 : shape A0 M M).
  { destruct hess; [|subst A0; exact HA].
    apply (hessenberg_shape sign A M (HessA A0) HA Hhess). }
  destruct (qr_loop_passes QR_decompose M HM HQR 1000 0 A0 w HA0)
    as (Xs & Afin & Hrun & Hpass & Hlen & Hsim & HAf).
  exists Xs, Afin. split; [exact Hpass|]. split; [exact Hlen|]. split; [|split; [|split]].
  - unfold qr_algorithm. rewrite Hsym.
    unfold mbind at 1. cbn [assert lift].
    assert (E : (if hess
                 then lift (bind (hessenberg sign A false) (fun h => Ok (hess_A h)))
                 else ret A) w = Ok (A0, w)).
    { destruct hess; [rewrite Hhess; reflexivity|subst A0; reflexivity]. }
    unfold mbind at 1. rewrite E.
    unfold mbind at 1. unfold nrows at 1. rewrite (proj1 HA0).
    unfold mfor_range at 1. rewrite Hrun. reflexivity.
  - intros X Q R HX HXQR.
    destruct (HQR (qr_shift M X) (shape_qr_shift M X HX))
      as (Q' & R' & HQR' & HQ & HR & Hmul).
    rewrite HXQR in HQR'. injection HQR' as <- <-.
    split; [exact HQ|]. apply qr_next_similarity; assumption.
  - exact Hsim.
  - apply similar_same_eigenpairs; assumption.
Qed.

(** *** A run on a 2-by-2 matrix

    The factorization by one rotation is within [QR_spec], with an upper
    triangular [R]. *)

(** Two lists, equal entry by entry. *)
Ltac list_eq :=
  repeat match goal with
         | |- _ :: _ = _ :: _ => apply (f_equal2 (@cons _))
         | |- [] = [] => reflexivity
         end.

Lemma shape22 (X : matrix) :
  shape X 2 2 -> exists a b c d, X = [[a; b]; [c; d]].
Proof.
  intros [Hl Hr].
  destruct X as [|r0 [|r1 [|r2 X]]]; try discriminate.
  inversion Hr as [|? ? H0 Hr']; subst. inversion Hr' as [|? ? H1 _]; subst.
  destruct r0 as [|a [|b [|? ?]]]; try discriminate.
  destruct r1 as [|c [|d [|? ?]]]; try discriminate.
  now exists a, b, c, d.
Qed.

Lemma qr_givens2_spec : QR_spec 2 qr_givens2.
Proof.
  intros X HX. destruct (shape22 X HX) as (a & b & c & d & ->).
  unfold qr_givens2. cbv zeta.
  set (r := sqrt (a * a + c * c)).
  assert (Hr2 : r * r = a * a + c * c).
  { unfold r. apply sqrt_sqrt. nra. }
  destruct (Req_dec_T r 0) as [Hz|Hnz].
  - exists (eye 2), [[a; b]; [c; d]]. split; [reflexivity|].
    split; [apply orthogonal_eye; lia|]. split; [exact HX|].
    apply (mmul_eye_l _ 2 2); [exact HX|lia].
  - assert (Hir : r * / r = 1) by (field; exact Hnz).
    eexists; eexists. split; [reflexivity|].
    unfold Rdiv. set (ir := / r) in *. clearbody r ir.
    split; [|split].
    + split; [split; [reflexivity|repeat constructor]|].
      split; cbn; list_eq; nsatz.
    + split; [reflexivity|repeat constructor].
    + cbn. list_eq; nsatz.
Qed.

Lemma qr_givens2_upper (X Q R : matrix) :
  shape X 2 2 -> qr_givens2 X = Ok (Q, R) -> get R 1 0 = 0.
Proof.
  intros HX. destruct (shape22 X HX) as (a & b & c & d & ->).
  unfold qr_givens2. cbv zeta.
  destruct (Req_dec_T (sqrt (a * a + c * c)) 0) as [Hz|Hnz]; intros H;
    injection H as <- <-; [|reflexivity].
  apply sqrt_eq_0 in Hz; [|nra]. cbn. nra.
Qed.

(** One pass on a symmetric 2-by-2 iterate [[a, b], [b, d]], in closed
    form: the off-diagonal entry [b] becomes [- b^3 / ((a - d)^2 + b^2)]. *)
Lemma givens_pass (a b d : R) :
  (a - d) * (a - d) + b * b <> 0 ->
  exists Q R,
    qr_givens2 (qr_shift 2 [[a; b]; [b; d]]) = Ok (Q, R) /\
    (b <> 0 -> get Q 1 0 <> 0) /\
    qr_next 2 [[a; b]; [b; d]] (Q, R)
    = [[a + (a - d) * b * b / ((a - d) * (a - d) + b * b);
        - (b * b * b) / ((a - d) * (a - d) + b * b)];
       [- (b * b * b) / ((a - d) * (a - d) + b * b);
        d - (a - d) * b * b / ((a - d) * (a - d) + b * b)]].
Proof.
  intros Hr2.
  unfold qr_shift.
  cbn [get nth Nat.sub msub mscal eye map seq zip_with vsub scal Nat.eqb].
  unfold qr_givens2. cbv zeta.
  set (r := sqrt ((a - d * 1) * (a - d * 1) + (b - d * 0) * (b - d * 0))).
  assert (Hrr : r * r = (a - d) * (a - d) + b * b).
  { unfold r. rewrite sqrt_sqrt; [ring|].
    pose proof (Rle_0_sqr (a - d * 1)) as H1. pose proof (Rle_0_sqr (b - d * 0)) as H2.
    unfold Rsqr in H1, H2. lra. }
  destruct (Req_dec_T r 0) as [Hz|Hnz].
  { exfalso. apply Hr2. rewrite <- Hrr, Hz. ring. }
  eexists; eexists. split; [reflexivity|].
  split.
  { intros Hb. cbn [get nth]. intros E. apply Hb.
    apply (Rmult_eq_compat_r r) in E. unfold Rdiv in E.
    rewrite Rmult_assoc, Rinv_l, Rmult_0_l in E by exact Hnz. lra. }
  assert (Hir : r * / r = 1) by (field; exact Hnz).
  assert (Hi2 : ((a - d) * (a - d) + b * b) * / ((a - d) * (a - d) + b * b) = 1)
    by (field; exact Hr2).
  unfold qr_next, Rdiv.
  cbn [fst snd get nth Nat.sub madd mmul mscal eye map seq zip_with vadd scal Nat.eqb
       vecmat transpose col ncols hd length dot].
  set (ir := / r) in *. set (i2 := / ((a - d) * (a - d) + b * b)) in *.
  clearbody r ir i2.
  list_eq; nsatz.
Qed.

(** On [near_diag12] the first pass rotates ([Q] is not the identity) and
    moves the diagonal by about [1e-6]; the second pass moves every entry
    by less than [1e-8]. *)
Lemma near_diag12_first_pass :
  exists Q R,
    qr_givens2 (qr_shift 2 near_diag12) = Ok (Q, R) /\
    get Q 1 0 <> 0 /\
    qr_next 2 near_diag12 (Q, R) = near_diag12_next /\
    ~ entries_within 2 near_diag12_next near_diag12.
Proof.
  destruct (givens_pass 1 (1 / 1000) 2) as (Q & R & HQR & HQ & Hnext); [lra|].
  exists Q, R. split; [exact HQR|]. split; [apply HQ; lra|]. split.
  - unfold near_diag12. rewrite Hnext. unfold near_diag12_next. list_eq; lra.
  - intros H. specialize (H 0%nat 0%nat). cbn [near_diag12_next near_diag12 get nth] in H.
    assert (Hlt : Rabs (1000000 / 1000001 - 1) < 1e-8) by (apply H; lia).
    apply Rabs_def2 in Hlt. lra.
Qed.

Lemma near_diag12_second_pass :
  exists Q R,
    qr_givens2 (qr_shift 2 near_diag12_next) = Ok (Q, R) /\
    entries_within 2 (qr_next 2 near_diag12_next (Q, R)) near_diag12_next.
Proof.
  destruct (givens_pass (1000000 / 1000001) (-1 / 1000001000) (2000003 / 1000001))
    as (Q & R & HQR & _ & Hnext); [lra|].
  exists Q, R. split; [exact HQR|].
  unfold near_diag12_next. rewrite Hnext.
  intros i j Hi Hj.
  destruct i as [|[|i]]; [| |lia]; (destruct j as [|[|j]]; [| |lia]);
    cbn [get nth]; apply Rabs_def1; lra.
Qed.

Lemma shape_near_diag12 : shape near_diag12 2 2.
Proof. split; [reflexivity|repeat constructor]. Qed.

Lemma shape_near_diag12_next : shape near_diag12_next 2 2.
Proof. split; [reflexivity|repeat constructor]. Qed.

Lemma is_symmetric_near_diag12 : is_symmetric near_diag12 = true.
Proof. apply symmetric_is_symmetric. reflexivity. Qed.

Lemma hessenberg_near_diag12 :
  hessenberg utils_sign near_diag12 false = Ok (HessA near_diag12).
Proof. reflexivity. Qed.

Lemma qr_algorithm_iteration_witness :
  exists Xs Afin,
    qr_passes qr_givens2 2 1000 near_diag12 Xs Afin /\
    (length Xs <= 1000)%nat /\
    qr_algorithm utils_sign solve_cramer2 qr_givens2 near_diag12 true true near_diag_world
    = qr_eigenpairs solve_cramer2 near_diag12 Afin true
        {| gen := gen near_diag_world;
           calls := calls near_diag_world ++ map CallQR Xs |} /\
    (forall X Q R,
       shape X 2 2 -> qr_givens2 (qr_shift 2 X) = Ok (Q, R) ->
       orthogonal 2 Q /\ qr_next 2 X (Q, R) = mmul (mmul (transpose Q) X) Q) /\
    similar 2 near_diag12 Afin /\
    same_eigenpairs 2 near_diag12 Afin.
Proof.
  apply (qr_algorithm_iteration utils_sign solve_cramer2 qr_givens2
           near_diag12 near_diag12 2 true true near_diag_world).
  - lia.
  - exact shape_near_diag12.
  - exact qr_givens2_spec.
  - exact is_symmetric_near_diag12.
  - exact hessenberg_near_diag12.
Defined.

(** The passes of that run: one that goes on, with a rotation that is not
    the identity, and one that breaks. *)
Lemma qr_passes_near_diag12 :
  (exists Q R, qr_givens2 (qr_shift 2 near_diag12) = Ok (Q, R) /\ get Q 1 0 <> 0) /\
  qr_passes qr_givens2 2 1000 near_diag12
    [qr_shift 2 near_diag12; qr_shift 2 near_diag12_next] near_diag12_next.
Proof.
  destruct near_diag12_first_pass as (Q & R & HQR & HQ & Hnext & Hfar).
  destruct near_diag12_second_pass as (Q' & R' & HQR' & Hnear).
  split; [exists Q, R; split; assumption|].
  apply (qr_passes_continue _ _ 999 near_diag12 Q R near_diag12_next _ HQR).
  - rewrite Hnext. exact Hfar.
  - rewrite Hnext. apply (qr_passes_break _ _ 998 near_diag12_next Q' R' HQR' Hnear).
Qed.

Lemma qr_loop_near_diag12 (w : world) :
  mfor_range 1000 (fun _ A => qr_step qr_givens2 2 A) near_diag12 w
  = Ok (near_diag12_next,
        {| gen := gen w;
           calls := calls w ++ [CallQR (qr_shift 2 near_diag12);
                                CallQR (qr_shift 2 near_diag12_next)] |}).
Proof.
  destruct near_diag12_first_pass as (Q & R & HQR & _ & Hnext & Hfar).
  destruct near_diag12_second_pass as (Q' & R' & HQR' & Hnear).
  unfold mfor_range. change (seq 0 1000) with (0%nat :: 1%nat :: seq 2 998).
  cbn [mfor_loop].
  rewrite (mbind_run _ _ w _ _ (qr_step_run qr_givens2 2 (Nat.lt_0_succ 1) _ Q R w HQR)).
  rewrite Hnext.
  replace (converged2 near_diag12_next near_diag12) with false.
  2:{ symmetry. destruct (converged2 near_diag12_next near_diag12) eqn:E; [|reflexivity].
      exfalso. apply Hfar.
      apply (converged2_within 2);
        [exact shape_near_diag12_next|exact shape_near_diag12|exact E]. }
  rewrite (mbind_run _ _ _ _ _
             (qr_step_run qr_givens2 2 (Nat.lt_0_succ 1) _ Q' R' _ HQR')).
  replace (converged2 (qr_next 2 near_diag12_next (Q', R')) near_diag12_next) with true.
  2:{ symmetry. apply (converged2_within 2); try exact shape_near_diag12_next; [|exact Hnear].
      destruct (qr_givens2_spec (qr_shift 2 near_diag12_next)
                  (shape_qr_shift 2 _ shape_near_diag12_next))
        as (Q2 & R2 & E2 & HQ2 & HR2 & Hm2).
      rewrite HQR' in E2. injection E2 as <- <-.
      rewrite (qr_next_similarity 2 (Nat.lt_0_succ 1) _ Q' R' shape_near_diag12_next
                 HQ2 HR2 Hm2).
      destruct HQ2 as [HQs _].
      apply (shape_mmul _ _ 2 2 2); [apply (shape_mmul _ _ 2 2 2)| |]; try lia;
        try assumption; [apply shape_transpose; [assumption|lia]|exact shape_near_diag12_next]. }
  unfold ret, after_call. cbn [gen calls]. rewrite <- app_assoc. reflexivity.
Qed.

(** One pass of [rayleigh_quotient_iteration] where the solver returns a
    vector that is not zero. *)
Lemma rqi_pass_run (solve : solve_arg -> vec -> result vec)
      (A : matrix) (mu : R) (w : world) (x : vec) :
  is_symmetric A = true ->
  solve (Mat (msub A (mscal mu (eye (nrows A))))) (drawn (nrows A) w) = Ok x ->
  0 < dot x x ->
  rayleigh_quotient_iteration solve A mu 1 w
  = Ok ((dot (vecmat (normalized x) A) (normalized x), normalized x),
        {| gen := {| samples := samples (gen w); cursor := cursor (gen w) + nrows A |};
           calls := calls w
                    ++ [CallSolve (Mat (msub A (mscal mu (eye (nrows A)))))
                          (drawn (nrows A) w)] |}).
Proof.
  intros Hsym Hsolve Hx. unfold rayleigh_quotient_iteration, mfor_range.
  erewrite mbind_run by (rewrite Hsym; reflexivity).
  rewrite (mbind_run (randn (nrows A)) _ w
             {| gen := {| samples := samples (gen w); cursor := cursor (gen w) + nrows A |};
                calls := calls w |} (drawn (nrows A) w)) by reflexivity.
  cbn [seq mfor_loop fst snd].
  erewrite mbind_run.
  2:{ unfold call_solve.
      erewrite mbind_run
        by (erewrite mbind_run by reflexivity; unfold lift; rewrite Hsolve; reflexivity).
      erewrite mbind_run by (unfold lift; rewrite (vdiv_normalized x Hx); reflexivity).
      erewrite mbind_run
        by (unfold lift;
            rewrite (rayleigh_quotient_unit A (normalized x) (dot_normalized x Hx));
            reflexivity).
      reflexivity. }
  reflexivity.
Qed.

Lemma normalized_10 : normalized [1; 0] = [1; 0].
Proof.
  unfold normalized, l2_norm. cbn [dot map].
  replace (1 * 1 + (0 * 0 + 0)) with 1 by ring. rewrite sqrt_1.
  list_eq; field.
Qed.

Lemma normalized_01 : normalized [0; 1] = [0; 1].
Proof.
  unfold normalized, l2_norm. cbn [dot map].
  replace (0 * 0 + (1 * 1 + 0)) with 1 by ring. rewrite sqrt_1.
  list_eq; field.
Qed.

Lemma solve_near_diag12_0 :
  solve_cramer2 (Mat (msub near_diag12 (mscal (1000000 / 1000001) (eye 2))))
    [1 / 1000001; 1 / 1000]
  = Ok [1; 0].
Proof.
  unfold near_diag12.
  cbn [msub mscal eye map seq zip_with vsub scal Nat.eqb solve_cramer2].
  cbv zeta.
  match goal with |- context [Req_dec_T ?d 0] => destruct (Req_dec_T d 0) as [Hz|Hnz] end.
  - exfalso. lra.
  - f_equal. list_eq; field; exact Hnz.
Qed.

Lemma solve_near_diag12_1 :
  solve_cramer2 (Mat (msub near_diag12 (mscal (2000003 / 1000001) (eye 2))))
    [1 / 1000; -1 / 1000001]
  = Ok [0; 1].
Proof.
  unfold near_diag12.
  cbn [msub mscal eye map seq zip_with vsub scal Nat.eqb solve_cramer2].
  cbv zeta.
  match goal with |- context [Req_dec_T ?d 0] => destruct (Req_dec_T d 0) as [Hz|Hnz] end.
  - exfalso. lra.
  - f_equal. list_eq; field; exact Hnz.
Qed.

Lemma dot_01 : 0 < dot [0; 1] [0; 1].
Proof. simpl. lra. Qed.

Lemma rayleigh_near_diag12_0 : dot (vecmat [1; 0] near_diag12) [1; 0] = 1.
Proof. unfold near_diag12. cbn [vecmat transpose col ncols hd length map seq nth dot]. lra. Qed.

Lemma rayleigh_near_diag12_1 : dot (vecmat [0; 1] near_diag12) [0; 1] = 2.
Proof. unfold near_diag12. cbn [vecmat transpose col ncols hd length map seq nth dot]. lra. Qed.

Lemma sort_eigen_12 :
  sort_eigen 2 [1; 2] [[1; 0]; [0; 1]] = Ok ([2; 1], [[0; 1]; [1; 0]]).
Proof.
  unfold sort_eigen, argsort.
  cbn [map length seq fold_left insert_by nth].
  rewrite Rltb_false by (rewrite !Rabs_right by lra; lra).
  reflexivity.
Qed.

(** A run of [qr_algorithm] on [near_diag12]: two factorizations, one
    solve for each diagonal entry of the iterate, and the sort, which
    exchanges the two pairs. *)
Lemma qr_algorithm_run_near_diag12 :
  qr_algorithm utils_sign solve_cramer2 qr_givens2 near_diag12 true true near_diag_world
  = Ok (([2; 1], [[0; 1]; [1; 0]]),
        {| gen := {| samples := samples (gen near_diag_world); cursor := 4 |};
           calls := [CallQR (qr_shift 2 near_diag12);
                     CallQR (qr_shift 2 near_diag12_next);
                     CallSolve (Mat (msub near_diag12 (mscal (1000000 / 1000001) (eye 2))))
                       [1 / 1000001; 1 / 1000];
                     CallSolve (Mat (msub near_diag12 (mscal (2000003 / 1000001) (eye 2))))
                       [1 / 1000; -1 / 1000001]] |}).
Proof.
  unfold qr_algorithm.
  erewrite mbind_run by (rewrite is_symmetric_near_diag12; reflexivity).
  rewrite (mbind_run _ _ near_diag_world near_diag_world near_diag12) by reflexivity.
  cbv beta zeta. change (nrows near_diag12) with 2%nat.
  rewrite (mbind_run _ _ near_diag_world _ near_diag12_next
             (qr_loop_near_diag12 near_diag_world)).
  cbv beta zeta.
  change (diag near_diag12_next) with [1000000 / 1000001; 2000003 / 1000001].
  change (nrows near_diag12_next) with 2%nat.
  change (ncols near_diag12_next) with 2%nat.
  unfold mfor_range. cbn [length seq mfor_loop nth].
  erewrite mbind_run.
  2:{ erewrite mbind_run.
      2:{ erewrite mbind_run
            by (eapply rqi_pass_run;
                [exact is_symmetric_near_diag12|exact solve_near_diag12_0|exact dot_10]).
          rewrite normalized_10, rayleigh_near_diag12_0.
          erewrite mbind_run by reflexivity.
          reflexivity. }
      cbv beta iota. cbn [mfor_loop fst snd].
      erewrite mbind_run.
      2:{ erewrite mbind_run
            by (eapply rqi_pass_run;
                [exact is_symmetric_near_diag12|exact solve_near_diag12_1|exact dot_01]).
          rewrite normalized_01, rayleigh_near_diag12_1.
          erewrite mbind_run by reflexivity.
          reflexivity. }
      reflexivity. }
  cbn [fst snd].
  change (set_nth 1 2 (set_nth 0 1 (zeros 2))) with [1; 2].
  change (zip_with (fun (r : vec) (x : R) => set_nth 1 x r)
            (zip_with (fun (r : vec) (x : R) => set_nth 0 x r) (zeros2 2 2) [1; 0])
            [0; 1])
    with [[1; 0]; [0; 1]].
  rewrite sort_eigen_12. reflexivity.
Qed.

Lemma solve_cramer2_length (a : solve_arg) (b x : vec) :
  solve_cramer2 a b = Ok x -> length x = length b.
Proof.
  unfold solve_cramer2.
  destruct a as [[|[|p [|q [|? ?]]] [|[|s [|t [|? ?]]] [|? ?]]]|fs]; try discriminate.
  destruct b as [|e [|f [|? ?]]]; try discriminate.
  cbv zeta. destruct (Req_dec_T (p * t - q * s) 0); [discriminate|].
  intros H. injection H as <-. reflexivity.
Qed.

Lemma qr_algorithm_output_witness :
  length [2; 1] = 2%nat /\
  shape [[0; 1]; [1; 0]] 2 2 /\
  (forall j, (j < 2)%nat ->
     dot (col j [[0; 1]; [1; 0]]) (col j [[0; 1]; [1; 0]]) = 1 /\
     nth j [2; 1] 0
     = dot (vecmat (col j [[0; 1]; [1; 0]]) near_diag12) (col j [[0; 1]; [1; 0]])) /\
  (true = true -> decreasing_abs [2; 1]) /\
  count_LU
    (calls
       {| gen := {| samples := samples (gen near_diag_world); cursor := 4 |};
          calls := [CallQR (qr_shift 2 near_diag12);
                    CallQR (qr_shift 2 near_diag12_next);
                    CallSolve (Mat (msub near_diag12 (mscal (1000000 / 1000001) (eye 2))))
                      [1 / 1000001; 1 / 1000];
                    CallSolve (Mat (msub near_diag12 (mscal (2000003 / 1000001) (eye 2))))
                      [1 / 1000; -1 / 1000001]] |})
  = count_LU (calls near_diag_world).
Proof.
  apply (qr_algorithm_output utils_sign solve_cramer2 qr_givens2 near_diag12 2 true true
           near_diag_world).
  - lia.
  - exact shape_near_diag12.
  - exact qr_givens2_spec.
  - exact solve_cramer2_length.
  - exact qr_algorithm_run_near_diag12.
Defined.

(** ** Gradient descent *)

Module GradientDescentFacts.

Import GradientDescent.

Lemma dot_vsub_l (x y z : vec) :
  length x = length y -> dot (vsub x y) z = dot x z - dot y z.
Proof.
  revert y z. induction x as [|a x IH]; intros [|b y] [|c z] H; simpl in *;
    try lra; try discriminate.
  rewrite IH by lia. lra.
Qed.

Lemma dot_vsub_r (x y z : vec) :
  length y = length z -> dot x (vsub y z) = dot x y - dot x z.
Proof. intros H. rewrite dot_comm, dot_vsub_l, !(dot_comm x) by exact H. reflexivity. Qed.

Lemma matvec_vadd (A : matrix) (m n : nat) (x y : vec) :
  shape A m n -> length x = n -> length y = n ->
  matvec A (vadd x y) = vadd (matvec A x) (matvec A y).
Proof.
  intros HA Hx Hy. apply vec_ext.
  - rewrite length_vadd; rewrite !length_matvec; reflexivity.
  - intros i Hi. rewrite length_matvec in Hi.
    rewrite nth_vadd by (rewrite !length_matvec; reflexivity).
    rewrite !nth_matvec. apply dot_vadd_r. lia.
Qed.

Lemma vsub_self (b : vec) : vsub b b = zeros (length b).
Proof.
  induction b as [|a b IH]; [reflexivity|].
  unfold vsub, zeros in *. cbn [zip_with length repeat]. rewrite IH. f_equal. lra.
Qed.

Section Step.

Variable A : matrix.
Variable n : nat.
Hypothesis A_shape : shape A n n.
Hypothesis n_pos : (0 < n)%nat.
Variable b x : vec.
Hypothesis b_length : length b = n.
Hypothesis x_length : length x = n.

Let d := residual A b x.

Lemma length_residual : length d = n.
Proof.
  unfold d, residual. rewrite length_vsub; [exact b_length|].
  rewrite length_matvec, b_length. symmetry. apply A_shape.
Qed.

Lemma x_new_ok :
  dot (vecmat d A) d <> 0 ->
  x_new A b x = Ok (vadd x (scal (dot d d / dot (vecmat d A) d) d)).
Proof.
  intros Hnz. unfold x_new. fold d. unfold fdiv.
  destruct (Req_dec_T (dot (vecmat d A) d) 0); [contradiction|reflexivity].
Qed.

(** The residual after the step. *)
Lemma residual_after (alpha : R) :
  residual A b (vadd x (scal alpha d)) = vsub d (scal alpha (matvec A d)).
Proof.
  pose proof length_residual as Hd.
  unfold residual at 1.
  rewrite (matvec_vadd A n n) by (auto; rewrite length_scal; exact Hd).
  rewrite matvec_scal. fold (residual A b x). fold d.
  assert (HAx : length (matvec A x) = n) by (rewrite length_matvec; apply A_shape).
  assert (HAd : length (matvec A d) = n) by (rewrite length_matvec; apply A_shape).
  assert (Hs : length (scal alpha (matvec A d)) = n)
    by (rewrite length_scal; exact HAd).
  assert (Hv : length (vadd (matvec A x) (scal alpha (matvec A d))) = n)
    by (rewrite length_vadd; [exact HAx|rewrite Hs; exact HAx]).
  apply vec_ext.
  - rewrite (length_vsub b) by (rewrite Hv; exact b_length).
    rewrite (length_vsub d) by (rewrite Hs; exact Hd).
    rewrite b_length, Hd. reflexivity.
  - intros i _.
    rewrite (nth_vsub b) by (rewrite Hv; exact b_length).
    rewrite nth_vadd by (rewrite Hs; exact HAx).
    rewrite (nth_vsub d) by (rewrite Hs; exact Hd).
    unfold d, residual. rewrite (nth_vsub b) by (rewrite HAx; exact b_length).
    rewrite !nth_scal. lra.
Qed.

End Step.

(** X26: one pass of gradient descent from [x], where the residual
    [d = b - A x] has [d.T A d > 0] and [A] is symmetric: the new residual is
    orthogonal to [d], and the energy [x.T A x / 2 - b.T x] falls by
    [(d.T d)^2 / (2 d.T A d)], so it does not rise. *)
Theorem gradient_step_descends (A : matrix) (n : nat) (b x : vec) :
  shape A n n -> (0 < n)%nat -> symmetric A -> length b = n -> length x = n ->
  0 < dot (vecmat (residual A b x) A) (residual A b x) ->
  exists x',
    x_new A b x = Ok x' /\ length x' = n /\
    dot (residual A b x') (residual A b x) = 0 /\
    energy A b x'
    = energy A b x
      - dot (residual A b x) (residual A b x) * dot (residual A b x) (residual A b x)
        / (2 * dot (vecmat (residual A b x) A) (residual A b x)) /\
    energy A b x' <= energy A b x.
Proof.
  intros HA Hn Hsym Hb Hx Hpos.
  set (d := residual A b x) in *.
  assert (Hd : length d = n) by (apply (length_residual A n HA b x Hb)).
  assert (Hnz : dot (vecmat d A) d <> 0) by lra.
  set (q := dot (vecmat d A) d) in *.
  set (alpha := dot d d / q).
  exists (vadd x (scal alpha d)).
  split; [apply (x_new_ok A b x); exact Hnz|].
  assert (Hsd : length (scal alpha d) = n) by (rewrite length_scal; exact Hd).
  split; [rewrite length_vadd; congruence|].
  assert (HAd : length (matvec A d) = n) by (rewrite length_matvec; apply HA).
  assert (HAx : length (matvec A x) = n) by (rewrite length_matvec; apply HA).
  assert (Hq : dot d (matvec A d) = q)
    by (unfold q; symmetry; apply (quadratic_form A n d HA Hn Hd)).
  assert (Hres : residual A b (vadd x (scal alpha d)) = vsub d (scal alpha (matvec A d)))
    by (apply (residual_after A n HA b x Hb Hx)).
  assert (Horth : dot (residual A b (vadd x (scal alpha d))) d = 0).
  { rewrite Hres, dot_vsub_l by (rewrite length_scal; congruence).
    rewrite dot_scal_l, (dot_comm (matvec A d) d), Hq. unfold alpha. field. exact Hnz. }
  split; [exact Horth|].
  assert (Hxd : dot x (matvec A d) = dot (matvec A x) d).
  { rewrite (dot_matvec_adjoint A n n x d HA Hn Hx Hd), Hsym. reflexivity. }
  assert (Hdx : dot d x = dot b x - dot (matvec A x) x).
  { unfold d, residual. apply dot_vsub_l. congruence. }
  assert (Hdd : dot d d = dot b d - dot (matvec A x) d).
  { unfold d at 1, residual. apply dot_vsub_l. congruence. }
  assert (Henergy : energy A b (vadd x (scal alpha d))
                    = energy A b x - dot d d * dot d d / (2 * q)).
  { unfold energy.
    rewrite (matvec_vadd A n n) by assumption. rewrite matvec_scal.
    rewrite dot_vadd_l, !dot_vadd_r by (rewrite ?length_scal; congruence).
    rewrite !dot_scal_l, !dot_scal_r, Hq, Hxd.
    rewrite (dot_comm d (matvec A x)).
    replace (dot b d) with (dot d d + dot (matvec A x) d) by lra.
    unfold alpha. field. exact Hnz. }
  split; [exact Henergy|].
  rewrite Henergy.
  assert (0 <= dot d d * dot d d / (2 * q)).
  { apply Rmult_le_pos; [apply Rmult_le_pos; apply dot_self_nonneg|].
    left. apply Rinv_0_lt_compat. lra. }
  lra.
Qed.

Lemma gradient_step_descends_witness :
  exists x',
    x_new two11 [2] [0] = Ok x' /\ length x' = 1%nat /\
    dot (residual two11 [2] x') (residual two11 [2] [0]) = 0 /\
    energy two11 [2] x'
    = energy two11 [2] [0]
      - dot (residual two11 [2] [0]) (residual two11 [2] [0])
        * dot (residual two11 [2] [0]) (residual two11 [2] [0])
        / (2 * dot (vecmat (residual two11 [2] [0]) two11) (residual two11 [2] [0])) /\
    energy two11 [2] x' <= energy two11 [2] [0].
Proof.
  apply (gradient_step_descends two11 1 [2] [0]).
  - split; [reflexivity|repeat constructor].
  - lia.
  - reflexivity.
  - reflexivity.
  - reflexivity.
  - unfold residual, two11. cbn. lra.
Defined.

(** X27: at an exact solution the residual is zero and the step size is
    0 divided by 0: a call of [solve] whose start vector solves [A x = b]
    exactly divides by zero in its first pass, and so does every pass that
    starts at an exact solution. *)
Theorem solve_at_exact_solution (self : GradientDescent) (A : matrix) (b : vec) (w : world) :
  matvec A (drawn (nrows A) w) = b -> (1 <= max_iters self)%nat ->
  solve self A b w = Raise NotFinite /\
  forall x, matvec A x = b -> x_new A b x = Raise NotFinite.
Proof.
  intros Hsol Hit.
  assert (Hx : forall x, matvec A x = b -> x_new A b x = Raise NotFinite).
  { intros x Hx. unfold x_new, residual. rewrite Hx, vsub_self.
    rewrite !dot_zeros_r. unfold fdiv.
    destruct (Req_dec_T 0 0); [reflexivity|contradiction]. }
  split; [|exact Hx].
  unfold solve. cbv zeta.
  rewrite (mbind_run (randn (nrows A)) _ w
             {| gen := {| samples := samples (gen w);
                          cursor := cursor (gen w) + nrows A |};
                calls := calls w |} (drawn (nrows A) w)) by reflexivity.
  unfold mfor_range. destruct (max_iters self) as [|k]; [lia|].
  cbn [seq mfor_loop fst snd].
  apply mbind_raise. apply mbind_raise. unfold lift. rewrite (Hx _ Hsol). reflexivity.
Qed.

Lemma solve_at_exact_solution_witness :
  solve {| max_iters := 5; tol := _EPS |} two11 [2] e1_world = Raise NotFinite /\
  forall x, matvec two11 x = [2] -> x_new two11 [2] x = Raise NotFinite.
Proof.
  apply (solve_at_exact_solution {| max_iters := 5; tol := _EPS |} two11 [2] e1_world).
  - unfold two11. cbn. list_lra.
  - simpl. lia.
Defined.

Section SolveLoop.

Variable self : GradientDescent.
Variable A : matrix.
Variable b : vec.

Lemma solve_loop (n i0 : nat) (x0 x : vec) (out : list string) (w w' : world) :
  mfor_loop (seq i0 n)
    (fun i st =>
       x' <~ lift (x_new A b (fst st)) ;;
       if allclose_rtol (tol self) x' (fst st)
       then ret (Break (fst st, snd st ++ [converged_message i]))
       else ret (Continue (x', snd st)))
    (x0, []) w = Ok ((x, out), w') ->
  w' = w /\
  (out = [] \/
   exists i x',
     (i0 <= i < i0 + n)%nat /\ out = [converged_message i] /\
     x_new A b x = Ok x' /\ allclose_rtol (tol self) x' x = true).
Proof.
  revert i0 x0 w. induction n as [|n IH]; intros i0 x0 w H.
  - cbn in H. injection H as <- <- <-. split; [reflexivity|left; reflexivity].
  - cbn [seq mfor_loop fst snd] in H.
    apply mbind_ok in H. destruct H as (c & w1 & Hb & H).
    apply mbind_ok in Hb. destruct Hb as (x' & w2 & Hx & Hb).
    apply lift_ok in Hx. destruct Hx as [Hx ->].
    destruct (allclose_rtol (tol self) x' x0) eqn:Hclose.
    + apply ret_ok in Hb. destruct Hb as [-> ->].
      apply ret_ok in H. destruct H as [E ->]. injection E as -> ->.
      split; [reflexivity|]. right. exists i0, x'.
      split; [lia|]. split; [reflexivity|]. split; assumption.
    + apply ret_ok in Hb. destruct Hb as [-> ->].
      apply IH in H. destruct H as [-> [Hout|(i & x2 & Hi & Hout & Hx2 & Hc2)]].
      * split; [reflexivity|left; exact Hout].
      * split; [reflexivity|]. right. exists i, x2.
        split; [lia|]. split; [exact Hout|]. split; assumption.
Qed.

End SolveLoop.

(** X28: a call of [solve] that returns has drawn the [n] entries of the
    start vector and called no decomposition; it has printed nothing, or
    the one line "Converged in i iterations." for a pass [i] below
    [max_iters], and then what it returns is the estimate before that
    pass, which one more step would change by no more than the
    tolerance. *)
Theorem solve_reports_convergence
    (self : GradientDescent) (A : matrix) (b x : vec) (out : list string)
    (w w' : world) :
  solve self A b w = Ok ((x, out), w') ->
  calls w' = calls w /\
  cursor (gen w') = (cursor (gen w) + nrows A)%nat /\
  (out = [] \/
   exists i x',
     (i < max_iters self)%nat /\ out = [converged_message i] /\
     x_new A b x = Ok x' /\ allclose_rtol (tol self) x' x = true).
Proof.
  unfold solve, mfor_range. cbv zeta. intros H.
  apply mbind_ok in H. destruct H as (x0 & w1 & Hrand & H).
  apply randn_run in Hrand. destruct Hrand as (-> & Hc & _ & Hcur).
  apply solve_loop in H. destruct H as [-> Hout].
  split; [exact Hc|]. split; [exact Hcur|].
  destruct Hout as [Hout|(i & x' & Hi & Hout & Hx & Hclose)]; [left; exact Hout|].
  right. exists i, x'. split; [lia|]. split; [exact Hout|]. split; assumption.
Qed.

Lemma x_new_two11 : x_new two11 [3] [1] = Ok [3 / 2].
Proof.
  unfold x_new, residual, fdiv, two11.
  cbn [matvec map dot vsub zip_with vecmat transpose ncols hd length seq col nth
       vadd scal bind].
  destruct (Req_dec_T _ 0) as [Hz|Hnz]; [exfalso; lra|].
  cbn [bind vadd scal zip_with map]. f_equal.
  apply (f_equal2 (@cons R)); [field; lra|reflexivity].
Qed.

Lemma allclose_two11 : allclose_rtol 1 [3 / 2] [1] = true.
Proof.
  unfold allclose_rtol, atol. cbn [combine forallb fst snd].
  rewrite Rleb_true; [reflexivity|].
  replace (3 / 2 - 1) with (1 / 2) by lra.
  rewrite Rabs_R1, Rabs_pos_eq by lra. lra.
Qed.

(** A run that reports convergence in its first pass. *)
Lemma solve_run_two11 :
  solve {| max_iters := 3; tol := 1 |} two11 [3] e1_world
  = Ok (([1], [converged_message 0]),
        {| gen := {| samples := samples (gen e1_world); cursor := 1 |};
           calls := [] |}).
Proof.
  unfold solve. cbv zeta.
  rewrite (mbind_run (randn (nrows two11)) _ e1_world
             {| gen := {| samples := samples (gen e1_world); cursor := 1 |};
                calls := [] |} [1]) by reflexivity.
  unfold mfor_range. cbn [max_iters tol seq mfor_loop fst snd].
  erewrite mbind_run.
  2:{ erewrite mbind_run by (unfold lift; rewrite x_new_two11; reflexivity).
      rewrite allclose_two11. reflexivity. }
  reflexivity.
Qed.

Lemma solve_reports_convergence_witness :
  calls {| gen := {| samples := samples (gen e1_world); cursor := 1 |}; calls := [] |}
  = calls e1_world /\
  cursor (gen {| gen := {| samples := samples (gen e1_world); cursor := 1 |};
                 calls := [] |})
  = (cursor (gen e1_world) + nrows two11)%nat /\
  ([converged_message 0] = [] \/
   exists i x',
     (i < max_iters {| max_iters := 3; tol := 1 |})%nat /\
     [converged_message 0] = [converged_message i] /\
     x_new two11 [3] [1] = Ok x' /\
     allclose_rtol (tol {| max_iters := 3; tol := 1 |}) x' [1] = true).
Proof.
  apply (solve_reports_convergence {| max_iters := 3; tol := 1 |} two11 [3] [1]
           [converged_message 0] e1_world).
  exact solve_run_two11.
Defined.

End GradientDescentFacts.

(** ** The registration of point pairs *)

Module InteractiveImageFacts.

Import InteractiveImage.

Ltac agrees_tac :=
  unfold agrees; cbn;
  repeat match goal with |- _ /\ _ => split end;
  try assumption; try reflexivity;
  try (intros; first [lia | congruence]).

Lemma handle_pairs (l : list action) :
  forall st open done,
  agrees st open done -> coords (fold_left handle l st) = pairs_of open done l.
Proof.
  induction l as [|a l IH]; intros st open done (Hc & Ht & Hp & Hn).
  - exact Hc.
  - cbn [fold_left pairs_of]. destruct a as [e|].
    + unfold handle, on_click. destruct (inaxes e), open as [p|];
        rewrite Hp; cbn [Nat.eqb].
      * apply IH. agrees_tac.
      * apply IH. agrees_tac. now rewrite Ht.
      * destruct (counter st) as [|c] eqn:Ec.
        -- exfalso. assert (0 < 0)%nat by (apply Hn; discriminate). lia.
        -- cbn [Nat.eqb]. apply IH. agrees_tac. now rewrite Hc, Ht.
      * apply IH. destruct (counter st); agrees_tac.
      * apply IH. agrees_tac.
      * apply IH. agrees_tac.
    + apply IH. agrees_tac.
Qed.

Lemma pairs_of_pairs (l : list action) :
  forall open done,
  Forall (fun pr => length pr = 2%nat) done ->
  Forall (fun pr => length pr = 2%nat) (pairs_of open done l).
Proof.
  induction l as [|a l IH]; intros open done Hd; [exact Hd|].
  cbn [pairs_of]. destruct a as [e|]; [|apply IH; constructor].
  destruct (inaxes e), open as [p|]; apply IH; try assumption.
  apply Forall_app; split; [assumption|]. now repeat constructor.
Qed.

(** X29: whatever calls of [on_click] and [on_clear] follow [__init__],
    [coords] holds the pairs of the session told without the counters:
    one entry for every click on the left that was followed, after clicks
    that were refused or fell elsewhere, by a click on the right, in that
    order, and only those since the last call of [on_clear]. Every entry has
    two points, the left one first. *)
Theorem coords_are_pairs (l : list action) :
  coords (fold_left handle l initial) = pairs_of None [] l /\
  Forall (fun pr => length pr = 2%nat) (coords (fold_left handle l initial)).
Proof.
  assert (E : coords (fold_left handle l initial) = pairs_of None [] l).
  { apply handle_pairs. agrees_tac. }
  split; [exact E|]. rewrite E. apply pairs_of_pairs. constructor.
Qed.

End InteractiveImageFacts.

(** ** inverse_iteration with a solver that solves *)

Lemma vdiv_norm_inv (x v : vec) :
  vdiv x (l2_norm x) = Ok v -> x <> [] ->
  0 < l2_norm x /\ v = map (fun a => a / l2_norm x) x.
Proof.
  intros Hd Hne. unfold vdiv in Hd. destruct x as [|a x']; [contradiction|].
  destruct (Req_dec_T (l2_norm (a :: x')) 0) as [Hz|Hnz]; [discriminate|].
  split; [|injection Hd as <-; reflexivity].
  pose proof (sqrt_pos (dot (a :: x') (a :: x'))) as Hge.
  fold (l2_norm (a :: x')) in Hge. lra.
Qed.

Section InverseDirection.

Variable solve : solve_arg -> vec -> result vec.
Variable PLU : list matrix.
Variable A : matrix.
Variable N : nat.
Hypothesis N_pos : (0 < N)%nat.
Hypothesis solve_solves :
  forall b x, length b = N -> solve (Factors PLU) b = Ok x ->
              length x = N /\ matvec A x = b.

(** Every pass applies the inverse and divides by a positive number. *)
Lemma inverse_chain_direction (v : vec) (vs : list vec) (vend : vec) :
  inverse_chain solve PLU v vs vend -> length v = N ->
  length vend = N /\
  (vs <> [] -> dot vend vend = 1) /\
  exists c, 0 < c /\ Nat.iter (length vs) (matvec A) vend = scal c v.
Proof.
  induction 1 as [v|v x v' vend rest Hs Hd Hch IH]; intros Hv.
  - split; [exact Hv|]. split; [intros H; now contradiction H|].
    exists 1. split; [lra|]. cbn. unfold scal.
    rewrite <- (map_id v) at 1. apply map_ext. intros a. lra.
  - destruct (solve_solves v x Hv Hs) as [Hx HAx].
    assert (Hxne : x <> []) by (intros ->; simpl in Hx; lia).
    destruct (vdiv_norm_inv x v' Hd Hxne) as [Hpos Ev'].
    assert (Hv' : length v' = N) by (rewrite Ev', length_map; exact Hx).
    assert (Hne : v' <> []) by (intros E; rewrite E in Hv'; simpl in Hv'; lia).
    pose proof (vdiv_unit x v' Hd Hne) as Hone.
    destruct (IH Hv') as (Hend & Hunit & c & Hc & Hiter).
    split; [exact Hend|]. split.
    + intros _. destruct rest as [|r rest].
      * inversion Hch; subst. exact Hone.
      * apply Hunit. discriminate.
    + exists (c / l2_norm x). split.
      * apply Rdiv_lt_0_compat; assumption.
      * cbn [length]. rewrite Nat.iter_succ, Hiter, Ev', matvec_scal, matvec_div, HAx.
        unfold scal. rewrite map_map. apply map_ext. intros b. field. lra.
Qed.

End InverseDirection.

(** X30: let [solve(PLU, b)] return, for the factors of [A] and a
    right-hand side of [N] entries, a vector [x] of [N] entries with
    [A x = b].  Then what [inverse_iteration(A, max_iter)], [max_iter >= 1],
    returns is a unit vector [v] with the number [v . (A v)], and [v] has
    the direction of the inverse applied [max_iter] times to the vector
    drawn at the start: [A^max_iter v] is that vector times a positive
    number. *)
Theorem inverse_iteration_direction
    (LU_decompose : matrix -> string -> result (list matrix))
    (solve : solve_arg -> vec -> result vec)
    (A : matrix) (N max_iter : nat) (w w' : world) (e : R) (v : vec) :
  shape A N N -> (0 < N)%nat -> (1 <= max_iter)%nat ->
  (forall PLU b x,
      LU_decompose A "partial"%string = Ok PLU -> length b = N ->
      solve (Factors PLU) b = Ok x -> length x = N /\ matvec A x = b) ->
  inverse_iteration LU_decompose solve A max_iter w = Ok ((e, v), w') ->
  length v = N /\ dot v v = 1 /\ e = dot v (matvec A v) /\
  exists c, 0 < c /\ Nat.iter max_iter (matvec A) v = scal c (drawn N w).
Proof.
  intros HA HN Hit Hsolve H.
  unfold inverse_iteration, call_LU, mfor_range in H.
  py_inv H.
  match goal with Hl : mfor_loop _ _ _ _ = Ok _ |- _ =>
    apply inverse_loop in Hl; destruct Hl as (vs & Hlen & _ & Hchain) end.
  match goal with Hp : (e, v) = _ |- _ => injection Hp as -> -> end.
  match goal with Hl : LU_decompose _ _ = Ok ?P |- _ =>
    pose proof (fun b x => Hsolve P b x Hl) as Hs end.
  assert (Hrows : nrows A = N) by (unfold nrows; apply HA).
  rewrite Hrows in Hchain.
  assert (Hv0 : length (drawn N w) = N)
    by (unfold drawn; rewrite length_map, length_seq; reflexivity).
  match type of Hchain with inverse_chain _ ?P _ _ ?vend =>
    destruct (inverse_chain_direction solve P A N HN Hs _ _ _ Hchain Hv0)
      as (Hend & Hunit & c & Hc & Hiter) end.
  match goal with |- length ?u = N /\ _ => assert (Hone : dot u u = 1) end.
  { apply Hunit. intros ->. simpl in Hlen. lia. }
  split; [exact Hend|]. split; [exact Hone|]. split.
  - match goal with Hr : rayleigh_quotient _ _ = Ok _ |- _ =>
      rewrite (rayleigh_quotient_unit A _ Hone) in Hr; injection Hr as <- end.
    apply (quadratic_form A N); assumption.
  - exists c. rewrite <- Hlen. split; assumption.
Qed.

(** A run of two passes on the identity, with the factorization and the
    solver that are right on it. *)
Lemma inverse_run_identity :
  inverse_iteration lu_identity solve_identity (eye 2) 2 e1_world
  = Ok ((dot (vecmat (normalized (normalized [1; 0])) (eye 2))
             (normalized (normalized [1; 0])),
         normalized (normalized [1; 0])),
        {| gen := {| samples := samples (gen e1_world); cursor := 2 |};
           calls := [CallLU (eye 2) "partial";
                     CallSolve (Factors [eye 2; eye 2; eye 2]) [1; 0];
                     CallSolve (Factors [eye 2; eye 2; eye 2]) (normalized [1; 0])] |}).
Proof.
  assert (H1 : 0 < dot [1; 0] [1; 0]) by (simpl; lra).
  assert (H2 : 0 < dot (normalized [1; 0]) (normalized [1; 0]))
    by (rewrite dot_normalized by exact H1; lra).
  unfold inverse_iteration, call_LU, call_solve, lu_identity, solve_identity,
    mfor_range, mbind, lift, ret, randn, record.
  rewrite (symmetric_is_symmetric (eye 2)) by reflexivity.
  change (nrows (eye 2)) with 2%nat.
  cbn [assert seq mfor_loop gen calls e1_world samples cursor map Nat.eqb app Nat.add].
  unfold mbind, lift, ret, record.
  rewrite (vdiv_normalized [1; 0] H1).
  cbn [gen calls app].
  rewrite (vdiv_normalized _ H2).
  rewrite (rayleigh_quotient_unit (eye 2) _ (dot_normalized _ H2)).
  reflexivity.
Qed.

Lemma inverse_iteration_direction_witness :
  length (normalized (normalized [1; 0])) = 2%nat /\
  dot (normalized (normalized [1; 0])) (normalized (normalized [1; 0])) = 1 /\
  dot (vecmat (normalized (normalized [1; 0])) (eye 2)) (normalized (normalized [1; 0]))
  = dot (normalized (normalized [1; 0]))
        (matvec (eye 2) (normalized (normalized [1; 0]))) /\
  exists c, 0 < c /\
    Nat.iter 2 (matvec (eye 2)) (normalized (normalized [1; 0]))
    = scal c (drawn 2 e1_world).
Proof.
  apply (inverse_iteration_direction lu_identity solve_identity (eye 2) 2 2 e1_world
           {| gen := {| samples := samples (gen e1_world); cursor := 2 |};
              calls := [CallLU (eye 2) "partial";
                        CallSolve (Factors [eye 2; eye 2; eye 2]) [1; 0];
                        CallSolve (Factors [eye 2; eye 2; eye 2]) (normalized [1; 0])] |}).
  - exact (shape_eye 2).
  - lia.
  - lia.
  - intros PLU b x _ Hb Hs. unfold solve_identity in Hs. injection Hs as <-.
    split; [exact Hb|]. apply matvec_eye. exact Hb.
  - exact inverse_run_identity.
Defined.
